(** * A storage-engine core: replacer, lock manager, log manager and recovery,
      B+Tree index.

    Shallow embedding of the C++ sources and the properties stated about
    them.  Each component lives in its own module; the definitions follow the
    source functions they are named after. *)

From Stdlib Require Import ZArith Lia Bool List.
From stdpp Require Import base option gmap list fin_maps fin_sets sorting.

Local Open Scope Z_scope.

(** Result of running a piece of C++ whose behaviour may be undefined or may
    abort on a failed [assert]; [OutOfFuel] is the model of a loop or a
    recursion giving up, never a behaviour of the code. *)
Inductive outcome (A : Type) : Type :=
| Done (a : A)
| Undefined
| OutOfFuel.
Arguments Done {A} a.
Arguments Undefined {A}.
Arguments OutOfFuel {A}.

#[global] Instance outcome_ret : MRet outcome := fun _ a => Done a.
#[global] Instance outcome_bind : MBind outcome := fun _ _ k m =>
  match m with
  | Done a => k a
  | Undefined => Undefined
  | OutOfFuel => OutOfFuel
  end.

(** ** LRU replacer (lru_replacer.h, the LRU part of log_manager.cpp) *)
Module LRU.

(** A [std::list<T>] node is identified by its address; an iterator is such
    an address.  Addresses handed out by the allocator are never reused in
    the model, so an iterator to an erased node stays recognisably invalid. *)
Definition node := nat.

Record LRUReplacer (T : Type) `{Countable T} := mkLRU {
  access_list : list (node * T);
  value_map : gmap T node;
  next_node : node
}.
Arguments mkLRU {T _ _} _ _ _.
Arguments access_list {T _ _} _.
Arguments value_map {T _ _} _.
Arguments next_node {T _ _} _.

Section Replacer.
Context {T : Type} `{Countable T}.

Definition empty : LRUReplacer T := mkLRU [] ∅ 0%nat.

Definition valid_iterator (it : node) (l : list (node * T)) : bool :=
  existsb (fun e => Nat.eqb (fst e) it) l.

(** [std::list::erase(iterator)]: undefined on an iterator that does not
    point into the list. *)
Definition list_erase (it : node) (l : list (node * T)) : outcome (list (node * T)) :=
  if valid_iterator it l
  then Done (List.filter (fun e => negb (Nat.eqb (fst e) it)) l)
  else Undefined.

(** [unordered_map::emplace]: inserts only when the key is absent. *)
Definition map_emplace (k : T) (it : node) (m : gmap T node) : gmap T node :=
  match m !! k with
  | Some _ => m
  | None => <[k := it]> m
  end.

Definition Insert (value : T) (r : LRUReplacer T) : outcome (LRUReplacer T) :=
  l ← match value_map r !! value with
      | Some pos => list_erase pos (access_list r)
      | None => Done (access_list r)
      end;
  let n := next_node r in
  Done (mkLRU ((n, value) :: l) (map_emplace value n (value_map r)) (S n)).

Definition Victim (r : LRUReplacer T) : outcome (option T * LRUReplacer T) :=
  match List.rev (access_list r) with
  | [] => Done (None, r)
  | (_, value) :: rest =>
      Done (Some value,
            mkLRU (List.rev rest) (delete value (value_map r)) (next_node r))
  end.

Definition Erase (value : T) (r : LRUReplacer T) : outcome (bool * LRUReplacer T) :=
  match value_map r !! value with
  | None => Done (false, r)
  | Some pos =>
      l ← list_erase pos (access_list r);
      Done (true, mkLRU l (delete value (value_map r)) (next_node r))
  end.

Definition Size (r : LRUReplacer T) : nat := length (access_list r).

(** The values held, most recently used first. *)
Definition values (r : LRUReplacer T) : list T := List.map snd (access_list r).

(** Every map entry points at the list node holding its key, every list node
    is registered in the map, and node addresses are below the allocator
    mark. *)
Definition consistent (r : LRUReplacer T) : Prop :=
  (forall v it, value_map r !! v = Some it -> In (it, v) (access_list r)) /\
  (forall it v, In (it, v) (access_list r) -> value_map r !! v = Some it) /\
  NoDup (List.map fst (access_list r)) /\
  (forall it v, In (it, v) (access_list r) -> (it < next_node r)%nat).

(** *** Facts about the replacer *)

Lemma valid_iterator_In (it : node) (l : list (node * T)) :
  valid_iterator it l = true <-> exists v, In (it, v) l.
Proof.
  unfold valid_iterator. rewrite existsb_exists. split.
  - intros [[n v] [Hin Heq]]. simpl in Heq. apply Nat.eqb_eq in Heq. subst n.
    now exists v.
  - intros [v Hin]. exists (it, v). split; [assumption|]. simpl.
    apply Nat.eqb_refl.
Qed.

Lemma erased_iterator_invalid (it : node) (l : list (node * T)) :
  valid_iterator it (List.filter (fun e => negb (Nat.eqb (fst e) it)) l) = false.
Proof.
  apply not_true_is_false. intros Hv. apply valid_iterator_In in Hv.
  destruct Hv as [v Hin]. apply filter_In in Hin. destruct Hin as [_ Hne].
  simpl in Hne. rewrite Nat.eqb_refl in Hne. discriminate.
Qed.

Lemma Erase_absent (v : T) (r : LRUReplacer T) :
  value_map r !! v = None -> Erase v r = Done (false, r).
Proof. intros Hv. unfold Erase. now rewrite Hv. Qed.

(** Re-inserting a value that is present leaves its map entry on the erased
    node: [emplace] does not overwrite. *)
Lemma Insert_present_stale (v : T) (r : LRUReplacer T) (pos : node) :
  consistent r ->
  value_map r !! v = Some pos ->
  exists r', Insert v r = Done r' /\
    value_map r' !! v = Some pos /\
    valid_iterator pos (access_list r') = false /\
    hd_error (values r') = Some v.
Proof.
  intros (Hmap & Hlist & Hnd & Hlt) Hv.
  assert (Hvalid : valid_iterator pos (access_list r) = true).
  { apply valid_iterator_In. exists v. now apply Hmap. }
  unfold Insert. rewrite Hv. unfold list_erase. rewrite Hvalid. simpl.
  eexists. split; [reflexivity|]. simpl. repeat split.
  - unfold map_emplace. now rewrite Hv.
  - rewrite erased_iterator_invalid, orb_false_r.
    apply Nat.eqb_neq. apply Hmap, Hlt in Hv. lia.
Qed.

(** Hence the erase that follows goes through an invalidated iterator. *)
Lemma Erase_after_reinsert_undefined (v : T) (r : LRUReplacer T) (pos : node) :
  consistent r ->
  value_map r !! v = Some pos ->
  exists r', Insert v r = Done r' /\ Erase v r' = Undefined.
Proof.
  intros Hc Hv. destruct (Insert_present_stale v r pos Hc Hv)
    as (r' & Hins & Hstale & Hinv & _).
  exists r'. split; [assumption|].
  unfold Erase. rewrite Hstale. unfold list_erase. now rewrite Hinv.
Qed.

End Replacer.

(** C9, evaluated on the replacer holding the single value 1: re-inserting 1
    puts 1 at the front with one occurrence, yet the map still holds the
    iterator of the erased node, and the erase that follows is undefined
    behaviour instead of removing 1 and returning true. *)
Theorem C9_reinsert_then_erase :
  exists r1 r2 : LRUReplacer Z,
    Insert 1 empty = Done r1 /\
    Insert 1 r1 = Done r2 /\
    values r2 = [1] /\
    value_map r2 !! 1 = Some 0%nat /\
    valid_iterator 0%nat (access_list r2) = false /\
    Erase 1 r2 = Undefined.
Proof.
  eexists. eexists. split; [reflexivity|]. split; [reflexivity|].
  repeat split; vm_compute; reflexivity.
Qed.


(** *** The replacer as a queue of distinct values *)

Section ReplacerFacts.
Context {T : Type} `{Countable T}.

Lemma consistent_empty : consistent (empty (T := T)).
Proof.
  unfold consistent, empty. simpl. split; [|split; [|split]].
  - intros v it Hv. rewrite lookup_empty in Hv. discriminate.
  - intros it v [].
  - constructor.
  - intros it v [].
Qed.

(** A value is in the list exactly when the map knows it. *)
Lemma consistent_In_values (r : LRUReplacer T) (v : T) :
  consistent r -> (In v (values r) <-> is_Some (value_map r !! v)).
Proof.
  intros (Hmap & Hlist & _ & _). unfold values. rewrite in_map_iff. split.
  - intros [[it w] [Hw Hin]]. simpl in Hw. subst w. exists it. now apply Hlist.
  - intros [it Hit]. exists (it, v). split; [reflexivity|now apply Hmap].
Qed.

Lemma consistent_values_NoDup (r : LRUReplacer T) :
  consistent r -> NoDup (values r).
Proof.
  intros (_ & Hlist & Hnd & _). unfold values.
  revert Hlist Hnd. generalize (value_map r). induction (access_list r) as [|[it v] l IH];
    intros m Hlist Hnd; simpl; [constructor|].
  simpl in Hnd. apply NoDup_cons in Hnd as [Hnin Hnd]. constructor.
  - intros Hin. apply list_elem_of_In, in_map_iff in Hin as [[it' v'] [Hv Hin]].
    simpl in Hv. subst v'.
    assert (it' = it).
    { pose proof (Hlist it v (or_introl eq_refl)) as H1.
      pose proof (Hlist it' v (or_intror Hin)) as H2. congruence. }
    subst it'. apply Hnin. apply list_elem_of_In. apply in_map_iff.
    now exists (it, v).
  - apply (IH m); [|assumption]. intros it' v' Hin. apply Hlist. now right.
Qed.

Lemma filter_other_nodes (it : node) (l : list (node * T)) :
  ~ In it (List.map fst l) ->
  List.filter (fun e => negb (Nat.eqb (fst e) it)) l = l.
Proof.
  induction l as [|[it' v] l IH]; intros Hnin; simpl; [reflexivity|].
  simpl in Hnin. destruct (Nat.eqb_spec it' it) as [->|Hne]; simpl.
  - exfalso. apply Hnin. now left.
  - f_equal. apply IH. intros Hin. apply Hnin. now right.
Qed.

(** Erasing through a valid iterator unlinks that node and no other. *)
Lemma list_erase_node (it : node) (v : T) (l1 l2 : list (node * T)) :
  NoDup (List.map fst (l1 ++ (it, v) :: l2)) ->
  list_erase it (l1 ++ (it, v) :: l2) = Done (l1 ++ l2).
Proof.
  intros Hnd. unfold list_erase.
  assert (Hvalid : valid_iterator it (l1 ++ (it, v) :: l2) = true).
  { apply valid_iterator_In. exists v. apply in_or_app. right. now left. }
  rewrite Hvalid. f_equal. rewrite List.map_app in Hnd. simpl in Hnd.
  apply NoDup_app in Hnd as (Hnd1 & Hdisj & Hnd2).
  apply NoDup_cons in Hnd2 as [Hnin2 _].
  rewrite List.filter_app. simpl. rewrite Nat.eqb_refl. simpl.
  rewrite !filter_other_nodes; [reflexivity| |].
  - intros Hin. apply Hnin2. now apply list_elem_of_In.
  - intros Hin. apply (Hdisj it); [now apply list_elem_of_In|left].
Qed.


(** X1: inserting a value the replacer does not hold puts it at the
    most-recently-used end, leaves the other values in their order, grows
    Size by one and keeps the list and the map in step. *)
Theorem Insert_fresh_front (v : T) (r : LRUReplacer T) :
  consistent r -> ~ In v (values r) ->
  exists r', Insert v r = Done r' /\
    values r' = v :: values r /\ Size r' = S (Size r) /\
    value_map r' !! v = Some (next_node r) /\ consistent r'.
Proof.
  intros Hc Hnin.
  assert (Hv : value_map r !! v = None).
  { destruct (value_map r !! v) eqn:E; [|reflexivity].
    exfalso. apply Hnin. apply (consistent_In_values r v Hc). eauto. }
  destruct Hc as (Hmap & Hlist & Hnd & Hlt).
  unfold Insert, map_emplace. rewrite Hv. simpl.
  eexists. split; [reflexivity|]. unfold values, Size. simpl.
  split; [reflexivity|]. split; [reflexivity|]. split; [apply lookup_insert_eq|].
  split; [|split; [|split]]; simpl.
  - intros w it Hw. rewrite lookup_insert in Hw. case_decide as Hvw.
    + injection Hw as <-. subst w. now left.
    + right. now apply Hmap.
  - intros it w [Heq|Hin].
    + injection Heq as <- <-. apply lookup_insert_eq.
    + rewrite lookup_insert_ne; [now apply Hlist|].
      intros ->. apply Hlist in Hin. congruence.
  - apply NoDup_cons. split; [|assumption].
    intros Hin. apply list_elem_of_In, in_map_iff in Hin as [[it w] [Heq Hin]].
    simpl in Heq. subst it. apply Hlt in Hin. lia.
  - intros it w [Heq|Hin]; [injection Heq as <- <-; lia|].
    apply Hlt in Hin. lia.
Qed.

(** X2: Victim on a replacer that holds nothing returns false and changes
    nothing; otherwise it hands out the value at the least-recently-used end,
    the one inserted longest ago, and drops exactly that value. *)
Theorem Victim_least_recent (r : LRUReplacer T) :
  consistent r ->
  (values r = [] -> Victim r = Done (None, r)) /\
  (forall vs v, values r = vs ++ [v] ->
     exists r', Victim r = Done (Some v, r') /\
       values r' = vs /\ Size r' = (Size r - 1)%nat /\ consistent r').
Proof.
  intros (Hmap & Hlist & Hnd & Hlt). split.
  - unfold values, Victim. intros Hnil. apply map_eq_nil in Hnil. now rewrite Hnil.
  - intros vs v Hvs. unfold values in Hvs.
    apply map_eq_app in Hvs as (l & l1 & Hl & Hmapl & Hl1).
    destruct l1 as [|[it w] [|? ?]]; try discriminate. simpl in Hl1.
    injection Hl1 as ->.
    unfold Victim. rewrite Hl, rev_app_distr. simpl. rewrite rev_involutive.
    eexists. split; [reflexivity|]. unfold values, Size. simpl.
    split; [exact Hmapl|]. split; [rewrite Hl, length_app; simpl; lia|].
    rewrite Hl in *. rewrite List.map_app in Hnd. simpl in Hnd.
    apply NoDup_app in Hnd as (Hnd1 & Hdisj & _).
    split; [|split; [|split]]; simpl.
    + intros w it' Hw. apply lookup_delete_Some in Hw as [Hne Hw].
      apply Hmap, in_app_or in Hw as [Hin|[Heq|[]]]; [assumption|congruence].
    + intros it' w Hin.
      assert (Hw : value_map r !! w = Some it').
      { apply Hlist, in_or_app. now left. }
      rewrite lookup_delete_ne; [assumption|]. intros <-.
      assert (Hv : value_map r !! v = Some it).
      { apply Hlist, in_or_app. right. now left. }
      assert (it' = it) by congruence. subst it'.
      apply (Hdisj it); [|left].
      apply list_elem_of_In, in_map_iff. now exists (it, v).
    + exact Hnd1.
    + intros it' w Hin. apply (Hlt it' w), in_or_app. now left.
Qed.

(** X3: Erase of a value the replacer holds returns true and unlinks that
    value alone, keeping the order of the others; Erase of a value it does
    not hold returns false and changes nothing. *)
Theorem Erase_unlinks (v : T) (r : LRUReplacer T) :
  consistent r ->
  (~ In v (values r) -> Erase v r = Done (false, r)) /\
  (forall l1 l2, values r = l1 ++ v :: l2 ->
     exists r', Erase v r = Done (true, r') /\
       values r' = l1 ++ l2 /\ ~ In v (values r') /\ consistent r').
Proof.
  intros Hc. split.
  - intros Hnin. unfold Erase.
    destruct (value_map r !! v) eqn:E; [|reflexivity].
    exfalso. apply Hnin. apply (consistent_In_values r v Hc). eauto.
  - intros l1 l2 Hvs. pose proof (consistent_values_NoDup r Hc) as Hvnd.
    destruct Hc as (Hmap & Hlist & Hnd & Hlt). unfold values in *.
    apply map_eq_app in Hvs as (a1 & a2' & Ha & Ha1 & Ha2).
    destruct a2' as [|[it w] a2]; [discriminate|]. simpl in Ha2.
    injection Ha2 as -> Ha2.
    assert (Hv : value_map r !! v = Some it).
    { apply Hlist. rewrite Ha. apply in_or_app. right. now left. }
    unfold Erase. rewrite Hv, Ha, list_erase_node by (now rewrite <- Ha).
    simpl. eexists. split; [reflexivity|]. simpl.
    rewrite Ha in *. rewrite List.map_app in Hvnd. simpl in Hvnd.
    assert (Hnotin : ~ In v (List.map snd (a1 ++ a2))).
    { rewrite List.map_app. intros Hin. apply in_app_or in Hin.
      apply NoDup_app in Hvnd as (_ & Hdisj & Hnd2).
      apply NoDup_cons in Hnd2 as [Hnin2 _]. destruct Hin as [Hin|Hin].
      - apply (Hdisj v); [now apply list_elem_of_In|left].
      - apply Hnin2. now apply list_elem_of_In. }
    split; [now rewrite List.map_app, Ha1, Ha2|]. split; [exact Hnotin|].
    assert (Hsub : forall e, In e (a1 ++ a2) -> In e (a1 ++ (it, v) :: a2)).
    { intros e He. apply in_app_or in He. apply in_or_app.
      destruct He; [now left|right; now right]. }
    split; [|split; [|split]]; simpl.
    + intros w it' Hw. apply lookup_delete_Some in Hw as [Hne Hw].
      apply Hmap, in_app_or in Hw as [Hin|[Heq|Hin]]; apply in_or_app;
        [now left|congruence|now right].
    + intros it' w Hin. rewrite lookup_delete_ne; [apply Hlist, Hsub, Hin|].
      intros <-. apply Hnotin. apply in_map_iff. now exists (it', v).
    + rewrite List.map_app in *. simpl in Hnd.
      apply NoDup_app in Hnd as (Hnd1 & Hdisj & Hnd2).
      apply NoDup_cons in Hnd2 as [_ Hnd2]. apply NoDup_app.
      split; [assumption|]. split; [|assumption].
      intros x Hx1 Hx2. apply (Hdisj x Hx1). now right.
    + intros it' w Hin. apply (Hlt it' w), Hsub, Hin.
Qed.

End ReplacerFacts.

(** [consistent] as a check that runs. *)
Definition consistentb {T : Type} `{Countable T} (r : LRUReplacer T) : bool :=
  forallb (fun e => bool_decide ((snd e, fst e) ∈ access_list r))
    (map_to_list (value_map r))
  && forallb (fun e => bool_decide (value_map r !! snd e = Some (fst e))
                       && (fst e <? next_node r)%nat) (access_list r)
  && bool_decide (NoDup (List.map fst (access_list r))).

Lemma consistentb_ok {T : Type} `{Countable T} (r : LRUReplacer T) :
  consistentb r = true -> consistent r.
Proof.
  unfold consistentb. rewrite !andb_true_iff, !forallb_forall.
  intros [[Hmap Hlist] Hnd]. apply bool_decide_eq_true in Hnd.
  split; [|split; [|split]]; [| | exact Hnd |].
  - intros v it Hv. apply elem_of_map_to_list, list_elem_of_In in Hv.
    specialize (Hmap _ Hv). apply bool_decide_eq_true in Hmap.
    now apply list_elem_of_In in Hmap.
  - intros it v Hin. specialize (Hlist _ Hin). apply andb_true_iff in Hlist as [Hl _].
    now apply bool_decide_eq_true in Hl.
  - intros it v Hin. specialize (Hlist _ Hin). apply andb_true_iff in Hlist as [_ Hl].
    simpl in Hl. now apply Nat.ltb_lt in Hl.
Qed.

(** The replacer after Insert(1), Insert(2), Insert(3). *)
Definition three_values : LRUReplacer Z :=
  mkLRU [(2%nat, 3); (1%nat, 2); (0%nat, 1)]
        (<[3 := 2%nat]> (<[2 := 1%nat]> (<[1 := 0%nat]> ∅))) 3%nat.

Lemma Insert_fresh_front_witness :
  (r ← Insert 1 empty; r ← Insert 2 r; Insert 3 r) = Done three_values /\
  consistent three_values /\
  exists r', Insert 4 three_values = Done r' /\
    values r' = [4; 3; 2; 1] /\ Size r' = 4%nat /\
    value_map r' !! 4 = Some 3%nat /\ consistent r'.
Proof.
  assert (Hc : consistent three_values) by (apply consistentb_ok; vm_compute; reflexivity).
  split; [vm_compute; reflexivity|]. split; [exact Hc|].
  apply (Insert_fresh_front 4 three_values Hc).
  vm_compute. intros [|[|[|[]]]]; discriminate.
Defined.

Lemma Victim_least_recent_witness :
  consistent three_values /\
  exists r', Victim three_values = Done (Some 1, r') /\
    values r' = [3; 2] /\ Size r' = 2%nat /\ consistent r'.
Proof.
  assert (Hc : consistent three_values) by (apply consistentb_ok; vm_compute; reflexivity).
  split; [exact Hc|].
  exact (proj2 (Victim_least_recent three_values Hc) [3; 2] 1 eq_refl).
Defined.

Lemma Erase_unlinks_witness :
  consistent three_values /\
  Erase 7 three_values = Done (false, three_values) /\
  exists r', Erase 2 three_values = Done (true, r') /\
    values r' = [3; 1] /\ ~ In 2 (values r') /\ consistent r'.
Proof.
  assert (Hc : consistent three_values) by (apply consistentb_ok; vm_compute; reflexivity).
  split; [exact Hc|].
  destruct (Erase_unlinks 2 three_values Hc) as [_ Hpresent].
  destruct (Erase_unlinks 7 three_values Hc) as [Habsent _].
  split.
  - apply Habsent. vm_compute. intros [|[|[|[]]]]; discriminate.
  - exact (Hpresent [3] [1] eq_refl).
Defined.

End LRU.

(** ** Row ids and transactions (rid.h and transaction.h are not among the
    sources; the fields are those the code reads and writes) *)

Definition txn_id_t := Z.

(** A row id: page id and slot number. *)
Definition RID : Type := (Z * Z)%type.
Definition mkRID (page_id slot_num : Z) : RID := (page_id, slot_num).
Definition page_id_ (r : RID) : Z := fst r.
Definition slot_num_ (r : RID) : Z := snd r.
Definition GetPageId (r : RID) : Z := page_id_ r.

Inductive TransactionState := GROWING | SHRINKING | COMMITTED | ABORTED.

#[global] Instance TransactionState_eq_dec : EqDecision TransactionState.
Proof. solve_decision. Defined.

Module WType.
Inductive WType := INSERT | DELETE | UPDATE.
End WType.

(** An entry of the write set: the rid touched, the kind of write, the old
    tuple bytes and the table it belongs to. *)
Record WriteRecord := mkWriteRecord {
  rid_ : RID;
  wtype_ : WType.WType;
  tuple_ : list Z;
  table_ : Z
}.

Record Transaction := mkTxn {
  txn_id : txn_id_t;
  state : TransactionState;
  prev_lsn : Z;
  shared_lock_set : gset (Z * Z);
  exclusive_lock_set : gset (Z * Z);
  write_set : list WriteRecord
}.

Definition SetState (s : TransactionState) (t : Transaction) : Transaction :=
  mkTxn (txn_id t) s (prev_lsn t) (shared_lock_set t) (exclusive_lock_set t)
    (write_set t).
Definition SetPrevLSN (l : Z) (t : Transaction) : Transaction :=
  mkTxn (txn_id t) (state t) l (shared_lock_set t) (exclusive_lock_set t)
    (write_set t).
Definition set_write_set (ws : list WriteRecord) (t : Transaction) : Transaction :=
  mkTxn (txn_id t) (state t) (prev_lsn t) (shared_lock_set t)
    (exclusive_lock_set t) ws.
Definition set_lock_sets (sh ex : gset (Z * Z)) (t : Transaction) : Transaction :=
  mkTxn (txn_id t) (state t) (prev_lsn t) sh ex (write_set t).

(** ** Lock manager (lock_manager.h, lock_manager.cpp) *)
Module Lock.

Inductive LockType := SHARED | EXCLUSIVE.

#[global] Instance LockType_eq_dec : EqDecision LockType.
Proof. solve_decision. Defined.

Definition shared_emplace (rid : RID) (t : Transaction) : Transaction :=
  set_lock_sets ({[rid]} ∪ shared_lock_set t) (exclusive_lock_set t) t.
Definition shared_erase (rid : RID) (t : Transaction) : Transaction :=
  set_lock_sets (shared_lock_set t ∖ {[rid]}) (exclusive_lock_set t) t.
Definition exclusive_emplace (rid : RID) (t : Transaction) : Transaction :=
  set_lock_sets (shared_lock_set t) ({[rid]} ∪ exclusive_lock_set t) t.
Definition exclusive_erase (rid : RID) (t : Transaction) : Transaction :=
  set_lock_sets (shared_lock_set t) (exclusive_lock_set t ∖ {[rid]}) t.

(** [GrantedTxns]: the lock type and the ordered set of holders. *)
Record GrantedTxns := mkGranted {
  lockType_ : LockType;
  granted_set_ : gset Z
}.

(** [*granted_set_.begin()]: the smallest element of a [std::set]. *)
Definition set_begin (s : gset Z) : option Z :=
  match elements s with
  | [] => None
  | x :: l => Some (foldr Z.min x l)
  end.

(** The lock table, and for every rid with a condition variable the number
    of waiting callers that hold a reference to it besides the table. *)
Record LockManager := mkLM {
  strict_2PL_ : bool;
  lock_table_ : gmap (Z * Z) GrantedTxns;
  cv_table_ : gmap (Z * Z) nat
}.

Definition set_lock_table (lt : gmap (Z * Z) GrantedTxns) (m : LockManager) :=
  mkLM (strict_2PL_ m) lt (cv_table_ m).

(** A call either returns, or blocks in [cv->wait] with the mutex released. *)
Inductive call_status := Returned (b : bool) | Blocked.

Definition call_result := outcome (call_status * Transaction * LockManager).

Definition TxnStateValidForLock (t : Transaction) : bool * Transaction :=
  if decide (state t = GROWING) then (true, t) else (false, SetState ABORTED t).

(** Take a reference to the rid's condition variable, creating it if absent. *)
Definition cv_acquire (rid : RID) (m : LockManager) : LockManager :=
  mkLM (strict_2PL_ m) (lock_table_ m)
       (<[rid := S (default 0%nat (cv_table_ m !! rid))]> (cv_table_ m)).

(** The waiter's local [shared_ptr] goes out of scope. *)
Definition cv_release (rid : RID) (m : LockManager) : LockManager :=
  mkLM (strict_2PL_ m) (lock_table_ m) (alter Nat.pred rid (cv_table_ m)).

(** Lines 142-160 of LockShared: the part after the optional wait. *)
Definition LockShared_grant (txn : Transaction) (rid : RID) (m : LockManager)
  : outcome (bool * Transaction * LockManager) :=
  match lock_table_ m !! rid with
  | None =>
      Done (true, shared_emplace rid txn,
            set_lock_table (<[rid := mkGranted SHARED {[txn_id txn]}]> (lock_table_ m)) m)
  | Some g =>
      if decide (granted_set_ g = ∅) then Undefined
      else match lockType_ g with
           | SHARED =>
               Done (true, shared_emplace rid txn,
                     set_lock_table
                       (<[rid := mkGranted SHARED ({[txn_id txn]} ∪ granted_set_ g)]>
                          (lock_table_ m)) m)
           | EXCLUSIVE => Undefined
           end
  end.

Definition returned (r : outcome (bool * Transaction * LockManager)) : call_result :=
  '(b, t, m) ← r; Done (Returned b, t, m).

Definition LockShared (txn : Transaction) (rid : RID) (m : LockManager) : call_result :=
  let '(ok, txn) := TxnStateValidForLock txn in
  if negb ok then Done (Returned false, txn, m)
  else
    match lock_table_ m !! rid with
    | Some g =>
        match set_begin (granted_set_ g) with
        | None => Undefined
        | Some oldest =>
            match lockType_ g with
            | EXCLUSIVE =>
                if txn_id txn >=? oldest
                then Done (Returned false, SetState ABORTED txn, m)
                else Done (Blocked, txn, cv_acquire rid m)
            | SHARED => returned (LockShared_grant txn rid m)
            end
        end
    | None => returned (LockShared_grant txn rid m)
    end.

(** The wait predicate of LockShared and what runs once it holds. *)
Definition LockShared_pred (rid : RID) (m : LockManager) : bool :=
  match lock_table_ m !! rid with
  | None => true
  | Some g => bool_decide (lockType_ g = SHARED)
  end.

Definition LockShared_wake (txn : Transaction) (rid : RID) (m : LockManager)
  : outcome (bool * Transaction * LockManager) :=
  '(b, t, m') ← LockShared_grant txn rid m; Done (b, t, cv_release rid m').

(** [lock_table_.emplace(rid, EXCLUSIVE{txn})]: no effect on a present key. *)
Definition emplace_exclusive (txn : Transaction) (rid : RID) (m : LockManager) : LockManager :=
  match lock_table_ m !! rid with
  | Some _ => m
  | None => set_lock_table (<[rid := mkGranted EXCLUSIVE {[txn_id txn]}]> (lock_table_ m)) m
  end.

Definition LockExclusive (txn : Transaction) (rid : RID) (m : LockManager) : call_result :=
  let '(ok, txn) := TxnStateValidForLock txn in
  if negb ok then Done (Returned false, txn, m)
  else
    match lock_table_ m !! rid with
    | None => Done (Returned true, exclusive_emplace rid txn, emplace_exclusive txn rid m)
    | Some g =>
        match set_begin (granted_set_ g) with
        | None => Undefined
        | Some oldest =>
            if txn_id txn >=? oldest
            then Done (Returned false, SetState ABORTED txn, m)
            else Done (Blocked, txn, cv_acquire rid m)
        end
    end.

(** The wait predicate of LockExclusive and LockUpgrade. *)
Definition absent_pred (rid : RID) (m : LockManager) : bool :=
  bool_decide (lock_table_ m !! rid = None).

Definition LockExclusive_wake (txn : Transaction) (rid : RID) (m : LockManager)
  : outcome (bool * Transaction * LockManager) :=
  Done (true, exclusive_emplace rid txn, cv_release rid (emplace_exclusive txn rid m)).

Definition LockUpgrade (txn : Transaction) (rid : RID) (m : LockManager) : call_result :=
  let '(ok, txn) := TxnStateValidForLock txn in
  if negb ok then Done (Returned false, txn, m)
  else
    match lock_table_ m !! rid with
    | None => Done (Returned false, SetState ABORTED txn, m)
    | Some g =>
        if negb (bool_decide (lockType_ g = SHARED))
           || negb (bool_decide (txn_id txn ∈ granted_set_ g))
        then Done (Returned false, SetState ABORTED txn, m)
        else
          let txn := shared_erase rid txn in
          let rest := granted_set_ g ∖ {[txn_id txn]} in
          match set_begin rest with
          | None =>
              Done (Returned true, exclusive_emplace rid txn,
                    set_lock_table
                      (<[rid := mkGranted EXCLUSIVE {[txn_id txn]}]> (lock_table_ m)) m)
          | Some oldest =>
              let m := set_lock_table
                         (<[rid := mkGranted (lockType_ g) rest]> (lock_table_ m)) m in
              if txn_id txn >=? oldest
              then Done (Returned false, SetState ABORTED txn, m)
              else Done (Blocked, txn, cv_acquire rid m)
          end
    end.

Definition LockUpgrade_wake := LockExclusive_wake.

Definition Unlock (txn : Transaction) (rid : RID) (m : LockManager)
  : bool * Transaction * LockManager :=
  if strict_2PL_ m
     && negb (bool_decide (state txn = COMMITTED) || bool_decide (state txn = ABORTED))
  then (false, SetState ABORTED txn, m)
  else
    match lock_table_ m !! rid with
    | None => (false, SetState ABORTED txn, m)
    | Some g =>
        if negb (bool_decide (txn_id txn ∈ granted_set_ g))
        then (false, SetState ABORTED txn, m)
        else
          let rest := granted_set_ g ∖ {[txn_id txn]} in
          let txn := if negb (strict_2PL_ m) && bool_decide (state txn = GROWING)
                     then SetState SHRINKING txn else txn in
          let txn := match lockType_ g with
                     | SHARED => shared_erase rid txn
                     | EXCLUSIVE => exclusive_erase rid txn
                     end in
          if decide (rest = ∅)
          then
            let cv := match cv_table_ m !! rid with
                      | Some O => delete rid (cv_table_ m)
                      | _ => cv_table_ m
                      end in
            (true, txn, mkLM (strict_2PL_ m) (delete rid (lock_table_ m)) cv)
          else
            (true, txn,
             set_lock_table (<[rid := mkGranted (lockType_ g) rest]> (lock_table_ m)) m)
    end.

(** *** The lock manager shared by concurrent callers

    Every critical section runs under [mutex_], so the interleavings are
    those of whole sections: the part of a call up to its return or its
    [cv->wait], and the part of a blocked call from the moment its predicate
    holds. *)
Inductive waiter_kind := WaitShared | WaitExclusive | WaitUpgrade.

Record waiter := mkWaiter {
  w_kind : waiter_kind;
  w_txn : Transaction;
  w_rid : RID
}.

Inductive operation := OpLockShared | OpLockExclusive | OpLockUpgrade | OpUnlock.

Definition call (o : operation) (txn : Transaction) (rid : RID) (m : LockManager)
  : call_result :=
  match o with
  | OpLockShared => LockShared txn rid m
  | OpLockExclusive => LockExclusive txn rid m
  | OpLockUpgrade => LockUpgrade txn rid m
  | OpUnlock => let '(b, t, m') := Unlock txn rid m in Done (Returned b, t, m')
  end.

Definition waiter_of (o : operation) : waiter_kind :=
  match o with
  | OpLockShared => WaitShared
  | OpLockUpgrade => WaitUpgrade
  | _ => WaitExclusive
  end.

Definition wake_pred (k : waiter_kind) (rid : RID) (m : LockManager) : bool :=
  match k with
  | WaitShared => LockShared_pred rid m
  | _ => absent_pred rid m
  end.

Definition wake (k : waiter_kind) (txn : Transaction) (rid : RID) (m : LockManager)
  : outcome (bool * Transaction * LockManager) :=
  match k with
  | WaitShared => LockShared_wake txn rid m
  | WaitExclusive => LockExclusive_wake txn rid m
  | WaitUpgrade => LockUpgrade_wake txn rid m
  end.

Record System := mkSys {
  manager : LockManager;
  waiting : list waiter
}.

Definition initial (strict : bool) : System := mkSys (mkLM strict ∅ ∅) [].

Inductive step : System -> System -> Prop :=
| step_return o txn rid m ws b txn' m' :
    call o txn rid m = Done (Returned b, txn', m') ->
    step (mkSys m ws) (mkSys m' ws)
| step_block o txn rid m ws txn' m' :
    call o txn rid m = Done (Blocked, txn', m') ->
    step (mkSys m ws) (mkSys m' (ws ++ [mkWaiter (waiter_of o) txn' rid]))
| step_wake k txn rid m ws1 ws2 b txn' m' :
    wake_pred k rid m = true ->
    wake k txn rid m = Done (b, txn', m') ->
    step (mkSys m (ws1 ++ mkWaiter k txn rid :: ws2)) (mkSys m' (ws1 ++ ws2)).

Inductive reachable (strict : bool) : System -> Prop :=
| reach_init : reachable strict (initial strict)
| reach_step s s' : reachable strict s -> step s s' -> reachable strict s'.

(** The lock-table invariant: holders are never empty and an exclusive lock
    has exactly one holder. *)
Definition table_inv (m : LockManager) : Prop :=
  forall rid g, lock_table_ m !! rid = Some g ->
    granted_set_ g <> ∅ /\
    (lockType_ g = EXCLUSIVE -> size (granted_set_ g) = 1%nat).

(** *** Facts about [set_begin] *)

Lemma foldr_min_le (x : Z) (l : list Z) :
  foldr Z.min x l <= x /\ (forall y, In y l -> foldr Z.min x l <= y).
Proof.
  induction l as [|a l [IHx IHl]]; simpl.
  - split; [lia|intros y []].
  - split; [lia|]. intros y [->|Hy]; [lia|]. specialize (IHl y Hy). lia.
Qed.

Lemma foldr_min_In (x : Z) (l : list Z) :
  foldr Z.min x l = x \/ In (foldr Z.min x l) l.
Proof.
  induction l as [|a l IH]; simpl; [now left|].
  destruct (Z.min_spec a (foldr Z.min x l)) as [[_ ->]|[_ ->]].
  - right. now left.
  - destruct IH as [IH|IH]; [now left|right; now right].
Qed.

Lemma set_begin_None (s : gset Z) : set_begin s = None <-> s = ∅.
Proof.
  unfold set_begin. split.
  - destruct (elements s) eqn:E; [|discriminate]. intros _.
    now apply elements_empty_inv in E; apply leibniz_equiv in E.
  - intros ->. now rewrite elements_empty.
Qed.

Lemma set_begin_Some (s : gset Z) (m : Z) :
  set_begin s = Some m -> m ∈ s /\ forall h, h ∈ s -> m <= h.
Proof.
  unfold set_begin. destruct (elements s) as [|x l] eqn:E; [discriminate|].
  intros [= <-]. split.
  - apply elem_of_elements. rewrite E. apply list_elem_of_In.
    destruct (foldr_min_In x l) as [->|Hin]; [now left|now right].
  - intros h Hh. apply elem_of_elements in Hh. rewrite E in Hh.
    apply list_elem_of_In in Hh. destruct (foldr_min_le x l) as [Hx Hl].
    destruct Hh as [<-|Hh]; [assumption|now apply Hl].
Qed.

Lemma set_begin_nonempty (s : gset Z) :
  s <> ∅ -> exists m, set_begin s = Some m.
Proof.
  intros Hne. destruct (set_begin s) as [m|] eqn:E; [now exists m|].
  now apply set_begin_None in E.
Qed.

(** The smallest holder is at most the requester exactly when some holder is. *)
Lemma younger_or_equal_iff (s : gset Z) (m id : Z) :
  set_begin s = Some m -> ((id >=? m) = true <-> exists h, h ∈ s /\ h <= id).
Proof.
  intros Hb. apply set_begin_Some in Hb as [Hin Hmin]. rewrite Z.geb_le. split.
  - intros Hle. now exists m.
  - intros (h & Hh & Hle). specialize (Hmin h Hh). lia.
Qed.

Lemma strictly_older_iff (s : gset Z) (m id : Z) :
  set_begin s = Some m -> ((id >=? m) = false <-> forall h, h ∈ s -> id < h).
Proof.
  intros Hb. apply set_begin_Some in Hb as [Hin Hmin].
  rewrite Z.geb_leb, Z.leb_gt. split.
  - intros Hlt h Hh. specialize (Hmin h Hh). lia.
  - intros Hall. now apply Hall.
Qed.

(** *** Wait-die *)

Lemma valid_growing (txn : Transaction) :
  state txn = GROWING -> TxnStateValidForLock txn = (true, txn).
Proof. intros Hs. unfold TxnStateValidForLock. now rewrite decide_True. Qed.

(** C2: a GROWING requester that meets an EXCLUSIVE holder in LockShared, or
    any holder in LockExclusive, is aborted and gets false at once when its
    id is at least the smallest holder id; it blocks on the condition
    variable exactly when its id is below every holder's. *)
Theorem C2_wait_die (txn : Transaction) (rid : RID) (m : LockManager)
    (g : GrantedTxns) :
  state txn = GROWING ->
  lock_table_ m !! rid = Some g ->
  granted_set_ g <> ∅ ->
  exists oldest, set_begin (granted_set_ g) = Some oldest /\
    (forall h, h ∈ granted_set_ g -> oldest <= h) /\
    (lockType_ g = EXCLUSIVE ->
       (oldest <= txn_id txn ->
          LockShared txn rid m = Done (Returned false, SetState ABORTED txn, m)) /\
       (txn_id txn < oldest ->
          LockShared txn rid m = Done (Blocked, txn, cv_acquire rid m)) /\
       ((exists m', LockShared txn rid m = Done (Blocked, txn, m')) <->
          forall h, h ∈ granted_set_ g -> txn_id txn < h)) /\
    (oldest <= txn_id txn ->
       LockExclusive txn rid m = Done (Returned false, SetState ABORTED txn, m)) /\
    (txn_id txn < oldest ->
       LockExclusive txn rid m = Done (Blocked, txn, cv_acquire rid m)) /\
    ((exists m', LockExclusive txn rid m = Done (Blocked, txn, m')) <->
       forall h, h ∈ granted_set_ g -> txn_id txn < h).
Proof.
  intros Hs Hg Hne. destruct (set_begin_nonempty _ Hne) as [oldest Hb].
  exists oldest. split; [assumption|].
  pose proof (set_begin_Some _ _ Hb) as [Hin Hmin]. split; [assumption|].
  assert (Hold : forall id, (forall h, h ∈ granted_set_ g -> id < h) <-> id < oldest).
  { intros id. split; [intros Hall; now apply Hall|].
    intros Hlt h Hh. specialize (Hmin h Hh). lia. }
  unfold LockShared, LockExclusive. rewrite (valid_growing _ Hs). simpl.
  rewrite Hg, Hb. split; [intros Hx; rewrite Hx|]; repeat split.
  - intros Hle. apply Z.geb_le in Hle. now rewrite Hle.
  - intros Hlt.
    destruct (txn_id txn >=? oldest) eqn:E; [apply Z.geb_le in E; lia|reflexivity].
  - intros [m' Hr]. apply Hold.
    destruct (txn_id txn >=? oldest) eqn:E; [discriminate|].
    rewrite Z.geb_leb, Z.leb_gt in E. lia.
  - intros Hall. apply Hold in Hall. exists (cv_acquire rid m).
    destruct (txn_id txn >=? oldest) eqn:E; [apply Z.geb_le in E; lia|reflexivity].
  - intros Hle. apply Z.geb_le in Hle. now rewrite Hle.
  - intros Hlt.
    destruct (txn_id txn >=? oldest) eqn:E; [apply Z.geb_le in E; lia|reflexivity].
  - intros [m' Hr]. apply Hold.
    destruct (txn_id txn >=? oldest) eqn:E; [discriminate|].
    rewrite Z.geb_leb, Z.leb_gt in E. lia.
  - intros Hall. apply Hold in Hall. exists (cv_acquire rid m).
    destruct (txn_id txn >=? oldest) eqn:E; [apply Z.geb_le in E; lia|reflexivity].
Qed.

Definition rid0 : RID := (0, 0).
Definition held_exclusively : LockManager :=
  mkLM true {[rid0 := mkGranted EXCLUSIVE {[0]}]} ∅.
Definition txn1 : Transaction := mkTxn 1 GROWING (-1) ∅ ∅ [].

Lemma C2_wait_die_witness :
  state txn1 = GROWING /\
  lock_table_ held_exclusively !! rid0 = Some (mkGranted EXCLUSIVE {[0]}) /\
  LockShared txn1 rid0 held_exclusively
    = Done (Returned false, SetState ABORTED txn1, held_exclusively) /\
  LockExclusive txn1 rid0 held_exclusively
    = Done (Returned false, SetState ABORTED txn1, held_exclusively).
Proof.
  assert (Hs : state txn1 = GROWING) by reflexivity.
  assert (Hg : lock_table_ held_exclusively !! rid0
               = Some (mkGranted EXCLUSIVE {[0]})) by reflexivity.
  assert (Hne : granted_set_ (mkGranted EXCLUSIVE {[0]}) <> ∅).
  { simpl. intros He. discriminate He. }
  destruct (C2_wait_die txn1 rid0 held_exclusively _ Hs Hg Hne)
    as (oldest & Hb & _ & Hsh & Hex & _).
  assert (Ho : oldest = 0) by (vm_compute in Hb; congruence).
  subst oldest. split; [exact Hs|]. split; [exact Hg|]. split.
  - apply Hsh; [reflexivity|simpl; lia].
  - apply Hex. simpl. lia.
Defined.

(** *** Unlock without holding the lock *)

(** C10: Unlock on a rid that is absent from the lock table, or that [txn]
    does not hold, returns false, aborts [txn] and leaves the lock manager as
    it was. *)
Theorem C10_unlock_not_held (txn : Transaction) (rid : RID) (m : LockManager) :
  (lock_table_ m !! rid = None \/
   exists g, lock_table_ m !! rid = Some g /\ txn_id txn ∉ granted_set_ g) ->
  Unlock txn rid m = (false, SetState ABORTED txn, m).
Proof.
  intros Hcase. unfold Unlock.
  destruct (strict_2PL_ m && _); [reflexivity|].
  destruct Hcase as [->|(g & -> & Hnot)]; [reflexivity|].
  now rewrite bool_decide_eq_false_2.
Qed.

Lemma C10_unlock_not_held_witness :
  lock_table_ held_exclusively !! (1, 1) = None /\
  Unlock txn1 (1, 1) held_exclusively
    = (false, SetState ABORTED txn1, held_exclusively).
Proof.
  assert (Ha : lock_table_ held_exclusively !! (1, 1) = None) by reflexivity.
  split; [exact Ha|]. apply C10_unlock_not_held. left. exact Ha.
Defined.

(** *** The lock-table invariant *)

Lemma table_inv_same (m m' : LockManager) :
  lock_table_ m' = lock_table_ m -> table_inv m -> table_inv m'.
Proof. unfold table_inv. intros ->. auto. Qed.

Lemma table_inv_insert (m : LockManager) (rid : RID) (g : GrantedTxns) :
  table_inv m ->
  granted_set_ g <> ∅ ->
  (lockType_ g = EXCLUSIVE -> size (granted_set_ g) = 1%nat) ->
  table_inv (set_lock_table (<[rid := g]> (lock_table_ m)) m).
Proof.
  intros Hinv Hne Hx rid' g'. simpl. rewrite lookup_insert.
  case_decide; [intros [= <-]; auto|apply Hinv].
Qed.

Lemma table_inv_delete (m : LockManager) (rid : RID) cv :
  table_inv m -> table_inv (mkLM (strict_2PL_ m) (delete rid (lock_table_ m)) cv).
Proof.
  intros Hinv rid' g'. simpl. rewrite lookup_delete.
  case_decide; [discriminate|apply Hinv].
Qed.

Lemma table_inv_initial (strict : bool) : table_inv (manager (initial strict)).
Proof. intros rid g. simpl. now rewrite lookup_empty. Qed.

Lemma singleton_holder (id : Z) :
  ({[id]} : gset Z) <> ∅ /\ size ({[id]} : gset Z) = 1%nat.
Proof. split; [apply non_empty_singleton_L|apply size_singleton]. Qed.

Lemma table_inv_emplace_exclusive (txn : Transaction) (rid : RID) (m : LockManager) :
  table_inv m -> table_inv (emplace_exclusive txn rid m).
Proof.
  intros Hinv. unfold emplace_exclusive. destruct (lock_table_ m !! rid); [assumption|].
  apply table_inv_insert; [assumption|apply singleton_holder|].
  intros _. apply singleton_holder.
Qed.

Lemma LockShared_grant_inv txn rid m b txn' m' :
  table_inv m -> LockShared_grant txn rid m = Done (b, txn', m') -> table_inv m'.
Proof.
  intros Hinv. unfold LockShared_grant.
  destruct (lock_table_ m !! rid) as [g|] eqn:Hg.
  - case_decide; [discriminate|]. destruct (lockType_ g) eqn:Hty; [|discriminate].
    intros [= _ _ <-]. apply table_inv_insert; [assumption| |discriminate].
    simpl. set_solver.
  - intros [= _ _ <-]. apply table_inv_insert; [assumption| |discriminate].
    apply singleton_holder.
Qed.

Lemma Unlock_inv txn rid m b txn' m' :
  table_inv m -> Unlock txn rid m = (b, txn', m') -> table_inv m'.
Proof.
  intros Hinv. unfold Unlock.
  destruct (strict_2PL_ m && _); [now intros [= _ _ <-]|].
  destruct (lock_table_ m !! rid) as [g|] eqn:Hg; [|now intros [= _ _ <-]].
  destruct (bool_decide (txn_id txn ∈ granted_set_ g)) eqn:Hmem; simpl;
    [|now intros [= _ _ <-]].
  apply bool_decide_eq_true in Hmem.
  destruct (decide (granted_set_ g ∖ {[txn_id txn]} = ∅)) as [He|Hne].
  - intros [= _ _ <-]. now apply table_inv_delete.
  - intros [= _ _ <-]. apply table_inv_insert; [assumption|assumption|].
    simpl. intros Hx. destruct (Hinv rid g Hg) as [_ Hone]. specialize (Hone Hx).
    exfalso. apply Hne. apply size_1_elem_of in Hone as [x Hone].
    apply leibniz_equiv in Hone. rewrite Hone in Hmem |- *.
    apply elem_of_singleton in Hmem. subst x. apply difference_diag_L.
Qed.

Lemma call_inv o txn rid m st txn' m' :
  table_inv m -> call o txn rid m = Done (st, txn', m') -> table_inv m'.
Proof.
  intros Hinv. destruct o; simpl.
  - unfold LockShared. destruct (TxnStateValidForLock txn) as [[] t]; simpl;
      [|now intros [= _ _ <-]].
    destruct (lock_table_ m !! rid) as [g|] eqn:Hg.
    + destruct (set_begin _); [|discriminate]. destruct (lockType_ g).
      * unfold returned. destruct (LockShared_grant t rid m) as [[[b t'] m1]| |] eqn:Hgr;
          [|discriminate|discriminate]. simpl. intros [= _ _ <-].
        eapply LockShared_grant_inv; eauto.
      * destruct (_ >=? _); intros [= _ _ <-]; [assumption|].
        eapply table_inv_same; [|exact Hinv]. reflexivity.
    + unfold returned. destruct (LockShared_grant t rid m) as [[[b t'] m1]| |] eqn:Hgr;
        [|discriminate|discriminate]. simpl. intros [= _ _ <-].
      eapply LockShared_grant_inv; eauto.
  - unfold LockExclusive. destruct (TxnStateValidForLock txn) as [[] t]; simpl;
      [|now intros [= _ _ <-]].
    destruct (lock_table_ m !! rid) as [g|] eqn:Hg.
    + destruct (set_begin _); [|discriminate].
      destruct (_ >=? _); intros [= _ _ <-]; [assumption|].
      eapply table_inv_same; [|exact Hinv]. reflexivity.
    + intros [= _ _ <-]. now apply table_inv_emplace_exclusive.
  - unfold LockUpgrade. destruct (TxnStateValidForLock txn) as [[] t]; simpl;
      [|now intros [= _ _ <-]].
    destruct (lock_table_ m !! rid) as [g|] eqn:Hg; [|now intros [= _ _ <-]].
    destruct (negb _ || negb _) eqn:Hc; [now intros [= _ _ <-]|].
    apply orb_false_elim in Hc as [Hty _]. apply negb_false_iff in Hty.
    apply bool_decide_eq_true in Hty.
    destruct (set_begin _) as [oldest|] eqn:Hb.
    + assert (Hne : granted_set_ g ∖ {[txn_id t]} <> ∅).
      { intros He. apply set_begin_None in He. simpl in Hb. congruence. }
      assert (Hi : table_inv (set_lock_table
                 (<[rid := mkGranted (lockType_ g) (granted_set_ g ∖ {[txn_id t]})]>
                    (lock_table_ m)) m)).
      { apply table_inv_insert; [assumption|exact Hne|]. simpl. congruence. }
      destruct (_ >=? _); intros [= _ _ <-]; [exact Hi|].
      eapply table_inv_same; [|exact Hi]. reflexivity.
    + intros [= _ _ <-]. apply table_inv_insert; [assumption|apply singleton_holder|].
      intros _. apply singleton_holder.
  - destruct (Unlock txn rid m) as [[b t] m1] eqn:Hu. intros [= _ _ <-].
    eapply Unlock_inv; eauto.
Qed.

Lemma wake_inv k txn rid m b txn' m' :
  table_inv m -> wake k txn rid m = Done (b, txn', m') -> table_inv m'.
Proof.
  intros Hinv. destruct k; simpl.
  - unfold LockShared_wake.
    destruct (LockShared_grant txn rid m) as [[[b1 t1] m1]| |] eqn:Hgr;
      [|discriminate|discriminate].
    simpl. intros [= _ _ <-]. apply (table_inv_same m1); [reflexivity|].
    eapply LockShared_grant_inv; eauto.
  - intros [= _ _ <-]. apply (table_inv_same (emplace_exclusive txn rid m));
      [reflexivity|]. now apply table_inv_emplace_exclusive.
  - intros [= _ _ <-]. apply (table_inv_same (emplace_exclusive txn rid m));
      [reflexivity|]. now apply table_inv_emplace_exclusive.
Qed.

Lemma step_inv (s s' : System) :
  table_inv (manager s) -> step s s' -> table_inv (manager s').
Proof.
  intros Hinv Hstep. destruct Hstep; simpl in *.
  - eapply call_inv; eauto.
  - eapply call_inv; eauto.
  - eapply wake_inv; eauto.
Qed.

(** C8: in every reachable state every entry of the lock table has a holder,
    and an EXCLUSIVE entry has exactly one; the sections of lock_shared,
    lock_exclusive, lock_upgrade and unlock (entry and wake-up) all preserve
    this. *)
Theorem C8_table_invariant (strict : bool) (s : System) :
  reachable strict s ->
  table_inv (manager s) /\
  (forall o txn rid st txn' m',
      call o txn rid (manager s) = Done (st, txn', m') -> table_inv m') /\
  (forall k txn rid b txn' m',
      wake k txn rid (manager s) = Done (b, txn', m') -> table_inv m').
Proof.
  intros Hr.
  assert (Hinv : table_inv (manager s)).
  { induction Hr as [|s s' _ IH Hstep]; [apply table_inv_initial|].
    eapply step_inv; eauto. }
  split; [assumption|]. split; intros.
  - eapply call_inv; eauto.
  - eapply wake_inv; eauto.
Qed.

Definition txn0 : Transaction := mkTxn 0 GROWING (-1) ∅ ∅ [].

Lemma held_exclusively_reachable : reachable true (mkSys held_exclusively []).
Proof.
  apply (reach_step true (initial true)); [apply reach_init|].
  apply (step_return OpLockExclusive txn0 rid0 _ _ true (exclusive_emplace rid0 txn0)).
  reflexivity.
Qed.

Lemma C8_table_invariant_witness :
  reachable true (mkSys held_exclusively []) /\ table_inv held_exclusively.
Proof.
  split; [exact held_exclusively_reachable|].
  exact (proj1 (C8_table_invariant true (mkSys held_exclusively [])
                  held_exclusively_reachable)).
Defined.


(** *** Two-phase locking as the calls enforce it *)

Lemma state_shared_erase (rid : RID) (t : Transaction) :
  state (shared_erase rid t) = state t.
Proof. reflexivity. Qed.

Lemma state_exclusive_erase (rid : RID) (t : Transaction) :
  state (exclusive_erase rid t) = state t.
Proof. reflexivity. Qed.

(** What a successful Unlock does to the transaction state. *)
Lemma Unlock_true_state (txn : Transaction) (rid : RID) (m : LockManager)
    (txn' : Transaction) (m' : LockManager) :
  Unlock txn rid m = (true, txn', m') ->
  state txn' = (if negb (strict_2PL_ m) && bool_decide (state txn = GROWING)
                then SHRINKING else state txn) /\
  (strict_2PL_ m = true -> state txn = COMMITTED \/ state txn = ABORTED).
Proof.
  unfold Unlock. intros Hu.
  destruct (strict_2PL_ m) eqn:Hs; simpl in *.
  - destruct (bool_decide (state txn = COMMITTED)) eqn:Ec;
      [|destruct (bool_decide (state txn = ABORTED)) eqn:Ea]; simpl in Hu;
      try discriminate.
    + apply bool_decide_eq_true in Ec.
      destruct (lock_table_ m !! rid) as [g|]; [|discriminate].
      destruct (bool_decide (txn_id txn ∈ granted_set_ g)); [|discriminate].
      simpl in Hu. split; [|now left].
      destruct (decide (_ = ∅)), (lockType_ g); injection Hu as <- _; reflexivity.
    + apply bool_decide_eq_true in Ea.
      destruct (lock_table_ m !! rid) as [g|]; [|discriminate].
      destruct (bool_decide (txn_id txn ∈ granted_set_ g)); [|discriminate].
      simpl in Hu. split; [|now right].
      destruct (decide (_ = ∅)), (lockType_ g); injection Hu as <- _; reflexivity.
  - split; [|discriminate].
    destruct (lock_table_ m !! rid) as [g|]; [|discriminate].
    destruct (bool_decide (txn_id txn ∈ granted_set_ g)); [|discriminate].
    simpl in Hu.
    destruct (decide (_ = ∅)), (lockType_ g), (bool_decide (state txn = GROWING));
      injection Hu as <- _; reflexivity.
Qed.

(** X4: without strict 2PL, the first successful Unlock of a GROWING
    transaction moves it to SHRINKING, and from then on every LockShared,
    LockExclusive and LockUpgrade it issues returns false, aborts it and
    leaves the lock manager untouched: no lock is taken after a release. *)
Theorem no_lock_after_unlock (txn : Transaction) (rid : RID) (m : LockManager)
    (txn' : Transaction) (m' : LockManager) :
  strict_2PL_ m = false -> state txn = GROWING ->
  Unlock txn rid m = (true, txn', m') ->
  state txn' = SHRINKING /\
  forall rid2 m2,
    LockShared txn' rid2 m2 = Done (Returned false, SetState ABORTED txn', m2) /\
    LockExclusive txn' rid2 m2 = Done (Returned false, SetState ABORTED txn', m2) /\
    LockUpgrade txn' rid2 m2 = Done (Returned false, SetState ABORTED txn', m2).
Proof.
  intros Hs Hg Hu. destruct (Unlock_true_state _ _ _ _ _ Hu) as [Hst _].
  rewrite Hs, Hg in Hst. simpl in Hst.
  split; [exact Hst|]. intros rid2 m2.
  unfold LockShared, LockExclusive, LockUpgrade, TxnStateValidForLock.
  rewrite decide_False by (rewrite Hst; discriminate). simpl. auto.
Qed.

(** X5: under strict 2PL an Unlock that returns true was issued by a
    transaction that is COMMITTED or ABORTED, and leaves that state alone;
    issued by a GROWING or SHRINKING transaction it returns false, aborts the
    transaction and releases nothing, holder or not. *)
Theorem strict_unlock_after_end (txn : Transaction) (rid : RID) (m : LockManager) :
  strict_2PL_ m = true ->
  (forall txn' m', Unlock txn rid m = (true, txn', m') ->
     (state txn = COMMITTED \/ state txn = ABORTED) /\ state txn' = state txn) /\
  (state txn = GROWING \/ state txn = SHRINKING ->
   Unlock txn rid m = (false, SetState ABORTED txn, m)).
Proof.
  intros Hs. split.
  - intros txn' m' Hu. destruct (Unlock_true_state _ _ _ _ _ Hu) as [Hst Hend].
    rewrite Hs in Hst. simpl in Hst. split; [now apply Hend|exact Hst].
  - intros Hst. unfold Unlock. rewrite Hs. simpl.
    rewrite !bool_decide_eq_false_2; [reflexivity| |];
      destruct Hst as [-> | ->]; discriminate.
Qed.

Lemma LockManager_eta (m : LockManager) :
  mkLM (strict_2PL_ m) (lock_table_ m) (cv_table_ m) = m.
Proof. now destruct m. Qed.

(** X6: on a rid that nobody holds and nobody waits for, LockExclusive (and
    LockShared) of a GROWING transaction is granted at once and records the
    rid in the lock table and in the transaction's lock set; the Unlock of
    the then committed transaction returns true and puts the lock manager
    back exactly as it was, with the rid gone from the lock set. *)
Theorem lock_unlock_round_trip (txn : Transaction) (rid : RID) (m : LockManager) :
  state txn = GROWING ->
  lock_table_ m !! rid = None -> cv_table_ m !! rid = None ->
  (exists m1,
     LockExclusive txn rid m = Done (Returned true, exclusive_emplace rid txn, m1) /\
     lock_table_ m1 !! rid = Some (mkGranted EXCLUSIVE {[txn_id txn]}) /\
     exists t2,
       Unlock (SetState COMMITTED (exclusive_emplace rid txn)) rid m1 = (true, t2, m) /\
       state t2 = COMMITTED /\ rid ∉ exclusive_lock_set t2) /\
  (exists m1,
     LockShared txn rid m = Done (Returned true, shared_emplace rid txn, m1) /\
     lock_table_ m1 !! rid = Some (mkGranted SHARED {[txn_id txn]}) /\
     exists t2,
       Unlock (SetState COMMITTED (shared_emplace rid txn)) rid m1 = (true, t2, m) /\
       state t2 = COMMITTED /\ rid ∉ shared_lock_set t2).
Proof.
  intros Hg Hfree Hcv. split.
  - unfold LockExclusive. rewrite (valid_growing _ Hg). simpl. rewrite Hfree.
    unfold emplace_exclusive. rewrite Hfree.
    eexists. split; [reflexivity|]. simpl. split; [apply lookup_insert_eq|].
    unfold Unlock. simpl. rewrite andb_false_r. simpl. rewrite lookup_insert_eq. simpl.
    rewrite bool_decide_eq_true_2 by (now apply elem_of_singleton). simpl.
    rewrite decide_True by apply difference_diag_L. rewrite Hcv, !andb_false_r.
    rewrite delete_insert_id by exact Hfree. rewrite LockManager_eta.
    eexists. split; [reflexivity|]. simpl. split; [reflexivity|].
    rewrite elem_of_difference, elem_of_singleton. tauto.
  - unfold LockShared. rewrite (valid_growing _ Hg). simpl. rewrite Hfree.
    unfold LockShared_grant. rewrite Hfree. simpl.
    eexists. split; [reflexivity|]. simpl. split; [apply lookup_insert_eq|].
    unfold Unlock. simpl. rewrite andb_false_r. simpl. rewrite lookup_insert_eq. simpl.
    rewrite bool_decide_eq_true_2 by (now apply elem_of_singleton). simpl.
    rewrite decide_True by apply difference_diag_L. rewrite Hcv, !andb_false_r.
    rewrite delete_insert_id by exact Hfree. rewrite LockManager_eta.
    eexists. split; [reflexivity|]. simpl. split; [reflexivity|].
    rewrite elem_of_difference, elem_of_singleton. tauto.
Qed.

(** X7: a shared lock is shared.  A GROWING transaction asking for a rid
    that is held in SHARED mode joins the holders at once, whatever its age;
    and when a holder whose transaction has ended unlocks, the entry stays in
    the table for the remaining holders and is removed only with the last
    one. *)
Theorem shared_holders_come_and_go (txn : Transaction) (rid : RID) (m : LockManager)
    (g : GrantedTxns) :
  lock_table_ m !! rid = Some g -> lockType_ g = SHARED -> granted_set_ g <> ∅ ->
  (state txn = GROWING ->
   LockShared txn rid m
   = Done (Returned true, shared_emplace rid txn,
           set_lock_table
             (<[rid := mkGranted SHARED ({[txn_id txn]} ∪ granted_set_ g)]>
                (lock_table_ m)) m)) /\
  (state txn = COMMITTED \/ state txn = ABORTED ->
   txn_id txn ∈ granted_set_ g ->
   exists m',
     Unlock txn rid m = (true, shared_erase rid txn, m') /\
     lock_table_ m' !! rid
     = (if decide (granted_set_ g ∖ {[txn_id txn]} = ∅) then None
        else Some (mkGranted SHARED (granted_set_ g ∖ {[txn_id txn]}))) /\
     forall rid', rid' <> rid -> lock_table_ m' !! rid' = lock_table_ m !! rid').
Proof.
  intros Hrid Hsh Hne. split.
  - intros Hg. unfold LockShared. rewrite (valid_growing _ Hg). simpl. rewrite Hrid.
    destruct (set_begin_nonempty _ Hne) as [oldest ->]. rewrite Hsh.
    unfold LockShared_grant. rewrite Hrid, decide_False by exact Hne.
    now rewrite Hsh.
  - intros Hend Hin. unfold Unlock.
    assert (Hgate : strict_2PL_ m
                    && negb (bool_decide (state txn = COMMITTED)
                             || bool_decide (state txn = ABORTED)) = false).
    { destruct Hend as [-> | ->]; simpl; apply andb_false_r. }
    rewrite Hgate, Hrid, bool_decide_eq_true_2 by exact Hin. simpl.
    assert (Hgrow : bool_decide (state txn = GROWING) = false).
    { apply bool_decide_eq_false_2. destruct Hend as [-> | ->]; discriminate. }
    rewrite Hgrow, andb_false_r, Hsh.
    destruct (decide (granted_set_ g ∖ {[txn_id txn]} = ∅)) as [He|He].
    + eexists. split; [reflexivity|]. simpl. split; [apply lookup_delete_eq|].
      intros rid' Hneq. now apply lookup_delete_ne.
    + eexists. split; [reflexivity|]. simpl. split; [apply lookup_insert_eq|].
      intros rid' Hneq. now apply lookup_insert_ne.
Qed.

(** X8: LockUpgrade.  A request on a rid that is not locked, is locked
    EXCLUSIVE or is not held by the caller aborts the caller and changes
    nothing.  A sole shared holder gets the EXCLUSIVE lock at once.  With
    other holders the caller first gives up its shared lock, and is then
    aborted when it is not older than all of them, or waits. *)
Theorem LockUpgrade_cases (txn : Transaction) (rid : RID) (m : LockManager) :
  state txn = GROWING ->
  (lock_table_ m !! rid = None \/
   (exists g, lock_table_ m !! rid = Some g /\
      (lockType_ g = EXCLUSIVE \/ txn_id txn ∉ granted_set_ g)) ->
   LockUpgrade txn rid m = Done (Returned false, SetState ABORTED txn, m)) /\
  (forall g, lock_table_ m !! rid = Some g -> lockType_ g = SHARED ->
     txn_id txn ∈ granted_set_ g ->
     let rest := granted_set_ g ∖ {[txn_id txn]} in
     let released := set_lock_table (<[rid := mkGranted SHARED rest]> (lock_table_ m)) m in
     (rest = ∅ ->
      LockUpgrade txn rid m
      = Done (Returned true, exclusive_emplace rid (shared_erase rid txn),
              set_lock_table
                (<[rid := mkGranted EXCLUSIVE {[txn_id txn]}]> (lock_table_ m)) m)) /\
     ((exists h, h ∈ rest /\ h <= txn_id txn) ->
      LockUpgrade txn rid m
      = Done (Returned false, SetState ABORTED (shared_erase rid txn), released)) /\
     (rest <> ∅ -> (forall h, h ∈ rest -> txn_id txn < h) ->
      LockUpgrade txn rid m
      = Done (Blocked, shared_erase rid txn, cv_acquire rid released))).
Proof.
  intros Hg. split.
  - intros Hbad. unfold LockUpgrade. rewrite (valid_growing _ Hg). simpl.
    destruct Hbad as [->|(g & -> & [Hx|Hnot])]; [reflexivity| |].
    + rewrite Hx. reflexivity.
    + rewrite (bool_decide_eq_false_2 _ Hnot), orb_true_r. reflexivity.
  - intros g Hrid Hsh Hin rest released.
    assert (Hstart : forall k,
      (match set_begin rest with
       | None =>
           Done (Returned true, exclusive_emplace rid (shared_erase rid txn),
                 set_lock_table
                   (<[rid := mkGranted EXCLUSIVE {[txn_id txn]}]> (lock_table_ m)) m)
       | Some oldest =>
           if txn_id txn >=? oldest
           then Done (Returned false, SetState ABORTED (shared_erase rid txn), released)
           else Done (Blocked, shared_erase rid txn, cv_acquire rid released)
       end) = k -> LockUpgrade txn rid m = k).
    { intros k <-. unfold LockUpgrade. rewrite (valid_growing _ Hg). simpl.
      rewrite Hrid, Hsh. simpl. rewrite bool_decide_eq_true_2 by exact Hin. simpl.
      fold rest. destruct (set_begin rest); reflexivity. }
    split; [|split].
    + intros He. apply Hstart. now rewrite (proj2 (set_begin_None rest) He).
    + intros Hex. apply Hstart.
      destruct (set_begin rest) as [oldest|] eqn:Eb.
      * now rewrite (proj2 (younger_or_equal_iff rest oldest (txn_id txn) Eb) Hex).
      * apply set_begin_None in Eb. destruct Hex as (h & Hh & _).
        rewrite Eb in Hh. now apply not_elem_of_empty in Hh.
    + intros Hne Hall. apply Hstart.
      destruct (set_begin_nonempty _ Hne) as [oldest Eb]. rewrite Eb.
      now rewrite (proj2 (strictly_older_iff rest oldest (txn_id txn) Eb) Hall).
Qed.

(** X9: the handover.  When the committed holder of an EXCLUSIVE lock
    unlocks while a requester waits on the rid's condition variable, the
    entry leaves the lock table, the condition variable stays, the waiter's
    predicate holds, and the woken LockExclusive returns true with the
    waiter as the one EXCLUSIVE holder and the condition variable given
    back. *)
Theorem unlock_hands_over (holder waiter_txn : Transaction) (rid : RID)
    (m : LockManager) (n : nat) :
  state holder = COMMITTED ->
  lock_table_ m !! rid = Some (mkGranted EXCLUSIVE {[txn_id holder]}) ->
  cv_table_ m !! rid = Some (S n) ->
  exists m1 m2,
    Unlock holder rid m = (true, exclusive_erase rid holder, m1) /\
    lock_table_ m1 !! rid = None /\ cv_table_ m1 !! rid = Some (S n) /\
    wake_pred WaitExclusive rid m1 = true /\
    wake WaitExclusive waiter_txn rid m1
    = Done (true, exclusive_emplace rid waiter_txn, m2) /\
    lock_table_ m2 !! rid = Some (mkGranted EXCLUSIVE {[txn_id waiter_txn]}) /\
    cv_table_ m2 !! rid = Some n.
Proof.
  intros Hc Hrid Hcv. unfold Unlock. rewrite Hc, Hrid. simpl.
  rewrite andb_false_r. simpl.
  rewrite bool_decide_eq_true_2 by (now apply elem_of_singleton). simpl.
  rewrite decide_True by apply difference_diag_L. rewrite Hcv, andb_false_r.
  eexists. eexists. split; [reflexivity|]. simpl.
  split; [apply lookup_delete_eq|]. split; [exact Hcv|].
  unfold absent_pred, LockExclusive_wake, emplace_exclusive. simpl.
  rewrite lookup_delete_eq. split; [now apply bool_decide_eq_true_2|].
  split; [reflexivity|]. simpl. split; [apply lookup_insert_eq|].
  rewrite lookup_alter_eq, Hcv. reflexivity.
Qed.

(** Sample states: a SHARED lock on [rid0] held by transaction 1 without
    strict 2PL, and a free lock manager. *)
Definition shared_by_1 : LockManager :=
  mkLM false {[rid0 := mkGranted SHARED {[1]}]} ∅.
Definition reader1 : Transaction := mkTxn 1 GROWING (-1) {[rid0]} ∅ [].
Definition txn2 : Transaction := mkTxn 2 GROWING (-1) ∅ ∅ [].
Definition free_manager : LockManager := mkLM false ∅ ∅.

Lemma no_lock_after_unlock_witness :
  exists txn' m',
    Unlock reader1 rid0 shared_by_1 = (true, txn', m') /\
    state txn' = SHRINKING /\
    LockExclusive txn' (1, 1) m' = Done (Returned false, SetState ABORTED txn', m').
Proof.
  destruct (Unlock reader1 rid0 shared_by_1) as [[b txn'] m'] eqn:Hu.
  assert (Hb : b = true) by (vm_compute in Hu; congruence). subst b.
  exists txn', m'. split; [reflexivity|].
  destruct (no_lock_after_unlock reader1 rid0 shared_by_1 txn' m' eq_refl eq_refl Hu)
    as [Hst Hall].
  split; [exact Hst|]. apply Hall.
Defined.

Lemma strict_unlock_after_end_witness :
  strict_2PL_ held_exclusively = true /\
  Unlock (exclusive_emplace rid0 txn0) rid0 held_exclusively
  = (false, SetState ABORTED (exclusive_emplace rid0 txn0), held_exclusively).
Proof.
  split; [reflexivity|].
  apply (proj2 (strict_unlock_after_end (exclusive_emplace rid0 txn0) rid0
                  held_exclusively eq_refl)).
  left. reflexivity.
Defined.

Lemma lock_unlock_round_trip_witness :
  exists m1,
    LockExclusive txn1 rid0 free_manager
    = Done (Returned true, exclusive_emplace rid0 txn1, m1) /\
    lock_table_ m1 !! rid0 = Some (mkGranted EXCLUSIVE {[txn_id txn1]}) /\
    exists t2,
      Unlock (SetState COMMITTED (exclusive_emplace rid0 txn1)) rid0 m1
      = (true, t2, free_manager) /\
      state t2 = COMMITTED /\ rid0 ∉ exclusive_lock_set t2.
Proof.
  exact (proj1 (lock_unlock_round_trip txn1 rid0 free_manager eq_refl eq_refl eq_refl)).
Defined.

Lemma shared_holders_come_and_go_witness :
  LockShared txn2 rid0 shared_by_1
  = Done (Returned true, shared_emplace rid0 txn2,
          set_lock_table
            (<[rid0 := mkGranted SHARED ({[2]} ∪ {[1]})]> (lock_table_ shared_by_1))
            shared_by_1).
Proof.
  refine (proj1 (shared_holders_come_and_go txn2 rid0 shared_by_1
                   (mkGranted SHARED {[1]}) eq_refl eq_refl _) eq_refl).
  simpl. intros He. discriminate He.
Defined.

Lemma LockUpgrade_cases_witness :
  LockUpgrade reader1 rid0 shared_by_1
  = Done (Returned true, exclusive_emplace rid0 (shared_erase rid0 reader1),
          set_lock_table
            (<[rid0 := mkGranted EXCLUSIVE {[1]}]> (lock_table_ shared_by_1))
            shared_by_1).
Proof.
  refine (proj1 (proj2 (LockUpgrade_cases reader1 rid0 shared_by_1 eq_refl)
                   (mkGranted SHARED {[1]}) eq_refl eq_refl _) _).
  - simpl. now apply elem_of_singleton.
  - simpl. apply difference_diag_L.
Defined.

(** Transaction 0 holds [rid0] EXCLUSIVE and one requester waits for it. *)
Definition held_with_waiter : LockManager :=
  mkLM true {[rid0 := mkGranted EXCLUSIVE {[0]}]} {[rid0 := 1%nat]}.

Lemma unlock_hands_over_witness :
  exists m1 m2,
    Unlock (SetState COMMITTED txn0) rid0 held_with_waiter
    = (true, exclusive_erase rid0 (SetState COMMITTED txn0), m1) /\
    lock_table_ m1 !! rid0 = None /\ cv_table_ m1 !! rid0 = Some 1%nat /\
    wake_pred WaitExclusive rid0 m1 = true /\
    wake WaitExclusive txn1 rid0 m1 = Done (true, exclusive_emplace rid0 txn1, m2) /\
    lock_table_ m2 !! rid0 = Some (mkGranted EXCLUSIVE {[txn_id txn1]}) /\
    cv_table_ m2 !! rid0 = Some 0%nat.
Proof.
  exact (unlock_hands_over (SetState COMMITTED txn0) txn1 rid0 held_with_waiter 0
           eq_refl eq_refl eq_refl).
Defined.

End Lock.

(** ** Log manager and recovery (log_manager.cpp, log_recovery.cpp) *)
Module Log.

Definition INVALID_PAGE_ID : Z := -1.
Definition INVALID_LSN : Z := -1.
Definition INVALID_TXN_ID : Z := -1.
Definition HEADER_SIZE : Z := 20.

Inductive LogRecordType :=
| INVALID | INSERT | MARKDELETE | APPLYDELETE | ROLLBACKDELETE | UPDATE
| BEGIN | COMMIT | ABORT | NEWPAGE.

#[global] Instance LogRecordType_eq_dec : EqDecision LogRecordType.
Proof. solve_decision. Defined.

(** The enumerators are stored as 32-bit integers.  log_record.h is not among
    the sources; the numbering below is the declaration order, and every
    integer that names no enumerator is read back as [INVALID], which all
    switches of the code send to their default branch as well. *)
Definition type_code (t : LogRecordType) : Z :=
  match t with
  | INVALID => 0 | INSERT => 1 | MARKDELETE => 2 | APPLYDELETE => 3
  | ROLLBACKDELETE => 4 | UPDATE => 5 | BEGIN => 6 | COMMIT => 7
  | ABORT => 8 | NEWPAGE => 9
  end.

Definition type_of_code (c : Z) : LogRecordType :=
  if c =? 1 then INSERT else if c =? 2 then MARKDELETE
  else if c =? 3 then APPLYDELETE else if c =? 4 then ROLLBACKDELETE
  else if c =? 5 then UPDATE else if c =? 6 then BEGIN
  else if c =? 7 then COMMIT else if c =? 8 then ABORT
  else if c =? 9 then NEWPAGE else INVALID.

(** A tuple is its data bytes; its length is [size_]. *)
Definition Tuple := list Z.
Definition GetLength (t : Tuple) : Z := Z.of_nat (length t).

Record LogRecord := mkLogRecord {
  size_ : Z;
  lsn_ : Z;
  txn_id_ : Z;
  prev_lsn_ : Z;
  log_record_type_ : LogRecordType;
  delete_rid_ : RID;
  delete_tuple_ : Tuple;
  insert_rid_ : RID;
  insert_tuple_ : Tuple;
  update_rid_ : RID;
  old_tuple_ : Tuple;
  new_tuple_ : Tuple;
  prev_page_id_ : Z
}.

(** Modelled from the spec: a default-constructed [LogRecord] (log_record.h
    and rid.h are not among the sources) has size 0, invalid lsn, txn id and
    page ids, type INVALID and empty tuples. *)
Definition invalid_rid : RID := mkRID INVALID_PAGE_ID (-1).
Definition LogRecord_default : LogRecord :=
  mkLogRecord 0 INVALID_LSN INVALID_TXN_ID INVALID_LSN INVALID
    invalid_rid [] invalid_rid [] invalid_rid [] [] INVALID_PAGE_ID.

(** *** Bytes *)

Definition in_int32 (x : Z) : Prop := -2147483648 <= x < 2147483648.

(** The four little-endian bytes of a 32-bit two's complement integer. *)
Definition enc32 (x : Z) : list Z :=
  [x mod 256; (x / 256) mod 256; (x / 65536) mod 256; (x / 16777216) mod 256].

Definition dec32 (bs : list Z) : Z :=
  let u := nth 0 bs 0 + 256 * nth 1 bs 0 + 65536 * nth 2 bs 0
           + 16777216 * nth 3 bs 0 in
  if u <? 2147483648 then u else u - 4294967296.

(** [memcpy(dst + pos, src, |src|)] *)
Definition memcpy (dst : list Z) (pos : Z) (src : list Z) : list Z :=
  firstn (Z.to_nat pos) dst ++ src ++ skipn (Z.to_nat pos + length src) dst.

(** [*reinterpret_cast<const int32_t *>(data + pos)] *)
Definition read32 (data : list Z) (pos : Z) : Z :=
  dec32 (firstn 4 (skipn (Z.to_nat pos) data)).

Definition rid_size : Z := 8.
Definition rid_bytes (r : RID) : list Z := enc32 (page_id_ r) ++ enc32 (slot_num_ r).
Definition read_rid (data : list Z) (pos : Z) : RID :=
  mkRID (read32 data pos) (read32 data (pos + 4)).

(** Modelled from the spec: the tuple codec (tuple.cpp is not among the
    sources) writes the length as a 32-bit integer followed by the data. *)
Definition SerializeTo (t : Tuple) (dst : list Z) (pos : Z) : list Z :=
  memcpy dst pos (enc32 (GetLength t) ++ t).
Definition DeserializeFrom (data : list Z) (pos : Z) : Tuple :=
  firstn (Z.to_nat (read32 data pos)) (skipn (Z.to_nat (pos + 4)) data).

(** The first [HEADER_SIZE] bytes of a [LogRecord] object. *)
Definition header_bytes (r : LogRecord) : list Z :=
  enc32 (size_ r) ++ enc32 (lsn_ r) ++ enc32 (txn_id_ r) ++ enc32 (prev_lsn_ r)
  ++ enc32 (type_code (log_record_type_ r)).

(** *** LogManager::AppendLogRecord *)

Record LogManager := mkLogManager {
  log_buffer_ : list Z;
  flush_buffer_ : list Z;
  offset_ : Z;
  next_lsn_ : Z;
  persistent_lsn_ : Z
}.

Definition INT_MAX : Z := 2147483647.
Definition INT_MIN : Z := -2147483648.

(** [lsn_t] is a 32-bit signed integer and [next_lsn_] an atomic counter of
    that type (log_manager.h is not among the sources): [next_lsn_++] on the
    largest value wraps around to the smallest. *)
Definition wrap32 (x : Z) : Z := (x + 2147483648) mod 4294967296 - 2147483648.

Definition set_lsn (l : Z) (r : LogRecord) : LogRecord :=
  mkLogRecord (size_ r) l (txn_id_ r) (prev_lsn_ r) (log_record_type_ r)
    (delete_rid_ r) (delete_tuple_ r) (insert_rid_ r) (insert_tuple_ r)
    (update_rid_ r) (old_tuple_ r) (new_tuple_ r) (prev_page_id_ r).

Inductive append_result :=
| Appended (lsn : Z) (log_record : LogRecord) (lm : LogManager)
| BufferFull.

Section Buffers.
Variable LOG_BUFFER_SIZE : Z.

(** [BufferFull] stands for the loop that signals the flush thread and waits
    for the flush; the caller retries after it. *)
Definition AppendLogRecord (log_record : LogRecord) (lm : LogManager) : append_result :=
  if offset_ lm + size_ log_record >? LOG_BUFFER_SIZE then BufferFull
  else
    let log_record := set_lsn (next_lsn_ lm) log_record in
    let buf := memcpy (log_buffer_ lm) (offset_ lm) (header_bytes log_record) in
    let pos := offset_ lm + HEADER_SIZE in
    let buf :=
      match log_record_type_ log_record with
      | INSERT =>
          let buf := memcpy buf pos (rid_bytes (insert_rid_ log_record)) in
          let pos := pos + rid_size in
          SerializeTo (insert_tuple_ log_record) buf pos
      | UPDATE =>
          let buf := memcpy buf pos (rid_bytes (update_rid_ log_record)) in
          let pos := pos + rid_size in
          let buf := SerializeTo (old_tuple_ log_record) buf pos in
          let pos := pos + 4 + GetLength (old_tuple_ log_record) in
          SerializeTo (new_tuple_ log_record) buf pos
      | NEWPAGE => memcpy buf pos (enc32 (prev_page_id_ log_record))
      | APPLYDELETE | MARKDELETE | ROLLBACKDELETE =>
          let buf := memcpy buf pos (rid_bytes (delete_rid_ log_record)) in
          let pos := pos + rid_size in
          SerializeTo (delete_tuple_ log_record) buf pos
      | _ => buf
      end in
    Appended (lsn_ log_record) log_record
      (mkLogManager buf (flush_buffer_ lm) (offset_ lm + size_ log_record)
         (wrap32 (next_lsn_ lm + 1)) (persistent_lsn_ lm)).

(** *** LogRecovery::DeserializeLogRecord

    [offset] is the recovery object's [offset_], [data] the bytes from the
    pointer passed in, [log_record] the record filled in by reference. *)
Definition DeserializeLogRecord (offset : Z) (data : list Z) (log_record : LogRecord)
  : bool * LogRecord :=
  if offset + HEADER_SIZE >? LOG_BUFFER_SIZE then (false, log_record)
  else
    let size := read32 data 0 in
    if (size <=? 0) || (offset + size >? LOG_BUFFER_SIZE) then (false, log_record)
    else
      let lsn := read32 data 4 in
      let txn_id := read32 data 8 in
      let prev_lsn := read32 data 12 in
      let type := type_of_code (read32 data 16) in
      let r := log_record in
      let pos := HEADER_SIZE in
      (true,
       match type with
       | INSERT =>
           mkLogRecord size lsn txn_id prev_lsn type
             (delete_rid_ r) (delete_tuple_ r)
             (read_rid data pos) (DeserializeFrom data (pos + rid_size))
             (update_rid_ r) (old_tuple_ r) (new_tuple_ r) (prev_page_id_ r)
       | UPDATE =>
           let old := DeserializeFrom data (pos + rid_size) in
           mkLogRecord size lsn txn_id prev_lsn type
             (delete_rid_ r) (delete_tuple_ r) (insert_rid_ r) (insert_tuple_ r)
             (read_rid data pos) old
             (DeserializeFrom data (pos + rid_size + 4 + GetLength old))
             (prev_page_id_ r)
       | NEWPAGE =>
           mkLogRecord size lsn txn_id prev_lsn type
             (delete_rid_ r) (delete_tuple_ r) (insert_rid_ r) (insert_tuple_ r)
             (update_rid_ r) (old_tuple_ r) (new_tuple_ r) (read32 data pos)
       | APPLYDELETE | MARKDELETE | ROLLBACKDELETE =>
           mkLogRecord size lsn txn_id prev_lsn type
             (read_rid data pos) (DeserializeFrom data (pos + rid_size))
             (insert_rid_ r) (insert_tuple_ r)
             (update_rid_ r) (old_tuple_ r) (new_tuple_ r) (prev_page_id_ r)
       | _ =>
           mkLogRecord size lsn txn_id prev_lsn type
             (delete_rid_ r) (delete_tuple_ r) (insert_rid_ r) (insert_tuple_ r)
             (update_rid_ r) (old_tuple_ r) (new_tuple_ r) (prev_page_id_ r)
       end).

End Buffers.

(** The payload a record of each type carries. *)
Inductive Payload :=
| PNone
| PInsert (rid : RID) (tuple : Tuple)
| PUpdate (rid : RID) (old_tuple new_tuple : Tuple)
| PDelete (rid : RID) (tuple : Tuple)
| PNewPage (prev_page_id : Z).

Definition payload (r : LogRecord) : Payload :=
  match log_record_type_ r with
  | INSERT => PInsert (insert_rid_ r) (insert_tuple_ r)
  | UPDATE => PUpdate (update_rid_ r) (old_tuple_ r) (new_tuple_ r)
  | APPLYDELETE | MARKDELETE | ROLLBACKDELETE =>
      PDelete (delete_rid_ r) (delete_tuple_ r)
  | NEWPAGE => PNewPage (prev_page_id_ r)
  | _ => PNone
  end.

Definition tuple_size (t : Tuple) : Z := 4 + GetLength t.

(** The size the [LogRecord] constructors give a record of each type. *)
Definition record_size (r : LogRecord) : Z :=
  HEADER_SIZE +
  match payload r with
  | PNone => 0
  | PInsert _ t => rid_size + tuple_size t
  | PUpdate _ o n => rid_size + tuple_size o + tuple_size n
  | PDelete _ t => rid_size + tuple_size t
  | PNewPage _ => 4
  end.

Definition rid_in_range (r : RID) : Prop :=
  in_int32 (page_id_ r) /\ in_int32 (slot_num_ r).

(** The integers of the record fit their 32-bit fields and [size_] is the
    size of what is serialized. *)
Definition well_formed (r : LogRecord) : Prop :=
  size_ r = record_size r /\ in_int32 (size_ r) /\
  in_int32 (txn_id_ r) /\ in_int32 (prev_lsn_ r) /\
  match payload r with
  | PNone => True
  | PInsert rid _ | PDelete rid _ | PUpdate rid _ _ => rid_in_range rid
  | PNewPage p => in_int32 p
  end.

(** *** Facts about the byte encoding *)

Lemma dec32_enc32 (x : Z) : in_int32 x -> dec32 (enc32 x) = x.
Proof.
  unfold in_int32, dec32, enc32. intros Hx. cbn [nth].
  destruct (_ <? _) eqn:E; [apply Z.ltb_lt in E|apply Z.ltb_ge in E];
    Z.div_mod_to_equations; lia.
Qed.

(** Below the largest value the counter just counts; at it, it wraps. *)
Lemma wrap32_succ (x : Z) : in_int32 x -> x < INT_MAX -> wrap32 (x + 1) = x + 1.
Proof.
  unfold in_int32, INT_MAX, wrap32. intros Hx Hlt.
  rewrite Z.mod_small by lia. lia.
Qed.

Lemma wrap32_INT_MAX : wrap32 (INT_MAX + 1) = INT_MIN.
Proof. reflexivity. Qed.

Lemma length_enc32 (x : Z) : length (enc32 x) = 4%nat.
Proof. reflexivity. Qed.

Lemma length_rid_bytes (r : RID) : length (rid_bytes r) = 8%nat.
Proof. reflexivity. Qed.

Lemma length_header_bytes (r : LogRecord) : length (header_bytes r) = 20%nat.
Proof. reflexivity. Qed.

(** Two adjacent copies are one copy of the concatenation. *)
Lemma memcpy_memcpy (b : list Z) (p q : Z) (s1 s2 : list Z) :
  0 <= p -> q = p + Z.of_nat (length s1) ->
  (Z.to_nat p + length s1 <= length b)%nat ->
  memcpy (memcpy b p s1) q s2 = memcpy b p (s1 ++ s2).
Proof.
  intros Hp -> Hlen. unfold memcpy.
  replace (Z.to_nat (p + Z.of_nat (length s1))) with (Z.to_nat p + length s1)%nat by lia.
  set (n := Z.to_nat p) in *.
  assert (Hn : length (take n b) = n) by (rewrite length_take; lia).
  rewrite (app_assoc (take n b) s1 (drop _ b)).
  rewrite take_app_length' by (rewrite length_app; lia).
  rewrite drop_app_add' by (rewrite length_app; lia).
  rewrite drop_drop, length_app, <- !app_assoc. do 3 f_equal. f_equal. lia.
Qed.

Lemma drop_memcpy (b : list Z) (p : Z) (s : list Z) :
  (Z.to_nat p <= length b)%nat ->
  drop (Z.to_nat p) (memcpy b p s) = s ++ drop (Z.to_nat p + length s) b.
Proof.
  intros Hlen. unfold memcpy.
  now rewrite drop_app_length' by (rewrite length_take; lia).
Qed.

(** Reading past a chunk, and reading the chunk at the front. *)
Lemma read32_skip (x l : list Z) (pos : Z) :
  Z.of_nat (length x) <= pos ->
  read32 (x ++ l) pos = read32 l (pos - Z.of_nat (length x)).
Proof.
  intros Hle. unfold read32.
  replace (Z.to_nat pos) with (length x + Z.to_nat (pos - Z.of_nat (length x)))%nat by lia.
  now rewrite drop_app_add.
Qed.

Lemma read32_here (x : Z) (l : list Z) :
  in_int32 x -> read32 (enc32 x ++ l) 0 = x.
Proof. intros Hx. unfold read32. simpl. now rewrite <- (dec32_enc32 x Hx) at 5. Qed.

Lemma read_rid_skip (x l : list Z) (pos : Z) :
  Z.of_nat (length x) <= pos ->
  read_rid (x ++ l) pos = read_rid l (pos - Z.of_nat (length x)).
Proof.
  intros Hle. unfold read_rid. rewrite !read32_skip by lia. do 2 f_equal. lia.
Qed.

Lemma read_rid_here (r : RID) (l : list Z) :
  rid_in_range r -> read_rid (rid_bytes r ++ l) 0 = r.
Proof.
  intros [Hp Hs]. unfold read_rid, rid_bytes. rewrite <- app_assoc.
  rewrite read32_here by assumption.
  rewrite read32_skip by (rewrite length_enc32; lia).
  rewrite length_enc32. change (0 + 4 - Z.of_nat 4) with 0.
  rewrite read32_here by assumption. now destruct r.
Qed.

Lemma DeserializeFrom_skip (x l : list Z) (pos : Z) :
  Z.of_nat (length x) <= pos ->
  DeserializeFrom (x ++ l) pos = DeserializeFrom l (pos - Z.of_nat (length x)).
Proof.
  intros Hle. unfold DeserializeFrom. rewrite read32_skip by lia. f_equal.
  replace (Z.to_nat (pos + 4))
    with (length x + Z.to_nat (pos - Z.of_nat (length x) + 4))%nat by lia.
  now rewrite drop_app_add.
Qed.

Lemma DeserializeFrom_here (t : Tuple) (l : list Z) :
  in_int32 (GetLength t) ->
  DeserializeFrom ((enc32 (GetLength t) ++ t) ++ l) 0 = t.
Proof.
  intros Hx. unfold DeserializeFrom. rewrite <- app_assoc.
  rewrite read32_here by assumption. change (Z.to_nat (0 + 4)) with 4%nat.
  change (drop 4 (enc32 (GetLength t) ++ t ++ l)) with (t ++ l).
  unfold GetLength. now rewrite Nat2Z.id, take_app_length.
Qed.

(** *** Serialize, then deserialize *)

Definition tuple_bytes (t : Tuple) : list Z := enc32 (GetLength t) ++ t.

Definition payload_bytes (r : LogRecord) : list Z :=
  match payload r with
  | PNone => []
  | PInsert rid t | PDelete rid t => rid_bytes rid ++ tuple_bytes t
  | PUpdate rid o n => rid_bytes rid ++ tuple_bytes o ++ tuple_bytes n
  | PNewPage p => enc32 p
  end.

Definition serialize (r : LogRecord) : list Z := header_bytes r ++ payload_bytes r.

Lemma length_tuple_bytes (t : Tuple) :
  Z.of_nat (length (tuple_bytes t)) = tuple_size t.
Proof. unfold tuple_bytes, tuple_size, GetLength. rewrite length_app, length_enc32. lia. Qed.

Lemma length_serialize (r : LogRecord) :
  Z.of_nat (length (serialize r)) = record_size r.
Proof.
  unfold serialize, record_size, payload_bytes. rewrite length_app, length_header_bytes.
  unfold HEADER_SIZE, rid_size.
  destruct (payload r); rewrite ?length_app, ?length_rid_bytes, ?length_enc32;
    rewrite ?Nat2Z.inj_add, ?length_tuple_bytes; simpl; lia.
Qed.

Lemma payload_set_lsn (l : Z) (r : LogRecord) : payload (set_lsn l r) = payload r.
Proof. reflexivity. Qed.

(** What AppendLogRecord leaves in the buffer. *)
Lemma AppendLogRecord_buffer (LOG_BUFFER_SIZE : Z) (r : LogRecord) (lm : LogManager) :
  size_ r = record_size r ->
  0 <= offset_ lm ->
  Z.of_nat (length (log_buffer_ lm)) = LOG_BUFFER_SIZE ->
  offset_ lm + size_ r <= LOG_BUFFER_SIZE ->
  AppendLogRecord LOG_BUFFER_SIZE r lm
  = Appended (next_lsn_ lm) (set_lsn (next_lsn_ lm) r)
      (mkLogManager
         (memcpy (log_buffer_ lm) (offset_ lm) (serialize (set_lsn (next_lsn_ lm) r)))
         (flush_buffer_ lm) (offset_ lm + size_ r) (wrap32 (next_lsn_ lm + 1))
         (persistent_lsn_ lm)).
Proof.
  intros Hsize Hoff Hlen Hfit. unfold AppendLogRecord.
  destruct (_ >? _) eqn:E; [apply Z.gtb_lt in E; lia|clear E].
  cbv zeta. f_equal. f_equal.
  pose proof (length_serialize r) as Hser. rewrite <- Hsize in Hser.
  unfold serialize, payload_bytes, payload, record_size, payload in *.
  unfold SerializeTo, HEADER_SIZE, rid_size, tuple_size, tuple_bytes in *.
  set (r' := set_lsn (next_lsn_ lm) r) in *.
  change (log_record_type_ r') with (log_record_type_ r).
  change (insert_rid_ r') with (insert_rid_ r).
  change (insert_tuple_ r') with (insert_tuple_ r).
  change (update_rid_ r') with (update_rid_ r).
  change (old_tuple_ r') with (old_tuple_ r).
  change (new_tuple_ r') with (new_tuple_ r).
  change (delete_rid_ r') with (delete_rid_ r).
  change (delete_tuple_ r') with (delete_tuple_ r).
  change (prev_page_id_ r') with (prev_page_id_ r).
  assert (Hh : length (header_bytes r') = 20%nat) by reflexivity.
  unfold GetLength in *.
  destruct (log_record_type_ r);
    repeat (rewrite (memcpy_memcpy (log_buffer_ lm));
            [|lia
             |rewrite ?length_app, ?length_rid_bytes, ?length_enc32, ?Hh; lia
             |rewrite ?length_app, ?length_rid_bytes, ?length_enc32, ?Hh; lia]);
    rewrite ?app_nil_r, <- ?app_assoc; reflexivity.
Qed.

Lemma DeserializeFrom_tuple_bytes (t : Tuple) (l : list Z) :
  in_int32 (GetLength t) -> DeserializeFrom (tuple_bytes t ++ l) 0 = t.
Proof. apply DeserializeFrom_here. Qed.

Lemma type_of_code_type_code (t : LogRecordType) : type_of_code (type_code t) = t.
Proof. now destruct t. Qed.

Lemma in_int32_type_code (t : LogRecordType) : in_int32 (type_code t).
Proof. unfold in_int32. destruct t; simpl; lia. Qed.

(** Move the read position past the chunk at the front of the data. *)
Ltac skip_chunk :=
  first [ rewrite read32_skip
            by (rewrite ?length_enc32, ?length_rid_bytes, ?length_header_bytes, ?length_tuple_bytes;
                unfold tuple_size, GetLength; lia)
        | rewrite read_rid_skip
            by (rewrite ?length_enc32, ?length_rid_bytes, ?length_header_bytes, ?length_tuple_bytes;
                unfold tuple_size, GetLength; lia)
        | rewrite DeserializeFrom_skip
            by (rewrite ?length_enc32, ?length_rid_bytes, ?length_header_bytes, ?length_tuple_bytes;
                unfold tuple_size, GetLength; lia) ];
  rewrite ?length_enc32, ?length_rid_bytes, ?length_header_bytes, ?length_tuple_bytes;
  unfold tuple_size, GetLength;
  match goal with
  | |- context [read32 _ ?p] => ring_simplify p
  | |- context [read_rid _ ?p] => ring_simplify p
  | |- context [DeserializeFrom _ ?p] => ring_simplify p
  end.

Lemma header_of_serialize (r : LogRecord) (rest : list Z) :
  in_int32 (size_ r) -> in_int32 (lsn_ r) -> in_int32 (txn_id_ r) ->
  in_int32 (prev_lsn_ r) ->
  let data := serialize r ++ rest in
  read32 data 0 = size_ r /\ read32 data 4 = lsn_ r /\ read32 data 8 = txn_id_ r /\
  read32 data 12 = prev_lsn_ r /\
  type_of_code (read32 data 16) = log_record_type_ r.
Proof.
  intros Hs Hl Ht Hp data. subst data. unfold serialize, header_bytes.
  rewrite <- !app_assoc.
  pose proof (in_int32_type_code (log_record_type_ r)) as Hc.
  repeat split.
  - now apply read32_here.
  - skip_chunk. now apply read32_here.
  - do 2 skip_chunk. now apply read32_here.
  - do 3 skip_chunk. now apply read32_here.
  - do 4 skip_chunk. rewrite read32_here by assumption.
    apply type_of_code_type_code.
Qed.

Lemma record_size_lower (r : LogRecord) : HEADER_SIZE <= record_size r.
Proof.
  unfold record_size, tuple_size, GetLength, rid_size. destruct (payload r); lia.
Qed.

Lemma Deserialize_serialize (LOG_BUFFER_SIZE off : Z) (r r0 : LogRecord) (rest : list Z) :
  well_formed r -> in_int32 (lsn_ r) ->
  0 <= off -> off + size_ r <= LOG_BUFFER_SIZE ->
  exists d,
    DeserializeLogRecord LOG_BUFFER_SIZE off (serialize r ++ rest) r0 = (true, d) /\
    size_ d = size_ r /\ lsn_ d = lsn_ r /\ txn_id_ d = txn_id_ r /\
    prev_lsn_ d = prev_lsn_ r /\ log_record_type_ d = log_record_type_ r /\
    payload d = payload r.
Proof.
  intros (Hsize & Hs & Ht & Hp & Hpay) Hl Hoff Hfit.
  destruct (header_of_serialize r rest Hs Hl Ht Hp) as (R0 & R4 & R8 & R12 & R16).
  pose proof (record_size_lower r) as Hlow. unfold HEADER_SIZE in Hlow.
  unfold DeserializeLogRecord. cbv zeta. rewrite R0, R4, R8, R12, R16.
  unfold HEADER_SIZE, rid_size.
  destruct (_ >? _) eqn:E1; [apply Z.gtb_lt in E1; lia|clear E1].
  destruct (_ <=? _) eqn:E2; [apply Z.leb_le in E2; lia|clear E2].
  destruct (_ >? _) eqn:E3; [apply Z.gtb_lt in E3; lia|clear E3].
  cbn [orb].
  unfold record_size, tuple_size, rid_size, HEADER_SIZE in Hsize.
  unfold in_int32, GetLength in *.
  unfold serialize, payload_bytes. unfold payload in *.
  destruct (log_record_type_ r) eqn:Hty; eexists; (split; [reflexivity|]);
    cbn [size_ lsn_ txn_id_ prev_lsn_ log_record_type_ insert_rid_ insert_tuple_
         delete_rid_ delete_tuple_ update_rid_ old_tuple_ new_tuple_ prev_page_id_];
    repeat (split; [reflexivity|]);
    rewrite <- ?app_assoc.
  all: try reflexivity.
  - (* INSERT *)
    skip_chunk. rewrite read_rid_here by assumption.
    do 2 skip_chunk. rewrite DeserializeFrom_tuple_bytes; [reflexivity|].
    unfold in_int32, GetLength. lia.
  - (* MARKDELETE *)
    skip_chunk. rewrite read_rid_here by assumption.
    do 2 skip_chunk. rewrite DeserializeFrom_tuple_bytes; [reflexivity|].
    unfold in_int32, GetLength. lia.
  - (* APPLYDELETE *)
    skip_chunk. rewrite read_rid_here by assumption.
    do 2 skip_chunk. rewrite DeserializeFrom_tuple_bytes; [reflexivity|].
    unfold in_int32, GetLength. lia.
  - (* ROLLBACKDELETE *)
    skip_chunk. rewrite read_rid_here by assumption.
    do 2 skip_chunk. rewrite DeserializeFrom_tuple_bytes; [reflexivity|].
    unfold in_int32, GetLength. lia.
  - (* UPDATE *)
    skip_chunk. rewrite read_rid_here by assumption.
    do 2 skip_chunk.
    rewrite DeserializeFrom_tuple_bytes by (unfold in_int32, GetLength; lia).
    do 3 skip_chunk.
    rewrite DeserializeFrom_tuple_bytes by (unfold in_int32, GetLength; lia).
    reflexivity.
  - (* NEWPAGE *)
    skip_chunk. now rewrite read32_here.
Qed.

(** C7: a record of any type appended to the log buffer by AppendLogRecord is
    read back by DeserializeLogRecord from the same place with the same
    header fields (size, the lsn stamped by the append, txn_id, prev_lsn,
    type) and the same payload. *)
Theorem C7_serialize_deserialize (LOG_BUFFER_SIZE : Z) (r r0 : LogRecord)
    (lm : LogManager) :
  well_formed r ->
  in_int32 (next_lsn_ lm) ->
  0 <= offset_ lm ->
  Z.of_nat (length (log_buffer_ lm)) = LOG_BUFFER_SIZE ->
  offset_ lm + size_ r <= LOG_BUFFER_SIZE ->
  exists r' lm' d,
    AppendLogRecord LOG_BUFFER_SIZE r lm = Appended (next_lsn_ lm) r' lm' /\
    DeserializeLogRecord LOG_BUFFER_SIZE (offset_ lm)
      (drop (Z.to_nat (offset_ lm)) (log_buffer_ lm')) r0 = (true, d) /\
    size_ d = size_ r /\ lsn_ d = next_lsn_ lm /\ lsn_ d = lsn_ r' /\
    txn_id_ d = txn_id_ r /\ prev_lsn_ d = prev_lsn_ r /\
    log_record_type_ d = log_record_type_ r /\
    payload d = payload r.
Proof.
  intros Hwf Hlsn Hoff Hlen Hfit.
  pose proof Hwf as (Hsize & _).
  rewrite (AppendLogRecord_buffer _ _ _ Hsize Hoff Hlen Hfit).
  set (r' := set_lsn (next_lsn_ lm) r).
  assert (Hwf' : well_formed r') by exact Hwf.
  destruct (Deserialize_serialize LOG_BUFFER_SIZE (offset_ lm) r' r0
              (drop (Z.to_nat (offset_ lm) + length (serialize r')) (log_buffer_ lm))
              Hwf' Hlsn Hoff Hfit)
    as (d & Hd & Hs & Hl & Ht & Hp & Hty & Hpay).
  exists r'. eexists. exists d. split; [reflexivity|]. cbn [log_buffer_].
  pose proof (record_size_lower r) as Hlow. unfold HEADER_SIZE in Hlow.
  rewrite drop_memcpy by lia. split; [exact Hd|].
  repeat split; assumption.
Qed.

Definition insert_record : LogRecord :=
  mkLogRecord 35 INVALID_LSN 1 0 INSERT invalid_rid [] (mkRID 7 3) [1; 2; 3]
    invalid_rid [] [] INVALID_PAGE_ID.
Definition fresh_log : LogManager :=
  mkLogManager (repeat 0 64) (repeat 0 64) 20 1 INVALID_LSN.

Lemma C7_serialize_deserialize_witness :
  well_formed insert_record /\
  exists r' lm' d,
    AppendLogRecord 64 insert_record fresh_log = Appended 1 r' lm' /\
    DeserializeLogRecord 64 20 (drop 20 (log_buffer_ lm')) LogRecord_default
      = (true, d) /\
    size_ d = 35 /\ lsn_ d = 1 /\ lsn_ d = lsn_ r' /\ txn_id_ d = 1 /\
    prev_lsn_ d = 0 /\ log_record_type_ d = INSERT /\
    payload d = PInsert (mkRID 7 3) [1; 2; 3].
Proof.
  assert (Hwf : well_formed insert_record).
  { unfold well_formed, in_int32, rid_in_range, in_int32. simpl.
    unfold record_size, HEADER_SIZE, rid_size, tuple_size, GetLength. simpl. lia. }
  split; [exact Hwf|].
  apply (C7_serialize_deserialize 64 insert_record LogRecord_default fresh_log Hwf).
  - unfold in_int32. simpl. lia.
  - simpl. lia.
  - reflexivity.
  - simpl. lia.
Defined.

(** *** LogRecovery::Undo *)

(** The calls made on table pages: the page fetched from the buffer pool and
    the [TablePage] method invoked on it (table_page.cpp is not among the
    sources).  [CallUpdateTuple page new_tuple old_tuple rid] passes the
    arguments in the order of [TablePage::UpdateTuple]. *)
Inductive PageCall :=
| CallApplyDelete (page_id : Z) (rid : RID)
| CallUpdateTuple (page_id : Z) (new_tuple old_tuple : Tuple) (rid : RID)
| CallInsertTuple (page_id : Z) (tuple : Tuple) (rid : RID)
| CallRollbackDelete (page_id : Z) (rid : RID)
| CallMarkDelete (page_id : Z) (rid : RID).

Definition fetched_page (c : PageCall) : Z :=
  match c with
  | CallApplyDelete p _ | CallUpdateTuple p _ _ _ | CallInsertTuple p _ _
  | CallRollbackDelete p _ | CallMarkDelete p _ => p
  end.

(** One iteration of the inner loop of Undo, after the record is read. *)
Inductive undo_step_result :=
| UndoBreak
| UndoCall (c : PageCall)
| UndoThrow.

Definition undo_record (record : LogRecord) : undo_step_result :=
  match log_record_type_ record with
  | BEGIN => UndoBreak
  | type =>
      let page_id := GetPageId (insert_rid_ record) in
      match type with
      | INSERT => UndoCall (CallApplyDelete page_id (insert_rid_ record))
      | UPDATE =>
          UndoCall (CallUpdateTuple page_id (old_tuple_ record) (new_tuple_ record)
                      (update_rid_ record))
      | APPLYDELETE =>
          UndoCall (CallInsertTuple page_id (delete_tuple_ record) (delete_rid_ record))
      | MARKDELETE => UndoCall (CallRollbackDelete page_id (delete_rid_ record))
      | ROLLBACKDELETE => UndoCall (CallMarkDelete page_id (delete_rid_ record))
      | _ => UndoThrow
      end
  end.

Inductive undo_status :=
| UndoFinished
| UndoException
| UndoAssertFailed
| UndoOutOfFuel.

Section Recovery.
Variable LOG_BUFFER_SIZE : Z.

(** Modelled from the spec: [read_log(buf, max, offset)] of the disk manager
    (not among the sources) fills the buffer with up to [max] bytes of the
    log file from [offset], zero-padded, and returns false at end of file. *)
Definition ReadLog (log_file : list Z) (offset : Z) : option (list Z) :=
  if (offset <? 0) || (Z.of_nat (length log_file) <=? offset) then None
  else
    let bytes := take (Z.to_nat LOG_BUFFER_SIZE) (drop (Z.to_nat offset) log_file) in
    Some (bytes ++ repeat 0 (Z.to_nat LOG_BUFFER_SIZE - length bytes)).

(** [lsn_mapping_[lsn]]: a missing key reads as 0. *)
Definition mapping_at (lsn_mapping_ : gmap Z Z) (lsn : Z) : Z :=
  default 0 (lsn_mapping_ !! lsn).

(** The inner while loop of Undo for one loser transaction, from the offset
    of its last record; the calls made come back in order. *)
Fixpoint undo_chain (fuel : nat) (log_file : list Z) (lsn_mapping_ : gmap Z Z)
    (next_offset : Z) : list PageCall * undo_status :=
  match fuel with
  | O => ([], UndoOutOfFuel)
  | S fuel =>
      match ReadLog log_file next_offset with
      | None => ([], UndoFinished)
      | Some log_buffer =>
          match DeserializeLogRecord LOG_BUFFER_SIZE 0 log_buffer LogRecord_default with
          | (false, _) => ([], UndoAssertFailed)
          | (true, record) =>
              match undo_record record with
              | UndoBreak => ([], UndoFinished)
              | UndoThrow => ([], UndoException)
              | UndoCall c =>
                  let '(calls, st) :=
                    undo_chain fuel log_file lsn_mapping_
                      (mapping_at lsn_mapping_ (prev_lsn_ record)) in
                  (c :: calls, st)
              end
          end
      end
  end.

(** The outer loop over [active_txn_], given as the list of its entries in
    iteration order. *)
Fixpoint undo_all (fuel : nat) (log_file : list Z) (lsn_mapping_ : gmap Z Z)
    (active : list (Z * Z)) : list PageCall * undo_status :=
  match active with
  | [] => ([], UndoFinished)
  | (_, last_lsn) :: active =>
      match undo_chain fuel log_file lsn_mapping_ (mapping_at lsn_mapping_ last_lsn) with
      | (calls, UndoFinished) =>
          let '(calls', st) := undo_all fuel log_file lsn_mapping_ active in
          (calls ++ calls', st)
      | r => r
      end
  end.

Definition Undo (fuel : nat) (log_file : list Z) (active_txn_ : gmap Z Z)
    (lsn_mapping_ : gmap Z Z) : list PageCall * undo_status :=
  undo_all fuel log_file lsn_mapping_ (map_to_list active_txn_).

End Recovery.

(** The page a record is about. *)
Definition record_rid (r : LogRecord) : option RID :=
  match payload r with
  | PInsert rid _ | PUpdate rid _ _ | PDelete rid _ => Some rid
  | _ => None
  end.

(** Undo of an INSERT record goes to the page of the record's rid. *)
Lemma undo_record_insert (r : LogRecord) :
  log_record_type_ r = INSERT ->
  undo_record r = UndoCall (CallApplyDelete (GetPageId (insert_rid_ r)) (insert_rid_ r)).
Proof. intros Hty. unfold undo_record. now rewrite Hty. Qed.

(** For every other mutation the page is still taken from [insert_rid_],
    which deserialization leaves as it was in the fresh record. *)
Lemma undo_record_other_page (r : LogRecord) (c : PageCall) :
  log_record_type_ r <> INSERT ->
  undo_record r = UndoCall c ->
  fetched_page c = GetPageId (insert_rid_ r).
Proof.
  intros Hty. unfold undo_record.
  destruct (log_record_type_ r); try discriminate; intros [= <-]; reflexivity.
Qed.

Definition begin_record : LogRecord :=
  mkLogRecord 20 0 2 INVALID_LSN BEGIN invalid_rid [] invalid_rid []
    invalid_rid [] [] INVALID_PAGE_ID.
Definition update_record : LogRecord :=
  mkLogRecord 38 1 2 0 UPDATE invalid_rid [] invalid_rid []
    (mkRID 7 4) [10] [11] INVALID_PAGE_ID.
Definition loser_log : list Z := serialize begin_record ++ serialize update_record.

(** C4, evaluated on the log BEGIN(txn 2), UPDATE(txn 2, rid (7,4), old [10],
    new [11]) with txn 2 a loser: the undo pass calls UpdateTuple with old
    and new swapped for rid (7,4), but on the page fetched with the id of the
    record's [insert_rid_], the invalid page id, not page 7. *)
Theorem C4_undo_update_fetches_wrong_page :
  Undo 64 10 loser_log {[2 := 1]} {[0 := 0; 1 := 20]}
  = ([CallUpdateTuple INVALID_PAGE_ID [10] [11] (mkRID 7 4)], UndoFinished) /\
  record_rid update_record = Some (mkRID 7 4) /\
  INVALID_PAGE_ID <> GetPageId (mkRID 7 4).
Proof.
  split; [vm_compute; reflexivity|]. split; [reflexivity|]. discriminate.
Qed.


(** *** A run of appends *)

Lemma length_memcpy (b : list Z) (p : Z) (s : list Z) :
  (Z.to_nat p + length s <= length b)%nat -> length (memcpy b p s) = length b.
Proof.
  intros Hfit. unfold memcpy. rewrite !length_app, length_take, length_drop. lia.
Qed.

Lemma take_memcpy (b : list Z) (p : Z) (s : list Z) :
  (Z.to_nat p <= length b)%nat -> take (Z.to_nat p) (memcpy b p s) = take (Z.to_nat p) b.
Proof.
  intros Hfit. unfold memcpy. rewrite take_app_length'; [reflexivity|].
  rewrite length_take. lia.
Qed.

Lemma record_size_set_lsn (l : Z) (r : LogRecord) :
  record_size (set_lsn l r) = record_size r.
Proof. reflexivity. Qed.

(** The records with the sequence numbers a run of appends gives them. *)
Fixpoint assign_lsns (next_lsn : Z) (rs : list LogRecord) : list LogRecord :=
  match rs with
  | [] => []
  | r :: rs => set_lsn next_lsn r :: assign_lsns (next_lsn + 1) rs
  end.

Definition total_size (rs : list LogRecord) : Z :=
  foldr (fun r n => size_ r + n) 0 rs.

Definition log_bytes (rs : list LogRecord) : list Z := concat (List.map serialize rs).

Section Appends.
Variable LOG_BUFFER_SIZE : Z.

(** A caller appending [rs] one after the other; [None] when an append finds
    the buffer full. *)
Fixpoint append_all (rs : list LogRecord) (lm : LogManager)
  : option (list LogRecord * LogManager) :=
  match rs with
  | [] => Some ([], lm)
  | r :: rs =>
      match AppendLogRecord LOG_BUFFER_SIZE r lm with
      | BufferFull => None
      | Appended _ r' lm' =>
          match append_all rs lm' with
          | Some (rs', lm'') => Some (r' :: rs', lm'')
          | None => None
          end
      end
  end.

Lemma total_size_nonneg (rs : list LogRecord) :
  Forall (fun r => size_ r = record_size r) rs -> 0 <= total_size rs.
Proof.
  induction 1 as [|r rs Hr _ IH]; simpl; [lia|].
  pose proof (record_size_lower r). unfold HEADER_SIZE in *. lia.
Qed.

Lemma length_log_bytes (rs : list LogRecord) :
  Forall (fun r => size_ r = record_size r) rs ->
  Z.of_nat (length (log_bytes rs)) = total_size rs.
Proof.
  induction 1 as [|r rs Hr _ IH]; [reflexivity|].
  unfold log_bytes, total_size in *. cbn [List.map concat foldr].
  rewrite length_app, Nat2Z.inj_add, IH, length_serialize. lia.
Qed.

Lemma assign_lsns_sizes (l : Z) (rs : list LogRecord) :
  Forall (fun r => size_ r = record_size r) rs ->
  Forall (fun r => size_ r = record_size r) (assign_lsns l rs) /\
  total_size (assign_lsns l rs) = total_size rs.
Proof.
  intros H. revert l. induction H as [|r rs Hr _ IH]; intros l; simpl.
  - split; [constructor|reflexivity].
  - destruct (IH (l + 1)) as [IH1 IH2]. split; [constructor; assumption|].
    now rewrite IH2.
Qed.

(** X11: appending records whose sizes add up to no more than the room left
    in the log buffer, while the 32-bit counter next_lsn_ stays at or below
    its largest value, gives them consecutive sequence numbers starting at
    next_lsn_, advances offset_ by the sum of their sizes and next_lsn_ by
    their number, and leaves in the buffer the bytes before the old offset,
    then the records' images back to back, then the old bytes after them. *)
Theorem appends_are_contiguous (rs : list LogRecord) (lm : LogManager) :
  Forall (fun r => size_ r = record_size r) rs ->
  0 <= offset_ lm ->
  Z.of_nat (length (log_buffer_ lm)) = LOG_BUFFER_SIZE ->
  offset_ lm + total_size rs <= LOG_BUFFER_SIZE ->
  in_int32 (next_lsn_ lm) ->
  next_lsn_ lm + Z.of_nat (length rs) <= INT_MAX ->
  append_all rs lm
  = Some (assign_lsns (next_lsn_ lm) rs,
          mkLogManager
            (memcpy (log_buffer_ lm) (offset_ lm)
               (log_bytes (assign_lsns (next_lsn_ lm) rs)))
            (flush_buffer_ lm) (offset_ lm + total_size rs)
            (next_lsn_ lm + Z.of_nat (length rs)) (persistent_lsn_ lm)).
Proof.
  intros Hall. revert lm.
  induction Hall as [|r rs Hr Hrs IH]; intros lm Hoff Hlen Hfit Hlsn Hmax.
  - simpl. f_equal. f_equal. destruct lm as [b f o n p]. simpl in *.
    unfold memcpy, log_bytes. simpl.
    rewrite Nat.add_0_r, take_drop, !Z.add_0_r. reflexivity.
  - pose proof (total_size_nonneg rs Hrs) as Hnn. simpl in Hfit.
    pose proof (record_size_lower r) as Hlow. unfold HEADER_SIZE in Hlow.
    cbn [append_all].
    rewrite (AppendLogRecord_buffer LOG_BUFFER_SIZE r lm Hr Hoff Hlen) by lia.
    cbn [length] in Hmax.
    rewrite (wrap32_succ (next_lsn_ lm)) by (try assumption; lia).
    set (r' := set_lsn (next_lsn_ lm) r).
    assert (Hser : Z.of_nat (length (serialize r')) = size_ r).
    { rewrite length_serialize. unfold r'. now rewrite record_size_set_lsn. }
    rewrite IH; cbn [offset_ log_buffer_ next_lsn_ flush_buffer_ persistent_lsn_].
    + f_equal. f_equal.
      f_equal; [|unfold total_size; cbn [foldr]; lia|cbn [length]; lia].
      cbn [assign_lsns]. fold r'. unfold log_bytes. cbn [List.map concat].
      apply memcpy_memcpy; lia.
    + lia.
    + rewrite length_memcpy; [exact Hlen|lia].
    + lia.
    + unfold in_int32, INT_MAX in *. lia.
    + lia.
Qed.

End Appends.

(** A BEGIN record of transaction 3. *)
Definition begin3_record : LogRecord :=
  mkLogRecord 20 2 3 INVALID_LSN BEGIN invalid_rid [] invalid_rid []
    invalid_rid [] [] INVALID_PAGE_ID.

Lemma appends_are_contiguous_witness :
  exists rs' lm',
    append_all 64 [begin_record; begin3_record] fresh_log = Some (rs', lm') /\
    List.map lsn_ rs' = [1; 2] /\ offset_ lm' = 60 /\ next_lsn_ lm' = 3 /\
    log_buffer_ lm' = memcpy (log_buffer_ fresh_log) 20 (log_bytes rs').
Proof.
  eexists. eexists. split.
  - apply appends_are_contiguous.
    + repeat constructor.
    + simpl. lia.
    + reflexivity.
    + unfold total_size. simpl. lia.
    + unfold in_int32. simpl. lia.
    + unfold INT_MAX. simpl. lia.
  - repeat split.
Defined.

(** *** LogRecovery::Redo *)

(** What Redo asks of the table pages (table_page.h is not among the
    sources): the page fetched, the sequence number it compares with the
    page's LSN to decide whether to apply, and the operation with its
    arguments. *)
Inductive RedoCall :=
| RedoInsertTuple (page_id lsn : Z) (tuple : Tuple) (rid : RID)
| RedoUpdateTuple (page_id lsn : Z) (new_tuple old_tuple : Tuple) (rid : RID)
| RedoApplyDelete (page_id lsn : Z) (rid : RID)
| RedoMarkDelete (page_id lsn : Z) (rid : RID)
| RedoRollbackDelete (page_id lsn : Z) (rid : RID)
| RedoNewPage (prev_page_id : Z).

Definition redo_call (record : LogRecord) : option RedoCall :=
  match log_record_type_ record with
  | INSERT =>
      Some (RedoInsertTuple (GetPageId (insert_rid_ record)) (lsn_ record)
              (insert_tuple_ record) (insert_rid_ record))
  | UPDATE =>
      Some (RedoUpdateTuple (GetPageId (update_rid_ record)) (lsn_ record)
              (new_tuple_ record) (old_tuple_ record) (update_rid_ record))
  | APPLYDELETE =>
      Some (RedoApplyDelete (GetPageId (delete_rid_ record)) (lsn_ record)
              (delete_rid_ record))
  | MARKDELETE =>
      Some (RedoMarkDelete (GetPageId (delete_rid_ record)) (lsn_ record)
              (delete_rid_ record))
  | ROLLBACKDELETE =>
      Some (RedoRollbackDelete (GetPageId (delete_rid_ record)) (lsn_ record)
              (delete_rid_ record))
  | NEWPAGE => Some (RedoNewPage (prev_page_id_ record))
  | _ => None
  end.

(** Modelled from the spec: what the NEWPAGE branch of Redo reaches through
    the buffer pool (buffer_pool_manager.cpp, disk_manager.cpp and
    table_page.cpp are not among the sources).  [new_page] allocates a fresh
    page id from the disk manager, here the next unused one; a table page
    has a next-page id, which [Init] sets to INVALID_PAGE_ID.  The other
    page operations of Redo leave these links alone. *)
Record TablePages := mkTablePages {
  disk_next_page_id : Z;
  next_page_id_of : gmap Z Z
}.

(** The NEWPAGE branch: a page is allocated and initialised; when the record
    names a previous page, that page is linked to the new one if it has no
    successor yet, and otherwise the assertion asks that its successor is
    the page just allocated.  A previous page the store does not hold is
    given no meaning. *)
Definition redo_new_page (prev_page_id : Z) (ps : TablePages) : outcome TablePages :=
  let new_page_id := disk_next_page_id ps in
  let links := <[new_page_id := INVALID_PAGE_ID]> (next_page_id_of ps) in
  if prev_page_id =? INVALID_PAGE_ID then Done (mkTablePages (new_page_id + 1) links)
  else
    match links !! prev_page_id with
    | None => Undefined
    | Some next =>
        if next =? INVALID_PAGE_ID
        then Done (mkTablePages (new_page_id + 1) (<[prev_page_id := new_page_id]> links))
        else if new_page_id =? next then Done (mkTablePages (new_page_id + 1) links)
        else Undefined
    end.

(** What a record does to the page links when it is redone. *)
Definition page_effect (record : LogRecord) (ps : TablePages) : outcome TablePages :=
  match log_record_type_ record with
  | NEWPAGE => redo_new_page (prev_page_id_ record) ps
  | _ => Done ps
  end.

Record RedoState := mkRedoState {
  active_txn_ : gmap Z Z;
  lsn_mapping_ : gmap Z Z;
  redo_calls : list RedoCall;
  table_pages : TablePages
}.

(** The body of the inner loop for one record found at [read_offset], up to
    the entry in lsn_mapping_. *)
Definition redo_one (record : LogRecord) (read_offset : Z) (st : RedoState)
  : outcome RedoState :=
  ps ← page_effect record (table_pages st);
  Done (mkRedoState
          (match log_record_type_ record with
           | COMMIT | ABORT => delete (txn_id_ record) (active_txn_ st)
           | _ => <[txn_id_ record := lsn_ record]> (active_txn_ st)
           end)
          (<[lsn_ record := read_offset]> (lsn_mapping_ st))
          (redo_calls st ++ match redo_call record with Some c => [c] | None => [] end)
          ps).

(** [read_offset += record.size_] on an [int]: an addition past INT_MAX is
    given no meaning. *)
Definition advance (read_offset size : Z) : outcome Z :=
  if read_offset + size >? INT_MAX then Undefined else Done (read_offset + size).

Section RedoPass.
Variable LOG_BUFFER_SIZE : Z.

(** The inner loop: records are taken from the buffer while
    DeserializeLogRecord succeeds.  The result is the state and read_offset
    at the exit. *)
Fixpoint redo_buffer (fuel : nat) (log_buffer : list Z) (offset read_offset : Z)
    (record : LogRecord) (st : RedoState) : outcome (RedoState * Z) :=
  match fuel with
  | O => OutOfFuel
  | S fuel =>
      match DeserializeLogRecord LOG_BUFFER_SIZE offset
              (drop (Z.to_nat offset) log_buffer) record with
      | (false, _) => Done (st, read_offset)
      | (true, record) =>
          st ← redo_one record read_offset st;
          read_offset ← advance read_offset (size_ record);
          redo_buffer fuel log_buffer (offset + size_ record) read_offset record st
      end
  end.

(** The outer loop: one buffer per ReadLog. *)
Fixpoint redo_file (fuel : nat) (log_file : list Z) (read_offset : Z) (st : RedoState)
  : outcome RedoState :=
  match fuel with
  | O => OutOfFuel
  | S fuel' =>
      match ReadLog LOG_BUFFER_SIZE log_file read_offset with
      | None => Done st
      | Some log_buffer =>
          '(st, read_offset) ←
            redo_buffer fuel log_buffer 0 read_offset LogRecord_default st;
          redo_file fuel' log_file read_offset st
      end
  end.

(** Redo, started on the table pages the buffer pool gives access to. *)
Definition Redo (fuel : nat) (pages : TablePages) (log_file : list Z)
  : outcome RedoState :=
  redo_file fuel log_file 0 (mkRedoState ∅ ∅ [] pages).

End RedoPass.

(** The same pass over the records themselves. *)
Fixpoint replay (rs : list LogRecord) (read_offset : Z) (st : RedoState)
  : outcome (RedoState * Z) :=
  match rs with
  | [] => Done (st, read_offset)
  | r :: rs =>
      st ← redo_one r read_offset st;
      read_offset ← advance read_offset (size_ r);
      replay rs read_offset st
  end.

(** The state a pass ends in. *)
Definition final (run : outcome (RedoState * Z)) : outcome RedoState :=
  '(st, _) ← run; Done st.

(** The NEWPAGE records of a log, redone in order on the page links. *)
Fixpoint new_pages (rs : list LogRecord) (ps : TablePages) : outcome TablePages :=
  match rs with
  | [] => Done ps
  | r :: rs => ps ← page_effect r ps; new_pages rs ps
  end.

Lemma outcome_bind_Done {A B : Type} (a : A) (k : A -> outcome B) : (Done a ≫= k) = k a.
Proof. reflexivity. Qed.

Lemma replay_app (rs1 rs2 : list LogRecord) (read_offset : Z) (st : RedoState) :
  replay (rs1 ++ rs2) read_offset st
  = '(st, read_offset) ← replay rs1 read_offset st; replay rs2 read_offset st.
Proof.
  revert read_offset st. induction rs1 as [|r rs1 IH]; intros ro st; [reflexivity|].
  cbn [app replay]. destruct (redo_one r ro st) as [st1| |]; try reflexivity.
  rewrite !outcome_bind_Done. destruct (advance ro (size_ r)) as [ro1| |]; try reflexivity.
  rewrite !outcome_bind_Done. apply IH.
Qed.

(** What a replay that goes through leaves behind. *)
Lemma replay_Done_inv (rs : list LogRecord) :
  forall (read_offset : Z) (st st' : RedoState) (ro' : Z),
    replay rs read_offset st = Done (st', ro') ->
    ro' = read_offset + total_size rs /\
    new_pages rs (table_pages st) = Done (table_pages st') /\
    redo_calls st' = redo_calls st ++ omap redo_call rs.
Proof.
  induction rs as [|r rs IH]; intros ro st st' ro'; cbn [replay new_pages].
  - intros [= <- <-]. unfold total_size. simpl. rewrite app_nil_r. split; [lia|]. auto.
  - unfold redo_one.
    destruct (page_effect r (table_pages st)) as [ps| |]; try discriminate.
    rewrite !outcome_bind_Done. unfold advance.
    destruct (_ >? _); [discriminate|]. rewrite !outcome_bind_Done. intros Hrun.
    apply IH in Hrun as (-> & Hps & Hcalls). cbn [table_pages redo_calls] in Hps, Hcalls.
    split; [unfold total_size; cbn [foldr]; lia|]. split; [exact Hps|].
    rewrite Hcalls, <- app_assoc.
    change (omap redo_call (r :: rs))
      with (match redo_call r with
            | Some c => c :: omap redo_call rs
            | None => omap redo_call rs
            end).
    now destruct (redo_call r).
Qed.

(** A replay goes through when the log stays within the range of read_offset
    and every NEWPAGE record passes its check. *)
Lemma replay_Done (rs : list LogRecord) :
  forall (read_offset : Z) (st : RedoState) (ps : TablePages),
    Forall (fun r => size_ r = record_size r) rs ->
    read_offset + total_size rs <= INT_MAX ->
    new_pages rs (table_pages st) = Done ps ->
    exists st', replay rs read_offset st = Done (st', read_offset + total_size rs).
Proof.
  induction rs as [|r rs IH]; intros ro st ps Hsz Hmax Hps; cbn [replay new_pages] in *.
  - exists st. unfold total_size. simpl. now rewrite Z.add_0_r.
  - apply Forall_cons in Hsz as [Hr Hsz].
    pose proof (total_size_nonneg rs Hsz) as Hnn.
    unfold total_size in Hmax |- *. cbn [foldr] in Hmax |- *. fold (total_size rs) in Hmax |- *.
    unfold redo_one.
    destruct (page_effect r (table_pages st)) as [ps1| |]; try discriminate.
    rewrite !outcome_bind_Done in *. unfold advance.
    destruct (_ >? _) eqn:E; [apply Z.gtb_lt in E; lia|]. rewrite !outcome_bind_Done.
    match goal with
    | |- context [replay rs _ ?s] =>
        destruct (IH (ro + size_ r) s ps Hsz ltac:(lia) Hps) as (st' & Hrun)
    end.
    exists st'. rewrite Hrun. f_equal. f_equal. lia.
Qed.

Lemma new_pages_app (rs1 rs2 : list LogRecord) (ps : TablePages) :
  new_pages (rs1 ++ rs2) ps = ps1 ← new_pages rs1 ps; new_pages rs2 ps1.
Proof.
  revert ps. induction rs1 as [|r rs1 IH]; intros ps; [reflexivity|].
  cbn [app new_pages]. destruct (page_effect r ps); try reflexivity.
  rewrite !outcome_bind_Done. apply IH.
Qed.

(** The checks that pass on a log pass on every prefix of it. *)
Lemma new_pages_take (rs : list LogRecord) (k : nat) (ps ps' : TablePages) :
  new_pages rs ps = Done ps' -> exists ps1, new_pages (take k rs) ps = Done ps1.
Proof.
  rewrite <- (take_drop k rs) at 1. rewrite new_pages_app.
  destruct (new_pages (take k rs) ps); [eauto|discriminate|discriminate].
Qed.

(** A record read back with the header and payload of [r] is treated like
    [r]. *)
Lemma redo_one_same (d r : LogRecord) (read_offset : Z) (st : RedoState) :
  lsn_ d = lsn_ r -> txn_id_ d = txn_id_ r ->
  log_record_type_ d = log_record_type_ r -> payload d = payload r ->
  redo_one d read_offset st = redo_one r read_offset st.
Proof.
  intros Hl Ht Hty Hp.
  assert (Hc : redo_call d = redo_call r).
  { unfold redo_call, payload in *. rewrite Hl, Hty in *.
    destruct (log_record_type_ r); try reflexivity; injection Hp as ?; congruence. }
  assert (Hpe : page_effect d (table_pages st) = page_effect r (table_pages st)).
  { unfold page_effect, payload in *. rewrite Hty in *.
    destruct (log_record_type_ r); try reflexivity; injection Hp as ?; congruence. }
  unfold redo_one. now rewrite Hc, Hpe, Hl, Ht, Hty.
Qed.

Section RedoFacts.
Variable LOG_BUFFER_SIZE : Z.

(** From position [off] of the buffer read at file offset [c]: what the file
    holds from [c + off] on, cut at the end of the buffer and padded with
    zeros. *)
Lemma chunk_data (log_file pre post : list Z) (c off : Z) (log_buffer : list Z) :
  log_file = pre ++ post -> 0 <= c -> 0 <= off <= LOG_BUFFER_SIZE ->
  c + off = Z.of_nat (length pre) ->
  ReadLog LOG_BUFFER_SIZE log_file c = Some log_buffer ->
  drop (Z.to_nat off) log_buffer
  = take (Z.to_nat (LOG_BUFFER_SIZE - off)) post
    ++ repeat 0 (Z.to_nat (LOG_BUFFER_SIZE - off) - length post).
Proof.
  intros -> Hc Hoff Hpre. unfold ReadLog.
  destruct (_ || _); [discriminate|]. intros [= <-].
  assert (Hlp : length pre = (Z.to_nat c + Z.to_nat off)%nat) by lia.
  rewrite (drop_app_le pre post (Z.to_nat c)) by lia.
  assert (Hx : length (drop (Z.to_nat c) pre) = Z.to_nat off)
    by (rewrite length_drop; lia).
  rewrite (take_app_ge (drop (Z.to_nat c) pre)) by lia. rewrite Hx, <- app_assoc.
  rewrite drop_app_length' by (symmetry; exact Hx).
  replace (Z.to_nat LOG_BUFFER_SIZE - Z.to_nat off)%nat
    with (Z.to_nat (LOG_BUFFER_SIZE - off)) by lia.
  f_equal. f_equal. rewrite length_app, Hx, length_take. lia.
Qed.

Lemma read32_zeros (k : nat) : read32 (repeat 0 k) 0 = 0.
Proof. destruct k as [|[|[|[|k]]]]; reflexivity. Qed.

(** A record the pass can take in: well formed, with a sequence number, and
    no longer than the buffer. *)
Definition readable (r : LogRecord) : Prop :=
  well_formed r /\ in_int32 (lsn_ r) /\ size_ r <= LOG_BUFFER_SIZE.

Lemma readable_sizes (rs : list LogRecord) :
  Forall readable rs -> Forall (fun r => size_ r = record_size r) rs.
Proof.
  intros H. eapply Forall_impl; [exact H|]. now intros r ((H1 & _) & _).
Qed.

Lemma redo_buffer_spec (log_file : list Z) (c : Z) (log_buffer : list Z) :
  ReadLog LOG_BUFFER_SIZE log_file c = Some log_buffer -> 0 <= c ->
  forall (rest : list LogRecord) (pre : list Z) (fuel : nat) (off : Z)
         (record : LogRecord) (st : RedoState),
    log_file = pre ++ log_bytes rest -> Forall readable rest ->
    0 <= off <= LOG_BUFFER_SIZE -> c + off = Z.of_nat (length pre) ->
    (length rest < fuel)%nat ->
    exists n,
      (n <= length rest)%nat /\
      redo_buffer LOG_BUFFER_SIZE fuel log_buffer off (c + off) record st
      = replay (take n rest) (c + off) st /\
      (off = 0 -> rest <> [] -> (1 <= n)%nat).
Proof.
  intros Hread Hc rest.
  induction rest as [|r rest IH]; intros pre fuel off record st Hfile Hok Hoff Hpre Hfuel;
    (destruct fuel as [|fuel]; [simpl in Hfuel; lia|]).
  - exists 0%nat. split; [lia|]. split; [|congruence].
    cbn [redo_buffer take replay].
    rewrite (chunk_data log_file pre [] c off log_buffer Hfile Hc Hoff Hpre Hread).
    rewrite take_nil. cbn [app]. unfold DeserializeLogRecord.
    destruct (off + HEADER_SIZE >? LOG_BUFFER_SIZE); [reflexivity|].
    now rewrite read32_zeros.
  - apply Forall_cons in Hok as [(Hwf & Hlsn & Hsz) Hok].
    pose proof Hwf as (Hsize & _).
    pose proof (length_serialize r) as Hser. rewrite <- Hsize in Hser.
    pose proof (record_size_lower r) as Hlow. rewrite <- Hsize in Hlow.
    unfold HEADER_SIZE in Hlow.
    assert (Hdata : drop (Z.to_nat off) log_buffer
                    = take (Z.to_nat (LOG_BUFFER_SIZE - off))
                        (serialize r ++ log_bytes rest)
                      ++ repeat 0 (Z.to_nat (LOG_BUFFER_SIZE - off)
                                   - length (serialize r ++ log_bytes rest))).
    { apply (chunk_data log_file pre _ c off log_buffer Hfile Hc Hoff Hpre Hread). }
    destruct (Z_le_gt_dec (off + size_ r) LOG_BUFFER_SIZE) as [Hfit|Hnofit].
    + (* the record lies within the buffer *)
      rewrite take_app_ge in Hdata by lia. rewrite <- app_assoc in Hdata.
      destruct (Deserialize_serialize LOG_BUFFER_SIZE off r record
                  (take (Z.to_nat (LOG_BUFFER_SIZE - off) - length (serialize r))
                     (log_bytes rest)
                   ++ repeat 0 (Z.to_nat (LOG_BUFFER_SIZE - off)
                                - length (serialize r ++ log_bytes rest)))
                  Hwf Hlsn ltac:(lia) Hfit)
        as (d & Hd & Hds & Hdl & Hdt & _ & Hdty & Hdp).
      assert (Hstep : redo_buffer LOG_BUFFER_SIZE (S fuel) log_buffer off (c + off) record st
                      = (st1 ← redo_one r (c + off) st;
                         ro1 ← advance (c + off) (size_ r);
                         redo_buffer LOG_BUFFER_SIZE fuel log_buffer (off + size_ r) ro1 d st1)).
      { cbn [redo_buffer]. rewrite Hdata, Hd, Hds.
        now rewrite (redo_one_same d r _ _ Hdl Hdt Hdty Hdp). }
      rewrite Hstep.
      destruct (redo_one r (c + off) st) as [st1| |] eqn:Hone.
      2,3: exists 1%nat; split; [simpl; lia|]; split; [|lia];
           cbn [take replay]; now rewrite Hone.
      unfold advance. destruct (c + off + size_ r >? INT_MAX) eqn:Eadv.
      { exists 1%nat. split; [simpl; lia|]. split; [|lia].
        cbn [take replay]. rewrite Hone. unfold advance. now rewrite Eadv. }
      rewrite !outcome_bind_Done.
      destruct (IH (pre ++ serialize r) fuel (off + size_ r) d st1)
        as (n & Hn & Hrun & _).
      * rewrite Hfile. unfold log_bytes. cbn [List.map concat].
        now rewrite app_assoc.
      * exact Hok.
      * lia.
      * rewrite length_app. lia.
      * simpl in Hfuel. lia.
      * exists (S n). split; [simpl; lia|]. split; [|lia].
        cbn [take replay]. rewrite Hone. unfold advance. rewrite Eadv.
        rewrite !outcome_bind_Done.
        replace (c + off + size_ r) with (c + (off + size_ r)) by lia. exact Hrun.
    + (* the record runs past the end of the buffer *)
      exists 0%nat. split; [lia|]. split; [|lia].
      cbn [redo_buffer take replay]. unfold DeserializeLogRecord.
      destruct (off + HEADER_SIZE >? LOG_BUFFER_SIZE) eqn:Eh; [reflexivity|].
      rewrite Z.gtb_ltb in Eh. apply Z.ltb_ge in Eh. unfold HEADER_SIZE in Eh.
      assert (Hsizeread : read32 (drop (Z.to_nat off) log_buffer) 0 = size_ r).
      { rewrite Hdata. unfold serialize, header_bytes. rewrite <- !app_assoc.
        rewrite (take_app_ge (enc32 (size_ r))) by (rewrite length_enc32; lia).
        rewrite <- app_assoc. apply read32_here. apply Hwf. }
      rewrite Hsizeread.
      replace (off + size_ r >? LOG_BUFFER_SIZE) with true
        by (symmetry; apply Z.gtb_lt; lia).
      now rewrite orb_true_r.
Qed.

Lemma log_bytes_app (rs1 rs2 : list LogRecord) :
  log_bytes (rs1 ++ rs2) = log_bytes rs1 ++ log_bytes rs2.
Proof. unfold log_bytes. now rewrite List.map_app, concat_app. Qed.

(** Redo over the bytes of [rest], entered at the file offset where they
    start, does what [replay] does with the records, also where that runs
    into a failed assertion or out of the range of read_offset. *)
Lemma redo_file_spec (log_file : list Z) (k : nat) :
  forall (rest : list LogRecord) (pre : list Z) (fuel : nat) (st : RedoState),
    (length rest <= k)%nat ->
    log_file = pre ++ log_bytes rest -> Forall readable rest ->
    (length rest < fuel)%nat ->
    redo_file LOG_BUFFER_SIZE fuel log_file (Z.of_nat (length pre)) st
    = final (replay rest (Z.of_nat (length pre)) st).
Proof.
  induction k as [|k IH]; intros rest pre fuel st Hk Hfile Hok Hfuel;
    (destruct fuel as [|fuel]; [lia|]).
  - destruct rest; [|simpl in Hk; lia]. cbn [redo_file replay].
    unfold ReadLog. rewrite Hfile. unfold log_bytes. simpl. rewrite app_nil_r.
    replace (Z.of_nat (length pre) <=? Z.of_nat (length pre)) with true
      by (symmetry; apply Z.leb_le; lia).
    now rewrite orb_true_r.
  - destruct rest as [|r rest].
    { cbn [redo_file replay].
      unfold ReadLog. rewrite Hfile. unfold log_bytes. simpl. rewrite app_nil_r.
      replace (Z.of_nat (length pre) <=? Z.of_nat (length pre)) with true
        by (symmetry; apply Z.leb_le; lia).
      now rewrite orb_true_r. }
    set (c := Z.of_nat (length pre)).
    pose proof Hok as Hok0. apply Forall_cons in Hok0 as [(Hwf & Hlsn & Hsz) _].
    pose proof Hwf as (Hsize & _).
    pose proof (length_serialize r) as Hser. rewrite <- Hsize in Hser.
    pose proof (record_size_lower r) as Hlow. rewrite <- Hsize in Hlow.
    unfold HEADER_SIZE in Hlow.
    destruct (ReadLog LOG_BUFFER_SIZE log_file c) as [log_buffer|] eqn:Hread.
    2:{ exfalso. unfold ReadLog in Hread.
        destruct (_ || _) eqn:E; [|discriminate]. apply orb_true_iff in E as [E|E].
        - apply Z.ltb_lt in E. unfold c in E. lia.
        - apply Z.leb_le in E. rewrite Hfile in E. unfold log_bytes in E.
          cbn [List.map concat] in E. rewrite !length_app in E. unfold c in E. lia. }
    destruct (redo_buffer_spec log_file c log_buffer Hread ltac:(unfold c; lia)
                (r :: rest) pre (S fuel) 0 LogRecord_default st Hfile Hok
                ltac:(lia) ltac:(unfold c; lia) Hfuel)
      as (n & Hn & Hrun & Hprog).
    specialize (Hprog eq_refl ltac:(discriminate)).
    rewrite Z.add_0_r in Hrun.
    cbn [redo_file]. fold c. rewrite Hread, Hrun.
    rewrite <- (take_drop n (r :: rest)) at 2. rewrite replay_app.
    destruct (replay (take n (r :: rest)) c st) as [[st1 ro1]| |] eqn:Hrep;
      try reflexivity.
    rewrite !outcome_bind_Done.
    assert (Hro : ro1 = Z.of_nat (length (pre ++ log_bytes (take n (r :: rest))))).
    { destruct (replay_Done_inv _ _ _ _ _ Hrep) as (Ho & _).
      rewrite Ho, length_app, Nat2Z.inj_add.
      rewrite (length_log_bytes (take n (r :: rest))); [reflexivity|].
      apply readable_sizes. now apply Forall_take. }
    rewrite Hro.
    apply (IH (drop n (r :: rest)) (pre ++ log_bytes (take n (r :: rest))) fuel st1).
    + rewrite length_drop. simpl in *. lia.
    + rewrite <- app_assoc, <- log_bytes_app, take_drop. exact Hfile.
    + now apply Forall_drop.
    + rewrite length_drop. simpl in *. lia.
Qed.

(** Redo over a whole log of readable records. *)
Lemma Redo_replay (rs : list LogRecord) (fuel : nat) (pages : TablePages) :
  Forall readable rs -> (length rs < fuel)%nat ->
  Redo LOG_BUFFER_SIZE fuel pages (log_bytes rs)
  = final (replay rs 0 (mkRedoState ∅ ∅ [] pages)).
Proof.
  intros Hok Hfuel. unfold Redo.
  apply (redo_file_spec (log_bytes rs) (length rs) rs [] fuel);
    [lia|reflexivity|exact Hok|exact Hfuel].
Qed.

Lemma Redo_Done (rs : list LogRecord) (fuel : nat) (pages pages' : TablePages) :
  Forall readable rs -> (length rs < fuel)%nat ->
  total_size rs <= INT_MAX ->
  new_pages rs pages = Done pages' ->
  exists st,
    Redo LOG_BUFFER_SIZE fuel pages (log_bytes rs) = Done st /\
    replay rs 0 (mkRedoState ∅ ∅ [] pages) = Done (st, total_size rs).
Proof.
  intros Hok Hfuel Hmax Hps. rewrite (Redo_replay rs fuel pages Hok Hfuel).
  destruct (replay_Done rs 0 (mkRedoState ∅ ∅ [] pages) pages'
              (readable_sizes _ Hok) ltac:(lia) Hps) as (st & Hrun).
  exists st. rewrite Hrun. split; reflexivity.
Qed.

End RedoFacts.

Definition is_end (r : LogRecord) : bool :=
  match log_record_type_ r with COMMIT | ABORT => true | _ => false end.

(** What the last record of transaction [t] in [rs] leaves in active_txn_. *)
Definition last_lsn_of (t : Z) (rs : list LogRecord) (otherwise : option Z) : option Z :=
  match List.find (fun r => txn_id_ r =? t) (List.rev rs) with
  | Some r => if is_end r then None else Some (lsn_ r)
  | None => otherwise
  end.

Lemma find_snoc {A : Type} (f : A -> bool) (l : list A) (x : A) :
  List.find f (l ++ [x])
  = match List.find f l with Some y => Some y | None => if f x then Some x else None end.
Proof.
  induction l as [|a l IH]; simpl; [reflexivity|]. destruct (f a); [reflexivity|exact IH].
Qed.

(** One step of a replay that goes through. *)
Lemma replay_cons_Done (r : LogRecord) (rs : list LogRecord) (read_offset : Z)
    (st st' : RedoState) (ro' : Z) :
  replay (r :: rs) read_offset st = Done (st', ro') ->
  exists st1,
    redo_one r read_offset st = Done st1 /\
    replay rs (read_offset + size_ r) st1 = Done (st', ro').
Proof.
  cbn [replay]. destruct (redo_one r read_offset st) as [st1| |]; try discriminate.
  rewrite outcome_bind_Done. unfold advance. destruct (_ >? _); [discriminate|].
  rewrite outcome_bind_Done. eauto.
Qed.

Lemma redo_one_tables (r : LogRecord) (read_offset : Z) (st st1 : RedoState) :
  redo_one r read_offset st = Done st1 ->
  active_txn_ st1
  = match log_record_type_ r with
    | COMMIT | ABORT => delete (txn_id_ r) (active_txn_ st)
    | _ => <[txn_id_ r := lsn_ r]> (active_txn_ st)
    end /\
  lsn_mapping_ st1 = <[lsn_ r := read_offset]> (lsn_mapping_ st).
Proof.
  unfold redo_one. destruct (page_effect r (table_pages st)); try discriminate.
  rewrite outcome_bind_Done. now intros [= <-].
Qed.

Lemma replay_active (rs : list LogRecord) (t : Z) :
  forall (read_offset : Z) (st st' : RedoState) (ro' : Z),
    replay rs read_offset st = Done (st', ro') ->
    active_txn_ st' !! t = last_lsn_of t rs (active_txn_ st !! t).
Proof.
  unfold last_lsn_of. induction rs as [|r rs IH]; intros ro st st' ro' Hrun.
  - cbn [replay] in Hrun. now injection Hrun as <- _.
  - apply replay_cons_Done in Hrun as (st1 & Hone & Hrun).
    rewrite (IH _ _ _ _ Hrun). cbn [List.rev]. rewrite find_snoc.
    destruct (List.find _ (List.rev rs)); [reflexivity|].
    apply redo_one_tables in Hone as [-> _]. unfold is_end.
    destruct (Z.eqb_spec (txn_id_ r) t) as [->|Hne].
    + destruct (log_record_type_ r);
        first [apply lookup_insert_eq | apply lookup_delete_eq].
    + destruct (log_record_type_ r);
        first [now apply lookup_insert_ne | now apply lookup_delete_ne].
Qed.

Lemma replay_mapping_other (rs : list LogRecord) (lsn : Z) :
  forall (read_offset : Z) (st st' : RedoState) (ro' : Z),
    replay rs read_offset st = Done (st', ro') ->
    lsn ∉ List.map lsn_ rs ->
    lsn_mapping_ st' !! lsn = lsn_mapping_ st !! lsn.
Proof.
  induction rs as [|r rs IH]; intros ro st st' ro' Hrun Hnin.
  - cbn [replay] in Hrun. now injection Hrun as <- _.
  - apply replay_cons_Done in Hrun as (st1 & Hone & Hrun).
    simpl in Hnin. apply not_elem_of_cons in Hnin as [Hne Hnin].
    rewrite (IH _ _ _ _ Hrun Hnin).
    apply redo_one_tables in Hone as [_ ->].
    apply lookup_insert_ne. congruence.
Qed.

Lemma replay_mapping (rs : list LogRecord) :
  forall (read_offset : Z) (st st' : RedoState) (ro' : Z) (i : nat) (r : LogRecord),
    replay rs read_offset st = Done (st', ro') ->
    NoDup (List.map lsn_ rs) -> rs !! i = Some r ->
    lsn_mapping_ st' !! lsn_ r = Some (read_offset + total_size (take i rs)).
Proof.
  induction rs as [|r0 rs IH]; intros ro st st' ro' i r Hrun Hnd Hi; [discriminate|].
  apply replay_cons_Done in Hrun as (st1 & Hone & Hrun).
  simpl in Hnd. apply NoDup_cons in Hnd as [Hnin Hnd].
  destruct i as [|i]; simpl in Hi.
  - injection Hi as ->. rewrite (replay_mapping_other _ _ _ _ _ _ Hrun Hnin).
    apply redo_one_tables in Hone as [_ ->]. rewrite lookup_insert_eq.
    f_equal. unfold total_size. simpl. lia.
  - rewrite (IH _ _ _ _ i r Hrun Hnd Hi). f_equal. cbn [take]. unfold total_size.
    cbn [foldr]. lia.
Qed.

(** X12: when the log file is the images of well-formed records, none
    longer than the log buffer, laid end to end, Redo decodes every record
    exactly once and in order, across however many buffers the file takes:
    it does what the loop body does for the records taken one after the
    other, also when that ends in the failed assertion of a NEWPAGE record
    or in the overflow of read_offset.  When the log is no longer than
    INT_MAX bytes and every NEWPAGE record passes its check, Redo terminates,
    and the page operations it has requested are those of the records, with
    each record's own rid, tuples and sequence number. *)
Theorem Redo_reads_every_record (LOG_BUFFER_SIZE : Z) (rs : list LogRecord)
    (fuel : nat) (pages pages' : TablePages) :
  Forall (readable LOG_BUFFER_SIZE) rs -> (length rs < fuel)%nat ->
  Redo LOG_BUFFER_SIZE fuel pages (log_bytes rs)
  = final (replay rs 0 (mkRedoState ∅ ∅ [] pages)) /\
  (total_size rs <= INT_MAX ->
   new_pages rs pages = Done pages' ->
   exists st,
     Redo LOG_BUFFER_SIZE fuel pages (log_bytes rs) = Done st /\
     redo_calls st = omap redo_call rs /\
     table_pages st = pages').
Proof.
  intros Hok Hfuel. split; [now apply Redo_replay|]. intros Hmax Hps.
  destruct (Redo_Done LOG_BUFFER_SIZE rs fuel pages pages' Hok Hfuel Hmax Hps)
    as (st & Hrun & Hrep).
  exists st. split; [exact Hrun|].
  destruct (replay_Done_inv _ _ _ _ _ Hrep) as (_ & Hpages & Hcalls).
  cbn [table_pages redo_calls app] in Hpages, Hcalls. split; [exact Hcalls|].
  rewrite Hps in Hpages. now injection Hpages as <-.
Qed.

(** X13: after a Redo that terminates (the log is no longer than INT_MAX
    bytes and every NEWPAGE record passes its check), active_txn_ holds
    exactly the transactions whose last record in the log is neither COMMIT
    nor ABORT, each with the sequence number of that last record; and when
    sequence numbers do not repeat, lsn_mapping_ sends every record's
    sequence number to the file offset at which the record starts, which is
    at most INT_MAX. *)
Theorem Redo_builds_the_tables (LOG_BUFFER_SIZE : Z) (rs : list LogRecord)
    (fuel : nat) (pages pages' : TablePages) :
  Forall (readable LOG_BUFFER_SIZE) rs -> (length rs < fuel)%nat ->
  total_size rs <= INT_MAX ->
  new_pages rs pages = Done pages' ->
  exists st,
    Redo LOG_BUFFER_SIZE fuel pages (log_bytes rs) = Done st /\
    (forall t, active_txn_ st !! t = last_lsn_of t rs None) /\
    (NoDup (List.map lsn_ rs) ->
     forall i r, rs !! i = Some r ->
       lsn_mapping_ st !! lsn_ r = Some (total_size (take i rs)) /\
       0 <= total_size (take i rs) <= INT_MAX).
Proof.
  intros Hok Hfuel Hmax Hps.
  destruct (Redo_Done LOG_BUFFER_SIZE rs fuel pages pages' Hok Hfuel Hmax Hps)
    as (st & Hrun & Hrep).
  exists st. split; [exact Hrun|]. split.
  - intros t. now rewrite (replay_active rs t _ _ _ _ Hrep).
  - intros Hnd i r Hi. split.
    + now rewrite (replay_mapping rs _ _ _ _ i r Hrep Hnd Hi).
    + pose proof (readable_sizes _ _ Hok) as Hsz.
      pose proof (total_size_nonneg _ (Forall_take _ i _ Hsz)) as H1.
      pose proof (total_size_nonneg _ (Forall_drop _ i _ Hsz)) as H2.
      rewrite <- (take_drop i rs) in Hmax.
      assert (Happ : forall a b, total_size (a ++ b) = total_size a + total_size b).
      { intros a b. unfold total_size. induction a as [|x a IHa]; simpl; lia. }
      rewrite Happ in Hmax. lia.
Qed.

(** A log of four records read through a buffer of 64 bytes: BEGIN and
    UPDATE of transaction 2, then a BEGIN of transaction 3, which no longer
    fits the first buffer, and a NEWPAGE record of transaction 3 that names
    page 7 as the previous page. *)
Definition newpage_record : LogRecord :=
  mkLogRecord 24 3 3 2 NEWPAGE invalid_rid [] invalid_rid []
    invalid_rid [] [] 7.
Definition three_records : list LogRecord := [begin_record; update_record; begin3_record].
Definition four_records : list LogRecord := three_records ++ [newpage_record].

(** Page 7 is on disk with no successor; the next page id to hand out is 8. *)
Definition pages_at_crash : TablePages := mkTablePages 8 {[7 := INVALID_PAGE_ID]}.

Ltac concrete_record :=
  unfold readable, well_formed, in_int32, rid_in_range, in_int32; simpl;
  unfold record_size, HEADER_SIZE, rid_size, tuple_size, GetLength, INVALID_LSN; simpl;
  lia.

Lemma three_records_readable : Forall (readable 64) three_records.
Proof.
  apply Forall_cons. split; [concrete_record|].
  apply Forall_cons. split; [concrete_record|].
  apply Forall_cons. split; [concrete_record|]. constructor.
Qed.

Lemma four_records_readable : Forall (readable 64) four_records.
Proof.
  apply Forall_app. split; [exact three_records_readable|].
  apply Forall_cons. split; [concrete_record|]. constructor.
Qed.

Lemma Redo_reads_every_record_witness :
  exists st,
    Redo 64 5 pages_at_crash (log_bytes four_records) = Done st /\
    redo_calls st = [RedoUpdateTuple 7 1 [11] [10] (mkRID 7 4); RedoNewPage 7] /\
    next_page_id_of (table_pages st) !! 7 = Some 8.
Proof.
  destruct (Redo_reads_every_record 64 four_records 5 pages_at_crash
              (mkTablePages 9 (<[7 := 8]> (<[8 := INVALID_PAGE_ID]> {[7 := INVALID_PAGE_ID]})))
              four_records_readable)
    as (_ & Hdone); [simpl; lia|].
  destruct Hdone as (st & Hrun & Hcalls & Hpages);
    [unfold total_size, INT_MAX; simpl; lia|reflexivity|].
  exists st. split; [exact Hrun|]. split; [exact Hcalls|].
  rewrite Hpages. reflexivity.
Defined.

Lemma Redo_builds_the_tables_witness :
  exists st,
    Redo 64 4 pages_at_crash (log_bytes three_records) = Done st /\
    active_txn_ st !! 2 = Some 1 /\ active_txn_ st !! 3 = Some 2 /\
    lsn_mapping_ st !! 2 = Some 58.
Proof.
  destruct (Redo_builds_the_tables 64 three_records 4 pages_at_crash pages_at_crash
              three_records_readable)
    as (st & Hrun & Hact & Hmap);
    [simpl; lia|unfold total_size, INT_MAX; simpl; lia|reflexivity|].
  exists st. split; [exact Hrun|]. split; [exact (Hact 2)|]. split; [exact (Hact 3)|].
  assert (Hnd : NoDup (List.map lsn_ three_records)).
  { simpl. apply NoDup_cons. split; [rewrite !elem_of_cons, elem_of_nil; lia|].
    apply NoDup_cons. split; [rewrite !elem_of_cons, elem_of_nil; lia|].
    apply NoDup_singleton. }
  exact (proj1 (Hmap Hnd 2%nat begin3_record eq_refl)).
Defined.


(** *** The undo pass over a log *)

(** What Undo does with a record it has read back from the log into a new
    [LogRecord]: the page it fetches is the page of [insert_rid_], which only
    an INSERT record sets. *)
Definition undo_of (r : LogRecord) : undo_step_result :=
  match log_record_type_ r with
  | BEGIN => UndoBreak
  | INSERT => UndoCall (CallApplyDelete (GetPageId (insert_rid_ r)) (insert_rid_ r))
  | UPDATE =>
      UndoCall (CallUpdateTuple INVALID_PAGE_ID (old_tuple_ r) (new_tuple_ r) (update_rid_ r))
  | APPLYDELETE =>
      UndoCall (CallInsertTuple INVALID_PAGE_ID (delete_tuple_ r) (delete_rid_ r))
  | MARKDELETE => UndoCall (CallRollbackDelete INVALID_PAGE_ID (delete_rid_ r))
  | ROLLBACKDELETE => UndoCall (CallMarkDelete INVALID_PAGE_ID (delete_rid_ r))
  | _ => UndoThrow
  end.

Lemma Deserialize_keeps_insert_rid (LOG_BUFFER_SIZE off : Z) (data : list Z)
    (r0 d : LogRecord) :
  DeserializeLogRecord LOG_BUFFER_SIZE off data r0 = (true, d) ->
  log_record_type_ d <> INSERT -> insert_rid_ d = insert_rid_ r0.
Proof.
  unfold DeserializeLogRecord. destruct (_ >? _); [discriminate|].
  destruct (_ || _); [discriminate|]. cbv zeta. intros [= <-].
  destruct (type_of_code (read32 data 16)) eqn:Hty; cbn; intros Hne;
    try reflexivity; contradiction.
Qed.

Lemma undo_record_decoded (r d : LogRecord) :
  log_record_type_ d = log_record_type_ r -> payload d = payload r ->
  (log_record_type_ r <> INSERT -> insert_rid_ d = invalid_rid) ->
  undo_record d = undo_of r.
Proof.
  intros Hty Hpay Hrid. unfold undo_record, undo_of, payload in *. rewrite Hty in *.
  destruct (log_record_type_ r); try reflexivity;
    try (rewrite Hrid by discriminate; change (GetPageId invalid_rid) with INVALID_PAGE_ID);
    congruence.
Qed.

Section UndoFacts.
Variable LOG_BUFFER_SIZE : Z.

(** Reading the log at the start of a record gives a buffer that begins with
    the image of the record. *)
Lemma ReadLog_record (rs : list LogRecord) (i : nat) (r : LogRecord) :
  Forall (readable LOG_BUFFER_SIZE) rs -> rs !! i = Some r ->
  exists rest,
    ReadLog LOG_BUFFER_SIZE (log_bytes rs) (total_size (take i rs))
    = Some (serialize r ++ rest).
Proof.
  intros Hok Hi.
  pose proof (readable_sizes _ _ Hok) as Hsizes.
  assert (Hr : readable LOG_BUFFER_SIZE r).
  { rewrite Forall_forall in Hok. apply Hok. eapply list_elem_of_lookup_2. exact Hi. }
  destruct Hr as ((Hsize & _) & _ & Hfit).
  pose proof (record_size_lower r) as Hlow. unfold HEADER_SIZE in Hlow.
  pose proof (length_serialize r) as Hlen.
  assert (Hpre : Z.of_nat (length (log_bytes (take i rs))) = total_size (take i rs)).
  { apply length_log_bytes. now apply Forall_take. }
  assert (Hnn : 0 <= total_size (take i rs)).
  { apply total_size_nonneg. now apply Forall_take. }
  assert (Hfile : log_bytes rs
                  = log_bytes (take i rs) ++ serialize r ++ log_bytes (drop (S i) rs)).
  { rewrite <- (take_drop_middle rs i r Hi) at 1.
    rewrite log_bytes_app. f_equal. }
  unfold ReadLog. rewrite Hfile.
  replace (total_size (take i rs) <? 0) with false by (symmetry; apply Z.ltb_ge; lia).
  replace (_ <=? total_size (take i rs)) with false.
  2:{ symmetry. apply Z.leb_gt. rewrite !length_app. lia. }
  cbn [orb].
  rewrite drop_app_length' by lia.
  rewrite (take_app_ge (serialize r)) by lia.
  rewrite <- app_assoc. eauto.
Qed.

(** The records Undo walks through from record [i] back to the BEGIN record
    of its transaction: each names the sequence number of the one before. *)
Inductive undo_path (rs : list LogRecord) : nat -> list LogRecord -> Prop :=
| undo_path_begin i r :
    rs !! i = Some r -> log_record_type_ r = BEGIN -> undo_path rs i []
| undo_path_step i r j r' l :
    rs !! i = Some r ->
    (exists c, undo_of r = UndoCall c) ->
    rs !! j = Some r' -> lsn_ r' = prev_lsn_ r ->
    undo_path rs j l ->
    undo_path rs i (r :: l).

Definition undo_call (r : LogRecord) : option PageCall :=
  match undo_of r with UndoCall c => Some c | _ => None end.

Lemma undo_chain_path (rs : list LogRecord) (lsn_mapping_ : gmap Z Z) :
  Forall (readable LOG_BUFFER_SIZE) rs ->
  (forall i r, rs !! i = Some r ->
     lsn_mapping_ !! lsn_ r = Some (total_size (take i rs))) ->
  forall (i : nat) (l : list LogRecord) (fuel : nat),
    undo_path rs i l -> (length l < fuel)%nat ->
    undo_chain LOG_BUFFER_SIZE fuel (log_bytes rs) lsn_mapping_ (total_size (take i rs))
    = (omap undo_call l, UndoFinished).
Proof.
  intros Hok Hmap i l fuel Hpath. revert fuel.
  assert (Hstep : forall i r, rs !! i = Some r ->
            exists log_buffer d,
              ReadLog LOG_BUFFER_SIZE (log_bytes rs) (total_size (take i rs)) = Some log_buffer /\
              DeserializeLogRecord LOG_BUFFER_SIZE 0 log_buffer LogRecord_default = (true, d) /\
              undo_record d = undo_of r /\ prev_lsn_ d = prev_lsn_ r).
  { intros i0 r Hi. destruct (ReadLog_record rs i0 r Hok Hi) as [rest Hread].
    assert (Hr : readable LOG_BUFFER_SIZE r).
    { rewrite Forall_forall in Hok. apply Hok. eapply list_elem_of_lookup_2. exact Hi. }
    destruct Hr as (Hwf & Hlsn & Hfit).
    destruct (Deserialize_serialize LOG_BUFFER_SIZE 0 r LogRecord_default rest Hwf Hlsn)
      as (d & Hd & _ & _ & _ & Hprev & Hty & Hpay); [lia|lia|].
    exists (serialize r ++ rest), d. split; [exact Hread|]. split; [exact Hd|].
    split; [|exact Hprev].
    apply undo_record_decoded; [exact Hty|exact Hpay|].
    intros Hne. rewrite <- Hty in Hne.
    now rewrite (Deserialize_keeps_insert_rid _ _ _ _ _ Hd Hne). }
  induction Hpath as [i r Hi Hbegin|i r j r' l Hi [c Hc] Hj Hlsn Hpath IH]; intros fuel Hfuel;
    (destruct fuel as [|fuel]; [simpl in Hfuel; lia|]);
    destruct (Hstep i r Hi) as (log_buffer & d & Hread & Hd & Hundo & Hprev);
    cbn [undo_chain]; rewrite Hread, Hd, Hundo.
  - unfold undo_of. now rewrite Hbegin.
  - rewrite Hc, Hprev, <- Hlsn. unfold mapping_at. rewrite (Hmap j r' Hj).
    cbn [default]. rewrite IH by (simpl in Hfuel; lia).
    assert (Hcall : undo_call r = Some c) by (unfold undo_call; now rewrite Hc).
    change (omap undo_call (r :: l))
      with (match undo_call r with
            | Some y => y :: omap undo_call l
            | None => omap undo_call l
            end).
    now rewrite Hcall.
Qed.

End UndoFacts.


(** A transaction the log leaves unfinished: its last record is neither
    COMMIT nor ABORT. *)
Definition loser (rs : list LogRecord) (t : Z) : Prop :=
  is_Some (last_lsn_of t rs None).

(** The records of unfinished transactions form chains: each is a BEGIN
    record, or a record Undo has an inverse for whose prev_lsn is the
    sequence number of an earlier record of the same transaction. *)
Definition chained (rs : list LogRecord) : Prop :=
  forall i r, rs !! i = Some r -> loser rs (txn_id_ r) ->
    log_record_type_ r = BEGIN \/
    ((exists c, undo_of r = UndoCall c) /\
     exists j r', (j < i)%nat /\ rs !! j = Some r' /\
       lsn_ r' = prev_lsn_ r /\ txn_id_ r' = txn_id_ r).

Lemma chained_path (rs : list LogRecord) :
  chained rs ->
  forall i r, rs !! i = Some r -> loser rs (txn_id_ r) ->
    exists l, undo_path rs i l /\ (length l <= i)%nat.
Proof.
  intros Hch i. induction i as [i IH] using lt_wf_ind. intros r Hi Hl.
  destruct (Hch i r Hi Hl) as [Hb|(Hc & j & r' & Hj & Hr' & Hlsn & Htxn)].
  - exists []. split; [eapply undo_path_begin; eauto|simpl; lia].
  - destruct (IH j Hj r' Hr') as (l & Hpath & Hlen); [now rewrite Htxn|].
    exists (r :: l). split; [eapply undo_path_step; eauto|simpl; lia].
Qed.

(** The entry Redo leaves for a transaction names its last record. *)
Lemma last_lsn_of_record (rs : list LogRecord) (t last : Z) :
  last_lsn_of t rs None = Some last ->
  exists i r, rs !! i = Some r /\ txn_id_ r = t /\ lsn_ r = last.
Proof.
  unfold last_lsn_of.
  destruct (List.find _ (List.rev rs)) as [r|] eqn:Hfind; [|discriminate].
  destruct (is_end r); [discriminate|]. intros [= <-].
  apply find_some in Hfind as [Hin Ht]. apply Z.eqb_eq in Ht.
  apply in_rev in Hin. apply list_elem_of_In in Hin.
  apply list_elem_of_lookup_1 in Hin as [i Hi]. eauto.
Qed.

Lemma Forall_Forall2_exists {A B : Type} (R : A -> B -> Prop) (xs : list A) :
  Forall (fun x => exists y, R x y) xs -> exists ys, Forall2 R xs ys.
Proof.
  induction 1 as [|x xs [y Hy] _ [ys Hys]]; [exists []; constructor|].
  exists (y :: ys). now constructor.
Qed.

(** X27: recovery undoes what the losers did, last record first.  Take a
    log of well-formed records with distinct sequence numbers on which Redo
    terminates, and in which the records of every transaction without COMMIT
    or ABORT are a BEGIN record followed by INSERT, UPDATE, APPLYDELETE,
    MARKDELETE and ROLLBACKDELETE records, each naming in prev_lsn the
    record of the transaction before it (so no NEWPAGE record, on which Undo
    throws).  Then Undo, run with the tables Redo built, starts for each
    transaction left in active_txn_ at its last record and follows the
    prev_lsn links through lsn_mapping_ back to the BEGIN record; for every
    record on the way it makes one call: ApplyDelete on the page of the rid
    for an INSERT, and, on the page with the invalid page id (that of the
    unset insert_rid_), UpdateTuple with old and new tuple swapped for an
    UPDATE, InsertTuple for an APPLYDELETE, RollbackDelete for a MARKDELETE
    and MarkDelete for a ROLLBACKDELETE.  It finishes without a failed
    assertion or an exception. *)
Theorem recovery_undoes_losers (LOG_BUFFER_SIZE : Z) (rs : list LogRecord) (fuel : nat)
    (pages pages' : TablePages) :
  Forall (readable LOG_BUFFER_SIZE) rs ->
  NoDup (List.map lsn_ rs) ->
  (length rs < fuel)%nat ->
  total_size rs <= INT_MAX ->
  new_pages rs pages = Done pages' ->
  chained rs ->
  exists (st : RedoState) (ls : list (list LogRecord)),
    Redo LOG_BUFFER_SIZE fuel pages (log_bytes rs) = Done st /\
    Forall2 (fun (entry : Z * Z) l =>
               exists i r, rs !! i = Some r /\ txn_id_ r = fst entry /\
                 lsn_ r = snd entry /\ undo_path rs i l)
            (map_to_list (active_txn_ st)) ls /\
    Undo LOG_BUFFER_SIZE fuel (log_bytes rs) (active_txn_ st) (lsn_mapping_ st)
    = (omap undo_call (concat ls), UndoFinished).
Proof.
  intros Hok Hnd Hfuel Hmax Hps Hch.
  destruct (Redo_Done LOG_BUFFER_SIZE rs fuel pages pages' Hok Hfuel Hmax Hps)
    as (st & Hrun & Hrep).
  assert (Hmap : forall i r, rs !! i = Some r ->
            lsn_mapping_ st !! lsn_ r = Some (total_size (take i rs))).
  { intros i r Hi. now rewrite (replay_mapping rs _ _ _ _ i r Hrep Hnd Hi). }
  assert (Hact : forall t, active_txn_ st !! t = last_lsn_of t rs None).
  { intros t. now rewrite (replay_active rs t _ _ _ _ Hrep). }
  assert (Hentries : Forall (fun entry : Z * Z =>
            exists l, (exists i r, rs !! i = Some r /\ txn_id_ r = fst entry /\
                         lsn_ r = snd entry /\ undo_path rs i l) /\
                      (length l < fuel)%nat)
            (map_to_list (active_txn_ st))).
  { apply Forall_forall. intros [t last] Hin.
    apply elem_of_map_to_list in Hin. rewrite Hact in Hin.
    destruct (last_lsn_of_record rs t last Hin) as (i & r & Hi & Ht & Hlast).
    destruct (chained_path rs Hch i r Hi) as (l & Hpath & Hlen).
    { unfold loser. rewrite Ht, Hin. eauto. }
    exists l. split; [exists i, r; auto|].
    apply lookup_lt_Some in Hi. lia. }
  apply Forall_Forall2_exists in Hentries as [ls Hls].
  exists st, ls. split; [exact Hrun|]. split.
  { eapply Forall2_impl; [exact Hls|]. now intros entry l [H _]. }
  unfold Undo. revert Hls. generalize (map_to_list (active_txn_ st)) as active.
  intros active Hpaths. induction Hpaths as [|[t last] l active ls Hl _ IH].
  - reflexivity.
  - destruct Hl as [(i & r & Hi & _ & Hlast & Hpath) Hlen]. simpl in Hlast. subst last.
    cbn [undo_all]. unfold mapping_at at 1. rewrite (Hmap i r Hi). cbn [default id].
    rewrite (undo_chain_path LOG_BUFFER_SIZE rs _ Hok Hmap i l fuel Hpath Hlen).
    rewrite IH. cbn [concat]. now rewrite omap_app.
Qed.

Definition insert1_record : LogRecord :=
  mkLogRecord 33 1 2 0 INSERT invalid_rid [] (mkRID 7 4) [10]
    invalid_rid [] [] INVALID_PAGE_ID.

(** BEGIN and INSERT of transaction 2, which never committed. *)
Definition unfinished_insert : list LogRecord := [begin_record; insert1_record].

Lemma recovery_undoes_losers_witness :
  exists st,
    Redo 64 3 pages_at_crash (log_bytes unfinished_insert) = Done st /\
    Undo 64 3 (log_bytes unfinished_insert) (active_txn_ st) (lsn_mapping_ st)
    = ([CallApplyDelete 7 (mkRID 7 4)], UndoFinished).
Proof.
  destruct (recovery_undoes_losers 64 unfinished_insert 3 pages_at_crash pages_at_crash)
    as (st & ls & Hrun & Hls & Hundo).
  - apply Forall_cons. split; [concrete_record|].
    apply Forall_cons. split; [concrete_record|]. constructor.
  - simpl. apply NoDup_cons. split; [rewrite !elem_of_cons, elem_of_nil; lia|].
    apply NoDup_singleton.
  - simpl. lia.
  - unfold total_size, INT_MAX. simpl. lia.
  - reflexivity.
  - intros i r Hi _. destruct i as [|[|i]]; simpl in Hi; try discriminate;
      injection Hi as <-.
    + left. reflexivity.
    + right. split; [eexists; reflexivity|].
      exists 0%nat, begin_record. repeat split. lia.
  - exists st. split; [exact Hrun|]. clear Hls Hundo.
    vm_compute in Hrun. injection Hrun as <-. vm_compute. reflexivity.
Defined.

End Log.

(** ** Transaction manager: commit and the log flush thread
    (transaction_manager.cpp, log_manager.cpp) *)
Module TxnManager.

(** The flush thread is either waiting on its condition variable, or between
    its two critical sections, writing the flush buffer with the latch
    released; [flush_future_] is pending exactly in the second case. *)
Inductive flush_state :=
| FlushIdle
| FlushWriting (last_lsn flush_size : Z).

(** Where the committing thread stands in [TransactionManager::Commit]. *)
Inductive commit_pc :=
| AtEntry
| Draining
| Appending
| LoopHead (lsn : Z)
| InWaitForLogFlush (lsn : Z)
| Releasing (lsn : option Z) (lock_set : list RID)
| Returned (lsn : option Z).

(** Calls that leave the modelled state: the delete [TableHeap::ApplyDelete]
    makes final on the page and the disk write of the flush thread; and the
    record of each [Unlock] made in the course of Commit. *)
Inductive event :=
| EvApplyDelete (table : Z) (rid : RID)
| EvUnlock (rid : RID) (result : bool)
| EvWriteLog (bytes : list Z).

Record World := mkWorld {
  ENABLE_LOGGING : bool;
  log_manager_ : Log.LogManager;
  flusher : flush_state;
  lock_manager_ : Lock.LockManager;
  txn : Transaction;
  pc : commit_pc;
  trace : list event
}.

Definition with_pc (p : commit_pc) (w : World) : World :=
  mkWorld (ENABLE_LOGGING w) (log_manager_ w) (flusher w) (lock_manager_ w)
    (txn w) p (trace w).
Definition with_txn (t : Transaction) (w : World) : World :=
  mkWorld (ENABLE_LOGGING w) (log_manager_ w) (flusher w) (lock_manager_ w)
    t (pc w) (trace w).
Definition with_log (lm : Log.LogManager) (w : World) : World :=
  mkWorld (ENABLE_LOGGING w) lm (flusher w) (lock_manager_ w)
    (txn w) (pc w) (trace w).
Definition with_flusher (f : flush_state) (w : World) : World :=
  mkWorld (ENABLE_LOGGING w) (log_manager_ w) f (lock_manager_ w)
    (txn w) (pc w) (trace w).
Definition with_locks (lk : Lock.LockManager) (w : World) : World :=
  mkWorld (ENABLE_LOGGING w) (log_manager_ w) (flusher w) lk
    (txn w) (pc w) (trace w).
Definition emit (e : event) (w : World) : World :=
  mkWorld (ENABLE_LOGGING w) (log_manager_ w) (flusher w) (lock_manager_ w)
    (txn w) (pc w) (trace w ++ [e]).

(** Modelled from the spec: [TableHeap::ApplyDelete] (table_heap.cpp is not
    among the sources).  What the sources say of it is the note at its call
    in Commit, "this also release the lock when holding the page latch": it
    makes the delete final on the page, which is recorded as an event, and
    releases the lock on the rid through [LockManager::Unlock]. *)
Definition ApplyDelete (table : Z) (rid : RID) (w : World) : World :=
  let w := emit (EvApplyDelete table rid) w in
  let '(b, t, lk) := Lock.Unlock (txn w) rid (lock_manager_ w) in
  emit (EvUnlock rid b) (with_txn t (with_locks lk w)).

(** [LogRecord(txn_id, prev_lsn, COMMIT)]: a header-only record. *)
Definition commit_record (t : Transaction) : Log.LogRecord :=
  Log.mkLogRecord Log.HEADER_SIZE Log.INVALID_LSN (txn_id t) (prev_lsn t) Log.COMMIT
    Log.invalid_rid [] Log.invalid_rid [] Log.invalid_rid [] [] Log.INVALID_PAGE_ID.

(** The rids of both lock sets, in the order the local [lock_set] yields them. *)
Definition lock_set_of (t : Transaction) : list RID :=
  elements (shared_lock_set t ∪ exclusive_lock_set t).

Section Machine.
Variable LOG_BUFFER_SIZE : Z.

(** One step of the committing thread; [None] when it is blocked. *)
Definition commit_step (w : World) : option World :=
  match pc w with
  | AtEntry => Some (with_pc Draining (with_txn (SetState COMMITTED (txn w)) w))
  | Draining =>
      match List.rev (write_set (txn w)) with
      | item :: rest =>
          let w := match wtype_ item with
                   | WType.DELETE => ApplyDelete (table_ item) (rid_ item) w
                   | _ => w
                   end in
          Some (with_txn (set_write_set (List.rev rest) (txn w)) w)
      | [] =>
          if ENABLE_LOGGING w then Some (with_pc Appending w)
          else Some (with_pc (Releasing None (lock_set_of (txn w))) w)
      end
  | Appending =>
      match Log.AppendLogRecord LOG_BUFFER_SIZE (commit_record (txn w)) (log_manager_ w) with
      | Log.BufferFull => None
      | Log.Appended lsn _ lm =>
          Some (with_pc (LoopHead lsn) (with_txn (SetPrevLSN lsn (txn w)) (with_log lm w)))
      end
  | LoopHead lsn =>
      if lsn >? Log.persistent_lsn_ (log_manager_ w)
      then Some (with_pc (InWaitForLogFlush lsn) w)
      else Some (with_pc (Releasing (Some lsn) (lock_set_of (txn w))) w)
  | InWaitForLogFlush lsn =>
      match flusher w with
      | FlushWriting _ _ => None
      | FlushIdle => Some (with_pc (LoopHead lsn) w)
      end
  | Releasing lsn (locked_rid :: rest) =>
      let '(b, t, lk) := Lock.Unlock (txn w) locked_rid (lock_manager_ w) in
      Some (with_pc (Releasing lsn rest)
              (emit (EvUnlock locked_rid b) (with_txn t (with_locks lk w))))
  | Releasing lsn [] => Some (with_pc (Returned lsn) w)
  | Returned _ => None
  end.

(** [LogManager::SwapBuffer] *)
Definition SwapBuffer (lm : Log.LogManager) : Z * Log.LogManager :=
  (Log.offset_ lm,
   Log.mkLogManager (Log.flush_buffer_ lm) (Log.log_buffer_ lm) 0
     (Log.next_lsn_ lm) (Log.persistent_lsn_ lm)).

Definition SetPersistentLSN (l : Z) (lm : Log.LogManager) : Log.LogManager :=
  Log.mkLogManager (Log.log_buffer_ lm) (Log.flush_buffer_ lm) (Log.offset_ lm)
    (Log.next_lsn_ lm) l.

(** One critical section of the loop body of [LogManager::FlushLog].  The
    subtraction [next_lsn_ - 1] is made on an [int]; on the smallest value it
    overflows, and the model gives the flush thread no step there. *)
Definition flush_step (w : World) : option World :=
  match flusher w with
  | FlushIdle =>
      if ENABLE_LOGGING w && negb (Log.next_lsn_ (log_manager_ w) =? Log.INT_MIN) then
        let last_lsn := Log.next_lsn_ (log_manager_ w) - 1 in
        let '(flush_size, lm) := SwapBuffer (log_manager_ w) in
        Some (with_flusher (FlushWriting last_lsn flush_size) (with_log lm w))
      else None
  | FlushWriting last_lsn flush_size =>
      let bytes := take (Z.to_nat flush_size) (Log.flush_buffer_ (log_manager_ w)) in
      Some (with_flusher FlushIdle
              (with_log (SetPersistentLSN last_lsn (log_manager_ w))
                 (emit (EvWriteLog bytes) w)))
  end.

(** The committing thread, the flush thread, and the other threads, which
    append log records and call the lock manager. *)
Inductive step : World -> World -> Prop :=
| step_commit w w' : commit_step w = Some w' -> step w w'
| step_flush w w' : flush_step w = Some w' -> step w w'
| step_other_append w r lsn r' lm :
    Log.AppendLogRecord LOG_BUFFER_SIZE r (log_manager_ w) = Log.Appended lsn r' lm ->
    step w (with_log lm w)
| step_other_lock w o t rid st t' lk :
    Lock.call o t rid (lock_manager_ w) = Done (st, t', lk) ->
    step w (with_locks lk w).

(** Commit is entered while the log is consistent: what is durable has been
    assigned, and the sequence counter holds a 32-bit value. *)
Definition entry (w : World) : Prop :=
  pc w = AtEntry /\ flusher w = FlushIdle /\
  Log.in_int32 (Log.next_lsn_ (log_manager_ w)) /\
  Log.persistent_lsn_ (log_manager_ w) < Log.next_lsn_ (log_manager_ w).

(** The worlds reached from [w0] by steps taken while the sequence counter
    is below its largest value: past it the counter wraps around, and
    sequence numbers no longer follow the order of the log. *)
Inductive reachable (w0 : World) : World -> Prop :=
| reach_entry : reachable w0 w0
| reach_step w w' :
    reachable w0 w -> Log.next_lsn_ (log_manager_ w) < Log.INT_MAX ->
    step w w' -> reachable w0 w'.






(** The worlds reached from [w0] by any steps. *)
Inductive steps (w0 : World) : World -> Prop :=
| steps_here : steps w0 w0
| steps_next w w' : steps w0 w -> step w w' -> steps w0 w'.


End Machine.

(** *** The commit record is durable before the locks go *)

Lemma AppendLogRecord_lsn (LOG_BUFFER_SIZE : Z) (r r' : Log.LogRecord)
    (lm lm' : Log.LogManager) (lsn : Z) :
  Log.AppendLogRecord LOG_BUFFER_SIZE r lm = Log.Appended lsn r' lm' ->
  lsn = Log.next_lsn_ lm /\ Log.lsn_ r' = lsn /\
  Log.next_lsn_ lm' = Log.wrap32 (Log.next_lsn_ lm + 1) /\
  Log.persistent_lsn_ lm' = Log.persistent_lsn_ lm.
Proof.
  unfold Log.AppendLogRecord. destruct (_ >? _); [discriminate|].
  intros [= <- <- <-]. simpl. auto.
Qed.


(** ApplyDelete leaves the log, the flush thread and the place of Commit as
    they are, and records the delete and its Unlock. *)
Lemma ApplyDelete_frame (table : Z) (rid : RID) (w : World) :
  exists b,
    trace (ApplyDelete table rid w)
    = trace w ++ [EvApplyDelete table rid; EvUnlock rid b] /\
    Lock.Unlock (txn w) rid (lock_manager_ w)
    = (b, txn (ApplyDelete table rid w), lock_manager_ (ApplyDelete table rid w)) /\
    log_manager_ (ApplyDelete table rid w) = log_manager_ w /\
    flusher (ApplyDelete table rid w) = flusher w /\
    pc (ApplyDelete table rid w) = pc w /\
    ENABLE_LOGGING (ApplyDelete table rid w) = ENABLE_LOGGING w.
Proof.
  unfold ApplyDelete. cbn [emit txn lock_manager_].
  destruct (Lock.Unlock (txn w) rid (lock_manager_ w)) as [[b t] lk].
  exists b. cbn. rewrite <- app_assoc. auto 10.
Qed.












(** The lsn Commit waits for is the one the append gave its COMMIT record. *)
Lemma commit_step_append (LOG_BUFFER_SIZE : Z) (w w' : World) :
  pc w = Appending ->
  commit_step LOG_BUFFER_SIZE w = Some w' ->
  exists r' lm,
    Log.AppendLogRecord LOG_BUFFER_SIZE (commit_record (txn w)) (log_manager_ w)
      = Log.Appended (Log.next_lsn_ (log_manager_ w)) r' lm /\
    Log.log_record_type_ r' = Log.COMMIT /\
    Log.lsn_ r' = Log.next_lsn_ (log_manager_ w) /\
    pc w' = LoopHead (Log.next_lsn_ (log_manager_ w)).
Proof.
  intros Hpc. unfold commit_step. rewrite Hpc.
  destruct (Log.AppendLogRecord _ _ _) as [lsn r' lm|] eqn:Ha; [|discriminate].
  intros [= <-]. pose proof (AppendLogRecord_lsn _ _ _ _ _ _ Ha) as (-> & Hl & _).
  exists r', lm. repeat split; auto.
  unfold Log.AppendLogRecord in Ha. destruct (_ >? _); [discriminate|].
  now injection Ha as <- _.
Qed.

(** The wait loop is left towards the release only when the record is durable. *)
Lemma commit_step_loop (LOG_BUFFER_SIZE : Z) (w w' : World) (lsn : Z) :
  pc w = LoopHead lsn ->
  commit_step LOG_BUFFER_SIZE w = Some w' ->
  (Log.persistent_lsn_ (log_manager_ w) < lsn /\ pc w' = InWaitForLogFlush lsn) \/
  (lsn <= Log.persistent_lsn_ (log_manager_ w) /\
   pc w' = Releasing (Some lsn) (lock_set_of (txn w))).
Proof.
  intros Hpc. unfold commit_step. rewrite Hpc.
  destruct (lsn >? _) eqn:E; intros [= <-]; simpl.
  - left. split; [|reflexivity]. now apply Z.gtb_lt in E.
  - right. split; [|reflexivity]. rewrite Z.gtb_ltb in E. now apply Z.ltb_ge in E.
Qed.

(** A schedule: which thread runs next. *)
Inductive actor := CommitThread | FlushThread.

Fixpoint run (LOG_BUFFER_SIZE : Z) (schedule : list actor) (w : World) : option World :=
  match schedule with
  | [] => Some w
  | a :: schedule =>
      match (match a with
             | CommitThread => commit_step LOG_BUFFER_SIZE w
             | FlushThread => flush_step w
             end) with
      | Some w' => run LOG_BUFFER_SIZE schedule w'
      | None => None
      end
  end.



(** Transaction 0 holds (0,0) and (4,2) EXCLUSIVE and has deleted (4,2) in
    table 9. *)
Definition committing_txn : Transaction :=
  mkTxn 0 GROWING (-1) ∅ ({[(0, 0)]} ∪ {[(4, 2)]})
    [mkWriteRecord (4, 2) WType.DELETE [] 9].
Definition at_entry : World :=
  mkWorld true (Log.mkLogManager (repeat 0 32) (repeat 0 32) 0 0 Log.INVALID_LSN)
    FlushIdle
    (Lock.mkLM true (<[(0, 0) := Lock.mkGranted Lock.EXCLUSIVE {[0]}]>
                       {[(4, 2) := Lock.mkGranted Lock.EXCLUSIVE {[0]}]}) ∅)
    committing_txn AtEntry [].



Lemma reachable_steps (LOG_BUFFER_SIZE : Z) (w0 w : World) :
  reachable LOG_BUFFER_SIZE w0 w -> steps LOG_BUFFER_SIZE w0 w.
Proof.
  induction 1 as [|w w' _ IH _ Hs]; [apply steps_here|].
  eapply steps_next; eauto.
Qed.












(** *** The release loop of Commit *)

(** The lock table agrees with the lock sets of [t]. *)
Definition holds (t : Transaction) (m : Lock.LockManager) : Prop :=
  (forall rid, rid ∈ shared_lock_set t ->
     exists g, Lock.lock_table_ m !! rid = Some g /\
       Lock.lockType_ g = Lock.SHARED /\ txn_id t ∈ Lock.granted_set_ g) /\
  (forall rid, rid ∈ exclusive_lock_set t ->
     exists g, Lock.lock_table_ m !! rid = Some g /\
       Lock.lockType_ g = Lock.EXCLUSIVE /\ txn_id t ∈ Lock.granted_set_ g).

Lemma Unlock_held (t : Transaction) (rid : RID) (m : Lock.LockManager)
    (g : Lock.GrantedTxns) :
  state t = COMMITTED ->
  Lock.lock_table_ m !! rid = Some g -> txn_id t ∈ Lock.granted_set_ g ->
  exists m',
    Lock.Unlock t rid m
    = (true,
       match Lock.lockType_ g with
       | Lock.SHARED => Lock.shared_erase rid t
       | Lock.EXCLUSIVE => Lock.exclusive_erase rid t
       end, m') /\
    (forall rid', rid' <> rid ->
       Lock.lock_table_ m' !! rid' = Lock.lock_table_ m !! rid') /\
    (forall g', Lock.lock_table_ m' !! rid = Some g' -> txn_id t ∉ Lock.granted_set_ g').
Proof.
  intros Hc Hrid Hin. unfold Lock.Unlock. rewrite Hc, Hrid. simpl.
  rewrite andb_false_r. simpl. rewrite bool_decide_eq_true_2 by exact Hin. simpl.
  rewrite andb_false_r.
  destruct (decide (Lock.granted_set_ g ∖ {[txn_id t]} = ∅)) as [He|He].
  - eexists. split; [reflexivity|]. simpl. split.
    + intros rid' Hne. now apply lookup_delete_ne.
    + intros g'. rewrite lookup_delete_eq. discriminate.
  - eexists. split; [reflexivity|]. simpl. split.
    + intros rid' Hne. now apply lookup_insert_ne.
    + intros g'. rewrite lookup_insert_eq. intros [= <-]. simpl.
      rewrite elem_of_difference, elem_of_singleton. tauto.
Qed.

Lemma release_loop (LOG_BUFFER_SIZE : Z) (ls : list RID) :
  forall (w : World) (lsn : option Z),
    pc w = Releasing lsn ls -> NoDup ls ->
    (forall rid, rid ∈ ls <-> rid ∈ shared_lock_set (txn w) ∪ exclusive_lock_set (txn w)) ->
    holds (txn w) (lock_manager_ w) -> state (txn w) = COMMITTED ->
    exists w',
      run LOG_BUFFER_SIZE (repeat CommitThread (S (length ls))) w = Some w' /\
      pc w' = Returned lsn /\
      shared_lock_set (txn w') = ∅ /\ exclusive_lock_set (txn w') = ∅ /\
      state (txn w') = COMMITTED /\ txn_id (txn w') = txn_id (txn w) /\
      trace w' = trace w ++ List.map (fun rid => EvUnlock rid true) ls /\
      (forall rid g, rid ∈ ls -> Lock.lock_table_ (lock_manager_ w') !! rid = Some g ->
         txn_id (txn w) ∉ Lock.granted_set_ g) /\
      (forall rid, rid ∉ ls ->
         Lock.lock_table_ (lock_manager_ w') !! rid
         = Lock.lock_table_ (lock_manager_ w) !! rid).
Proof.
  induction ls as [|rid ls IH]; intros w lsn Hpc Hnd Hls (Hsh & Hex) Hc.
  - exists (with_pc (Returned lsn) w). simpl. unfold commit_step. rewrite Hpc.
    split; [reflexivity|]. simpl. split; [reflexivity|].
    assert (Hempty : shared_lock_set (txn w) ∪ exclusive_lock_set (txn w) = ∅).
    { apply set_eq. intros x. rewrite <- Hls. split; intros Hx.
      - now apply elem_of_nil in Hx.
      - now apply not_elem_of_empty in Hx. }
    apply empty_union_L in Hempty as [-> ->].
    split; [reflexivity|]. split; [reflexivity|]. split; [exact Hc|].
    split; [reflexivity|]. split; [simpl; now rewrite app_nil_r|]. split.
    + intros rid g Hin. now apply elem_of_nil in Hin.
    + reflexivity.
  - apply NoDup_cons in Hnd as [Hnin Hnd].
    assert (Hheld : exists g, Lock.lock_table_ (lock_manager_ w) !! rid = Some g /\
              txn_id (txn w) ∈ Lock.granted_set_ g /\
              (Lock.lockType_ g = Lock.SHARED /\ rid ∈ shared_lock_set (txn w) \/
               Lock.lockType_ g = Lock.EXCLUSIVE /\ rid ∈ exclusive_lock_set (txn w))).
    { assert (Hin : rid ∈ shared_lock_set (txn w) ∪ exclusive_lock_set (txn w))
        by (apply Hls; left).
      apply elem_of_union in Hin as [Hin|Hin].
      - destruct (Hsh rid Hin) as (g & Hg & Ht & Hm). exists g. auto.
      - destruct (Hex rid Hin) as (g & Hg & Ht & Hm). exists g. auto. }
    destruct Hheld as (g & Hg & Hmem & Hkind).
    destruct (Unlock_held (txn w) rid (lock_manager_ w) g Hc Hg Hmem)
      as (m' & Hu & Hother & Hgone).
    set (t' := match Lock.lockType_ g with
               | Lock.SHARED => Lock.shared_erase rid (txn w)
               | Lock.EXCLUSIVE => Lock.exclusive_erase rid (txn w)
               end) in *.
    set (w1 := with_pc (Releasing lsn ls)
                 (emit (EvUnlock rid true) (with_txn t' (with_locks m' w)))).
    assert (Hstep : commit_step LOG_BUFFER_SIZE w = Some w1).
    { unfold commit_step. rewrite Hpc, Hu. reflexivity. }
    assert (Hdisj : forall r, r ∈ shared_lock_set (txn w) ->
                      r ∈ exclusive_lock_set (txn w) -> False).
    { intros r H1 H2. destruct (Hsh r H1) as (g1 & Hg1 & Ht1 & _).
      destruct (Hex r H2) as (g2 & Hg2 & Ht2 & _). congruence. }
    assert (Hsets : shared_lock_set t' ∪ exclusive_lock_set t'
                    = (shared_lock_set (txn w) ∪ exclusive_lock_set (txn w)) ∖ {[rid]} /\
                    shared_lock_set t' ⊆ shared_lock_set (txn w) /\
                    exclusive_lock_set t' ⊆ exclusive_lock_set (txn w)).
    { unfold t'. destruct Hkind as [[-> Hin]|[-> Hin]]; simpl.
      - split; [|split; [apply subseteq_difference_l|]; reflexivity].
        apply set_eq. intros x. rewrite !elem_of_union, !elem_of_difference,
          !elem_of_union, elem_of_singleton. split; [|tauto].
        intros [[? ?]|?]; [tauto|]. split; [tauto|]. intros ->. eauto.
      - split; [|split; [|apply subseteq_difference_l]; reflexivity].
        apply set_eq. intros x. rewrite !elem_of_union, !elem_of_difference,
          !elem_of_union, elem_of_singleton. split; [|tauto].
        intros [?|[? ?]]; [|tauto]. split; [tauto|]. intros ->. eauto. }
    destruct Hsets as (Hunion & Hsubs & Hsubx).
    assert (Hst' : state t' = COMMITTED /\ txn_id t' = txn_id (txn w)).
    { unfold t'. destruct (Lock.lockType_ g); now split. }
    destruct Hst' as [Hc' Hid'].
    destruct (IH w1 lsn) as (w' & Hrun & Hpc' & Hs' & Hx' & Hst & Hid & Htr & Hrel & Hrest).
    + reflexivity.
    + exact Hnd.
    + intros r. change (txn w1) with t'. rewrite Hunion, elem_of_difference,
        elem_of_singleton, <- Hls, elem_of_cons. split.
      * intros Hr. split; [now right|]. intros ->. contradiction.
      * intros [[->|Hr] Hne]; [contradiction|assumption].
    + change (txn w1) with t'. change (lock_manager_ w1) with m'. split.
      * intros r Hr. destruct (Hsh r (Hsubs r Hr)) as (g1 & Hg1 & Ht1 & Hm1).
        exists g1. rewrite Hid'. split; [|now split]. rewrite Hother; [assumption|].
        intros ->. destruct (Hgone g1) as []; [|assumption].
        assert (Hr' : rid ∈ shared_lock_set t' ∪ exclusive_lock_set t')
          by (apply elem_of_union; now left).
        rewrite Hunion, elem_of_difference, elem_of_singleton in Hr'. tauto.
      * intros r Hr. destruct (Hex r (Hsubx r Hr)) as (g1 & Hg1 & Ht1 & Hm1).
        exists g1. rewrite Hid'. split; [|now split]. rewrite Hother; [assumption|].
        intros ->.
        assert (Hr' : rid ∈ shared_lock_set t' ∪ exclusive_lock_set t')
          by (apply elem_of_union; now right).
        rewrite Hunion, elem_of_difference, elem_of_singleton in Hr'. tauto.
    + exact Hc'.
    + exists w'. split.
      { change (repeat CommitThread (S (length (rid :: ls))))
          with (CommitThread :: repeat CommitThread (S (length ls))).
        cbn [run]. now rewrite Hstep. }
      split; [exact Hpc'|]. split; [exact Hs'|]. split; [exact Hx'|].
      split; [exact Hst|]. split; [now rewrite Hid|]. split.
      { rewrite Htr. unfold w1. simpl. now rewrite <- app_assoc. }
      split.
      * intros r g' Hr Hg'. apply elem_of_cons in Hr as [->|Hr].
        -- apply Hgone. rewrite <- Hg'. symmetry. now apply Hrest.
        -- change (txn w1) with t' in Hrel. rewrite Hid' in Hrel. eapply Hrel; eauto.
      * intros r Hr. apply not_elem_of_cons in Hr as [Hne Hr].
        rewrite (Hrest r Hr). change (lock_manager_ w1) with m'. now apply Hother.
Qed.

(** X10: once Commit reaches its release loop, with the transaction
    COMMITTED and the lock table agreeing with its lock sets, the loop calls
    Unlock once per locked rid, every call returns true, and Commit returns
    with both lock sets empty and the transaction gone from the holders of
    every rid it had locked; entries of other rids are not touched. *)
Theorem Commit_releases_every_lock (LOG_BUFFER_SIZE : Z) (w : World) (lsn : option Z) :
  pc w = Releasing lsn (lock_set_of (txn w)) ->
  holds (txn w) (lock_manager_ w) -> state (txn w) = COMMITTED ->
  exists w',
    run LOG_BUFFER_SIZE (repeat CommitThread (S (length (lock_set_of (txn w))))) w
    = Some w' /\
    pc w' = Returned lsn /\
    shared_lock_set (txn w') = ∅ /\ exclusive_lock_set (txn w') = ∅ /\
    trace w' = trace w ++ List.map (fun rid => EvUnlock rid true) (lock_set_of (txn w)) /\
    (forall rid g,
       rid ∈ shared_lock_set (txn w) ∪ exclusive_lock_set (txn w) ->
       Lock.lock_table_ (lock_manager_ w') !! rid = Some g ->
       txn_id (txn w) ∉ Lock.granted_set_ g) /\
    (forall rid,
       rid ∉ shared_lock_set (txn w) ∪ exclusive_lock_set (txn w) ->
       Lock.lock_table_ (lock_manager_ w') !! rid
       = Lock.lock_table_ (lock_manager_ w) !! rid).
Proof.
  intros Hpc Hholds Hc.
  assert (Hls : forall rid, rid ∈ lock_set_of (txn w) <->
                  rid ∈ shared_lock_set (txn w) ∪ exclusive_lock_set (txn w)).
  { intros rid. unfold lock_set_of. apply elem_of_elements. }
  destruct (release_loop LOG_BUFFER_SIZE (lock_set_of (txn w)) w lsn Hpc
              (NoDup_elements _) Hls Hholds Hc)
    as (w' & Hrun & Hpc' & Hs & Hx & _ & _ & Htr & Hrel & Hrest).
  exists w'. repeat (split; [assumption|]). split.
  - intros rid g Hin. apply Hrel. now apply Hls.
  - intros rid Hnin. apply Hrest. now rewrite Hls.
Qed.

(** Transaction 0, committed, holds (0,0) EXCLUSIVE and shares (1,1) with
    transaction 5. *)
Definition releasing_txn : Transaction :=
  mkTxn 0 COMMITTED (-1) {[(1, 1)]} {[(0, 0)]} [].
Definition at_release : World :=
  mkWorld false (Log.mkLogManager (repeat 0 32) (repeat 0 32) 0 0 Log.INVALID_LSN)
    FlushIdle
    (Lock.mkLM true (<[(0, 0) := Lock.mkGranted Lock.EXCLUSIVE {[0]}]>
                       (<[(1, 1) := Lock.mkGranted Lock.SHARED ({[0]} ∪ {[5]})]> ∅)) ∅)
    releasing_txn (Releasing None (lock_set_of releasing_txn)) [].

Lemma Commit_releases_every_lock_witness :
  holds releasing_txn (lock_manager_ at_release) /\
  exists w',
    run 32 (repeat CommitThread 3) at_release = Some w' /\
    pc w' = Returned None /\
    shared_lock_set (txn w') = ∅ /\ exclusive_lock_set (txn w') = ∅ /\
    Lock.lock_table_ (lock_manager_ w') !! (0, 0) = None /\
    Lock.lock_table_ (lock_manager_ w') !! (1, 1) = Some (Lock.mkGranted Lock.SHARED {[5]}).
Proof.
  assert (Hh : holds releasing_txn (lock_manager_ at_release)).
  { split; intros rid Hr; simpl in Hr; apply elem_of_singleton in Hr as ->;
      (eexists; split; [reflexivity|]; split; [reflexivity|]); simpl.
    - apply elem_of_union. left. now apply elem_of_singleton.
    - now apply elem_of_singleton. }
  split; [exact Hh|].
  destruct (Commit_releases_every_lock 32 at_release None eq_refl Hh eq_refl)
    as (w' & Hrun & Hpc & Hs & Hx & _).
  exists w'. split; [exact Hrun|]. split; [exact Hpc|]. split; [exact Hs|].
  split; [exact Hx|].
  assert (Hw : Some w' = run 32 (repeat CommitThread 3) at_release)
    by (symmetry; exact Hrun).
  vm_compute in Hw. injection Hw as ->. split; vm_compute; reflexivity.
Defined.


(** *** Commit from entry to return, logging switched off *)

Lemma run_app (LOG_BUFFER_SIZE : Z) (s1 s2 : list actor) (w : World) :
  run LOG_BUFFER_SIZE (s1 ++ s2) w
  = match run LOG_BUFFER_SIZE s1 w with
    | Some w1 => run LOG_BUFFER_SIZE s2 w1
    | None => None
    end.
Proof.
  revert w. induction s1 as [|a s1 IH]; intros w; [reflexivity|].
  cbn [run app]. destruct (match a with CommitThread => _ | FlushThread => _ end);
    [apply IH|reflexivity].
Qed.

(** What Commit does for one item of the write set whose rid the
    transaction has locked: a DELETE is made final by ApplyDelete, which
    unlocks the rid; the other items ask for nothing. *)
Definition deferred_delete (item : WriteRecord) : list event :=
  match wtype_ item with
  | WType.DELETE => [EvApplyDelete (table_ item) (rid_ item); EvUnlock (rid_ item) true]
  | _ => []
  end.

(** The rids of the DELETE items of a write set. *)
Definition deleted_rids (ws : list WriteRecord) : list RID :=
  omap (fun item => match wtype_ item with
                    | WType.DELETE => Some (rid_ item)
                    | _ => None
                    end) ws.

(** The locks left for the release loop. *)
Definition remaining_locks (t : Transaction) : list RID :=
  elements ((shared_lock_set t ∪ exclusive_lock_set t)
              ∖ list_to_set (deleted_rids (write_set t))).

(** Unlock of a rid of the lock sets by the committed transaction. *)
Lemma Unlock_in_lock_set (t : Transaction) (rid : RID) (m : Lock.LockManager) :
  state t = COMMITTED -> holds t m ->
  rid ∈ shared_lock_set t ∪ exclusive_lock_set t ->
  exists t' m',
    Lock.Unlock t rid m = (true, t', m') /\
    holds t' m' /\ state t' = COMMITTED /\ txn_id t' = txn_id t /\
    write_set t' = write_set t /\
    shared_lock_set t' ∪ exclusive_lock_set t'
    = (shared_lock_set t ∪ exclusive_lock_set t) ∖ {[rid]} /\
    (forall rid', rid' <> rid ->
       Lock.lock_table_ m' !! rid' = Lock.lock_table_ m !! rid') /\
    (forall g', Lock.lock_table_ m' !! rid = Some g' -> txn_id t ∉ Lock.granted_set_ g').
Proof.
  intros Hc (Hsh & Hex) Hin.
  assert (Hheld : exists g, Lock.lock_table_ m !! rid = Some g /\
            txn_id t ∈ Lock.granted_set_ g /\
            (Lock.lockType_ g = Lock.SHARED /\ rid ∈ shared_lock_set t \/
             Lock.lockType_ g = Lock.EXCLUSIVE /\ rid ∈ exclusive_lock_set t)).
  { apply elem_of_union in Hin as [Hin|Hin].
    - destruct (Hsh rid Hin) as (g & Hg & Ht & Hm). exists g. auto.
    - destruct (Hex rid Hin) as (g & Hg & Ht & Hm). exists g. auto. }
  destruct Hheld as (g & Hg & Hmem & Hkind).
  destruct (Unlock_held t rid m g Hc Hg Hmem) as (m' & Hu & Hother & Hgone).
  set (t' := match Lock.lockType_ g with
             | Lock.SHARED => Lock.shared_erase rid t
             | Lock.EXCLUSIVE => Lock.exclusive_erase rid t
             end) in *.
  assert (Hdisj : forall r, r ∈ shared_lock_set t -> r ∈ exclusive_lock_set t -> False).
  { intros r H1 H2. destruct (Hsh r H1) as (g1 & Hg1 & Ht1 & _).
    destruct (Hex r H2) as (g2 & Hg2 & Ht2 & _). congruence. }
  assert (Hsets : shared_lock_set t' ∪ exclusive_lock_set t'
                  = (shared_lock_set t ∪ exclusive_lock_set t) ∖ {[rid]} /\
                  shared_lock_set t' ⊆ shared_lock_set t /\
                  exclusive_lock_set t' ⊆ exclusive_lock_set t).
  { unfold t'. destruct Hkind as [[-> Hin']|[-> Hin']]; simpl.
    - split; [|split; [apply subseteq_difference_l|]; reflexivity].
      apply set_eq. intros x. rewrite !elem_of_union, !elem_of_difference,
        !elem_of_union, elem_of_singleton. split; [|tauto].
      intros [[? ?]|?]; [tauto|]. split; [tauto|]. intros ->. eauto.
    - split; [|split; [|apply subseteq_difference_l]; reflexivity].
      apply set_eq. intros x. rewrite !elem_of_union, !elem_of_difference,
        !elem_of_union, elem_of_singleton. split; [|tauto].
      intros [?|[? ?]]; [|tauto]. split; [tauto|]. intros ->. eauto. }
  destruct Hsets as (Hunion & Hsubs & Hsubx).
  assert (Hst' : state t' = COMMITTED /\ txn_id t' = txn_id t /\ write_set t' = write_set t).
  { unfold t'. destruct (Lock.lockType_ g); now repeat split. }
  destruct Hst' as (Hc' & Hid' & Hws').
  assert (Hnot : rid ∉ shared_lock_set t' ∪ exclusive_lock_set t').
  { rewrite Hunion, elem_of_difference, elem_of_singleton. tauto. }
  exists t', m'. split; [exact Hu|]. split.
  { split.
    - intros r Hr. destruct (Hsh r (Hsubs r Hr)) as (g1 & Hg1 & Ht1 & Hm1).
      exists g1. rewrite Hid'. split; [|now split]. rewrite Hother; [assumption|].
      intros ->. apply Hnot. apply elem_of_union. now left.
    - intros r Hr. destruct (Hex r (Hsubx r Hr)) as (g1 & Hg1 & Ht1 & Hm1).
      exists g1. rewrite Hid'. split; [|now split]. rewrite Hother; [assumption|].
      intros ->. apply Hnot. apply elem_of_union. now right. }
  auto 10.
Qed.

Lemma deleted_rids_snoc (ws : list WriteRecord) (item : WriteRecord) :
  deleted_rids (ws ++ [item]) = deleted_rids ws ++ deleted_rids [item].
Proof. unfold deleted_rids. apply omap_app. Qed.

(** One turn of the loop over the write set. *)
Lemma drain_item (item : WriteRecord) (w : World) :
  state (txn w) = COMMITTED -> holds (txn w) (lock_manager_ w) ->
  (forall rid, rid ∈ deleted_rids [item] ->
     rid ∈ shared_lock_set (txn w) ∪ exclusive_lock_set (txn w)) ->
  let w0 := match wtype_ item with
            | WType.DELETE => ApplyDelete (table_ item) (rid_ item) w
            | _ => w
            end in
  pc w0 = pc w /\ trace w0 = trace w ++ deferred_delete item /\
  holds (txn w0) (lock_manager_ w0) /\ state (txn w0) = COMMITTED /\
  txn_id (txn w0) = txn_id (txn w) /\ write_set (txn w0) = write_set (txn w) /\
  shared_lock_set (txn w0) ∪ exclusive_lock_set (txn w0)
  = (shared_lock_set (txn w) ∪ exclusive_lock_set (txn w))
      ∖ list_to_set (deleted_rids [item]) /\
  ENABLE_LOGGING w0 = ENABLE_LOGGING w /\ log_manager_ w0 = log_manager_ w /\
  flusher w0 = flusher w /\
  (forall rid g, rid ∈ deleted_rids [item] ->
     Lock.lock_table_ (lock_manager_ w0) !! rid = Some g ->
     txn_id (txn w) ∉ Lock.granted_set_ g) /\
  (forall rid, rid ∉ deleted_rids [item] ->
     Lock.lock_table_ (lock_manager_ w0) !! rid = Lock.lock_table_ (lock_manager_ w) !! rid).
Proof.
  intros Hc Hh Hin. unfold deferred_delete, deleted_rids in *. cbn [omap list_omap] in *.
  destruct (wtype_ item) eqn:Hty; cbn zeta; cbn [list_to_set] in *.
  2:{ (* DELETE *)
    destruct (Unlock_in_lock_set (txn w) (rid_ item) (lock_manager_ w) Hc Hh)
      as (t' & m' & Hu & Hh' & Hc' & Hid' & Hws' & Hsets & Hother & Hgone).
    { apply Hin. left. }
    destruct (ApplyDelete_frame (table_ item) (rid_ item) w)
      as (b & Htr & Hu' & Hlm & Hf & Hp & He).
    rewrite Hu in Hu'. injection Hu' as <- Ht Hm. rewrite <- Ht, <- Hm.
    split; [exact Hp|]. split; [exact Htr|]. split; [exact Hh'|]. split; [exact Hc'|].
    split; [exact Hid'|]. split; [exact Hws'|].
    split; [rewrite Hsets; f_equal; now rewrite union_empty_r_L|].
    split; [exact He|]. split; [exact Hlm|]. split; [exact Hf|]. split.
    - intros rid g Hr. apply list_elem_of_singleton in Hr as ->. apply Hgone.
    - intros rid Hr. apply Hother. intros ->. apply Hr. left. }
  all: rewrite app_nil_r, difference_empty_L; repeat (split; [auto; fail|]); split;
    [intros rid g Hr; now apply elem_of_nil in Hr|reflexivity].
Qed.

(** The loop over the write set: one turn per item, the last item first;
    every DELETE item gives up its lock. *)
Lemma drain_loop (LOG_BUFFER_SIZE : Z) (ws : list WriteRecord) :
  forall w : World,
    pc w = Draining -> write_set (txn w) = ws ->
    state (txn w) = COMMITTED -> holds (txn w) (lock_manager_ w) ->
    NoDup (deleted_rids ws) ->
    (forall rid, rid ∈ deleted_rids ws ->
       rid ∈ shared_lock_set (txn w) ∪ exclusive_lock_set (txn w)) ->
    exists w',
      run LOG_BUFFER_SIZE (repeat CommitThread (length ws)) w = Some w' /\
      pc w' = Draining /\ write_set (txn w') = [] /\
      state (txn w') = COMMITTED /\ txn_id (txn w') = txn_id (txn w) /\
      holds (txn w') (lock_manager_ w') /\
      shared_lock_set (txn w') ∪ exclusive_lock_set (txn w')
      = (shared_lock_set (txn w) ∪ exclusive_lock_set (txn w))
          ∖ list_to_set (deleted_rids ws) /\
      trace w' = trace w ++ concat (List.map deferred_delete (List.rev ws)) /\
      ENABLE_LOGGING w' = ENABLE_LOGGING w /\ log_manager_ w' = log_manager_ w /\
      flusher w' = flusher w /\
      (forall rid g, rid ∈ deleted_rids ws ->
         Lock.lock_table_ (lock_manager_ w') !! rid = Some g ->
         txn_id (txn w) ∉ Lock.granted_set_ g) /\
      (forall rid, rid ∉ deleted_rids ws ->
         Lock.lock_table_ (lock_manager_ w') !! rid
         = Lock.lock_table_ (lock_manager_ w) !! rid).
Proof.
  induction ws as [|item ws IH] using rev_ind; intros w Hpc Hws Hc Hh Hnd Hin.
  - exists w. split; [reflexivity|]. split; [exact Hpc|]. split; [exact Hws|].
    split; [exact Hc|]. split; [reflexivity|]. split; [exact Hh|].
    cbn. rewrite app_nil_r, difference_empty_L. repeat (split; [reflexivity|]).
    split; [intros rid g Hr; now apply elem_of_nil in Hr|reflexivity].
  - rewrite deleted_rids_snoc in Hnd, Hin |- *.
    apply NoDup_app in Hnd as (Hnd & Hfresh & _).
    destruct (drain_item item w Hc Hh) as
      (Hpc0 & Htr0 & Hh0 & Hc0 & Hid0 & Hws0 & Hsets0 & He0 & Hlm0 & Hf0 & Hgone0 & Hother0).
    { intros rid Hr. apply Hin. apply elem_of_app. now right. }
    set (w0 := match wtype_ item with
               | WType.DELETE => ApplyDelete (table_ item) (rid_ item) w
               | _ => w
               end) in *.
    set (w1 := with_txn (set_write_set (List.rev (List.rev ws)) (txn w0)) w0).
    assert (Hstep : commit_step LOG_BUFFER_SIZE w = Some w1).
    { unfold commit_step. rewrite Hpc, Hws, List.rev_app_distr. reflexivity. }
    destruct (IH w1) as (w' & Hrun & Hpc' & Hws' & Hc' & Hid' & Hh' & Hsets' & Htr' & He'
                         & Hlm' & Hf' & Hgone' & Hother').
    { cbn. now rewrite Hpc0. }
    { cbn. apply List.rev_involutive. }
    { exact Hc0. }
    { exact Hh0. }
    { exact Hnd. }
    { intros rid Hr. change (txn w1) with (set_write_set (List.rev (List.rev ws)) (txn w0)).
      cbn [shared_lock_set exclusive_lock_set set_write_set].
      rewrite Hsets0, elem_of_difference. split.
      - apply Hin. apply elem_of_app. now left.
      - rewrite elem_of_list_to_set. intros Hr'. exact (Hfresh rid Hr Hr'). }
    cbn [w1 with_txn txn set_write_set shared_lock_set exclusive_lock_set txn_id
         trace ENABLE_LOGGING log_manager_ flusher lock_manager_] in *.
    exists w'. split.
    { rewrite length_app. cbn [length]. rewrite Nat.add_1_r. cbn [repeat run].
      rewrite Hstep. exact Hrun. }
    split; [exact Hpc'|]. split; [exact Hws'|]. split; [exact Hc'|].
    split; [now rewrite Hid'|]. split; [exact Hh'|]. split.
    { rewrite Hsets', Hsets0, list_to_set_app_L. apply set_eq. intros x.
      rewrite !elem_of_difference, !elem_of_union. tauto. }
    split.
    { rewrite Htr', Htr0, List.rev_app_distr. cbn. now rewrite <- app_assoc. }
    split; [now rewrite He'|]. split; [now rewrite Hlm'|]. split; [now rewrite Hf'|].
    split.
    + intros rid g Hr Hg. apply elem_of_app in Hr as [Hr|Hr].
      * rewrite <- Hid0. eapply Hgone'; eauto.
      * apply (Hgone0 rid g Hr). rewrite <- Hg. symmetry. apply Hother'.
        intros Hr'. exact (Hfresh rid Hr' Hr).
    + intros rid Hr. rewrite not_elem_of_app in Hr. destruct Hr as [Hr1 Hr2].
      rewrite (Hother' rid Hr1). now apply Hother0.
Qed.

Lemma Unlock_write_set (t : Transaction) (rid : RID) (m : Lock.LockManager) :
  write_set (snd (fst (Lock.Unlock t rid m))) = write_set t.
Proof.
  unfold Lock.Unlock. destruct (_ && _); [reflexivity|].
  destruct (Lock.lock_table_ m !! rid) as [g|]; [|reflexivity].
  destruct (negb _); [reflexivity|].
  destruct (_ && _), (Lock.lockType_ g), (decide _); reflexivity.
Qed.

(** The release loop touches neither the write set nor the log. *)
Lemma release_loop_frame (LOG_BUFFER_SIZE : Z) (ls : list RID) :
  forall (w w' : World) (lsn : option Z),
    pc w = Releasing lsn ls ->
    run LOG_BUFFER_SIZE (repeat CommitThread (S (length ls))) w = Some w' ->
    write_set (txn w') = write_set (txn w) /\ log_manager_ w' = log_manager_ w.
Proof.
  induction ls as [|rid ls IH]; intros w w' lsn Hpc Hrun.
  - cbn [length repeat run] in Hrun. unfold commit_step in Hrun. rewrite Hpc in Hrun.
    injection Hrun as <-. split; reflexivity.
  - change (run LOG_BUFFER_SIZE (repeat CommitThread (S (length (rid :: ls)))) w)
      with (match commit_step LOG_BUFFER_SIZE w with
            | Some w1 => run LOG_BUFFER_SIZE (repeat CommitThread (S (length ls))) w1
            | None => None
            end) in Hrun.
    unfold commit_step at 1 in Hrun. rewrite Hpc in Hrun.
    pose proof (Unlock_write_set (txn w) rid (lock_manager_ w)) as Hws.
    destruct (Lock.Unlock (txn w) rid (lock_manager_ w)) as [[b t] lk].
    destruct (IH (with_pc (Releasing lsn ls)
                    (emit (EvUnlock rid b) (with_txn t (with_locks lk w))))
                w' lsn eq_refl Hrun) as [H1 H2].
    split; [rewrite H1; exact Hws|rewrite H2; reflexivity].
Qed.

(** X28: Commit with logging switched off, from entry to return, when the
    lock table agrees with the lock sets of the transaction and the rids of
    the DELETE items of its write set are distinct and locked by it.  The
    committing thread is never blocked: it sets the state to COMMITTED and
    empties the write set from its last item to its first, calling
    ApplyDelete for the DELETE items, which unlocks their rids, and nothing
    for the others; it appends no log record; then it unlocks the rids left
    in the two lock sets.  Every Unlock returns true.  It returns with the
    write set and both lock sets empty and the transaction COMMITTED and
    gone from the holders of every rid it had locked. *)
Theorem Commit_without_logging (LOG_BUFFER_SIZE : Z) (w : World) :
  pc w = AtEntry -> ENABLE_LOGGING w = false ->
  holds (txn w) (lock_manager_ w) ->
  NoDup (deleted_rids (write_set (txn w))) ->
  (forall rid, rid ∈ deleted_rids (write_set (txn w)) ->
     rid ∈ shared_lock_set (txn w) ∪ exclusive_lock_set (txn w)) ->
  exists w',
    run LOG_BUFFER_SIZE
      (repeat CommitThread
         (length (write_set (txn w)) + length (remaining_locks (txn w)) + 3)) w = Some w' /\
    pc w' = Returned None /\
    state (txn w') = COMMITTED /\
    write_set (txn w') = [] /\
    shared_lock_set (txn w') = ∅ /\ exclusive_lock_set (txn w') = ∅ /\
    log_manager_ w' = log_manager_ w /\
    trace w' = trace w
               ++ concat (List.map deferred_delete (List.rev (write_set (txn w))))
               ++ List.map (fun rid => EvUnlock rid true) (remaining_locks (txn w)) /\
    (forall rid g,
       rid ∈ shared_lock_set (txn w) ∪ exclusive_lock_set (txn w) ->
       Lock.lock_table_ (lock_manager_ w') !! rid = Some g ->
       txn_id (txn w) ∉ Lock.granted_set_ g).
Proof.
  intros Hpc Hlog Hholds Hnd Hdel.
  set (ws := write_set (txn w)) in *. set (ls := remaining_locks (txn w)).
  set (w1 := with_pc Draining (with_txn (SetState COMMITTED (txn w)) w)).
  assert (H1 : run LOG_BUFFER_SIZE (repeat CommitThread 1) w = Some w1).
  { cbn [repeat run]. unfold commit_step. now rewrite Hpc. }
  destruct (drain_loop LOG_BUFFER_SIZE ws w1 eq_refl eq_refl eq_refl Hholds Hnd Hdel)
    as (w2 & H2 & Hpc2 & Hws2 & Hc2 & Hid2 & Hh2 & Hsets2 & Htr2 & He2 & Hlm2 & Hf2
        & Hgone2 & Hother2).
  cbn [w1 with_pc with_txn txn SetState shared_lock_set exclusive_lock_set txn_id trace
       ENABLE_LOGGING log_manager_ lock_manager_] in *.
  assert (Hls : lock_set_of (txn w2) = ls).
  { unfold lock_set_of, ls, remaining_locks. fold ws. now rewrite Hsets2. }
  set (w3 := with_pc (Releasing None ls) w2).
  assert (H3 : run LOG_BUFFER_SIZE (repeat CommitThread 1) w2 = Some w3).
  { cbn [repeat run]. unfold commit_step. rewrite Hpc2, Hws2. cbn [List.rev].
    now rewrite He2, Hlog, Hls. }
  destruct (release_loop LOG_BUFFER_SIZE ls w3 None) as
    (w' & H4 & Hpc' & Hs & Hx & Hst & Hid & Htr & Hrel & Hrest).
  - reflexivity.
  - unfold ls, remaining_locks. apply NoDup_elements.
  - intros rid. rewrite <- Hls. unfold lock_set_of. apply elem_of_elements.
  - exact Hh2.
  - exact Hc2.
  - cbn [w3 with_pc txn trace lock_manager_] in *.
    exists w'. split.
    { replace (length ws + length ls + 3)%nat
        with (1 + (length ws + (1 + S (length ls))))%nat by lia.
      rewrite !repeat_app. rewrite run_app, H1. cbv beta iota.
      rewrite run_app, H2. cbv beta iota. rewrite run_app, H3. exact H4. }
    split; [exact Hpc'|]. split; [exact Hst|].
    destruct (release_loop_frame LOG_BUFFER_SIZE ls w3 w' None eq_refl H4) as [Hws' Hlm'].
    split; [rewrite Hws'; exact Hws2|]. split; [exact Hs|]. split; [exact Hx|].
    split; [rewrite Hlm'; exact Hlm2|].
    split; [rewrite Htr, Htr2; now rewrite <- app_assoc|].
    intros rid g Hin Hg.
    destruct (decide (rid ∈ deleted_rids ws)) as [Hd|Hd].
    + apply (Hgone2 rid g Hd). rewrite <- Hg. symmetry. apply Hrest.
      unfold ls, remaining_locks. fold ws.
      rewrite elem_of_elements, elem_of_difference, elem_of_list_to_set. tauto.
    + rewrite <- Hid2. apply (Hrel rid g); [|exact Hg].
      unfold ls, remaining_locks. fold ws.
      rewrite elem_of_elements, elem_of_difference, elem_of_list_to_set. tauto.
Qed.

(** Transaction 0 deleted (4,2) in table 9 and inserted (4,3); it holds
    (0,0) and (4,2) EXCLUSIVE and shares (1,1) with transaction 5. *)
Definition deleting_txn : Transaction :=
  mkTxn 0 GROWING (-1) {[(1, 1)]} ({[(0, 0)]} ∪ {[(4, 2)]})
    [mkWriteRecord (4, 2) WType.DELETE [] 9; mkWriteRecord (4, 3) WType.INSERT [] 9].
Definition delete_at_entry : World :=
  mkWorld false (Log.mkLogManager (repeat 0 32) (repeat 0 32) 0 0 Log.INVALID_LSN)
    FlushIdle
    (Lock.mkLM false
       (<[(0, 0) := Lock.mkGranted Lock.EXCLUSIVE {[0]}]>
          (<[(4, 2) := Lock.mkGranted Lock.EXCLUSIVE {[0]}]>
             (<[(1, 1) := Lock.mkGranted Lock.SHARED ({[0]} ∪ {[5]})]> ∅))) ∅)
    deleting_txn AtEntry [].

Lemma Commit_without_logging_witness :
  exists w',
    run 32 (repeat CommitThread 7) delete_at_entry = Some w' /\
    pc w' = Returned None /\
    state (txn w') = COMMITTED /\
    write_set (txn w') = [] /\
    firstn 2 (trace w') = [EvApplyDelete 9 (4, 2); EvUnlock (4, 2) true] /\
    Lock.lock_table_ (lock_manager_ w') !! (4, 2) = None.
Proof.
  assert (Hh : holds deleting_txn (lock_manager_ delete_at_entry)).
  { split; intros rid Hr; simpl in Hr.
    - apply elem_of_singleton in Hr as ->.
      eexists; split; [reflexivity|]; split; [reflexivity|]; simpl.
      apply elem_of_union. left. now apply elem_of_singleton.
    - apply elem_of_union in Hr as [Hr|Hr]; apply elem_of_singleton in Hr as ->;
        (eexists; split; [reflexivity|]; split; [reflexivity|]); simpl;
        now apply elem_of_singleton. }
  destruct (Commit_without_logging 32 delete_at_entry eq_refl eq_refl Hh)
    as (w' & Hrun & Hpc & Hst & Hws & _ & _ & _ & Htr & _).
  - cbn. apply NoDup_singleton.
  - intros rid Hr. cbn in Hr. apply list_elem_of_singleton in Hr as ->. cbn.
    apply elem_of_union. right. apply elem_of_union. right. now apply elem_of_singleton.
  - assert (Hlen : length (remaining_locks (txn delete_at_entry)) = 2%nat)
      by (vm_compute; reflexivity).
    rewrite Hlen in Hrun.
    exists w'. split; [exact Hrun|]. split; [exact Hpc|]. split; [exact Hst|].
    split; [exact Hws|]. split; [rewrite Htr; reflexivity|].
    assert (Hw : Some w' = run 32 (repeat CommitThread 7) delete_at_entry)
      by (symmetry; exact Hrun).
    vm_compute in Hw. injection Hw as ->. vm_compute. reflexivity.
Defined.


(** *** From AppendLogRecord to the disk *)

(** The calls of the threads that append log records and the turns of the
    flush thread (a swap of the buffers, then the write of the flush buffer),
    in the order in which they take the latch. *)
Inductive log_action :=
| DoAppend (r : Log.LogRecord)
| DoFlush.

Definition log_act (LOG_BUFFER_SIZE : Z) (a : log_action) (w : World)
  : option (World * list Log.LogRecord) :=
  match a with
  | DoAppend r =>
      match Log.AppendLogRecord LOG_BUFFER_SIZE r (log_manager_ w) with
      | Log.Appended _ r' lm => Some (with_log lm w, [r'])
      | Log.BufferFull => None
      end
  | DoFlush =>
      match flush_step w with
      | Some w' => Some (w', [])
      | None => None
      end
  end.

(** A run, with the records as AppendLogRecord handed them back; [None]
    when an append finds the buffer full or the flush thread is off. *)
Fixpoint log_run (LOG_BUFFER_SIZE : Z) (acts : list log_action) (w : World)
  : option (World * list Log.LogRecord) :=
  match acts with
  | [] => Some (w, [])
  | a :: acts =>
      match log_act LOG_BUFFER_SIZE a w with
      | Some (w1, rs1) =>
          match log_run LOG_BUFFER_SIZE acts w1 with
          | Some (w2, rs2) => Some (w2, rs1 ++ rs2)
          | None => None
          end
      | None => None
      end
  end.

(** The bytes written to the log file so far. *)
Definition written (tr : list event) : list Z :=
  concat (omap (fun e => match e with EvWriteLog b => Some b | _ => None end) tr).

(** The bytes the flush thread has taken over and not yet written. *)
Definition in_flight (w : World) : list Z :=
  match flusher w with
  | FlushWriting _ flush_size =>
      take (Z.to_nat flush_size) (Log.flush_buffer_ (log_manager_ w))
  | FlushIdle => []
  end.

(** The bytes appended since the last swap. *)
Definition pending (w : World) : list Z :=
  take (Z.to_nat (Log.offset_ (log_manager_ w))) (Log.log_buffer_ (log_manager_ w)).

Definition appended_records (acts : list log_action) : list Log.LogRecord :=
  omap (fun a => match a with DoAppend r => Some r | DoFlush => None end) acts.

Lemma written_snoc (tr : list event) (b : list Z) :
  written (tr ++ [EvWriteLog b]) = written tr ++ b.
Proof.
  unfold written. rewrite omap_app, concat_app. cbn. now rewrite app_nil_r.
Qed.

Lemma total_size_app (rs1 rs2 : list Log.LogRecord) :
  Log.total_size (rs1 ++ rs2) = Log.total_size rs1 + Log.total_size rs2.
Proof.
  unfold Log.total_size. induction rs1 as [|r rs1 IH]; cbn [app foldr]; lia.
Qed.

Lemma assign_lsns_app (n : Z) (rs1 rs2 : list Log.LogRecord) :
  Log.assign_lsns n (rs1 ++ rs2)
  = Log.assign_lsns n rs1 ++ Log.assign_lsns (n + Z.of_nat (length rs1)) rs2.
Proof.
  revert n. induction rs1 as [|r rs1 IH]; intros n; cbn [app Log.assign_lsns length].
  - now rewrite Z.add_0_r.
  - rewrite IH.
    now replace (n + Z.of_nat (S (length rs1))) with (n + 1 + Z.of_nat (length rs1)) by lia.
Qed.

Lemma take_after_memcpy (b : list Z) (p : Z) (s : list Z) :
  0 <= p -> (Z.to_nat p <= length b)%nat ->
  take (Z.to_nat (p + Z.of_nat (length s))) (Log.memcpy b p s) = take (Z.to_nat p) b ++ s.
Proof.
  intros Hp Hfit. unfold Log.memcpy.
  change firstn with (@take Z). change skipn with (@drop Z).
  rewrite app_assoc. apply take_app_length'.
  rewrite length_app, length_take. lia.
Qed.

Section LogOrder.
Variable LOG_BUFFER_SIZE : Z.
(** The bytes on disk, the next sequence number and the persistent sequence
    number when the run starts. *)
Variables (W0 : list Z) (N0 P0 : Z).
(** The sequence counter starts from a 32-bit value. *)
Hypothesis N0_in_range : Log.in_int32 N0.

(** Where the records appended so far are: on disk, with the flush thread,
    or still in the log buffer. *)
Definition log_inv (w : World) (all : list Log.LogRecord) : Prop :=
  exists done fly pend : list Log.LogRecord,
    all = done ++ fly ++ pend /\
    Forall (fun r => Log.size_ r = Log.record_size r) all /\
    written (trace w) = W0 ++ Log.log_bytes done /\
    in_flight w = Log.log_bytes fly /\
    match flusher w with
    | FlushIdle => fly = []
    | FlushWriting last_lsn flush_size =>
        last_lsn = N0 + Z.of_nat (length (done ++ fly)) - 1
    end /\
    pending w = Log.log_bytes pend /\
    Log.offset_ (log_manager_ w) = Log.total_size pend /\
    Log.next_lsn_ (log_manager_ w) = N0 + Z.of_nat (length all) /\
    (Log.persistent_lsn_ (log_manager_ w) = P0 \/
     Log.persistent_lsn_ (log_manager_ w) = N0 + Z.of_nat (length done) - 1) /\
    Z.of_nat (length (Log.log_buffer_ (log_manager_ w))) = LOG_BUFFER_SIZE /\
    Z.of_nat (length (Log.flush_buffer_ (log_manager_ w))) = LOG_BUFFER_SIZE.

Lemma log_act_inv (a : log_action) (w w' : World) (all rs : list Log.LogRecord) :
  log_inv w all ->
  (forall r, a = DoAppend r -> Log.size_ r = Log.record_size r) ->
  N0 + Z.of_nat (length all) + Z.of_nat (length (appended_records [a])) <= Log.INT_MAX ->
  log_act LOG_BUFFER_SIZE a w = Some (w', rs) ->
  log_inv w' (all ++ rs) /\
  rs = Log.assign_lsns (N0 + Z.of_nat (length all)) (appended_records [a]).
Proof.
  intros (done & fly & pend & Hall & Hsizes & Hw & Hfly & Hfl & Hpend & Hoff & Hnext
          & Hpers & Hlb & Hfb) Hsize Hmax Hrun.
  pose proof (Log.total_size_nonneg pend) as Hnn.
  assert (Hpsizes : Forall (fun r => Log.size_ r = Log.record_size r) pend).
  { rewrite Hall in Hsizes. apply Forall_app in Hsizes as [_ Hs].
    now apply Forall_app in Hs as [_ Hs]. }
  specialize (Hnn Hpsizes).
  destruct a as [r|]; cbn [log_act] in Hrun.
  - specialize (Hsize r eq_refl).
    destruct (Z.gtb_spec (Log.offset_ (log_manager_ w) + Log.size_ r) LOG_BUFFER_SIZE)
      as [Hfull|Hfit].
    { unfold Log.AppendLogRecord in Hrun.
      replace (_ >? _) with true in Hrun by (symmetry; apply Z.gtb_lt; lia).
      discriminate. }
    rewrite (Log.AppendLogRecord_buffer LOG_BUFFER_SIZE r (log_manager_ w) Hsize) in Hrun
      by lia.
    cbn [appended_records omap list_omap length] in Hmax.
    rewrite Log.wrap32_succ in Hrun
      by (rewrite Hnext; unfold Log.in_int32, Log.INT_MAX in *; lia).
    injection Hrun as <- <-.
    set (r' := Log.set_lsn (Log.next_lsn_ (log_manager_ w)) r).
    assert (Hser : Z.of_nat (length (Log.serialize r')) = Log.size_ r).
    { rewrite Log.length_serialize. unfold r'. now rewrite Log.record_size_set_lsn. }
    split.
    + exists done, fly, (pend ++ [r']).
      split; [rewrite Hall, <- !app_assoc; reflexivity|].
      split; [apply Forall_app; split; [exact Hsizes|]; constructor; [exact Hsize|constructor]|].
      split; [exact Hw|]. split; [exact Hfly|]. split; [exact Hfl|].
      split.
      { unfold pending in *. cbn [with_log log_manager_ Log.offset_ Log.log_buffer_].
        rewrite <- Hser, take_after_memcpy by lia.
        rewrite Hpend, Log.log_bytes_app. f_equal. unfold Log.log_bytes. cbn.
        now rewrite app_nil_r. }
      split.
      { cbn [with_log log_manager_ Log.offset_]. rewrite total_size_app, Hoff.
        change (Log.total_size [r']) with (Log.size_ r + 0). lia. }
      split.
      { cbn [with_log log_manager_ Log.next_lsn_]. rewrite Hnext, length_app. cbn. lia. }
      split; [exact Hpers|]. split; [|exact Hfb].
      cbn [with_log log_manager_ Log.log_buffer_]. rewrite Log.length_memcpy; [exact Hlb|lia].
    + cbn. unfold r'. now rewrite Hnext.
  - unfold flush_step in Hrun. destruct (flusher w) as [|last_lsn flush_size] eqn:Hflusher.
    + destruct (ENABLE_LOGGING w); [|discriminate].
      destruct (negb _); [|discriminate]. cbn in Hrun. injection Hrun as <- <-.
      subst fly. rewrite app_nil_r. split; [|reflexivity].
      exists done, pend, []. rewrite app_nil_r.
      split; [exact Hall|]. split; [exact Hsizes|]. split; [exact Hw|].
      split.
      { unfold in_flight, pending in *. cbn. exact Hpend. }
      split.
      { cbn. rewrite Hnext, Hall. cbn. lia. }
      split; [reflexivity|]. split; [reflexivity|]. split; [exact Hnext|].
      split; [exact Hpers|]. split; [exact Hfb|exact Hlb].
    + injection Hrun as <- <-. rewrite app_nil_r. split; [|reflexivity].
      exists (done ++ fly), [], pend.
      split; [rewrite Hall, <- !app_assoc; reflexivity|]. split; [exact Hsizes|].
      split.
      { cbn [with_flusher with_log emit trace]. rewrite written_snoc, Hw.
        unfold in_flight in Hfly. rewrite Hflusher in Hfly.
        rewrite Hfly, Log.log_bytes_app. now rewrite <- app_assoc. }
      split; [reflexivity|]. split; [reflexivity|]. split; [exact Hpend|].
      split; [exact Hoff|]. split; [exact Hnext|].
      split; [right; cbn; exact Hfl|]. split; [exact Hlb|exact Hfb].
Qed.

Lemma log_run_inv (acts : list log_action) :
  forall (w w' : World) (all rs : list Log.LogRecord),
    log_inv w all ->
    Forall (fun r => Log.size_ r = Log.record_size r) (appended_records acts) ->
    N0 + Z.of_nat (length all) + Z.of_nat (length (appended_records acts)) <= Log.INT_MAX ->
    log_run LOG_BUFFER_SIZE acts w = Some (w', rs) ->
    log_inv w' (all ++ rs) /\
    rs = Log.assign_lsns (N0 + Z.of_nat (length all)) (appended_records acts).
Proof.
  induction acts as [|a acts IH]; intros w w' all rs Hinv Hsizes Hmax Hrun.
  - injection Hrun as <- <-. rewrite app_nil_r. auto.
  - cbn [log_run] in Hrun.
    destruct (log_act LOG_BUFFER_SIZE a w) as [[w1 rs1]|] eqn:Hact; [|discriminate].
    destruct (log_run LOG_BUFFER_SIZE acts w1) as [[w2 rs2]|] eqn:Hrest; [|discriminate].
    injection Hrun as <- <-.
    change (a :: acts) with ([a] ++ acts) in Hsizes, Hmax.
    unfold appended_records in Hsizes, Hmax.
    rewrite omap_app in Hsizes, Hmax. apply Forall_app in Hsizes as [Ha Hacts].
    rewrite length_app in Hmax.
    fold (appended_records [a]) (appended_records acts) in Hmax.
    destruct (log_act_inv a w w1 all rs1 Hinv) as [Hinv1 Hrs1]; [|lia|exact Hact|].
    { intros r ->. cbn in Ha. now apply Forall_cons in Ha as [Ha _]. }
    assert (Hlen : length rs1 = length (appended_records [a])).
    { rewrite Hrs1. clear. generalize (N0 + Z.of_nat (length all)).
      induction (appended_records [a]) as [|r l IHl]; intros n; cbn; [reflexivity|].
      now rewrite IHl. }
    destruct (IH w1 w2 (all ++ rs1) rs2 Hinv1 Hacts) as [Hinv2 Hrs2];
      [rewrite length_app; lia|exact Hrest|].
    split; [now rewrite app_assoc|].
    change (a :: acts) with ([a] ++ acts). unfold appended_records at 1.
    rewrite omap_app. fold (appended_records [a]) (appended_records acts).
    rewrite assign_lsns_app, <- Hrs1. f_equal.
    rewrite Hrs2, length_app. f_equal.
    lia.
Qed.

End LogOrder.


(** X29: the log reaches the disk whole and in order.  From a log manager
    with an empty log buffer and an idle flush thread, after any interleaving
    of AppendLogRecord calls (of records whose size_ is the size of their
    image) and turns of the flush thread (SwapBuffer, then the write and
    SetPersistentLSN) during which the 32-bit counter next_lsn_ does not
    pass its largest value, the records have consecutive sequence numbers
    from next_lsn_ on; the bytes written to disk, then those the flush
    thread holds, then those in the log buffer up to offset_ are exactly the
    images of the records in append order; the disk holds the images of the
    first k records for some k, and persistent_lsn_ is what it was at the
    start or, once a flush has completed, the sequence number of the
    k-th. *)
Theorem log_reaches_disk_in_order (LOG_BUFFER_SIZE : Z) (acts : list log_action)
    (w0 w : World) (rs : list Log.LogRecord) :
  flusher w0 = FlushIdle ->
  Log.offset_ (log_manager_ w0) = 0 ->
  Z.of_nat (length (Log.log_buffer_ (log_manager_ w0))) = LOG_BUFFER_SIZE ->
  Z.of_nat (length (Log.flush_buffer_ (log_manager_ w0))) = LOG_BUFFER_SIZE ->
  Forall (fun r => Log.size_ r = Log.record_size r) (appended_records acts) ->
  Log.in_int32 (Log.next_lsn_ (log_manager_ w0)) ->
  Log.next_lsn_ (log_manager_ w0) + Z.of_nat (length (appended_records acts))
  <= Log.INT_MAX ->
  log_run LOG_BUFFER_SIZE acts w0 = Some (w, rs) ->
  rs = Log.assign_lsns (Log.next_lsn_ (log_manager_ w0)) (appended_records acts) /\
  written (trace w) ++ in_flight w ++ pending w = written (trace w0) ++ Log.log_bytes rs /\
  exists k,
    (k <= length rs)%nat /\
    written (trace w) = written (trace w0) ++ Log.log_bytes (take k rs) /\
    (Log.persistent_lsn_ (log_manager_ w) = Log.persistent_lsn_ (log_manager_ w0) \/
     Log.persistent_lsn_ (log_manager_ w)
     = Log.next_lsn_ (log_manager_ w0) + Z.of_nat k - 1).
Proof.
  intros Hidle Hoff Hlb Hfb Hsizes Hint Hmax Hrun.
  assert (Hinit : log_inv LOG_BUFFER_SIZE (written (trace w0))
                    (Log.next_lsn_ (log_manager_ w0))
                    (Log.persistent_lsn_ (log_manager_ w0)) w0 []).
  { exists [], [], []. unfold in_flight, pending. rewrite Hidle, Hoff.
    split; [reflexivity|]. split; [constructor|].
    split; [cbn; now rewrite app_nil_r|]. split; [reflexivity|]. split; [reflexivity|].
    split; [reflexivity|]. split; [reflexivity|]. split; [cbn; lia|].
    split; [now left|]. split; assumption. }
  destruct (log_run_inv LOG_BUFFER_SIZE _ _ _ Hint acts w0 w [] rs Hinit Hsizes
              ltac:(cbn [length]; lia) Hrun)
    as [(done & fly & pend & Hall & _ & Hw & Hfly & _ & Hpend & _ & _ & Hpers & _) Hrs].
  cbn [app length] in Hall, Hrs. rewrite Z.add_0_r in Hrs.
  split; [exact Hrs|]. split.
  - rewrite Hw, Hfly, Hpend, Hall, !Log.log_bytes_app. now rewrite <- !app_assoc.
  - exists (length done). split; [rewrite Hall, length_app; lia|].
    split; [|exact Hpers].
    rewrite Hw, Hall. now rewrite take_app_length.
Qed.

(** Logging is on; both buffers hold 64 bytes. *)
Definition logging_world : World :=
  mkWorld true (Log.mkLogManager (repeat 0 64) (repeat 0 64) 0 5 Log.INVALID_LSN)
    FlushIdle (Lock.mkLM false ∅ ∅) (mkTxn 0 GROWING (-1) ∅ ∅ []) AtEntry [].

Definition three_appends : list log_action :=
  [DoAppend Log.begin_record; DoAppend Log.begin3_record; DoFlush;
   DoAppend Log.begin_record; DoFlush].

Lemma log_reaches_disk_in_order_witness :
  exists w rs,
    log_run 64 three_appends logging_world = Some (w, rs) /\
    List.map Log.lsn_ rs = [5; 6; 7] /\
    written (trace w) ++ in_flight w ++ pending w = Log.log_bytes rs.
Proof.
  assert (Hdone : exists w rs, log_run 64 three_appends logging_world = Some (w, rs)).
  { vm_compute. eexists _, _. reflexivity. }
  destruct Hdone as (w & rs & Hrun).
  assert (Hsizes : Forall (fun r => Log.size_ r = Log.record_size r)
                     (appended_records three_appends)) by (repeat constructor).
  destruct (log_reaches_disk_in_order 64 three_appends logging_world w rs
              eq_refl eq_refl eq_refl eq_refl Hsizes) as (Hrs & Hbytes & _);
    [unfold Log.in_int32; simpl; lia|unfold Log.INT_MAX; simpl; lia|exact Hrun|].
  exists w, rs. split; [exact Hrun|]. split; [rewrite Hrs; reflexivity|exact Hbytes].
Defined.


(** X30: after a crash, Redo replays exactly the records whose flush had
    completed.  Take any interleaving of AppendLogRecord calls and turns of
    the flush thread from an empty log during which next_lsn_ does not pass
    its largest value, the appended records being readable, no more than
    INT_MAX bytes in all, and their NEWPAGE records passing the check of
    Redo; let the log file be what the flush thread has written so far.
    Then the file is the images of the first k appended records for some k,
    and Redo over it terminates having requested the page operations of
    these k records, in order, and leaves in active_txn_ the transactions
    among them without a COMMIT or ABORT record, each with the sequence
    number of its last record. *)
Theorem recovery_replays_the_flushed_log (LOG_BUFFER_SIZE : Z) (acts : list log_action)
    (w0 w : World) (rs : list Log.LogRecord) (fuel : nat)
    (pages pages' : Log.TablePages) :
  flusher w0 = FlushIdle ->
  Log.offset_ (log_manager_ w0) = 0 ->
  Z.of_nat (length (Log.log_buffer_ (log_manager_ w0))) = LOG_BUFFER_SIZE ->
  Z.of_nat (length (Log.flush_buffer_ (log_manager_ w0))) = LOG_BUFFER_SIZE ->
  trace w0 = [] ->
  Forall (fun r => Log.size_ r = Log.record_size r) (appended_records acts) ->
  Log.in_int32 (Log.next_lsn_ (log_manager_ w0)) ->
  Log.next_lsn_ (log_manager_ w0) + Z.of_nat (length (appended_records acts))
  <= Log.INT_MAX ->
  log_run LOG_BUFFER_SIZE acts w0 = Some (w, rs) ->
  Forall (Log.readable LOG_BUFFER_SIZE) rs ->
  (length rs < fuel)%nat ->
  Log.total_size rs <= Log.INT_MAX ->
  Log.new_pages rs pages = Done pages' ->
  exists k st,
    (k <= length rs)%nat /\
    written (trace w) = Log.log_bytes (take k rs) /\
    Log.Redo LOG_BUFFER_SIZE fuel pages (written (trace w)) = Done st /\
    Log.redo_calls st = omap Log.redo_call (take k rs) /\
    (forall t, Log.active_txn_ st !! t = Log.last_lsn_of t (take k rs) None).
Proof.
  intros Hidle Hoff Hlb Hfb Htrace Hsizes Hint Hmax Hrun Hok Hfuel Hbytes Hps.
  assert (Hinit : log_inv LOG_BUFFER_SIZE []
                    (Log.next_lsn_ (log_manager_ w0))
                    (Log.persistent_lsn_ (log_manager_ w0)) w0 []).
  { exists [], [], []. unfold in_flight, pending. rewrite Hidle, Hoff, Htrace.
    split; [reflexivity|]. split; [constructor|].
    split; [reflexivity|]. split; [reflexivity|]. split; [reflexivity|].
    split; [reflexivity|]. split; [reflexivity|]. split; [cbn; lia|].
    split; [now left|]. split; assumption. }
  destruct (log_run_inv LOG_BUFFER_SIZE _ _ _ Hint acts w0 w [] rs Hinit Hsizes
              ltac:(cbn [length]; lia) Hrun)
    as [(done & fly & pend & Hall & Hallsz & Hw & _) _].
  cbn [app] in Hall, Hw, Hallsz.
  assert (Htake : take (length done) rs = done) by (rewrite Hall; apply take_app_length).
  assert (Hdone_ok : Forall (Log.readable LOG_BUFFER_SIZE) done).
  { rewrite <- Htake. now apply Forall_take. }
  assert (Hdone_max : Log.total_size done <= Log.INT_MAX).
  { rewrite Hall, total_size_app in Hbytes. rewrite Hall in Hallsz.
    apply Forall_app in Hallsz as [_ Hrest].
    pose proof (Log.total_size_nonneg _ Hrest). lia. }
  destruct (Log.new_pages_take rs (length done) pages pages' Hps) as [ps1 Hps1].
  rewrite Htake in Hps1.
  destruct (Log.Redo_Done LOG_BUFFER_SIZE done fuel pages ps1 Hdone_ok) as (st & Hredo & Hrep);
    [rewrite Hall, length_app in Hfuel; lia|exact Hdone_max|exact Hps1|].
  exists (length done), st.
  split; [rewrite Hall, length_app; lia|]. rewrite Htake, Hw.
  split; [reflexivity|]. split; [exact Hredo|]. split.
  - now destruct (Log.replay_Done_inv _ _ _ _ _ Hrep) as (_ & _ & ->).
  - intros t. now rewrite (Log.replay_active done t _ _ _ _ Hrep).
Qed.

Lemma recovery_replays_the_flushed_log_witness :
  exists w rs k st,
    log_run 64 three_appends logging_world = Some (w, rs) /\
    written (trace w) = Log.log_bytes (take k rs) /\
    Log.Redo 64 4 Log.pages_at_crash (written (trace w)) = Done st /\
    Log.redo_calls st = omap Log.redo_call (take k rs).
Proof.
  assert (Hdone : exists w rs, log_run 64 three_appends logging_world = Some (w, rs) /\
                    rs = [Log.set_lsn 5 Log.begin_record; Log.set_lsn 6 Log.begin3_record;
                          Log.set_lsn 7 Log.begin_record]).
  { vm_compute. eexists _, _. split; reflexivity. }
  destruct Hdone as (w & rs & Hrun & Hrs).
  assert (Hsizes : Forall (fun r => Log.size_ r = Log.record_size r)
                     (appended_records three_appends)) by (repeat constructor).
  destruct (recovery_replays_the_flushed_log 64 three_appends logging_world w rs 4
              Log.pages_at_crash Log.pages_at_crash
              eq_refl eq_refl eq_refl eq_refl eq_refl Hsizes)
    as (k & st & _ & Hdisk & Hredo & Hcalls & _).
  - unfold Log.in_int32. simpl. lia.
  - unfold Log.INT_MAX. simpl. lia.
  - exact Hrun.
  - rewrite Hrs.
    apply Forall_cons. split; [Log.concrete_record|].
    apply Forall_cons. split; [Log.concrete_record|].
    apply Forall_cons. split; [Log.concrete_record|]. constructor.
  - rewrite Hrs. simpl. lia.
  - rewrite Hrs. unfold Log.total_size, Log.INT_MAX. simpl. lia.
  - rewrite Hrs. reflexivity.
  - exists w, rs, k, st. auto.
Defined.

End TxnManager.

(** ** B+Tree pages (b_plus_tree_page.h, b_plus_tree_leaf_page.cpp,
    b_plus_tree_internal_page.cpp)

    Keys are integers compared by [comparator].  A page is kept in the store
    of the buffer pool under its page id; [array] holds the [size_] slots in
    use, so [GetSize] is its length and the slots past [size_], which the
    code never reads, are left out. *)

Definition INVALID_PAGE_ID : Z := -1.

(** The comparator of [GenericComparator]: negative, zero or positive. *)
Definition comparator (lhs rhs : Z) : Z :=
  if lhs <? rhs then -1 else if rhs <? lhs then 1 else 0.

(** Modelled from the spec: [GetMinSize] (b_plus_tree_page.cpp is not among
    the sources) is ceil(max_size / 2). *)
Definition min_size_of (max_size : nat) : nat := Nat.div (max_size + 1) 2.

(** The key a zeroed slot holds (a new page is zeroed by the buffer pool). *)
Definition zero_key : Z := 0.

Module LeafPage.

Record t := mk {
  page_id_ : Z;
  parent_page_id_ : Z;
  max_size_ : nat;
  next_page_id_ : Z;
  array : list (Z * RID)
}.

Definition GetSize (p : t) : nat := length (array p).
Definition GetMaxSize (p : t) : nat := max_size_ p.
Definition GetMinSize (p : t) : nat := min_size_of (max_size_ p).
Definition GetPageId (p : t) : Z := page_id_ p.
Definition GetParentPageId (p : t) : Z := parent_page_id_ p.
Definition GetNextPageId (p : t) : Z := next_page_id_ p.

Definition set_array (a : list (Z * RID)) (p : t) : t :=
  mk (page_id_ p) (parent_page_id_ p) (max_size_ p) (next_page_id_ p) a.
Definition SetNextPageId (n : Z) (p : t) : t :=
  mk (page_id_ p) (parent_page_id_ p) (max_size_ p) n (array p).
Definition SetParentPageId (parent : Z) (p : t) : t :=
  mk (page_id_ p) parent (max_size_ p) (next_page_id_ p) (array p).

(** [max_size] stands for the number of slots Init derives from PAGE_SIZE and
    the slot size, minus one; these constants are not among the sources. *)
Definition Init (max_size : nat) (page_id parent_id : Z) : t :=
  mk page_id parent_id max_size INVALID_PAGE_ID [].

Definition key_at (a : list (Z * RID)) (i : nat) : Z := fst (nth i a (zero_key, (0, 0))).

(** The loop of KeyIndex; [fuel] bounds the number of halvings. *)
Fixpoint KeyIndex_loop (fuel : nat) (a : list (Z * RID)) (key : Z) (start end_ : nat) : nat :=
  match fuel with
  | O => start
  | S fuel =>
      if (start <? end_)%nat then
        let mid := (start + (end_ - start) / 2)%nat in
        if comparator key (key_at a mid) >? 0
        then KeyIndex_loop fuel a key (mid + 1)%nat end_
        else KeyIndex_loop fuel a key start mid
      else start
  end.

Definition KeyIndex (p : t) (key : Z) : nat :=
  KeyIndex_loop (S (GetSize p)) (array p) key 0%nat (GetSize p).

Definition KeyAt (p : t) (index : nat) : outcome Z :=
  match array p !! index with
  | Some item => Done (fst item)
  | None => Undefined
  end.

Definition ValueAt (p : t) (index : nat) : outcome RID :=
  match array p !! index with
  | Some item => Done (snd item)
  | None => Undefined
  end.

Definition GetItem (p : t) (index : nat) : outcome (Z * RID) :=
  match array p !! index with
  | Some item => Done item
  | None => Undefined
  end.

(** Whether slot [index] exists and holds [key]. *)
Definition found_at (p : t) (key : Z) (index : nat) : bool :=
  match array p !! index with
  | Some item => comparator key (fst item) =? 0
  | None => false
  end.

Definition Insert (key : Z) (value : RID) (p : t) : outcome (nat * t) :=
  if (GetMaxSize p <? GetSize p)%nat then Undefined
  else
    let index := KeyIndex p key in
    if found_at p key index then Done (GetSize p, p)
    else
      let p' := set_array (take index (array p) ++ (key, value) :: drop index (array p)) p in
      Done (GetSize p', p').

Definition CopyHalfFrom (items : list (Z * RID)) (p : t) : t := set_array items p.

(** Returns this page and the recipient after the move. *)
Definition MoveHalfTo (p recipient : t) : outcome (t * t) :=
  if negb (GetSize p =? GetMaxSize p + 1)%nat || negb (GetSize recipient =? 0)%nat
  then Undefined
  else
    let size := GetSize p in
    let half := GetMinSize p in
    let recipient := CopyHalfFrom (drop (size - half) (array p)) recipient in
    let p := set_array (take (size - half) (array p)) p in
    let recipient := SetNextPageId (GetNextPageId p) recipient in
    let p := SetNextPageId (GetPageId recipient) p in
    Done (p, recipient).

Definition Lookup (p : t) (key : Z) : option RID :=
  let index := KeyIndex p key in
  if found_at p key index then snd <$> array p !! index else None.

Definition RemoveAndDeleteRecord (key : Z) (p : t) : outcome (nat * t) :=
  if (GetSize p =? 0)%nat then Undefined
  else
    let index := KeyIndex p key in
    let p := if found_at p key index then set_array (delete index (array p)) p else p in
    Done (GetSize p, p).

Definition CopyAllFrom (items : list (Z * RID)) (p : t) : t :=
  set_array (array p ++ items) p.

Definition MoveAllTo (p recipient : t) : outcome (t * t) :=
  if negb ((GetSize p <=? GetMinSize p)%nat
           && (GetSize recipient <=? GetMinSize recipient)%nat)
  then Undefined
  else
    let recipient := CopyAllFrom (array p) recipient in
    let recipient := SetNextPageId (GetNextPageId p) recipient in
    Done (set_array [] p, recipient).

Definition CopyLastFrom (item : Z * RID) (p : t) : t :=
  set_array (array p ++ [item]) p.

Definition CopyFirstFrom (item : Z * RID) (p : t) : t :=
  set_array (item :: array p) p.

End LeafPage.

Module InternalPage.

Record t := mk {
  page_id_ : Z;
  parent_page_id_ : Z;
  max_size_ : nat;
  array : list (Z * Z)
}.

Definition GetSize (p : t) : nat := length (array p).
Definition GetMaxSize (p : t) : nat := max_size_ p.
Definition GetMinSize (p : t) : nat := min_size_of (max_size_ p).
Definition GetPageId (p : t) : Z := page_id_ p.
Definition GetParentPageId (p : t) : Z := parent_page_id_ p.
Definition IsRootPage (p : t) : bool := parent_page_id_ p =? INVALID_PAGE_ID.

Definition set_array (a : list (Z * Z)) (p : t) : t :=
  mk (page_id_ p) (parent_page_id_ p) (max_size_ p) a.
Definition SetParentPageId (parent : Z) (p : t) : t :=
  mk (page_id_ p) parent (max_size_ p) (array p).

Definition Init (max_size : nat) (page_id parent_id : Z) : t :=
  mk page_id parent_id max_size [].

Definition key_at (a : list (Z * Z)) (i : nat) : Z := fst (nth i a (zero_key, 0)).

(** [assert(lo < index < GetSize())] is a chained comparison: C++ reads it
    as [(lo < index) < GetSize()], so the truth value of the first comparison,
    0 or 1, is what is compared with the size. *)
Definition chained_assert (first_holds : bool) (p : t) : bool :=
  ((if first_holds then 1 else 0) <? GetSize p)%nat.

(** Reading a key, after [assert(0 < index < GetSize())]; a slot that is not
    in use is not read by the model. *)
Definition KeyAt (p : t) (index : nat) : outcome Z :=
  if negb (chained_assert (0 <? index)%nat p) then Undefined
  else
    match array p !! index with
    | Some item => Done (fst item)
    | None => Undefined
    end.

(** [array[index].first = key], with no check. *)
Definition write_key (index : nat) (key : Z) (p : t) : t :=
  set_array (alter (fun item => (key, snd item)) index (array p)) p.

(** Writing the key of a slot, after [assert(0 < index < GetSize())]; a slot
    that is not in use is not written by the model. *)
Definition SetKeyAt (index : nat) (key : Z) (p : t) : outcome t :=
  if negb (chained_assert (0 <? index)%nat p) then Undefined
  else if (index <? GetSize p)%nat then Done (write_key index key p)
  else Undefined.

Fixpoint value_index (a : list (Z * Z)) (value : Z) (i : nat) : option nat :=
  match a with
  | [] => None
  | item :: a => if snd item =? value then Some i else value_index a value (S i)
  end.

(** [None] stands for the -1 the code returns for a value that is absent. *)
Definition ValueIndex (p : t) (value : Z) : option nat := value_index (array p) value 0%nat.

(** Reading a value, after [assert(0 <= index < GetSize())]: as [0 <= index]
    holds of every index the callers pass, the assertion asks for more than
    one slot. *)
Definition ValueAt (p : t) (index : nat) : outcome Z :=
  if negb (chained_assert true p) then Undefined
  else
    match array p !! index with
    | Some item => Done (snd item)
    | None => Undefined
    end.

Fixpoint Lookup_loop (fuel : nat) (a : list (Z * Z)) (key : Z) (start end_ : nat) : nat :=
  match fuel with
  | O => start
  | S fuel =>
      if (start <? end_)%nat then
        let mid := (start + (end_ - start) / 2)%nat in
        if comparator key (key_at a mid) <? 0
        then Lookup_loop fuel a key start mid
        else Lookup_loop fuel a key (mid + 1)%nat end_
      else start
  end.

(** The index of the child [Lookup] descends into. *)
Definition Lookup_index (p : t) (key : Z) : nat :=
  (Lookup_loop (S (GetSize p)) (array p) key 1%nat (GetSize p) - 1)%nat.

Definition Lookup (p : t) (key : Z) : outcome Z :=
  if (GetSize p <=? 1)%nat then Undefined else ValueAt p (Lookup_index p key).

Definition PopulateNewRoot (old_value new_key new_value : Z) (p : t) : outcome t :=
  if negb (IsRootPage p) || negb (GetSize p =? 0)%nat then Undefined
  else Done (set_array [(zero_key, old_value); (new_key, new_value)] p).

Definition InsertNodeAfter (old_value new_key new_value : Z) (p : t) : outcome (nat * t) :=
  match ValueIndex p old_value with
  | None => Undefined
  | Some index =>
      let p' := set_array (take (index + 1) (array p) ++ (new_key, new_value)
                           :: drop (index + 1) (array p)) p in
      Done (GetSize p', p')
  end.

(** After the two assertions the loop shifts the slots after [index] down and
    the size drops by one; for an index past the end only the last slot is
    lost. *)
Definition Remove (index : nat) (p : t) : outcome t :=
  if (GetSize p =? 0)%nat then Undefined
  else if negb (chained_assert (0 <? index)%nat p) then Undefined
  else if (index <? GetSize p)%nat then Done (set_array (delete index (array p)) p)
  else Done (set_array (take (GetSize p - 1) (array p)) p).

Definition RemoveAndReturnOnlyChild (p : t) : outcome (Z * t) :=
  if negb (GetSize p =? 1)%nat then Undefined
  else child ← ValueAt p 0; Done (child, set_array [] p).

End InternalPage.

(** ** The buffer pool as seen by the index: page id to page *)

Inductive Page :=
| Leaf (p : LeafPage.t)
| Internal (p : InternalPage.t).

Definition IsLeafPage (p : Page) : bool :=
  match p with Leaf _ => true | Internal _ => false end.
Definition Page_GetSize (p : Page) : nat :=
  match p with Leaf l => LeafPage.GetSize l | Internal n => InternalPage.GetSize n end.
Definition Page_GetParentPageId (p : Page) : Z :=
  match p with
  | Leaf l => LeafPage.parent_page_id_ l
  | Internal n => InternalPage.parent_page_id_ n
  end.
Definition Page_GetPageId (p : Page) : Z :=
  match p with
  | Leaf l => LeafPage.page_id_ l
  | Internal n => InternalPage.page_id_ n
  end.
Definition Page_SetParentPageId (parent : Z) (p : Page) : Page :=
  match p with
  | Leaf l => Leaf (LeafPage.SetParentPageId parent l)
  | Internal n => Internal (InternalPage.SetParentPageId parent n)
  end.
Definition Page_IsRootPage (p : Page) : bool :=
  Page_GetParentPageId p =? INVALID_PAGE_ID.

Module Pool.

(** [FetchPage]: a page that cannot be had fails the [assert]. *)
Definition FetchPage (s : gmap Z Page) (page_id : Z) : outcome Page :=
  match s !! page_id with
  | Some p => Done p
  | None => Undefined
  end.

(** The fetched frame viewed as a leaf or as an internal page; the
    [reinterpret_cast] of a page of the other kind is not given a meaning. *)
Definition fetch_leaf (s : gmap Z Page) (page_id : Z) : outcome LeafPage.t :=
  p ← FetchPage s page_id;
  match p with Leaf l => Done l | Internal _ => Undefined end.

Definition fetch_internal (s : gmap Z Page) (page_id : Z) : outcome InternalPage.t :=
  p ← FetchPage s page_id;
  match p with Internal n => Done n | Leaf _ => Undefined end.

(** [child->SetParentPageId(parent_id)] on the fetched child. *)
Definition adopt (parent_id : Z) (s : gmap Z Page) (child_id : Z) : outcome (gmap Z Page) :=
  child ← FetchPage s child_id;
  Done (<[child_id := Page_SetParentPageId parent_id child]> s).

Fixpoint adopt_all (parent_id : Z) (children : list Z) (s : gmap Z Page)
  : outcome (gmap Z Page) :=
  match children with
  | [] => Done s
  | child_id :: children =>
      s ← adopt parent_id s child_id; adopt_all parent_id children s
  end.

(** *** Leaf page methods that reach other pages *)

Definition Leaf_MoveFirstToEndOf (this_ recipient_ : Z) (parent_index : nat)
    (s : gmap Z Page) : outcome (gmap Z Page) :=
  p ← fetch_leaf s this_;
  r ← fetch_leaf s recipient_;
  if negb (LeafPage.GetMinSize p <? LeafPage.GetSize p)%nat
     || negb (LeafPage.GetSize r <? LeafPage.GetMinSize r)%nat
  then Undefined
  else
    item ← LeafPage.GetItem p 0;
    let s := <[recipient_ := Leaf (LeafPage.CopyLastFrom item r)]> s in
    p ← fetch_leaf s this_;
    let p := LeafPage.set_array (drop 1 (LeafPage.array p)) p in
    let s := <[this_ := Leaf p]> s in
    parent ← fetch_internal s (LeafPage.GetParentPageId p);
    key ← LeafPage.KeyAt p 0;
    parent ← InternalPage.SetKeyAt parent_index key parent;
    Done (<[LeafPage.GetParentPageId p := Internal parent]> s).

Definition Leaf_MoveLastToFrontOf (this_ recipient_ : Z) (parent_index : nat)
    (s : gmap Z Page) : outcome (gmap Z Page) :=
  p ← fetch_leaf s this_;
  r ← fetch_leaf s recipient_;
  if negb (LeafPage.GetMinSize p <? LeafPage.GetSize p)%nat
     || negb (LeafPage.GetSize r <? LeafPage.GetMinSize r)%nat
  then Undefined
  else
    item ← LeafPage.GetItem p (LeafPage.GetSize p - 1);
    let s := <[recipient_ := Leaf (LeafPage.CopyFirstFrom item r)]> s in
    p ← fetch_leaf s this_;
    let p := LeafPage.set_array (take (LeafPage.GetSize p - 1) (LeafPage.array p)) p in
    let s := <[this_ := Leaf p]> s in
    parent ← fetch_internal s (LeafPage.GetParentPageId p);
    r ← fetch_leaf s recipient_;
    key ← LeafPage.KeyAt r 0;
    parent ← InternalPage.SetKeyAt parent_index key parent;
    Done (<[LeafPage.GetParentPageId p := Internal parent]> s).

Definition Leaf_MoveAllTo (this_ recipient_ : Z) (s : gmap Z Page)
  : outcome (gmap Z Page) :=
  p ← fetch_leaf s this_;
  r ← fetch_leaf s recipient_;
  '(p, r) ← LeafPage.MoveAllTo p r;
  Done (<[this_ := Leaf p]> (<[recipient_ := Leaf r]> s)).

Definition Leaf_MoveHalfTo (this_ recipient_ : Z) (s : gmap Z Page)
  : outcome (gmap Z Page) :=
  p ← fetch_leaf s this_;
  r ← fetch_leaf s recipient_;
  '(p, r) ← LeafPage.MoveHalfTo p r;
  Done (<[this_ := Leaf p]> (<[recipient_ := Leaf r]> s)).

(** *** Internal page methods that reach other pages *)

Definition Internal_MoveHalfTo (this_ recipient_ : Z) (s : gmap Z Page)
  : outcome (gmap Z Page) :=
  p ← fetch_internal s this_;
  r ← fetch_internal s recipient_;
  if negb (InternalPage.GetSize p =? InternalPage.GetMaxSize p + 1)%nat
     || negb (InternalPage.GetSize r =? 0)%nat
  then Undefined
  else
    let half := InternalPage.GetMinSize p in
    let items := drop half (InternalPage.array p) in
    let s := <[recipient_ := Internal (InternalPage.set_array items r)]> s in
    s ← adopt_all recipient_ (snd <$> items) s;
    p ← fetch_internal s this_;
    Done (<[this_ := Internal (InternalPage.set_array
                                 (take half (InternalPage.array p)) p)]> s).

Definition Internal_CopyAllFrom (recipient_ : Z) (items : list (Z * Z))
    (s : gmap Z Page) : outcome (gmap Z Page) :=
  r ← fetch_internal s recipient_;
  let s := <[recipient_ :=
               Internal (InternalPage.set_array (InternalPage.array r ++ items) r)]> s in
  adopt_all recipient_ (snd <$> items) s.

Definition Internal_MoveAllTo (this_ recipient_ : Z) (index_in_parent : nat)
    (s : gmap Z Page) : outcome (gmap Z Page) :=
  p ← fetch_internal s this_;
  r ← fetch_internal s recipient_;
  let psz := InternalPage.GetSize p in
  let rsz := InternalPage.GetSize r in
  if negb (InternalPage.GetParentPageId p =? InternalPage.GetParentPageId r)
     || negb ((psz <? InternalPage.GetMinSize p)%nat
              || (rsz <? InternalPage.GetMinSize r)%nat)
     || negb ((psz <=? InternalPage.GetMinSize p)%nat
              && (rsz <=? InternalPage.GetMinSize r)%nat)
  then Undefined
  else
    parent ← fetch_internal s (InternalPage.GetParentPageId p);
    key ← InternalPage.KeyAt parent index_in_parent;
    let p := InternalPage.write_key 0 key p in
    let s := <[this_ := Internal p]> s in
    s ← Internal_CopyAllFrom recipient_ (InternalPage.array p) s;
    p ← fetch_internal s this_;
    Done (<[this_ := Internal (InternalPage.set_array [] p)]> s).

Definition Internal_CopyLastFrom (recipient_ : Z) (pair : Z * Z) (s : gmap Z Page)
  : outcome (gmap Z Page) :=
  r ← fetch_internal s recipient_;
  let r := InternalPage.set_array (InternalPage.array r ++ [pair]) r in
  let s := <[recipient_ := Internal r]> s in
  child ← InternalPage.ValueAt r (InternalPage.GetSize r - 1);
  adopt recipient_ s child.

Definition Internal_MoveFirstToEndOf (this_ recipient_ : Z) (parent_index : nat)
    (s : gmap Z Page) : outcome (gmap Z Page) :=
  p ← fetch_internal s this_;
  r ← fetch_internal s recipient_;
  if negb (InternalPage.GetMinSize p <? InternalPage.GetSize p)%nat
     || negb (InternalPage.GetSize r <? InternalPage.GetMinSize r)%nat
  then Undefined
  else
    let parent_id := InternalPage.GetParentPageId p in
    parent ← fetch_internal s parent_id;
    key ← InternalPage.KeyAt parent parent_index;
    value ← InternalPage.ValueAt p 0;
    s ← Internal_CopyLastFrom recipient_ (key, value) s;
    p ← fetch_internal s this_;
    let p := InternalPage.set_array (drop 1 (InternalPage.array p)) p in
    let s := <[this_ := Internal p]> s in
    key0 ← InternalPage.KeyAt p 0;
    parent ← fetch_internal s parent_id;
    parent ← InternalPage.SetKeyAt parent_index key0 parent;
    Done (<[parent_id := Internal parent]> s).

(** The shift moves every slot up by one; then the key of slot 1 and the
    value of slot 0 are written. *)
Definition Internal_CopyFirstFrom (recipient_ : Z) (pair : Z * Z) (s : gmap Z Page)
  : outcome (gmap Z Page) :=
  r ← fetch_internal s recipient_;
  let a := match InternalPage.array r with
           | [] => [(zero_key, snd pair)]
           | (k0, v0) :: rest => (k0, snd pair) :: (fst pair, v0) :: rest
           end in
  let r := InternalPage.set_array a r in
  let s := <[recipient_ := Internal r]> s in
  child ← InternalPage.ValueAt r 0;
  adopt recipient_ s child.

(** The parent is fetched with [parent_index] as its page id, as the source
    has it. *)
Definition Internal_MoveLastToFrontOf (this_ recipient_ : Z) (parent_index : nat)
    (s : gmap Z Page) : outcome (gmap Z Page) :=
  p ← fetch_internal s this_;
  r ← fetch_internal s recipient_;
  if negb (InternalPage.GetMinSize p <? InternalPage.GetSize p)%nat
     || negb (InternalPage.GetSize r <? InternalPage.GetMinSize r)%nat
  then Undefined
  else
    let parent_id := Z.of_nat parent_index in
    parent ← fetch_internal s parent_id;
    key ← InternalPage.KeyAt parent parent_index;
    value ← InternalPage.ValueAt p (InternalPage.GetSize p - 1);
    s ← Internal_CopyFirstFrom recipient_ (key, value) s;
    p ← fetch_internal s this_;
    let p := InternalPage.set_array
               (take (InternalPage.GetSize p - 1) (InternalPage.array p)) p in
    let s := <[this_ := Internal p]> s in
    key' ← InternalPage.KeyAt p (InternalPage.GetSize p - 1);
    parent ← fetch_internal s parent_id;
    parent ← InternalPage.SetKeyAt parent_index key' parent;
    Done (<[parent_id := Internal parent]> s).

End Pool.

(** ** B+Tree (b_plus_tree.cpp) *)
Module BPlusTree.

Import Pool.

(** The tree object together with what it reaches through the buffer pool
    manager: the pages, the page id allocator of the disk manager and the
    root record of the header page (none of these three is among the
    sources; a new page gets the next unused id). *)
Record t := mk {
  root_page_id_ : Z;
  pages : gmap Z Page;
  next_page_id : Z;
  header_record : option Z
}.

Definition set_pages (s : gmap Z Page) (tr : t) : t :=
  mk (root_page_id_ tr) s (next_page_id tr) (header_record tr).
Definition set_root (root : Z) (tr : t) : t :=
  mk root (pages tr) (next_page_id tr) (header_record tr).

Definition IsEmpty (tr : t) : bool := root_page_id_ tr =? INVALID_PAGE_ID.

Definition NewPage (tr : t) : Z * t :=
  (next_page_id tr,
   mk (root_page_id_ tr) (pages tr) (next_page_id tr + 1) (header_record tr)).

Definition DeletePage (page_id : Z) (tr : t) : t :=
  set_pages (delete page_id (pages tr)) tr.

(** Modelled from the spec: [insert_record] adds the root record when the
    index has none, [update_record] changes the one it has. *)
Definition UpdateRootPageId (insert_record : bool) (tr : t) : t :=
  mk (root_page_id_ tr) (pages tr) (next_page_id tr)
     (match insert_record, header_record tr with
      | true, None => Some (root_page_id_ tr)
      | false, Some _ => Some (root_page_id_ tr)
      | _, r => r
      end).

Section Tree.
Variables leaf_max_size internal_max_size : nat.

(** The loop of FindLeafPage from page [cur]; the result is the id of the
    leaf page the loop ends in. *)
Fixpoint FindLeafPage_from (fuel : nat) (s : gmap Z Page) (key : Z) (leftMost : bool)
    (cur : Z) : outcome Z :=
  match fuel with
  | O => OutOfFuel
  | S fuel =>
      p ← FetchPage s cur;
      match p with
      | Leaf _ => Done cur
      | Internal n =>
          next ← (if leftMost then InternalPage.ValueAt n 0
                  else InternalPage.Lookup n key);
          FindLeafPage_from fuel s key leftMost next
      end
  end.

Definition FindLeafPage (fuel : nat) (tr : t) (key : Z) (leftMost : bool) : outcome Z :=
  if IsEmpty tr then Undefined
  else FindLeafPage_from fuel (pages tr) key leftMost (root_page_id_ tr).

(** [Some v] stands for true with [result[0] = v], [None] for false. *)
Definition GetValue (fuel : nat) (key : Z) (tr : t) : outcome (option RID) :=
  if IsEmpty tr then Done None
  else
    leaf_id ← FindLeafPage fuel tr key false;
    leaf ← fetch_leaf (pages tr) leaf_id;
    Done (LeafPage.Lookup leaf key).

Definition StartNewTree (key : Z) (value : RID) (tr : t) : outcome t :=
  let '(id, tr) := NewPage tr in
  let tr := set_root id tr in
  let root_node := LeafPage.Init leaf_max_size id INVALID_PAGE_ID in
  '(_, root_node) ← LeafPage.Insert key value root_node;
  Done (UpdateRootPageId true (set_pages (<[id := Leaf root_node]> (pages tr)) tr)).

(** [Split] at a leaf and at an internal page; the id of the new page comes
    back with the tree. *)
Definition Split_leaf (node_id : Z) (tr : t) : outcome (Z * t) :=
  let '(new_page_id, tr) := NewPage tr in
  node ← fetch_leaf (pages tr) node_id;
  let new_node :=
    LeafPage.Init leaf_max_size new_page_id (LeafPage.GetParentPageId node) in
  s ← Leaf_MoveHalfTo node_id new_page_id (<[new_page_id := Leaf new_node]> (pages tr));
  Done (new_page_id, set_pages s tr).

Definition Split_internal (node_id : Z) (tr : t) : outcome (Z * t) :=
  let '(new_page_id, tr) := NewPage tr in
  node ← fetch_internal (pages tr) node_id;
  let new_node :=
    InternalPage.Init internal_max_size new_page_id (InternalPage.GetParentPageId node) in
  s ← Internal_MoveHalfTo node_id new_page_id
        (<[new_page_id := Internal new_node]> (pages tr));
  Done (new_page_id, set_pages s tr).

Fixpoint InsertIntoParent (fuel : nat) (old_id : Z) (key : Z) (new_id : Z) (tr : t)
  : outcome t :=
  match fuel with
  | O => OutOfFuel
  | S fuel =>
      old_node ← FetchPage (pages tr) old_id;
      new_node ← FetchPage (pages tr) new_id;
      let parent_page_id := Page_GetParentPageId old_node in
      if parent_page_id =? INVALID_PAGE_ID then
        let '(new_page_id, tr) := NewPage tr in
        let new_root := InternalPage.Init internal_max_size new_page_id INVALID_PAGE_ID in
        new_root ← InternalPage.PopulateNewRoot (Page_GetPageId old_node) key
                     (Page_GetPageId new_node) new_root;
        let tr := set_pages (<[new_page_id := Internal new_root]> (pages tr)) tr in
        let tr := UpdateRootPageId false (set_root new_page_id tr) in
        s ← adopt (InternalPage.GetPageId new_root) (pages tr) old_id;
        s ← adopt (InternalPage.GetPageId new_root) s new_id;
        Done (set_pages s tr)
      else
        parent_node ← fetch_internal (pages tr) parent_page_id;
        '(size, parent_node) ← InternalPage.InsertNodeAfter (Page_GetPageId old_node)
                                 key (Page_GetPageId new_node) parent_node;
        let tr := set_pages (<[parent_page_id := Internal parent_node]> (pages tr)) tr in
        if (InternalPage.GetMaxSize parent_node <? size)%nat then
          '(next_id, tr) ← Split_internal parent_page_id tr;
          next_node ← fetch_internal (pages tr) next_id;
          key' ← InternalPage.KeyAt next_node 0;
          InsertIntoParent fuel parent_page_id key' next_id tr
        else Done tr
  end.

Definition InsertIntoLeaf (fuel : nat) (key : Z) (value : RID) (tr : t)
  : outcome (bool * t) :=
  leaf_id ← FindLeafPage fuel tr key false;
  leaf_page ← fetch_leaf (pages tr) leaf_id;
  let old_size := LeafPage.GetSize leaf_page in
  '(new_size, leaf_page) ← LeafPage.Insert key value leaf_page;
  let tr := set_pages (<[leaf_id := Leaf leaf_page]> (pages tr)) tr in
  let inserted := negb (new_size =? old_size)%nat in
  if (LeafPage.GetMaxSize leaf_page <? new_size)%nat then
    '(new_id, tr) ← Split_leaf leaf_id tr;
    new_node ← fetch_leaf (pages tr) new_id;
    key' ← LeafPage.KeyAt new_node 0;
    tr ← InsertIntoParent fuel leaf_id key' new_id tr;
    Done (inserted, tr)
  else Done (inserted, tr).

Definition Insert (fuel : nat) (key : Z) (value : RID) (tr : t) : outcome (bool * t) :=
  if IsEmpty tr then tr ← StartNewTree key value tr; Done (true, tr)
  else InsertIntoLeaf fuel key value tr.

(** *** Remove *)

Definition AdjustRoot (old_root_id : Z) (tr : t) : outcome (bool * t) :=
  old_root_node ← FetchPage (pages tr) old_root_id;
  match old_root_node with
  | Leaf l =>
      if (LeafPage.GetSize l =? 0)%nat
      then Done (true, UpdateRootPageId false (set_root INVALID_PAGE_ID tr))
      else Done (false, tr)
  | Internal n =>
      if (InternalPage.GetSize n =? 1)%nat then
        '(new_root_pid, n) ← InternalPage.RemoveAndReturnOnlyChild n;
        let s := <[old_root_id := Internal n]> (pages tr) in
        s ← adopt INVALID_PAGE_ID s new_root_pid;
        Done (true, UpdateRootPageId false (set_root new_root_pid (set_pages s tr)))
      else Done (false, tr)
  end.

Definition Redistribute (neighbor_id node_id : Z) (index : nat) (tr : t) : outcome t :=
  neighbor_node ← FetchPage (pages tr) neighbor_id;
  s ← match neighbor_node with
      | Leaf _ =>
          if (index =? 0)%nat then Leaf_MoveFirstToEndOf neighbor_id node_id 1 (pages tr)
          else Leaf_MoveLastToFrontOf neighbor_id node_id index (pages tr)
      | Internal _ =>
          if (index =? 0)%nat then Internal_MoveFirstToEndOf neighbor_id node_id 1 (pages tr)
          else Internal_MoveLastToFrontOf neighbor_id node_id index (pages tr)
      end;
  Done (set_pages s tr).

(** [Coalesce]; [recurse] is CoalesceOrRedistribute on the parent. *)
Definition Coalesce (recurse : Z -> t -> outcome (bool * t))
    (neighbor_id node_id parent_id : Z) (index : nat) (tr : t) : outcome (bool * t) :=
  let '(neighbor_id, node_id, index) :=
    if (index =? 0)%nat then (node_id, neighbor_id, 1%nat)
    else (neighbor_id, node_id, index) in
  node ← FetchPage (pages tr) node_id;
  s ← match node with
      | Leaf _ => Leaf_MoveAllTo node_id neighbor_id (pages tr)
      | Internal _ => Internal_MoveAllTo node_id neighbor_id index (pages tr)
      end;
  parent ← fetch_internal s parent_id;
  parent ← InternalPage.Remove index parent;
  let tr := set_pages (<[parent_id := Internal parent]> s) tr in
  if (InternalPage.GetSize parent <? InternalPage.GetMinSize parent)%nat
  then recurse parent_id tr
  else Done (false, tr).

(** Whether CoalesceOrRedistribute merges: the sibling is at or below its
    minimum size. *)
Definition coalesce_decision (sibling : Page) : bool :=
  match sibling with
  | Leaf l => (LeafPage.GetSize l <=? LeafPage.GetMinSize l)%nat
  | Internal n => (InternalPage.GetSize n <=? InternalPage.GetMinSize n)%nat
  end.

Definition same_kind (p q : Page) : bool :=
  match p, q with
  | Leaf _, Leaf _ | Internal _, Internal _ => true
  | _, _ => false
  end.

Fixpoint CoalesceOrRedistribute (fuel : nat) (node_id : Z) (tr : t)
  : outcome (bool * t) :=
  match fuel with
  | O => OutOfFuel
  | S fuel =>
      node ← FetchPage (pages tr) node_id;
      if Page_IsRootPage node then AdjustRoot node_id tr
      else
        let parent_page_id := Page_GetParentPageId node in
        parent_node ← fetch_internal (pages tr) parent_page_id;
        match InternalPage.ValueIndex parent_node (Page_GetPageId node) with
        | None => Undefined
        | Some node_index =>
            let sibling_index := if (node_index =? 0)%nat then 1%nat
                                 else (node_index - 1)%nat in
            sibling_page_id ← InternalPage.ValueAt parent_node sibling_index;
            sibling_node ← FetchPage (pages tr) sibling_page_id;
            if negb (same_kind node sibling_node) then Undefined
            else
              let coalesce := coalesce_decision sibling_node in
              if coalesce then
                '(delete_parent, tr) ←
                  Coalesce (CoalesceOrRedistribute fuel) sibling_page_id node_id
                    parent_page_id node_index tr;
                let tr := if (node_index =? 0)%nat then DeletePage sibling_page_id tr
                          else tr in
                let tr := if delete_parent : bool then DeletePage parent_page_id tr
                          else tr in
                Done (negb (node_index =? 0)%nat, tr)
              else
                tr ← Redistribute sibling_page_id node_id node_index tr;
                Done (false, tr)
        end
  end.

Definition Remove (fuel : nat) (key : Z) (tr : t) : outcome t :=
  if IsEmpty tr then Done tr
  else
    leaf_id ← FindLeafPage fuel tr key false;
    leaf_page ← fetch_leaf (pages tr) leaf_id;
    let old_size := LeafPage.GetSize leaf_page in
    '(new_size, leaf_page) ← LeafPage.RemoveAndDeleteRecord key leaf_page;
    let tr := set_pages (<[leaf_id := Leaf leaf_page]> (pages tr)) tr in
    let removed := negb (new_size =? old_size)%nat in
    if removed && (new_size <? LeafPage.GetMinSize leaf_page)%nat then
      '(delete_leaf, tr) ← CoalesceOrRedistribute fuel leaf_id tr;
      if delete_leaf : bool then Done (DeletePage (LeafPage.GetPageId leaf_page) tr)
      else Done tr
    else Done tr.

End Tree.

(** *** Sorted keys and the two binary searches *)

Lemma comparator_gt (a b : Z) : (comparator a b >? 0) = true <-> b < a.
Proof.
  unfold comparator.
  destruct (a <? b) eqn:E1; [apply Z.ltb_lt in E1|apply Z.ltb_ge in E1];
    destruct (b <? a) eqn:E2; [apply Z.ltb_lt in E2|apply Z.ltb_ge in E2| |];
    try (apply Z.ltb_lt in E2); try (apply Z.ltb_ge in E2); simpl;
    split; intros; try lia; try discriminate; reflexivity.
Qed.

Lemma comparator_lt (a b : Z) : (comparator a b <? 0) = true <-> a < b.
Proof.
  unfold comparator.
  destruct (a <? b) eqn:E1; [apply Z.ltb_lt in E1|apply Z.ltb_ge in E1];
    destruct (b <? a) eqn:E2;
    try (apply Z.ltb_lt in E2); try (apply Z.ltb_ge in E2); simpl;
    split; intros; try lia; try discriminate; reflexivity.
Qed.

Lemma comparator_eq (a b : Z) : (comparator a b =? 0) = true <-> a = b.
Proof.
  unfold comparator.
  destruct (a <? b) eqn:E1; [apply Z.ltb_lt in E1|apply Z.ltb_ge in E1];
    destruct (b <? a) eqn:E2;
    try (apply Z.ltb_lt in E2); try (apply Z.ltb_ge in E2); simpl;
    split; intros; try lia; try discriminate; reflexivity.
Qed.

Lemma sorted_lookup_lt (ks : list Z) (i j : nat) (x y : Z) :
  StronglySorted Z.lt ks -> ks !! i = Some x -> ks !! j = Some y ->
  (i < j)%nat -> x < y.
Proof.
  intros Hs. revert i j x y.
  induction Hs as [|k ks Hs IH Hall]; intros i j x y Hi Hj Hlt.
  - discriminate.
  - destruct j as [|j]; [lia|]. destruct i as [|i].
    + injection Hi as <-. simpl in Hj. rewrite Forall_forall in Hall.
      apply Hall. eapply list_elem_of_lookup_2. exact Hj.
    + simpl in Hi, Hj. apply (IH i j); auto. lia.
Qed.

Lemma half_lt (n : nat) : (0 < n)%nat -> (n / 2 < n)%nat.
Proof. intros Hn. apply Nat.div_lt; lia. Qed.

Lemma leaf_key_at_lookup (a : list (Z * RID)) (i : nat) (x : Z) :
  a.*1 !! i = Some x -> LeafPage.key_at a i = x.
Proof.
  unfold LeafPage.key_at. rewrite list_lookup_fmap. intros Hx.
  destruct (a !! i) as [item|] eqn:Hi; [|discriminate]. injection Hx as <-.
  now rewrite (nth_lookup_Some _ _ _ _ Hi).
Qed.

(** [r] splits the keys into those below [key] and those at or above it. *)
Definition lower_bound (ks : list Z) (key : Z) (r : nat) : Prop :=
  (r <= length ks)%nat /\
  (forall i x, ks !! i = Some x -> (i < r)%nat -> x < key) /\
  (forall i x, ks !! i = Some x -> (r <= i)%nat -> key <= x).

Lemma lower_bound_unique (ks : list Z) (key : Z) (r r' : nat) :
  lower_bound ks key r -> lower_bound ks key r' -> r = r'.
Proof.
  intros (Hl & Hb & Ha) (Hl' & Hb' & Ha').
  destruct (Nat.lt_trichotomy r r') as [Hlt|[Heq|Hgt]]; [|assumption|].
  - destruct (lookup_lt_is_Some_2 ks r) as [x Hx]; [lia|].
    specialize (Ha r x Hx (Nat.le_refl _)). specialize (Hb' r x Hx Hlt). lia.
  - destruct (lookup_lt_is_Some_2 ks r') as [x Hx]; [lia|].
    specialize (Ha' r' x Hx (Nat.le_refl _)). specialize (Hb r' x Hx Hgt). lia.
Qed.

Lemma KeyIndex_loop_spec (fuel : nat) (a : list (Z * RID)) (key : Z) (start end_ : nat) :
  StronglySorted Z.lt a.*1 ->
  (start <= end_ <= length a)%nat -> (end_ - start < fuel)%nat ->
  (forall i x, a.*1 !! i = Some x -> (i < start)%nat -> x < key) ->
  (forall i x, a.*1 !! i = Some x -> (end_ <= i)%nat -> key <= x) ->
  lower_bound a.*1 key (LeafPage.KeyIndex_loop fuel a key start end_).
Proof.
  intros Hs. revert start end_.
  induction fuel as [|fuel IH]; intros start end_ Hr Hf Hb Ha; [lia|].
  cbn [LeafPage.KeyIndex_loop]. destruct (start <? end_)%nat eqn:E.
  - apply Nat.ltb_lt in E.
    pose proof (half_lt (end_ - start)) as Hh.
    set (mid := (start + (end_ - start) / 2)%nat) in *.
    assert (Hmid : (start <= mid < end_)%nat) by (unfold mid; lia).
    destruct (lookup_lt_is_Some_2 a.*1 mid) as [xm Hxm];
      [rewrite length_fmap; lia|].
    rewrite (leaf_key_at_lookup _ _ _ Hxm).
    destruct (comparator key xm >? 0) eqn:C.
    + apply comparator_gt in C. apply IH; [lia|lia| |assumption].
      intros i x Hx Hi. destruct (decide (i = mid)) as [->|Hne].
      * congruence.
      * pose proof (sorted_lookup_lt _ i mid x xm Hs Hx Hxm). lia.
    + assert (C' : key <= xm).
      { destruct (Z_lt_le_dec xm key) as [Hlt|Hle]; [|assumption].
        apply comparator_gt in Hlt. congruence. }
      apply IH; [lia|lia|assumption|].
      intros i x Hx Hi. destruct (decide (i = mid)) as [->|Hne].
      * congruence.
      * pose proof (sorted_lookup_lt _ mid i xm x Hs Hxm Hx). lia.
  - apply Nat.ltb_ge in E. assert (start = end_) by lia. subst end_.
    split; [rewrite length_fmap; lia|]. split; assumption.
Qed.

Lemma KeyIndex_spec (p : LeafPage.t) (key : Z) :
  StronglySorted Z.lt (LeafPage.array p).*1 ->
  lower_bound (LeafPage.array p).*1 key (LeafPage.KeyIndex p key).
Proof.
  intros Hs. unfold LeafPage.KeyIndex, LeafPage.GetSize.
  apply KeyIndex_loop_spec; [assumption|lia|lia|intros; lia|].
  intros i x Hx Hi. apply lookup_lt_Some in Hx. rewrite length_fmap in Hx. lia.
Qed.

(** *** Leaf pages: insert and lookup *)

Lemma sorted_take_drop (ks : list Z) (r : nat) :
  StronglySorted Z.lt ks ->
  StronglySorted Z.lt (take r ks) /\ StronglySorted Z.lt (drop r ks).
Proof.
  intros Hs. rewrite <- (take_drop r ks) in Hs.
  apply StronglySorted_app in Hs. tauto.
Qed.

Lemma sorted_insert (ks : list Z) (key : Z) (r : nat) :
  StronglySorted Z.lt ks -> lower_bound ks key r -> ks !! r <> Some key ->
  StronglySorted Z.lt (take r ks ++ key :: drop r ks).
Proof.
  intros Hs (Hl & Hb & Ha) Hne.
  destruct (sorted_take_drop ks r Hs) as [Ht Hd].
  assert (Hbelow : forall x, x ∈ take r ks -> x < key).
  { intros x Hx. apply list_elem_of_lookup in Hx as [i Hi].
    apply lookup_take_Some in Hi as [Hi Hlt]. eauto. }
  assert (Habove : forall x, x ∈ drop r ks -> key < x).
  { intros x Hx. apply list_elem_of_lookup in Hx as [i Hi].
    rewrite lookup_drop in Hi. destruct i as [|i].
    - rewrite Nat.add_0_r in Hi. pose proof (Ha r x Hi (Nat.le_refl _)).
      assert (x <> key) by congruence. lia.
    - destruct (lookup_lt_is_Some_2 ks r) as [y Hy].
      { apply lookup_lt_Some in Hi. lia. }
      pose proof (Ha r y Hy (Nat.le_refl _)).
      pose proof (sorted_lookup_lt ks r (r + S i) y x Hs Hy Hi). lia. }
  apply StronglySorted_app. split; [|split; [assumption|]].
  - intros x1 x2 H1 H2. apply Hbelow in H1. apply elem_of_cons in H2 as [->|H2];
      [assumption|]. apply Habove in H2. lia.
  - apply StronglySorted_cons. split; [|assumption].
    apply Forall_forall. exact Habove.
Qed.

Lemma lower_bound_insert (ks : list Z) (key : Z) (r : nat) :
  lower_bound ks key r -> lower_bound (take r ks ++ key :: drop r ks) key r.
Proof.
  intros (Hl & Hb & Ha). split; [|split].
  - rewrite length_app, length_take. simpl. lia.
  - intros i x Hx Hi. rewrite lookup_app_l in Hx by (rewrite length_take; lia).
    apply lookup_take_Some in Hx as [Hx _]. eauto.
  - intros i x Hx Hi. rewrite lookup_app_r in Hx by (rewrite length_take; lia).
    rewrite length_take, Nat.min_l in Hx by lia.
    destruct (i - r)%nat as [|d] eqn:Hd; simpl in Hx.
    + injection Hx as <-. lia.
    + rewrite lookup_drop in Hx. apply (Ha (r + d)%nat x Hx). lia.
Qed.

Lemma found_at_true (p : LeafPage.t) (key : Z) (i : nat) :
  LeafPage.found_at p key i = true <->
  exists v, LeafPage.array p !! i = Some (key, v).
Proof.
  unfold LeafPage.found_at. destruct (LeafPage.array p !! i) as [[k v]|]; simpl.
  - rewrite comparator_eq. split; [intros ->; eauto|intros [v' [= -> _]]; reflexivity].
  - split; [discriminate|intros [v [=]]].
Qed.

(** A key that is present is found by the search. *)
Lemma KeyIndex_present (p : LeafPage.t) (key : Z) (i : nat) (v : RID) :
  StronglySorted Z.lt (LeafPage.array p).*1 ->
  LeafPage.array p !! i = Some (key, v) ->
  LeafPage.KeyIndex p key = i.
Proof.
  intros Hs Hi. pose proof (KeyIndex_spec p key Hs) as (Hl & Hb & Ha).
  set (r := LeafPage.KeyIndex p key) in *.
  assert (Hki : (LeafPage.array p).*1 !! i = Some key)
    by (rewrite list_lookup_fmap, Hi; reflexivity).
  destruct (Nat.lt_trichotomy r i) as [Hlt|[Heq|Hgt]]; [|assumption|].
  - destruct (lookup_lt_is_Some_2 (LeafPage.array p).*1 r) as [x Hx];
      [apply lookup_lt_Some in Hki; lia|].
    pose proof (Ha r x Hx (Nat.le_refl _)).
    pose proof (sorted_lookup_lt _ r i x key Hs Hx Hki Hlt). lia.
  - pose proof (Hb i key Hki Hgt). lia.
Qed.

Lemma Lookup_Some (p : LeafPage.t) (key : Z) (v : RID) :
  LeafPage.Lookup p key = Some v <->
  LeafPage.array p !! LeafPage.KeyIndex p key = Some (key, v).
Proof.
  unfold LeafPage.Lookup.
  destruct (LeafPage.found_at p key _) eqn:F.
  - apply found_at_true in F as [v0 Hv0]. rewrite Hv0. simpl.
    split; [intros [= ->]|intros [= ->]]; reflexivity.
  - split; [discriminate|]. intros Hi.
    assert (LeafPage.found_at p key (LeafPage.KeyIndex p key) = true)
      by (apply found_at_true; eauto).
    congruence.
Qed.

(** Inserting a key that is found changes nothing. *)
Lemma Insert_duplicate (p : LeafPage.t) (key : Z) (v v' : RID) :
  (LeafPage.GetSize p <= LeafPage.GetMaxSize p)%nat ->
  LeafPage.Lookup p key = Some v ->
  LeafPage.Insert key v' p = Done (LeafPage.GetSize p, p).
Proof.
  intros Hsz Hl. apply Lookup_Some in Hl. unfold LeafPage.Insert.
  destruct (_ <? _)%nat eqn:E; [apply Nat.ltb_lt in E; lia|].
  assert (F : LeafPage.found_at p key (LeafPage.KeyIndex p key) = true)
    by (apply found_at_true; eauto).
  now rewrite F.
Qed.

Definition inserted_array (p : LeafPage.t) (key : Z) (value : RID) : list (Z * RID) :=
  take (LeafPage.KeyIndex p key) (LeafPage.array p)
  ++ (key, value) :: drop (LeafPage.KeyIndex p key) (LeafPage.array p).

Lemma Insert_absent (p : LeafPage.t) (key : Z) (value : RID) :
  (LeafPage.GetSize p <= LeafPage.GetMaxSize p)%nat ->
  LeafPage.Lookup p key = None ->
  LeafPage.Insert key value p
  = Done (S (LeafPage.GetSize p), LeafPage.set_array (inserted_array p key value) p).
Proof.
  intros Hsz Hl. unfold LeafPage.Insert.
  destruct (_ <? _)%nat eqn:E; [apply Nat.ltb_lt in E; lia|].
  unfold LeafPage.Lookup in Hl.
  destruct (LeafPage.found_at p key _) eqn:F.
  - apply found_at_true in F as [v0 Hv0]. rewrite Hv0 in Hl. discriminate.
  - f_equal. f_equal. unfold LeafPage.GetSize, inserted_array. simpl.
    rewrite length_app, length_take. simpl. rewrite length_drop.
    pose proof (lookup_lt_Some (LeafPage.array p)).
    assert (LeafPage.KeyIndex p key <= length (LeafPage.array p))%nat; [|lia].
    unfold LeafPage.KeyIndex. clear. unfold LeafPage.GetSize.
    generalize (S (length (LeafPage.array p))) as fuel.
    assert (Hg : forall fuel s e, (s <= e)%nat ->
              (LeafPage.KeyIndex_loop fuel (LeafPage.array p) key s e <= e)%nat).
    { induction fuel as [|fuel IH]; intros s e Hse; [simpl; lia|].
      cbn [LeafPage.KeyIndex_loop]. destruct (s <? e)%nat eqn:E; [|lia].
      apply Nat.ltb_lt in E. pose proof (half_lt (e - s)).
      destruct (_ >? 0).
      - apply IH. lia.
      - etransitivity; [apply IH; lia|lia]. }
    intros fuel. apply Hg. lia.
Qed.

Lemma inserted_array_sorted (p : LeafPage.t) (key : Z) (value : RID) :
  StronglySorted Z.lt (LeafPage.array p).*1 ->
  LeafPage.Lookup p key = None ->
  StronglySorted Z.lt (inserted_array p key value).*1 /\
  LeafPage.KeyIndex (LeafPage.set_array (inserted_array p key value) p) key
  = LeafPage.KeyIndex p key.
Proof.
  intros Hs Hl. pose proof (KeyIndex_spec p key Hs) as Hlb.
  set (r := LeafPage.KeyIndex p key) in *.
  assert (Hne : (LeafPage.array p).*1 !! r <> Some key).
  { intros Hk. rewrite list_lookup_fmap in Hk.
    destruct (LeafPage.array p !! r) as [[k v]|] eqn:Hr; [|discriminate].
    injection Hk as ->. assert (LeafPage.Lookup p key = Some v); [|congruence].
    apply Lookup_Some. exact Hr. }
  assert (Hks : (inserted_array p key value).*1
                = take r (LeafPage.array p).*1 ++ key :: drop r (LeafPage.array p).*1).
  { unfold inserted_array. fold r. now rewrite fmap_app, fmap_take, fmap_cons, fmap_drop. }
  assert (Hs' : StronglySorted Z.lt (inserted_array p key value).*1).
  { rewrite Hks. now apply sorted_insert. }
  split; [exact Hs'|].
  eapply lower_bound_unique.
  - apply (KeyIndex_spec (LeafPage.set_array (inserted_array p key value) p) key Hs').
  - simpl. rewrite Hks. now apply lower_bound_insert.
Qed.

(** After a key is inserted, it is looked up with the value given. *)
Lemma Lookup_inserted (p : LeafPage.t) (key : Z) (value : RID) :
  StronglySorted Z.lt (LeafPage.array p).*1 ->
  LeafPage.Lookup p key = None ->
  LeafPage.Lookup (LeafPage.set_array (inserted_array p key value) p) key = Some value.
Proof.
  intros Hs Hl. destruct (inserted_array_sorted p key value Hs Hl) as [Hs' Hr].
  apply Lookup_Some. rewrite Hr. simpl. unfold inserted_array.
  pose proof (KeyIndex_spec p key Hs) as (Hlen & _). rewrite length_fmap in Hlen.
  rewrite lookup_app_r by (rewrite length_take; lia).
  rewrite length_take, Nat.min_l by lia. now rewrite Nat.sub_diag.
Qed.

(** *** Internal pages: the child a key descends into *)

Lemma internal_key_at_lookup (a : list (Z * Z)) (i : nat) (x : Z) :
  a.*1 !! i = Some x -> InternalPage.key_at a i = x.
Proof.
  unfold InternalPage.key_at. rewrite list_lookup_fmap. intros Hx.
  destruct (a !! i) as [item|] eqn:Hi; [|discriminate]. injection Hx as <-.
  now rewrite (nth_lookup_Some _ _ _ _ Hi).
Qed.

(** The keys of an internal page that count: those of slots 1 and up. *)
Definition inner_sorted (ks : list Z) : Prop := StronglySorted Z.lt (drop 1 ks).

Lemma inner_sorted_lookup_lt (ks : list Z) (i j : nat) (x y : Z) :
  inner_sorted ks -> ks !! i = Some x -> ks !! j = Some y ->
  (1 <= i < j)%nat -> x < y.
Proof.
  intros Hs Hi Hj Hij. apply (sorted_lookup_lt (drop 1 ks) (i - 1) (j - 1) x y Hs).
  - rewrite lookup_drop. now replace (1 + (i - 1))%nat with i by lia.
  - rewrite lookup_drop. now replace (1 + (j - 1))%nat with j by lia.
  - lia.
Qed.

(** [c] is the slot whose key is the last one at or below [key]. *)
Definition child_slot (ks : list Z) (key : Z) (c : nat) : Prop :=
  (c < length ks)%nat /\
  (forall i x, ks !! i = Some x -> (1 <= i <= c)%nat -> x <= key) /\
  (forall i x, ks !! i = Some x -> (c < i)%nat -> key < x).

Lemma child_slot_unique (ks : list Z) (key : Z) (c c' : nat) :
  child_slot ks key c -> child_slot ks key c' -> c = c'.
Proof.
  intros (Hl & Hb & Ha) (Hl' & Hb' & Ha').
  destruct (Nat.lt_trichotomy c c') as [Hlt|[Heq|Hgt]]; [|assumption|].
  - destruct (lookup_lt_is_Some_2 ks c') as [x Hx]; [lia|].
    pose proof (Ha c' x Hx Hlt). pose proof (Hb' c' x Hx). lia.
  - destruct (lookup_lt_is_Some_2 ks c) as [x Hx]; [lia|].
    pose proof (Ha' c x Hx Hgt). pose proof (Hb c x Hx). lia.
Qed.

Lemma Lookup_loop_spec (fuel : nat) (a : list (Z * Z)) (key : Z) (start end_ : nat) :
  inner_sorted a.*1 ->
  (1 <= start <= end_)%nat -> (end_ <= length a)%nat -> (end_ - start < fuel)%nat ->
  (forall i x, a.*1 !! i = Some x -> (1 <= i < start)%nat -> x <= key) ->
  (forall i x, a.*1 !! i = Some x -> (end_ <= i)%nat -> key < x) ->
  child_slot a.*1 key (InternalPage.Lookup_loop fuel a key start end_ - 1).
Proof.
  intros Hs. revert start end_.
  induction fuel as [|fuel IH]; intros start end_ Hr Hlen Hf Hb Ha; [lia|].
  cbn [InternalPage.Lookup_loop]. destruct (start <? end_)%nat eqn:E.
  - apply Nat.ltb_lt in E.
    pose proof (half_lt (end_ - start)) as Hh.
    set (mid := (start + (end_ - start) / 2)%nat) in *.
    assert (Hmid : (start <= mid < end_)%nat) by (unfold mid; lia).
    destruct (lookup_lt_is_Some_2 a.*1 mid) as [xm Hxm];
      [rewrite length_fmap; lia|].
    rewrite (internal_key_at_lookup _ _ _ Hxm).
    destruct (comparator key xm <? 0) eqn:C.
    + apply comparator_lt in C. apply IH; [lia|lia|lia|assumption|].
      intros i x Hx Hi. destruct (decide (i = mid)) as [->|Hne].
      * congruence.
      * pose proof (inner_sorted_lookup_lt _ mid i xm x Hs Hxm Hx). lia.
    + assert (C' : xm <= key).
      { destruct (Z_lt_le_dec key xm) as [Hlt|Hle]; [|assumption].
        apply comparator_lt in Hlt. congruence. }
      apply IH; [lia|lia|lia| |assumption].
      intros i x Hx Hi. destruct (decide (i = mid)) as [->|Hne].
      * congruence.
      * pose proof (inner_sorted_lookup_lt _ i mid x xm Hs Hx Hxm). lia.
  - apply Nat.ltb_ge in E. assert (start = end_) by lia. subst end_.
    split; [rewrite length_fmap; lia|]. split.
    + intros i x Hx Hi. apply (Hb i x Hx). lia.
    + intros i x Hx Hi. apply (Ha i x Hx). lia.
Qed.

Lemma Lookup_index_spec (p : InternalPage.t) (key : Z) :
  inner_sorted (InternalPage.array p).*1 ->
  (1 <= InternalPage.GetSize p)%nat ->
  child_slot (InternalPage.array p).*1 key (InternalPage.Lookup_index p key).
Proof.
  intros Hs Hsz. unfold InternalPage.Lookup_index, InternalPage.GetSize in *.
  apply Lookup_loop_spec; [assumption|lia|lia|lia|intros; lia|].
  intros i x Hx Hi. apply lookup_lt_Some in Hx. rewrite length_fmap in Hx. lia.
Qed.

(** The slot of [key] in an array is its slot in a long enough prefix, and
    shifts with a suffix that still holds it. *)
Lemma child_slot_take (ks : list Z) (key : Z) (c n : nat) :
  child_slot ks key c -> (c < n)%nat -> child_slot (take n ks) key c.
Proof.
  intros (Hl & Hb & Ha) Hn. split; [rewrite length_take; lia|]. split.
  - intros i x Hx Hi. apply lookup_take_Some in Hx as [Hx _]. eauto.
  - intros i x Hx Hi. apply lookup_take_Some in Hx as [Hx _]. eauto.
Qed.

Lemma child_slot_drop (ks : list Z) (key : Z) (c n : nat) :
  child_slot ks key c -> (n <= c)%nat -> child_slot (drop n ks) key (c - n).
Proof.
  intros (Hl & Hb & Ha) Hn. split; [rewrite length_drop; lia|]. split.
  - intros i x Hx Hi. rewrite lookup_drop in Hx. apply (Hb _ _ Hx). lia.
  - intros i x Hx Hi. rewrite lookup_drop in Hx. apply (Ha _ _ Hx). lia.
Qed.

(** The slot of [key] once [sep] is inserted right after slot [c]. *)
Lemma child_slot_insert (ks : list Z) (key sep : Z) (c : nat) :
  child_slot ks key c ->
  child_slot (take (c + 1) ks ++ sep :: drop (c + 1) ks) key
    (if key <? sep then c else (c + 1)%nat).
Proof.
  intros (Hl & Hb & Ha).
  assert (Hlt : length (take (c + 1) ks) = (c + 1)%nat) by (rewrite length_take; lia).
  assert (Hlow : forall i x, (take (c + 1) ks ++ sep :: drop (c + 1) ks) !! i = Some x ->
                   (1 <= i <= c)%nat -> x <= key).
  { intros i x Hx Hi. rewrite lookup_app_l in Hx by lia.
    apply lookup_take_Some in Hx as [Hx _]. eauto. }
  assert (Hhigh : forall i x, (take (c + 1) ks ++ sep :: drop (c + 1) ks) !! i = Some x ->
                   (c + 1 < i)%nat -> key < x).
  { intros i x Hx Hi. rewrite lookup_app_r in Hx by lia. rewrite Hlt in Hx.
    destruct (i - (c + 1))%nat as [|d] eqn:Hd; [lia|]. simpl in Hx.
    rewrite lookup_drop in Hx. apply (Ha _ _ Hx). lia. }
  assert (Hsep : (take (c + 1) ks ++ sep :: drop (c + 1) ks) !! (c + 1)%nat = Some sep).
  { rewrite lookup_app_r by lia. now rewrite Hlt, Nat.sub_diag. }
  destruct (key <? sep) eqn:E; [apply Z.ltb_lt in E|apply Z.ltb_ge in E].
  - split; [rewrite length_app; simpl; lia|]. split; [exact Hlow|].
    intros i x Hx Hi. destruct (decide (i = c + 1)%nat) as [->|Hne].
    + congruence.
    + apply (Hhigh i x Hx). lia.
  - split; [rewrite length_app, Hlt, length_cons, length_drop; lia|]. split.
    + intros i x Hx Hi. destruct (decide (i = c + 1)%nat) as [->|Hne].
      * rewrite Hsep in Hx. injection Hx as <-. exact E.
      * apply (Hlow i x Hx). lia.
    + exact Hhigh.
Qed.

(** *** Descending to a key

    A page without its parent pointer: the descent reads nothing else. *)
Definition strip (p : Page) : Page := Page_SetParentPageId INVALID_PAGE_ID p.

Lemma strip_leaf_inv (p : Page) (l : LeafPage.t) :
  strip p = strip (Leaf l) ->
  exists l', p = Leaf l' /\ LeafPage.array l' = LeafPage.array l /\
    LeafPage.max_size_ l' = LeafPage.max_size_ l.
Proof.
  destruct p as [l'|n']; [|discriminate]. unfold strip. simpl.
  intros [= H1 H2 H3 H4]. eauto.
Qed.

Lemma strip_internal_inv (p : Page) (n : InternalPage.t) :
  strip p = strip (Internal n) ->
  exists n', p = Internal n' /\ InternalPage.array n' = InternalPage.array n.
Proof.
  destruct p as [l'|n']; [discriminate|]. unfold strip. simpl.
  intros [= H1 H2 H3]. eauto.
Qed.

Lemma strip_SetParentPageId (parent : Z) (p : Page) :
  strip (Page_SetParentPageId parent p) = strip p.
Proof. now destruct p. Qed.

(** [descends s F key v h id]: from page [id], in [h] steps through internal
    pages, the descent for [key] ends in a leaf within its size bound where
    [key] is looked up with value [v]; no page on the way is in [F]. *)
Inductive descends (s : gmap Z Page) (F : Z -> Prop) (key : Z) (v : RID)
  : nat -> Z -> Prop :=
| descends_leaf id l :
    ~ F id -> s !! id = Some (Leaf l) ->
    LeafPage.Lookup l key = Some v ->
    (LeafPage.GetSize l <= LeafPage.GetMaxSize l)%nat ->
    descends s F key v 0 id
| descends_internal h id n c :
    ~ F id -> s !! id = Some (Internal n) ->
    (1 < InternalPage.GetSize n)%nat ->
    InternalPage.ValueAt n (InternalPage.Lookup_index n key) = Done c ->
    descends s F key v h c ->
    descends s F key v (S h) id.

Lemma Lookup_same_array (l l' : LeafPage.t) (key : Z) :
  LeafPage.array l' = LeafPage.array l -> LeafPage.Lookup l' key = LeafPage.Lookup l key.
Proof.
  intros Ha. unfold LeafPage.Lookup, LeafPage.KeyIndex, LeafPage.found_at, LeafPage.GetSize.
  now rewrite Ha.
Qed.

Lemma Lookup_index_same_array (n n' : InternalPage.t) (key : Z) :
  InternalPage.array n' = InternalPage.array n ->
  InternalPage.Lookup_index n' key = InternalPage.Lookup_index n key.
Proof.
  intros Ha. unfold InternalPage.Lookup_index, InternalPage.GetSize. now rewrite Ha.
Qed.

(** The descent is the same in a store that differs only in parent pointers
    and in pages of [F]. *)
Lemma descends_transfer (s s' : gmap Z Page) (F : Z -> Prop) (key : Z) (v : RID)
    (h : nat) (id : Z) :
  (forall i, ~ F i -> strip <$> s' !! i = strip <$> s !! i) ->
  descends s F key v h id -> descends s' F key v h id.
Proof.
  intros Hsame Hd. induction Hd as [id l HF Hl Hlook Hsz|h id n c HF Hn Hsz Hc Hd IH].
  - specialize (Hsame id HF). rewrite Hl in Hsame. simpl in Hsame.
    destruct (s' !! id) as [p|] eqn:Hp; [|discriminate]. injection Hsame as Hsame.
    apply strip_leaf_inv in Hsame as (l' & -> & Ha & Hm).
    apply (descends_leaf _ _ _ _ id l'); [assumption|assumption| |].
    + now rewrite (Lookup_same_array l l' key Ha).
    + unfold LeafPage.GetSize, LeafPage.GetMaxSize in *. now rewrite Ha, Hm.
  - specialize (Hsame id HF). rewrite Hn in Hsame. simpl in Hsame.
    destruct (s' !! id) as [p|] eqn:Hp; [|discriminate]. injection Hsame as Hsame.
    apply strip_internal_inv in Hsame as (n' & -> & Ha).
    apply (descends_internal _ _ _ _ h id n' c); [assumption|assumption| | |assumption].
    + unfold InternalPage.GetSize in *. now rewrite Ha.
    + unfold InternalPage.ValueAt, InternalPage.chained_assert, InternalPage.GetSize in *.
      now rewrite (Lookup_index_same_array n n' key Ha), Ha.
Qed.

Lemma descends_weaken (s : gmap Z Page) (F F' : Z -> Prop) (key : Z) (v : RID)
    (h : nat) (id : Z) :
  (forall i, F' i -> F i) -> descends s F key v h id -> descends s F' key v h id.
Proof.
  intros Hsub Hd. induction Hd; [eapply descends_leaf|eapply descends_internal]; eauto.
Qed.

(** What [descends] means for the code: FindLeafPage ends in that leaf. *)
Lemma descends_FindLeafPage (s : gmap Z Page) (F : Z -> Prop) (key : Z) (v : RID)
    (h : nat) (id : Z) (fuel : nat) :
  descends s F key v h id -> (h < fuel)%nat ->
  exists leaf_id l,
    FindLeafPage_from fuel s key false id = Done leaf_id /\
    s !! leaf_id = Some (Leaf l) /\
    LeafPage.Lookup l key = Some v /\
    (LeafPage.GetSize l <= LeafPage.GetMaxSize l)%nat.
Proof.
  intros Hd. revert fuel.
  induction Hd as [id l HF Hl Hlook Hsz|h id n c HF Hn Hsz Hc Hd IH]; intros fuel Hf.
  - destruct fuel as [|fuel]; [lia|]. exists id, l. simpl. unfold FetchPage.
    rewrite Hl. simpl. auto.
  - destruct fuel as [|fuel]; [lia|].
    destruct (IH fuel) as (leaf_id & l & Hfind & Hrest); [lia|].
    exists leaf_id, l. split; [|exact Hrest]. simpl. unfold FetchPage. rewrite Hn.
    simpl. unfold InternalPage.Lookup.
    destruct (_ <=? 1)%nat eqn:E; [apply Nat.leb_le in E; lia|].
    rewrite Hc. simpl. exact Hfind.
Qed.

(** With more than one slot the assertions of ValueAt and KeyAt hold. *)
Lemma ValueAt_checked (n : InternalPage.t) (i : nat) :
  (1 < InternalPage.GetSize n)%nat ->
  InternalPage.ValueAt n i
  = match InternalPage.array n !! i with
    | Some item => Done (snd item)
    | None => Undefined
    end.
Proof.
  intros Hsz. unfold InternalPage.ValueAt, InternalPage.chained_assert.
  destruct (_ <? _)%nat eqn:E; [reflexivity|apply Nat.ltb_ge in E; lia].
Qed.

Lemma KeyAt_checked (n : InternalPage.t) (i : nat) :
  InternalPage.KeyAt n i
  = match InternalPage.array n !! i with
    | Some item => Done (fst item)
    | None => Undefined
    end.
Proof.
  unfold InternalPage.KeyAt, InternalPage.chained_assert.
  destruct (InternalPage.array n !! i) as [item|] eqn:Hi;
    [|now destruct (negb _)].
  apply lookup_lt_Some in Hi. fold (InternalPage.GetSize n) in Hi.
  destruct (_ <? _)%nat eqn:E; [reflexivity|].
  apply Nat.ltb_ge in E. destruct i; simpl in E; lia.
Qed.

Lemma set_pages_same (tr : t) : set_pages (pages tr) tr = tr.
Proof. now destruct tr. Qed.

Lemma descends_GetValue (tr : t) (F : Z -> Prop) (key : Z) (v : RID) (h fuel : nat) :
  IsEmpty tr = false ->
  descends (pages tr) F key v h (root_page_id_ tr) -> (h < fuel)%nat ->
  GetValue fuel key tr = Done (Some v).
Proof.
  intros Hne Hd Hf.
  destruct (descends_FindLeafPage _ _ _ _ _ _ fuel Hd Hf) as (leaf_id & l & Hfind & Hl & Hlook & _).
  unfold GetValue, FindLeafPage. rewrite Hne, Hfind. simpl.
  unfold fetch_leaf, FetchPage. rewrite Hl. simpl. now rewrite Hlook.
Qed.

(** Inserting a key the descent finds returns false and changes nothing. *)
Lemma descends_Insert_again (leaf_max_size internal_max_size : nat) (tr : t)
    (F : Z -> Prop) (key : Z) (v v' : RID) (h fuel : nat) :
  IsEmpty tr = false ->
  descends (pages tr) F key v h (root_page_id_ tr) -> (h < fuel)%nat ->
  Insert leaf_max_size internal_max_size fuel key v' tr = Done (false, tr).
Proof.
  intros Hne Hd Hf.
  destruct (descends_FindLeafPage _ _ _ _ _ _ fuel Hd Hf)
    as (leaf_id & l & Hfind & Hl & Hlook & Hsz).
  unfold Insert, InsertIntoLeaf, FindLeafPage. rewrite Hne, Hfind. simpl.
  unfold fetch_leaf, FetchPage. rewrite Hl. simpl.
  rewrite (Insert_duplicate l key v v' Hsz Hlook). simpl.
  destruct (_ <? _)%nat eqn:E;
    [apply Nat.ltb_lt in E; unfold LeafPage.GetSize, LeafPage.GetMaxSize in *; lia|].
  rewrite Nat.eqb_refl. simpl. rewrite (insert_id _ _ _ Hl).
  now rewrite set_pages_same.
Qed.

(** *** Adopting children changes parent pointers only *)

Lemma adopt_Done (parent : Z) (s : gmap Z Page) (c : Z) (p : Page) :
  s !! c = Some p ->
  adopt parent s c = Done (<[c := Page_SetParentPageId parent p]> s).
Proof. intros Hc. unfold adopt, FetchPage. now rewrite Hc. Qed.

Lemma strip_insert_adopted (parent : Z) (s : gmap Z Page) (c i : Z) (p : Page) :
  s !! c = Some p ->
  strip <$> <[c := Page_SetParentPageId parent p]> s !! i = strip <$> s !! i.
Proof.
  intros Hc. rewrite lookup_insert. case_decide as Hi; [subst i|reflexivity].
  rewrite Hc. simpl. now rewrite strip_SetParentPageId.
Qed.

Lemma adopt_all_spec (parent : Z) (children : list Z) (s : gmap Z Page) :
  (forall c, c ∈ children -> is_Some (s !! c)) ->
  exists s', adopt_all parent children s = Done s' /\
    (forall i, strip <$> s' !! i = strip <$> s !! i) /\
    (forall i, i ∉ children -> s' !! i = s !! i).
Proof.
  revert s. induction children as [|c children IH]; intros s Hall.
  - exists s. simpl. auto.
  - destruct (Hall c) as [p Hp]; [left|].
    destruct (IH (<[c := Page_SetParentPageId parent p]> s)) as (s' & Hs' & Hstrip & Hother).
    { intros c' Hc'. rewrite lookup_insert. case_decide; [eauto|].
      apply Hall. now right. }
    exists s'. split; [|split].
    + simpl. rewrite (adopt_Done _ _ _ _ Hp). simpl. exact Hs'.
    + intros i. rewrite Hstrip. now apply strip_insert_adopted.
    + intros i Hi. rewrite Hother by (intros Hin; apply Hi; now right).
      apply lookup_insert_ne. intros ->. apply Hi. left.
Qed.

Lemma strip_is_Some (s s' : gmap Z Page) (i : Z) :
  strip <$> s' !! i = strip <$> s !! i -> is_Some (s !! i) -> is_Some (s' !! i).
Proof.
  intros Heq [p Hp]. rewrite Hp in Heq. destruct (s' !! i); [eauto|discriminate].
Qed.

(** *** The pages above a page on the way down to a key *)

Definition above (lo : option Z) (x : Z) : Prop :=
  match lo with Some l => l < x | None => True end.
Definition above_eq (lo : option Z) (x : Z) : Prop :=
  match lo with Some l => l <= x | None => True end.
Definition below (hi : option Z) (x : Z) : Prop :=
  match hi with Some h => x < h | None => True end.

(** An ancestor: its page id, the slot taken on the way down, and the
    bounds of its own keys. *)
Record frame := mkFrame {
  f_page : Z;
  f_slot : nat;
  f_lo : option Z;
  f_hi : option Z
}.

Definition ancestors (frames : list frame) : list Z := f_page <$> frames.

(** The bounds of the keys below slot [i] of a page with keys [ks]. *)
Definition slot_lo (lo : option Z) (ks : list Z) (i : nat) : option Z :=
  if (i =? 0)%nat then lo else ks !! i.
Definition slot_hi (hi : option Z) (ks : list Z) (i : nat) : option Z :=
  match ks !! S i with Some k => Some k | None => hi end.

Definition parent_of (frames : list frame) : Z :=
  match frames with [] => INVALID_PAGE_ID | f :: _ => f_page f end.

(** The root end of the path. *)
Definition top (X : Z) (frames : list frame) : Z := List.last (ancestors frames) X.

Lemma top_cons (X : Z) (f : frame) (rest : list frame) :
  top X (f :: rest) = top (f_page f) rest.
Proof.
  unfold top. change (ancestors (f :: rest)) with (f_page f :: ancestors rest).
  generalize (f_page f) as a. revert X. generalize (ancestors rest) as l.
  induction l as [|b l IH]; intros X a; [reflexivity|].
  change (List.last (a :: b :: l) X) with (List.last (b :: l) X).
  now rewrite (IH X b), (IH a b).
Qed.

Section Correctness.
Variables leaf_max_size internal_max_size : nat.

(** [ctx s key X lo hi frames]: page [X], with keys bounded by [lo] and
    [hi], hangs below the pages of [frames] (nearest first, root last), each
    a sound internal page in which the descent for [key] takes the recorded
    slot. *)
Fixpoint ctx (s : gmap Z Page) (key : Z) (X : Z) (lo hi : option Z)
    (frames : list frame) : Prop :=
  (exists pX, s !! X = Some pX /\ Page_GetPageId pX = X /\
     Page_GetParentPageId pX = parent_of frames) /\
  match frames with
  | [] => lo = None /\ hi = None
  | f :: rest =>
      exists n,
        s !! f_page f = Some (Internal n) /\
        InternalPage.max_size_ n = internal_max_size /\
        (2 <= InternalPage.GetSize n <= internal_max_size)%nat /\
        inner_sorted (InternalPage.array n).*1 /\
        (forall j x, (InternalPage.array n).*1 !! j = Some x -> (1 <= j)%nat ->
           above (f_lo f) x /\ below (f_hi f) x) /\
        (InternalPage.array n).*2 !! f_slot f = Some X /\
        InternalPage.ValueIndex n X = Some (f_slot f) /\
        child_slot (InternalPage.array n).*1 key (f_slot f) /\
        lo = slot_lo (f_lo f) (InternalPage.array n).*1 (f_slot f) /\
        hi = slot_hi (f_hi f) (InternalPage.array n).*1 (f_slot f) /\
        (forall c, c ∈ (InternalPage.array n).*2 ->
           is_Some (s !! c) /\ c ∉ ancestors frames) /\
        (f_page f ∉ ancestors rest) /\
        ctx s key (f_page f) (f_lo f) (f_hi f) rest
  end.

Lemma ctx_page (s : gmap Z Page) (key X : Z) (lo hi : option Z) (frames : list frame) :
  ctx s key X lo hi frames ->
  exists pX, s !! X = Some pX /\ Page_GetPageId pX = X /\
    Page_GetParentPageId pX = parent_of frames.
Proof. destruct frames; intros [H _]; exact H. Qed.

Lemma ctx_key_range (s : gmap Z Page) (key X : Z) (lo hi : option Z)
    (frames : list frame) :
  ctx s key X lo hi frames -> above_eq lo key /\ below hi key.
Proof.
  revert X lo hi. induction frames as [|f rest IH]; intros X lo hi [_ Hc].
  - destruct Hc as [-> ->]. simpl. auto.
  - destruct Hc as (n & _ & _ & _ & _ & _ & _ & _ & (Hl & Hb & Ha) & -> & -> & _ & _ & Hrest).
    destruct (IH _ _ _ Hrest) as [Hlo Hhi]. split.
    + unfold slot_lo. destruct (f_slot f =? 0)%nat eqn:E; [assumption|].
      apply Nat.eqb_neq in E.
      destruct ((InternalPage.array n).*1 !! f_slot f) as [x|] eqn:Hx; [|exact I].
      simpl. apply (Hb _ _ Hx). lia.
    + unfold slot_hi.
      destruct ((InternalPage.array n).*1 !! S (f_slot f)) as [x|] eqn:Hx; [|assumption].
      simpl. apply (Ha _ _ Hx). lia.
Qed.

(** The context holds in any store with the same ancestors, no page
    lost, and [X] still knowing its id and parent. *)
Lemma ctx_transfer (s s' : gmap Z Page) (key X : Z) (lo hi : option Z)
    (frames : list frame) :
  ctx s key X lo hi frames ->
  (forall A, A ∈ ancestors frames -> s' !! A = s !! A) ->
  (forall i, is_Some (s !! i) -> is_Some (s' !! i)) ->
  (exists pX, s' !! X = Some pX /\ Page_GetPageId pX = X /\
     Page_GetParentPageId pX = parent_of frames) ->
  ctx s' key X lo hi frames.
Proof.
  revert X lo hi. induction frames as [|f rest IH]; intros X lo hi [HX Hc] Hanc Hdom HX'.
  - split; assumption.
  - split; [assumption|].
    destruct Hc as (n & Hn & Hmax & Hsz & Hsort & Hkeys & Hslot & Hvi & Hcs & Hlo & Hhi
                    & Hch & Hnot & Hrest).
    exists n. rewrite Hanc by (simpl; left).
    do 10 (split; [assumption|]).
    split; [intros c Hc; destruct (Hch c Hc); split; auto|].
    split; [assumption|].
    apply IH; [assumption| |assumption|].
    + intros A HA. apply Hanc. simpl. now right.
    + destruct (ctx_page _ _ _ _ _ _ Hrest) as (pP & HpP & Hid & Hpar). exists pP.
      rewrite Hanc by (simpl; left). auto.
Qed.

(** From the descent below [X] to the descent from the root. *)
Lemma climb (s : gmap Z Page) (Fr : Z -> Prop) (key : Z) (v : RID)
    (frames : list frame) (X : Z) (lo hi : option Z) (h : nat) :
  ctx s key X lo hi frames ->
  (forall A, A ∈ ancestors frames -> ~ Fr A) ->
  descends s (fun i => i ∈ ancestors frames \/ Fr i) key v h X ->
  descends s Fr key v (h + length frames) (top X frames).
Proof.
  revert X lo hi h. induction frames as [|f rest IH]; intros X lo hi h [HX Hc] HFr Hd.
  - rewrite Nat.add_0_r. unfold top. simpl.
    eapply descends_weaken; [|exact Hd]. intros i Hi. now right.
  - destruct Hc as (n & Hn & Hmax & Hsz & Hsort & Hkeys & Hslot & Hvi & Hcs & Hlo & Hhi
                    & Hch & Hnot & Hrest).
    replace (h + length (f :: rest))%nat with (S h + length rest)%nat by (simpl; lia).
    rewrite top_cons.
    apply (IH _ _ _ _ Hrest).
    { intros A HA. apply HFr. simpl. now right. }
    apply (descends_internal _ _ _ _ h (f_page f) n X).
    + intros [Hin|Hfr]; [contradiction|]. apply (HFr (f_page f)); [simpl; left|assumption].
    + assumption.
    + lia.
    + assert (Hidx : InternalPage.Lookup_index n key = f_slot f).
      { eapply child_slot_unique; [|exact Hcs]. apply Lookup_index_spec; [assumption|lia]. }
      rewrite ValueAt_checked by lia. rewrite Hidx.
      rewrite list_lookup_fmap in Hslot.
      destruct (InternalPage.array n !! f_slot f) as [item|]; [|discriminate].
      simpl in Hslot. now injection Hslot as ->.
    + eapply descends_weaken; [|exact Hd]. simpl. intros i [Hi|Hi]; [left; now right|now right].
Qed.

(** *** The steps of InsertIntoParent *)

(** Every page id in use is a valid id below the allocator mark. *)
Definition store_ok (tr : t) : Prop :=
  forall i, is_Some (pages tr !! i) -> 0 <= i < next_page_id tr.

Lemma value_index_Some (a : list (Z * Z)) (value : Z) (base i : nat) :
  InternalPage.value_index a value base = Some i ->
  (base <= i)%nat /\ a.*2 !! (i - base)%nat = Some value.
Proof.
  revert base. induction a as [|[k c] a IH]; intros base; simpl; [discriminate|].
  destruct (c =? value) eqn:E.
  - intros [= <-]. apply Z.eqb_eq in E. subst c. rewrite Nat.sub_diag. auto.
  - intros Hi. destruct (IH _ Hi) as [Hle Hl]. split; [lia|].
    replace (i - base)%nat with (S (i - S base)) by lia. exact Hl.
Qed.

Lemma InsertNodeAfter_Done (n : InternalPage.t) (X sep Y : Z) (i : nat) :
  InternalPage.ValueIndex n X = Some i ->
  InternalPage.InsertNodeAfter X sep Y n
  = Done (S (InternalPage.GetSize n),
          InternalPage.set_array
            (take (i + 1) (InternalPage.array n) ++ (sep, Y)
             :: drop (i + 1) (InternalPage.array n)) n).
Proof.
  intros Hvi. unfold InternalPage.InsertNodeAfter. rewrite Hvi. f_equal. f_equal.
  unfold InternalPage.ValueIndex in Hvi. apply value_index_Some in Hvi as [_ Hl].
  apply lookup_lt_Some in Hl. rewrite length_fmap in Hl.
  unfold InternalPage.GetSize. simpl.
  rewrite length_app, length_take, length_cons, length_drop. lia.
Qed.

Lemma bind_Done {A B : Type} (a : A) (k : A -> outcome B) : (Done a ≫= k) = k a.
Proof. reflexivity. Qed.

Lemma fetch_internal_Some (s : gmap Z Page) (id : Z) (n : InternalPage.t) :
  s !! id = Some (Internal n) -> fetch_internal s id = Done n.
Proof. intros H. unfold fetch_internal, FetchPage. now rewrite H. Qed.

Lemma fetch_leaf_Some (s : gmap Z Page) (id : Z) (l : LeafPage.t) :
  s !! id = Some (Leaf l) -> fetch_leaf s id = Done l.
Proof. intros H. unfold fetch_leaf, FetchPage. now rewrite H. Qed.

Lemma FetchPage_Some (s : gmap Z Page) (id : Z) (p : Page) :
  s !! id = Some p -> FetchPage s id = Done p.
Proof. intros H. unfold FetchPage. now rewrite H. Qed.

(** Moving the upper half of an overflowing internal page to an empty one. *)
Lemma Internal_MoveHalfTo_spec (s : gmap Z Page) (P N : Z) (n r : InternalPage.t) :
  s !! P = Some (Internal n) ->
  s !! N = Some (Internal r) ->
  P <> N ->
  InternalPage.GetSize n = (InternalPage.GetMaxSize n + 1)%nat ->
  InternalPage.GetSize r = 0%nat ->
  (forall c, c ∈ (InternalPage.array n).*2 -> is_Some (s !! c) /\ c <> P /\ c <> N) ->
  exists s',
    Internal_MoveHalfTo P N s = Done s' /\
    s' !! P = Some (Internal (InternalPage.set_array
                (take (InternalPage.GetMinSize n) (InternalPage.array n)) n)) /\
    s' !! N = Some (Internal (InternalPage.set_array
                (drop (InternalPage.GetMinSize n) (InternalPage.array n)) r)) /\
    (forall i, i <> P -> i <> N -> strip <$> s' !! i = strip <$> s !! i) /\
    (forall i, i <> P -> i <> N -> i ∉ (InternalPage.array n).*2 -> s' !! i = s !! i).
Proof.
  intros HP HN HPN Hsz Hr Hch.
  unfold Internal_MoveHalfTo.
  rewrite (fetch_internal_Some _ _ _ HP), bind_Done.
  rewrite (fetch_internal_Some _ _ _ HN), bind_Done.
  rewrite Hsz, Hr, !Nat.eqb_refl. cbn [negb orb].
  set (items := drop (InternalPage.GetMinSize n) (InternalPage.array n)).
  set (s2 := <[N := Internal (InternalPage.set_array items r)]> s).
  assert (Hitems : forall i, i ∉ (InternalPage.array n).*2 -> i ∉ items.*2).
  { intros i Hi Hin. apply Hi. unfold items in Hin. rewrite fmap_drop in Hin.
    eapply subseteq_drop. exact Hin. }
  destruct (adopt_all_spec N items.*2 s2) as (s3 & Hs3 & Hstrip & Hother).
  { intros c Hc. assert (Hc' : c ∈ (InternalPage.array n).*2).
    { destruct (decide (c ∈ (InternalPage.array n).*2)) as [Hin|Hnin]; [assumption|].
      now apply Hitems in Hnin. }
    destruct (Hch c Hc') as ([p Hp] & _ & HcN). unfold s2.
    rewrite lookup_insert_ne by congruence. eauto. }
  rewrite Hs3, bind_Done.
  assert (H3P : s3 !! P = Some (Internal n)).
  { rewrite Hother.
    - unfold s2. now rewrite lookup_insert_ne by congruence.
    - apply Hitems. intros Hin. destruct (Hch P Hin) as (_ & Hne & _). congruence. }
  assert (H3N : s3 !! N = Some (Internal (InternalPage.set_array items r))).
  { rewrite Hother.
    - unfold s2. apply lookup_insert_eq.
    - apply Hitems. intros Hin. destruct (Hch N Hin) as (_ & _ & Hne). congruence. }
  rewrite (fetch_internal_Some _ _ _ H3P), bind_Done.
  eexists. split; [reflexivity|]. split; [apply lookup_insert_eq|].
  split; [now rewrite lookup_insert_ne by congruence|]. split.
  - intros i HiP HiN. rewrite lookup_insert_ne by congruence. rewrite Hstrip.
    unfold s2. now rewrite lookup_insert_ne by congruence.
  - intros i HiP HiN Hi. rewrite lookup_insert_ne by congruence.
    rewrite (Hother i (Hitems i Hi)). unfold s2.
    now rewrite lookup_insert_ne by congruence.
Qed.

(** A page overflowing by one slot is split at its minimum size. *)
Lemma Split_internal_spec (tr : t) (P : Z) (n : InternalPage.t) :
  store_ok tr ->
  pages tr !! P = Some (Internal n) ->
  InternalPage.GetSize n = (InternalPage.GetMaxSize n + 1)%nat ->
  (forall c, c ∈ (InternalPage.array n).*2 -> is_Some (pages tr !! c) /\ c <> P) ->
  exists tr',
    Split_internal internal_max_size P tr = Done (next_page_id tr, tr') /\
    next_page_id tr' = next_page_id tr + 1 /\
    root_page_id_ tr' = root_page_id_ tr /\
    header_record tr' = header_record tr /\
    pages tr' !! P
    = Some (Internal (InternalPage.set_array
              (take (InternalPage.GetMinSize n) (InternalPage.array n)) n)) /\
    pages tr' !! next_page_id tr
    = Some (Internal (InternalPage.mk (next_page_id tr) (InternalPage.parent_page_id_ n)
                        internal_max_size
                        (drop (InternalPage.GetMinSize n) (InternalPage.array n)))) /\
    (forall i, i <> P -> i <> next_page_id tr ->
       strip <$> pages tr' !! i = strip <$> pages tr !! i) /\
    (forall i, i <> P -> i <> next_page_id tr -> i ∉ (InternalPage.array n).*2 ->
       pages tr' !! i = pages tr !! i).
Proof.
  intros Hok HP Hsz Hch.
  assert (HPN : P <> next_page_id tr).
  { intros Heq. destruct (Hok P) as [_ Hlt]; [rewrite HP; eauto|]. lia. }
  assert (HNone : pages tr !! next_page_id tr = None).
  { destruct (pages tr !! next_page_id tr) eqn:E; [|reflexivity].
    destruct (Hok (next_page_id tr)) as [_ Hlt]; [rewrite E; eauto|]. lia. }
  unfold Split_internal, NewPage. cbn [pages].
  rewrite (fetch_internal_Some _ _ _ HP), bind_Done.
  set (new_node := InternalPage.Init internal_max_size (next_page_id tr)
                     (InternalPage.GetParentPageId n)).
  destruct (Internal_MoveHalfTo_spec
              (<[next_page_id tr := Internal new_node]> (pages tr))
              P (next_page_id tr) n new_node)
    as (s' & Hmove & HsP & HsN & Hstrip & Hother).
  - now rewrite lookup_insert_ne by congruence.
  - apply lookup_insert_eq.
  - exact HPN.
  - exact Hsz.
  - reflexivity.
  - intros c Hc. destruct (Hch c Hc) as [[p Hp] Hne].
    split; [|split; [assumption|congruence]].
    rewrite lookup_insert_ne by congruence. eauto.
  - rewrite Hmove, bind_Done. eexists. split; [reflexivity|].
    cbn [next_page_id root_page_id_ pages set_pages header_record].
    repeat (split; [first [reflexivity|assumption]|]). split.
    + intros i HiP HiN. rewrite Hstrip by assumption.
      now rewrite lookup_insert_ne by congruence.
    + intros i HiP HiN Hi. rewrite Hother by assumption.
      now rewrite lookup_insert_ne by congruence.
Qed.

Lemma sorted_insert_between (ks : list Z) (sep : Z) (r : nat) :
  StronglySorted Z.lt ks ->
  (forall i x, ks !! i = Some x -> (i < r)%nat -> x < sep) ->
  (forall i x, ks !! i = Some x -> (r <= i)%nat -> sep < x) ->
  StronglySorted Z.lt (take r ks ++ sep :: drop r ks).
Proof.
  intros Hs Hb Ha. destruct (sorted_take_drop ks r Hs) as [Ht Hd].
  assert (Hbelow : forall x, x ∈ take r ks -> x < sep).
  { intros x Hx. apply elem_of_take in Hx as (i & Hi & Hlt). eauto. }
  assert (Habove : forall x, x ∈ drop r ks -> sep < x).
  { intros x Hx. apply list_elem_of_lookup in Hx as [i Hi].
    rewrite lookup_drop in Hi. apply (Ha _ _ Hi). lia. }
  apply StronglySorted_app. split; [|split; [assumption|]].
  - intros x1 x2 H1 H2. apply Hbelow in H1. apply elem_of_cons in H2 as [->|H2];
      [assumption|]. apply Habove in H2. lia.
  - apply StronglySorted_cons. split; [|assumption].
    apply Forall_forall. exact Habove.
Qed.

Lemma above_trans (lo : option Z) (x y : Z) : above lo x -> x <= y -> above lo y.
Proof. destruct lo; simpl; [lia|auto]. Qed.

Lemma below_trans (hi : option Z) (x y : Z) : below hi y -> x <= y -> below hi x.
Proof. destruct hi; simpl; [lia|auto]. Qed.

(** A separator within the bounds of slot [i] keeps the page sound when it
    is inserted after that slot. *)
Lemma insert_separator_sound (ks : list Z) (lo hi loP hiP : option Z) (sep : Z)
    (i : nat) :
  inner_sorted ks ->
  (forall j x, ks !! j = Some x -> (1 <= j)%nat -> above loP x /\ below hiP x) ->
  (i < length ks)%nat ->
  lo = slot_lo loP ks i -> hi = slot_hi hiP ks i ->
  above lo sep -> below hi sep ->
  let ks' := take (i + 1) ks ++ sep :: drop (i + 1) ks in
  inner_sorted ks' /\
  (forall j x, ks' !! j = Some x -> (1 <= j)%nat -> above loP x /\ below hiP x).
Proof.
  intros Hs Hkeys Hi -> -> Hlo Hhi ks'.
  assert (Hlow : forall j x, ks !! j = Some x -> (1 <= j <= i)%nat -> x < sep).
  { intros j x Hx Hj. unfold slot_lo in Hlo.
    destruct (i =? 0)%nat eqn:E; [apply Nat.eqb_eq in E; lia|].
    destruct (ks !! i) as [xi|] eqn:Hxi; [|apply lookup_ge_None in Hxi; lia].
    simpl in Hlo. destruct (decide (j = i)) as [->|Hne]; [congruence|].
    pose proof (inner_sorted_lookup_lt ks j i x xi Hs Hx Hxi). lia. }
  assert (Hhigh : forall j x, ks !! j = Some x -> (i < j)%nat -> sep < x).
  { intros j x Hx Hj. unfold slot_hi in Hhi.
    destruct (ks !! S i) as [xs|] eqn:Hxs;
      [|apply lookup_ge_None in Hxs; apply lookup_lt_Some in Hx; lia].
    simpl in Hhi. destruct (decide (j = S i)) as [->|Hne]; [congruence|].
    pose proof (inner_sorted_lookup_lt ks (S i) j xs x Hs Hxs Hx). lia. }
  assert (Hlt : length (take (i + 1) ks) = (i + 1)%nat) by (rewrite length_take; lia).
  split.
  - unfold inner_sorted, ks'. rewrite drop_app_le by lia.
    replace (drop 1 (take (i + 1) ks)) with (take i (drop 1 ks))
      by (rewrite take_drop_commute; do 2 f_equal; lia).
    replace (drop (i + 1) ks) with (drop i (drop 1 ks))
      by (rewrite drop_drop; f_equal; lia).
    apply sorted_insert_between; [exact Hs| |].
    + intros j x Hx Hj. rewrite lookup_drop in Hx. apply (Hlow _ _ Hx). lia.
    + intros j x Hx Hj. rewrite lookup_drop in Hx. apply (Hhigh _ _ Hx). lia.
  - intros j x Hx Hj. unfold ks' in Hx.
    destruct (Nat.lt_trichotomy j (i + 1)) as [Hlt'|[->|Hgt]].
    + rewrite lookup_app_l in Hx by lia. apply lookup_take_Some in Hx as [Hx _]. eauto.
    + rewrite lookup_app_r in Hx by lia. rewrite Hlt, Nat.sub_diag in Hx.
      injection Hx as <-. split.
      * unfold slot_lo in Hlo. destruct (i =? 0)%nat eqn:E; [assumption|].
        apply Nat.eqb_neq in E.
        destruct (ks !! i) as [xi|] eqn:Hxi; [|apply lookup_ge_None in Hxi; lia].
        simpl in Hlo. destruct (Hkeys i xi Hxi) as [Ha _]; [lia|].
        eapply above_trans; [exact Ha|lia].
      * unfold slot_hi in Hhi. destruct (ks !! S i) as [xs|] eqn:Hxs; [|assumption].
        simpl in Hhi. destruct (Hkeys (S i) xs Hxs) as [_ Hb]; [lia|].
        eapply below_trans; [exact Hb|lia].
    + rewrite lookup_app_r in Hx by lia. rewrite Hlt in Hx.
      destruct (j - (i + 1))%nat as [|d] eqn:Hd; [lia|]. simpl in Hx.
      rewrite lookup_drop in Hx. apply (Hkeys _ _ Hx). lia.
Qed.

Lemma min_size_of_bounds (max_size : nat) :
  (2 * min_size_of max_size <= max_size + 1 < 2 * min_size_of max_size + 2)%nat.
Proof.
  unfold min_size_of. pose proof (Nat.div_mod_eq (max_size + 1) 2) as Hd.
  pose proof (Nat.mod_upper_bound (max_size + 1) 2). lia.
Qed.

Lemma inner_sorted_take (ks : list Z) (n : nat) :
  inner_sorted ks -> inner_sorted (take n ks).
Proof.
  unfold inner_sorted. intros Hs. destruct n as [|n]; [constructor|].
  replace (drop 1 (take (S n) ks)) with (take n (drop 1 ks))
    by (rewrite take_drop_commute; reflexivity).
  now apply sorted_take_drop.
Qed.

Lemma inner_sorted_drop (ks : list Z) (n : nat) :
  inner_sorted ks -> inner_sorted (drop n ks).
Proof.
  unfold inner_sorted. intros Hs. rewrite drop_drop.
  replace (n + 1)%nat with (1 + n)%nat by lia. rewrite <- drop_drop.
  now apply sorted_take_drop.
Qed.

Lemma ValueAt_Done (n : InternalPage.t) (i : nat) (c : Z) :
  (1 < InternalPage.GetSize n)%nat ->
  (InternalPage.array n).*2 !! i = Some c -> InternalPage.ValueAt n i = Done c.
Proof.
  intros Hsz. rewrite ValueAt_checked by exact Hsz. rewrite list_lookup_fmap.
  destruct (InternalPage.array n !! i); [|discriminate]. now intros [= ->].
Qed.

Lemma KeyAt_Done (n : InternalPage.t) (i : nat) (k : Z) :
  (InternalPage.array n).*1 !! i = Some k -> InternalPage.KeyAt n i = Done k.
Proof.
  rewrite KeyAt_checked, list_lookup_fmap.
  destruct (InternalPage.array n !! i); [|discriminate]. now intros [= ->].
Qed.

(** The slot the descent takes, read off a page whose keys are in order. *)
Lemma Lookup_index_child_slot (n : InternalPage.t) (key : Z) (c : nat) :
  inner_sorted (InternalPage.array n).*1 ->
  child_slot (InternalPage.array n).*1 key c ->
  InternalPage.Lookup_index n key = c.
Proof.
  intros Hs Hc. eapply child_slot_unique; [|exact Hc].
  apply Lookup_index_spec; [assumption|].
  destruct Hc as [Hl _]. rewrite length_fmap in Hl. unfold InternalPage.GetSize. lia.
Qed.

(** The child of [key] once [(sep, Y)] follows the slot of [X]. *)
Lemma inserted_child (a : list (Z * Z)) (key sep X Y : Z) (i : nat) :
  a.*2 !! i = Some X ->
  let a' := take (i + 1) a ++ (sep, Y) :: drop (i + 1) a in
  a'.*1 = take (i + 1) a.*1 ++ sep :: drop (i + 1) a.*1 /\
  a'.*2 = take (i + 1) a.*2 ++ Y :: drop (i + 1) a.*2 /\
  a'.*2 !! (if key <? sep then i else (i + 1)%nat)
  = Some (if key <? sep then X else Y).
Proof.
  intros HX a'. unfold a'.
  rewrite !fmap_app, !fmap_cons, !fmap_take, !fmap_drop. simpl.
  split; [reflexivity|]. split; [reflexivity|].
  assert (Hi : (i < length a.*2)%nat) by (eapply lookup_lt_Some; eauto).
  assert (Hlt : length (take (i + 1) a.*2) = (i + 1)%nat) by (rewrite length_take; lia).
  destruct (key <? sep).
  - rewrite lookup_app_l by lia. rewrite lookup_take_lt by lia. exact HX.
  - rewrite lookup_app_r by lia. now rewrite Hlt, Nat.sub_diag.
Qed.

Lemma new_root_Lookup_index (R parent X Y sep key : Z) (max_size : nat) :
  InternalPage.Lookup_index
    (InternalPage.mk R parent max_size [(zero_key, X); (sep, Y)]) key
  = if key <? sep then 0%nat else 1%nat.
Proof.
  unfold InternalPage.Lookup_index. cbn -[comparator Z.ltb].
  destruct (comparator key sep <? 0) eqn:C.
  - apply comparator_lt in C. apply Z.ltb_lt in C. now rewrite C.
  - destruct (key <? sep) eqn:E; [|reflexivity].
    apply Z.ltb_lt, comparator_lt in E. congruence.
Qed.

Lemma InsertIntoParent_new_root (fuel : nat) (tr : t) (X Y sep : Z) (pX pY : Page) :
  store_ok tr ->
  pages tr !! X = Some pX -> Page_GetPageId pX = X ->
  Page_GetParentPageId pX = INVALID_PAGE_ID ->
  pages tr !! Y = Some pY -> Page_GetPageId pY = Y ->
  exists tr',
    InsertIntoParent internal_max_size (S fuel) X sep Y tr = Done tr' /\
    root_page_id_ tr' = next_page_id tr /\
    next_page_id tr' = next_page_id tr + 1 /\
    pages tr' !! next_page_id tr
    = Some (Internal (InternalPage.mk (next_page_id tr) INVALID_PAGE_ID
                        internal_max_size [(zero_key, X); (sep, Y)])) /\
    (forall i, i <> next_page_id tr ->
       strip <$> pages tr' !! i = strip <$> pages tr !! i).
Proof.
  intros Hok HX HidX HparX HY HidY.
  assert (HXR : X <> next_page_id tr).
  { intros Heq. destruct (Hok X) as [_ Hlt]; [rewrite HX; eauto|]. lia. }
  assert (HYR : Y <> next_page_id tr).
  { intros Heq. destruct (Hok Y) as [_ Hlt]; [rewrite HY; eauto|]. lia. }
  cbn [InsertIntoParent].
  rewrite (FetchPage_Some _ _ _ HX), bind_Done, (FetchPage_Some _ _ _ HY), bind_Done.
  rewrite HparX, Z.eqb_refl. unfold NewPage.
  unfold InternalPage.PopulateNewRoot, InternalPage.IsRootPage, InternalPage.Init.
  cbn [InternalPage.parent_page_id_ InternalPage.GetSize InternalPage.array length].
  rewrite Z.eqb_refl. cbn [negb orb Nat.eqb]. rewrite bind_Done.
  cbn [pages set_pages set_root UpdateRootPageId InternalPage.set_array
       InternalPage.GetPageId InternalPage.page_id_ InternalPage.parent_page_id_
       InternalPage.max_size_ root_page_id_ next_page_id header_record].
  rewrite HidX, HidY.
  set (R := next_page_id tr) in *.
  set (root := Internal (InternalPage.mk R INVALID_PAGE_ID internal_max_size
                           [(zero_key, X); (sep, Y)])).
  assert (H1X : <[R := root]> (pages tr) !! X = Some pX)
    by now rewrite lookup_insert_ne by congruence.
  rewrite (adopt_Done _ _ _ _ H1X), bind_Done.
  set (s2 := <[X := Page_SetParentPageId R pX]> (<[R := root]> (pages tr))).
  assert (H2Y : exists pY', s2 !! Y = Some pY').
  { unfold s2. rewrite lookup_insert. case_decide; [eauto|].
    rewrite lookup_insert_ne by congruence. eauto. }
  destruct H2Y as [pY' H2Y]. rewrite (adopt_Done _ _ _ _ H2Y), bind_Done.
  eexists. split; [reflexivity|].
  cbn [pages set_pages UpdateRootPageId set_root root_page_id_ next_page_id
       header_record InternalPage.set_array InternalPage.page_id_
       InternalPage.parent_page_id_ InternalPage.max_size_ InternalPage.array].
  split; [reflexivity|]. split; [reflexivity|]. split.
  - rewrite lookup_insert_ne by congruence. unfold s2.
    rewrite lookup_insert_ne by congruence. apply lookup_insert_eq.
  - intros i Hi. rewrite (strip_insert_adopted _ _ _ _ _ H2Y). unfold s2.
    rewrite (strip_insert_adopted _ _ _ _ _ H1X).
    now rewrite lookup_insert_ne by congruence.
Qed.

(** The set of page ids a descent below the frames must keep off. *)
Definition off_limits (frames : list frame) (next : Z) (i : Z) : Prop :=
  i ∈ ancestors frames \/ next <= i.

Lemma ctx_top_in_store (s : gmap Z Page) (key X : Z) (lo hi : option Z)
    (frames : list frame) :
  ctx s key X lo hi frames -> is_Some (s !! top X frames).
Proof.
  revert X lo hi. induction frames as [|f rest IH]; intros X lo hi Hc.
  - destruct (ctx_page _ _ _ _ _ _ Hc) as (pX & HX & _). unfold top. simpl. eauto.
  - rewrite top_cons. destruct Hc as [_ (n & _ & _ & _ & _ & _ & _ & _ & _ & _ & _ & _ & _ & Hrest)].
    eapply IH. exact Hrest.
Qed.

Lemma ctx_ancestor_in_store (s : gmap Z Page) (key X : Z) (lo hi : option Z)
    (frames : list frame) (A : Z) :
  ctx s key X lo hi frames -> A ∈ ancestors frames -> is_Some (s !! A).
Proof.
  revert X lo hi. induction frames as [|f rest IH]; intros X lo hi Hc HA; [inversion HA|].
  destruct Hc as [_ (m & Hm & _ & _ & _ & _ & _ & _ & _ & _ & _ & _ & _ & Hr)].
  apply elem_of_cons in HA as [->|HA]; [rewrite Hm; eauto|].
  eapply IH; eauto.
Qed.

(** InsertIntoParent links the new sibling [Y] of [X] under separator [sep]
    so that the descent from the root still reaches [key]. *)
Lemma InsertIntoParent_descends (key : Z) (v : RID) (frames : list frame) :
  forall (fuel : nat) (tr : t) (X Y sep : Z) (lo hi : option Z) (h : nat),
    (3 <= internal_max_size)%nat ->
    (length frames < fuel)%nat ->
    store_ok tr ->
    root_page_id_ tr = top X frames ->
    ctx (pages tr) key X lo hi frames ->
    (exists pY, pages tr !! Y = Some pY /\ Page_GetPageId pY = Y) ->
    Y ∉ ancestors frames ->
    above lo sep -> below hi sep ->
    (key < sep ->
     descends (pages tr) (off_limits frames (next_page_id tr)) key v h X) ->
    (sep <= key ->
     descends (pages tr) (off_limits frames (next_page_id tr)) key v h Y) ->
    exists tr' h',
      InsertIntoParent internal_max_size fuel X sep Y tr = Done tr' /\
      store_ok tr' /\ IsEmpty tr' = false /\
      (h' <= h + length frames + 1)%nat /\
      descends (pages tr') (fun i => next_page_id tr' <= i) key v h' (root_page_id_ tr').
Proof.
  induction frames as [|f rest IH];
    intros fuel tr X Y sep lo hi h Hmax Hfuel Hok Hroot Hctx HY HYanc Hlo Hhi HdX HdY.
  - (* [X] is the root: a new root is made *)
    destruct fuel as [|fuel]; [simpl in Hfuel; lia|].
    destruct Hctx as [(pX & HX & HidX & HparX) _]. destruct HY as (pY & HY & HidY).
    destruct (InsertIntoParent_new_root fuel tr X Y sep pX pY Hok HX HidX HparX HY HidY)
      as (tr' & Hrun & Hr' & Hn' & HR & Hstrip).
    assert (H0 : 0 <= next_page_id tr).
    { destruct (Hok X) as [? ?]; [rewrite HX; eauto|]. lia. }
    exists tr', (S h). split; [exact Hrun|]. split; [|split; [|split; [simpl; lia|]]].
    + intros i Hi. rewrite Hn'. destruct (decide (i = next_page_id tr)) as [->|Hne]; [lia|].
      destruct (Hok i); [|lia]. eapply strip_is_Some; [|exact Hi].
      symmetry. now apply Hstrip.
    + unfold IsEmpty. rewrite Hr'. apply Z.eqb_neq. unfold INVALID_PAGE_ID. lia.
    + rewrite Hr'.
      eapply (descends_internal _ _ _ _ h (next_page_id tr) _
                (if key <? sep then X else Y)); [rewrite Hn'; lia|exact HR|unfold InternalPage.GetSize; simpl; lia| |].
      * rewrite new_root_Lookup_index.
        apply ValueAt_Done; [unfold InternalPage.GetSize; simpl; lia|]. simpl.
        now destruct (key <? sep).
      * assert (Htr : forall i, ~ off_limits [] (next_page_id tr) i ->
                  strip <$> pages tr' !! i = strip <$> pages tr !! i).
        { intros i Hi. apply Hstrip. intros ->. apply Hi. right. lia. }
        eapply descends_weaken with (F := off_limits [] (next_page_id tr)).
        { intros i Hi. right. lia. }
        destruct (key <? sep) eqn:E; [apply Z.ltb_lt in E|apply Z.ltb_ge in E];
          (eapply descends_transfer; [exact Htr|]); auto.
  - (* [X] hangs below page [f_page f] *)
    destruct fuel as [|fuel]; [simpl in Hfuel; lia|].
    pose proof (ctx_page _ _ _ _ _ _ Hctx) as (pX & HX & HidX & HparX).
    destruct Hctx as [_ (n & Hn & Hnmax & Hsz & Hsort & Hkeys & Hslot & Hvi & Hcs & Hlo' & Hhi'
                         & Hch & Hnot & Hrest)].
    destruct HY as (pY & HY & HidY).
    set (P := f_page f) in *. set (i := f_slot f) in *.
    pose proof (ctx_page _ _ _ _ _ _ Hrest) as (pP & HpP & HidP & HparP).
    assert (HpPn : pP = Internal n) by congruence. subst pP.
    assert (HP0 : 0 <= P < next_page_id tr) by (apply Hok; rewrite Hn; eauto).
    assert (HYP : Y <> P) by (intros ->; apply HYanc; simpl; left).
    assert (Hi : (i < length (InternalPage.array n))%nat).
    { apply lookup_lt_Some in Hslot. now rewrite length_fmap in Hslot. }
    set (a' := take (i + 1) (InternalPage.array n) ++ (sep, Y)
               :: drop (i + 1) (InternalPage.array n)).
    set (n' := InternalPage.set_array a' n).
    destruct (inserted_child (InternalPage.array n) key sep X Y i Hslot)
      as (Hk' & Hc' & Hchild). fold a' in Hk', Hc', Hchild.
    destruct (insert_separator_sound (InternalPage.array n).*1 lo hi (f_lo f) (f_hi f)
                sep i Hsort Hkeys) as [Hsort' Hkeys']; auto;
      [now rewrite length_fmap|]. rewrite <- Hk' in Hsort', Hkeys'.
    pose proof (child_slot_insert _ key sep i Hcs) as Hcs'. rewrite <- Hk' in Hcs'.
    set (c' := if key <? sep then i else (i + 1)%nat) in *.
    set (X' := if key <? sep then X else Y) in *.
    assert (Hlen' : length a' = S (length (InternalPage.array n))).
    { unfold a'. rewrite length_app, length_take, length_cons, length_drop. lia. }
    cbn [InsertIntoParent].
    rewrite (FetchPage_Some _ _ _ HX), bind_Done, (FetchPage_Some _ _ _ HY), bind_Done.
    rewrite HparX. cbn [parent_of]. fold P.
    destruct (P =? INVALID_PAGE_ID) eqn:EP;
      [apply Z.eqb_eq in EP; unfold INVALID_PAGE_ID in EP; lia|clear EP].
    rewrite (fetch_internal_Some _ _ _ Hn), bind_Done, HidX, HidY.
    rewrite (InsertNodeAfter_Done n X sep Y i Hvi), bind_Done. fold a' n'.
    set (tr1 := set_pages (<[P := Internal n']> (pages tr)) tr).
    assert (Hd' : forall s', (forall j, ~ off_limits (f :: rest) (next_page_id tr) j ->
                     strip <$> s' !! j = strip <$> pages tr !! j) ->
                  descends s' (off_limits (f :: rest) (next_page_id tr)) key v h X').
    { intros s' Hs'. unfold X'.
      destruct (key <? sep) eqn:E; [apply Z.ltb_lt in E|apply Z.ltb_ge in E];
        (eapply descends_transfer; [exact Hs'|]); auto. }
    destruct (InternalPage.GetMaxSize n' <? S (InternalPage.GetSize n))%nat eqn:Eov.
    + (* the parent overflows and is split *)
      apply Nat.ltb_lt in Eov.
      assert (Hn'max : InternalPage.GetMaxSize n' = internal_max_size) by exact Hnmax.
      assert (Hn'sz : InternalPage.GetSize n' = (InternalPage.GetMaxSize n' + 1)%nat).
      { unfold InternalPage.GetSize in *. simpl. rewrite Hlen'. rewrite Hn'max in *. lia. }
      assert (Hok1 : store_ok tr1).
      { intros j Hj. apply Hok. unfold tr1 in Hj. simpl in Hj.
        rewrite lookup_insert in Hj. case_decide; [subst; rewrite Hn; eauto|assumption]. }
      assert (HP1 : pages tr1 !! P = Some (Internal n')) by apply lookup_insert_eq.
      assert (Hch' : forall c, c ∈ a'.*2 ->
                is_Some (pages tr !! c) /\ c ∉ ancestors (f :: rest)).
      { intros c Hc. rewrite Hc' in Hc. apply elem_of_app in Hc as [Hc|Hc].
        - apply Hch. eapply subseteq_take. exact Hc.
        - apply elem_of_cons in Hc as [->|Hc]; [split; [rewrite HY; eauto|assumption]|].
          apply Hch. eapply subseteq_drop. exact Hc. }
      destruct (Split_internal_spec tr1 P n' Hok1 HP1 Hn'sz)
        as (tr2 & Hsplit & Hnext2 & Hroot2 & _ & H2P & H2N & Hstrip2 & Hother2).
      { intros c Hc. destruct (Hch' c Hc) as [[p Hp] Hnanc]. split.
        - unfold tr1. simpl. rewrite lookup_insert. case_decide; eauto.
        - intros ->. apply Hnanc. simpl. left. }
      rewrite Hsplit, bind_Done. change (next_page_id tr1) with (next_page_id tr) in *.
      set (N := next_page_id tr) in *.
      set (half := InternalPage.GetMinSize n') in *.
      pose proof (min_size_of_bounds internal_max_size) as Hhalf.
      assert (Hhalf' : half = min_size_of internal_max_size)
        by (unfold half, InternalPage.GetMinSize; simpl; now rewrite Hnmax).
      rewrite (fetch_internal_Some _ _ _ H2N), bind_Done.
      assert (Hlen2 : length a' = (internal_max_size + 1)%nat).
      { unfold InternalPage.GetSize in Hsz, Eov. rewrite Hn'max in Eov. lia. }
      destruct (lookup_lt_is_Some_2 a'.*1 half) as [sep' Hsep'];
        [rewrite length_fmap; lia|].
      rewrite (KeyAt_Done _ 0 sep')
        by (simpl; rewrite fmap_drop, lookup_drop, Nat.add_0_r; exact Hsep').
      rewrite bind_Done.
      assert (HNP : N <> P) by lia.
      (* what the split leaves of the store *)
      assert (Hstrip : forall j, j <> P -> j <> N ->
                strip <$> pages tr2 !! j = strip <$> pages tr !! j).
      { intros j HjP HjN. rewrite Hstrip2 by assumption. unfold tr1. simpl.
        now rewrite lookup_insert_ne by congruence. }
      assert (Hother : forall j, j <> P -> j <> N -> j ∉ a'.*2 ->
                pages tr2 !! j = pages tr !! j).
      { intros j HjP HjN Hj. rewrite Hother2 by assumption. unfold tr1. simpl.
        now rewrite lookup_insert_ne by congruence. }
      assert (Hdom : forall j, is_Some (pages tr !! j) -> is_Some (pages tr2 !! j)).
      { intros j Hj. destruct (decide (j = P)) as [->|HjP]; [rewrite H2P; eauto|].
        destruct (decide (j = N)) as [->|HjN]; [rewrite H2N; eauto|].
        eapply strip_is_Some; [|exact Hj]. now apply Hstrip. }
      enough (Hgoal : exists tr' h',
                InsertIntoParent internal_max_size fuel P sep' N tr2 = Done tr' /\
                store_ok tr' /\ IsEmpty tr' = false /\
                (h' <= S h + length rest + 1)%nat /\
                descends (pages tr') (fun i => next_page_id tr' <= i) key v h'
                  (root_page_id_ tr')).
      { destruct Hgoal as (tr' & h' & Hrun & Hok' & Hne' & Hh' & Hdd).
        exists tr', h'. repeat (split; [assumption|]). split; [simpl; lia|assumption]. }
      apply (IH fuel tr2 P N sep' (f_lo f) (f_hi f) (S h)).
      * exact Hmax.
      * simpl in Hfuel. lia.
      * intros j Hj. rewrite Hnext2.
        destruct (decide (j = N)) as [->|HjN]; [unfold N; lia|].
        destruct (decide (j = P)) as [->|HjP]; [lia|].
        destruct (Hok j); [|lia]. eapply strip_is_Some; [|exact Hj].
        symmetry. now apply Hstrip.
      * rewrite Hroot2. unfold tr1. simpl. rewrite Hroot. apply top_cons.
      * eapply ctx_transfer; [exact Hrest| |exact Hdom|].
        -- intros A HA. apply Hother.
           ++ intros ->. contradiction.
           ++ intros ->. destruct (ctx_top_in_store _ _ _ _ _ _ Hrest) as [? ?].
              assert (HAin : is_Some (pages tr !! N))
             by (eapply ctx_ancestor_in_store; [exact Hrest|exact HA]).
              destruct (Hok N HAin). unfold N in *. lia.
           ++ intros Hin. destruct (Hch' A Hin) as [_ Hnanc]. apply Hnanc.
              simpl. now right.
        -- eexists. split; [exact H2P|]. split; [exact HidP|exact HparP].
      * eexists. split; [exact H2N|reflexivity].
      * intros HN. assert (HNin : is_Some (pages tr !! N))
             by (eapply ctx_ancestor_in_store; [exact Hrest|exact HN]).
        destruct (Hok N HNin). unfold N in *. lia.
      * apply (Hkeys' half sep' Hsep'). lia.
      * apply (Hkeys' half sep' Hsep'). lia.
      * (* [key] stays in the lower half *)
        intros Hks.
        assert (Hc'lt : (c' < half)%nat).
        { destruct (Nat.lt_ge_cases c' half) as [?|Hge]; [assumption|].
          destruct Hcs' as (_ & Hb' & _). pose proof (Hb' half sep' Hsep'). lia. }
        eapply (descends_internal _ _ _ _ h P _ X'); [| exact H2P | | |].
        -- intros [Hin|Hge]; [contradiction|]. rewrite Hnext2 in Hge. lia.
        -- unfold InternalPage.GetSize. simpl. rewrite length_take. lia.
        -- rewrite (Lookup_index_child_slot _ key c').
           ++ apply ValueAt_Done;
                [unfold InternalPage.GetSize; simpl; rewrite length_take; lia|].
              simpl. rewrite fmap_take, lookup_take_lt by lia.
              exact Hchild.
           ++ simpl. rewrite fmap_take. now apply inner_sorted_take.
           ++ simpl. rewrite fmap_take. now apply child_slot_take.
        -- eapply descends_weaken with (F := off_limits (f :: rest) (next_page_id tr)).
           { intros j [Hj|Hj]; [left; simpl; now right|right; rewrite Hnext2 in Hj; lia]. }
           apply Hd'. intros j Hj. apply Hstrip.
           ++ intros ->. apply Hj. left. simpl. left.
           ++ intros ->. apply Hj. right. unfold N. lia.
      * (* [key] moves to the new page *)
        intros Hks.
        assert (Hc'ge : (half <= c')%nat).
        { destruct (Nat.lt_ge_cases c' half) as [Hlt|?]; [|assumption].
          destruct Hcs' as (_ & _ & Ha'). pose proof (Ha' half sep' Hsep' Hlt). lia. }
        eapply (descends_internal _ _ _ _ h N _ X'); [| exact H2N | | |].
        -- intros [Hin|Hge]; [|rewrite Hnext2 in Hge; unfold N in Hge; lia].
           assert (HNin : is_Some (pages tr !! N))
             by (eapply ctx_ancestor_in_store; [exact Hrest|exact Hin]).
           destruct (Hok N HNin). unfold N in *. lia.
        -- unfold InternalPage.GetSize. simpl. rewrite length_drop. lia.
        -- rewrite (Lookup_index_child_slot _ key (c' - half)).
           ++ apply ValueAt_Done;
                [unfold InternalPage.GetSize; simpl; rewrite length_drop; lia|].
              simpl. rewrite fmap_drop, lookup_drop.
              replace (half + (c' - half))%nat with c' by lia. exact Hchild.
           ++ simpl. rewrite fmap_drop. now apply inner_sorted_drop.
           ++ simpl. rewrite fmap_drop. now apply child_slot_drop.
        -- eapply descends_weaken with (F := off_limits (f :: rest) (next_page_id tr)).
           { intros j [Hj|Hj]; [left; simpl; now right|right; rewrite Hnext2 in Hj; lia]. }
           apply Hd'. intros j Hj. apply Hstrip.
           ++ intros ->. apply Hj. left. simpl. left.
           ++ intros ->. apply Hj. right. unfold N. lia.
    + (* the parent has room *)
      apply Nat.ltb_ge in Eov.
      assert (Hctx1 : ctx (pages tr1) key P (f_lo f) (f_hi f) rest).
      { eapply ctx_transfer; [exact Hrest| | |].
        - intros A HA. unfold tr1. simpl. apply lookup_insert_ne. intros ->. contradiction.
        - intros j Hj. unfold tr1. simpl. rewrite lookup_insert. case_decide; eauto.
        - eexists. split; [apply lookup_insert_eq|]. split; [exact HidP|exact HparP]. }
      exists tr1, (S h + length rest)%nat. split; [reflexivity|].
      split; [|split; [|split; [simpl; lia|]]].
      * intros j Hj. apply Hok. unfold tr1 in Hj. simpl in Hj.
        rewrite lookup_insert in Hj. case_decide; [subst; rewrite Hn; eauto|assumption].
      * unfold IsEmpty. change (root_page_id_ tr1) with (root_page_id_ tr).
        rewrite Hroot. apply Z.eqb_neq.
        destruct (ctx_top_in_store _ _ _ _ _ _ Hrest) as [pT HT].
        rewrite top_cons. fold P. intros Heq.
        destruct (Hok (top P rest)); [rewrite HT; eauto|].
        rewrite Heq in *. unfold INVALID_PAGE_ID in *. lia.
      * change (root_page_id_ tr1) with (root_page_id_ tr). rewrite Hroot, top_cons.
        change (next_page_id tr1) with (next_page_id tr).
        apply (climb _ _ _ _ _ _ _ _ _ Hctx1).
        { intros A HA Hge.
          assert (HAin : is_Some (pages tr !! A))
             by (eapply ctx_ancestor_in_store; [exact Hrest|exact HA]).
          destruct (Hok A HAin). lia. }
        eapply (descends_internal _ _ _ _ h P n' X'); [| apply lookup_insert_eq | | |].
        -- intros [Hin|Hge]; [contradiction|]. lia.
        -- unfold InternalPage.GetSize. simpl. rewrite Hlen'. lia.
        -- rewrite (Lookup_index_child_slot _ key c'); [|exact Hsort'|exact Hcs'].
           apply ValueAt_Done; [unfold InternalPage.GetSize; simpl; rewrite Hlen'; lia|].
           exact Hchild.
        -- eapply descends_weaken with (F := off_limits (f :: rest) (next_page_id tr)).
           { intros j [Hj|Hj]; [left; simpl; now right|now right]. }
           apply Hd'. intros j Hj. unfold tr1. simpl.
           rewrite lookup_insert_ne; [reflexivity|].
           intros Heq. apply Hj. left. simpl. rewrite <- Heq. left.
Qed.


(** *** Splitting a leaf *)

Definition split_left (l : LeafPage.t) (N : Z) : LeafPage.t :=
  LeafPage.mk (LeafPage.page_id_ l) (LeafPage.parent_page_id_ l) (LeafPage.max_size_ l) N
    (take (LeafPage.GetSize l - LeafPage.GetMinSize l) (LeafPage.array l)).

Definition split_right (l : LeafPage.t) (N : Z) : LeafPage.t :=
  LeafPage.mk N (LeafPage.parent_page_id_ l) leaf_max_size (LeafPage.next_page_id_ l)
    (drop (LeafPage.GetSize l - LeafPage.GetMinSize l) (LeafPage.array l)).

Definition after_split (tr : t) (L : Z) (l : LeafPage.t) : t :=
  mk (root_page_id_ tr)
     (<[L := Leaf (split_left l (next_page_id tr))]>
        (<[next_page_id tr := Leaf (split_right l (next_page_id tr))]> (pages tr)))
     (next_page_id tr + 1) (header_record tr).

Lemma Split_leaf_spec (tr : t) (L : Z) (l : LeafPage.t) :
  pages tr !! L = Some (Leaf l) ->
  pages tr !! next_page_id tr = None ->
  LeafPage.GetSize l = (LeafPage.GetMaxSize l + 1)%nat ->
  Split_leaf leaf_max_size L tr = Done (next_page_id tr, after_split tr L l).
Proof.
  intros HL HN Hsz.
  assert (HLN : L <> next_page_id tr) by (intros ->; congruence).
  unfold Split_leaf, NewPage. cbn [pages].
  rewrite (fetch_leaf_Some _ _ _ HL), bind_Done.
  unfold Leaf_MoveHalfTo.
  rewrite (fetch_leaf_Some _ L l), bind_Done
    by (now rewrite lookup_insert_ne by congruence).
  rewrite (fetch_leaf_Some _ (next_page_id tr) _ (lookup_insert_eq _ _ _)), bind_Done.
  unfold LeafPage.MoveHalfTo. rewrite Hsz, Nat.eqb_refl.
  cbn [negb orb LeafPage.GetSize LeafPage.Init LeafPage.array length Nat.eqb].
  rewrite bind_Done. cbn [set_pages root_page_id_ pages next_page_id header_record].
  rewrite insert_insert_eq, bind_Done.
  unfold after_split, split_left, split_right. rewrite Hsz. reflexivity.
Qed.


(** The leaf after the new entry went in. *)
Definition with_entry (l : LeafPage.t) (key : Z) (value : RID) : LeafPage.t :=
  LeafPage.set_array (inserted_array l key value) l.

Definition put_leaf (tr : t) (L : Z) (l : LeafPage.t) : t :=
  set_pages (<[L := Leaf l]> (pages tr)) tr.

Lemma inserted_array_length (l : LeafPage.t) (key : Z) (value : RID) :
  length (inserted_array l key value) = S (LeafPage.GetSize l).
Proof.
  unfold inserted_array, LeafPage.GetSize in *.
  rewrite length_app, length_take. simpl. rewrite length_drop. lia.
Qed.

Lemma leaf_KeyAt_Done (l : LeafPage.t) (i : nat) (k : Z) :
  (LeafPage.array l).*1 !! i = Some k -> LeafPage.KeyAt l i = Done k.
Proof.
  intros H. unfold LeafPage.KeyAt. rewrite list_lookup_fmap in H.
  destruct (LeafPage.array l !! i) as [[k' v]|]; simpl in H; [|discriminate].
  now inversion H.
Qed.

Lemma InsertIntoLeaf_room (fuel : nat) (key : Z) (value : RID) (tr : t) (L : Z)
    (l : LeafPage.t) :
  FindLeafPage fuel tr key false = Done L ->
  pages tr !! L = Some (Leaf l) ->
  LeafPage.Lookup l key = None ->
  (LeafPage.GetSize l < LeafPage.GetMaxSize l)%nat ->
  InsertIntoLeaf leaf_max_size internal_max_size fuel key value tr
  = Done (true, put_leaf tr L (with_entry l key value)).
Proof.
  intros Hfind HL Habs Hsz. unfold InsertIntoLeaf.
  rewrite Hfind, bind_Done, (fetch_leaf_Some _ _ _ HL), bind_Done.
  rewrite Insert_absent by (assumption || lia). rewrite bind_Done.
  cbn [LeafPage.GetMaxSize LeafPage.set_array LeafPage.max_size_].
  replace (LeafPage.max_size_ l <? S (LeafPage.GetSize l))%nat with false
    by (symmetry; apply Nat.ltb_ge; unfold LeafPage.GetMaxSize in Hsz; lia).
  replace (S (LeafPage.GetSize l) =? LeafPage.GetSize l)%nat with false
    by (symmetry; apply Nat.eqb_neq; lia).
  reflexivity.
Qed.

Lemma InsertIntoLeaf_overflow (fuel : nat) (key : Z) (value : RID) (tr : t) (L : Z)
    (l : LeafPage.t) (sep : Z) :
  FindLeafPage fuel tr key false = Done L ->
  pages tr !! L = Some (Leaf l) ->
  pages tr !! next_page_id tr = None ->
  LeafPage.Lookup l key = None ->
  LeafPage.GetSize l = LeafPage.GetMaxSize l ->
  (LeafPage.array (split_right (with_entry l key value) (next_page_id tr))).*1 !! 0%nat
  = Some sep ->
  InsertIntoLeaf leaf_max_size internal_max_size fuel key value tr
  = (tr' ← InsertIntoParent internal_max_size fuel L sep (next_page_id tr)
             (after_split (put_leaf tr L (with_entry l key value)) L
                (with_entry l key value));
     Done (true, tr')).
Proof.
  intros Hfind HL HN Habs Hsz Hsep. unfold InsertIntoLeaf.
  rewrite Hfind, bind_Done, (fetch_leaf_Some _ _ _ HL), bind_Done.
  rewrite Insert_absent by (assumption || lia). rewrite bind_Done.
  fold (with_entry l key value). fold (put_leaf tr L (with_entry l key value)).
  cbn [LeafPage.GetMaxSize with_entry LeafPage.set_array LeafPage.max_size_].
  replace (LeafPage.max_size_ l <? S (LeafPage.GetSize l))%nat with true
    by (symmetry; apply Nat.ltb_lt; unfold LeafPage.GetMaxSize in Hsz; lia).
  replace (S (LeafPage.GetSize l) =? LeafPage.GetSize l)%nat with false
    by (symmetry; apply Nat.eqb_neq; lia).
  fold (with_entry l key value).
  assert (Hlen : LeafPage.GetSize (with_entry l key value)
                 = (LeafPage.GetMaxSize (with_entry l key value) + 1)%nat).
  { unfold with_entry at 1. unfold LeafPage.GetSize at 1. cbn [LeafPage.array LeafPage.set_array].
    unfold inserted_array. rewrite length_app, length_take. simpl. rewrite length_drop.
    unfold LeafPage.GetMaxSize, LeafPage.GetSize in *. simpl. lia. }
  rewrite (Split_leaf_spec (put_leaf tr L (with_entry l key value)) L
             (with_entry l key value));
    [|apply lookup_insert_eq
     |unfold put_leaf; cbn [pages set_pages next_page_id];
      rewrite lookup_insert_ne by (intros ->; congruence); exact HN
     |exact Hlen].
  rewrite bind_Done.
  change (next_page_id (put_leaf tr L (with_entry l key value))) with (next_page_id tr).
  rewrite (fetch_leaf_Some _ (next_page_id tr)
             (split_right (with_entry l key value) (next_page_id tr))), bind_Done.
  - rewrite (leaf_KeyAt_Done _ _ _ Hsep), bind_Done. reflexivity.
  - unfold after_split. cbn [pages]. rewrite lookup_insert_ne by (intros ->; congruence).
    apply lookup_insert_eq.
Qed.



Lemma after_split_put_leaf (tr : t) (L : Z) (l l' : LeafPage.t) :
  L <> next_page_id tr ->
  after_split (put_leaf tr L l) L l'
  = mk (root_page_id_ tr)
       (<[L := Leaf (split_left l' (next_page_id tr))]>
          (<[next_page_id tr := Leaf (split_right l' (next_page_id tr))]> (pages tr)))
       (next_page_id tr + 1) (header_record tr).
Proof.
  intros Hne. unfold after_split, put_leaf.
  cbn [set_pages root_page_id_ pages next_page_id header_record].
  f_equal. rewrite (insert_insert_ne _ (next_page_id tr) L) by congruence.
  now rewrite insert_insert_eq.
Qed.

Lemma split_sizes (max_size : nat) :
  (1 <= max_size)%nat ->
  (1 <= min_size_of max_size <= max_size)%nat /\
  (1 <= max_size + 1 - min_size_of max_size)%nat.
Proof.
  intros H. pose proof (min_size_of_bounds max_size). lia.
Qed.




(** *** Well-formed trees *)

(** The subtree under page [id] is a B+ tree of height [h] whose keys lie
    between [lo] and [hi], and every page knows its parent. *)
Inductive wf (s : gmap Z Page) : Z -> option Z -> option Z -> nat -> Z -> Prop :=
| wf_leaf parent lo hi id l :
    s !! id = Some (Leaf l) ->
    LeafPage.page_id_ l = id ->
    LeafPage.parent_page_id_ l = parent ->
    LeafPage.max_size_ l = leaf_max_size ->
    (LeafPage.GetSize l <= leaf_max_size)%nat ->
    StronglySorted Z.lt (LeafPage.array l).*1 ->
    (forall x, x ∈ (LeafPage.array l).*1 -> above_eq lo x /\ below hi x) ->
    wf s parent lo hi 0 id
| wf_internal parent lo hi h id n :
    s !! id = Some (Internal n) ->
    InternalPage.page_id_ n = id ->
    InternalPage.parent_page_id_ n = parent ->
    InternalPage.max_size_ n = internal_max_size ->
    (2 <= InternalPage.GetSize n <= internal_max_size)%nat ->
    inner_sorted (InternalPage.array n).*1 ->
    (forall j x, (InternalPage.array n).*1 !! j = Some x -> (1 <= j)%nat ->
       above lo x /\ below hi x) ->
    NoDup (InternalPage.array n).*2 ->
    (forall j c, (InternalPage.array n).*2 !! j = Some c ->
       wf s id (slot_lo lo (InternalPage.array n).*1 j)
          (slot_hi hi (InternalPage.array n).*1 j) h c) ->
    wf s parent lo hi (S h) id.

Lemma wf_page (s : gmap Z Page) (parent : Z) (lo hi : option Z) (h : nat) (id : Z) :
  wf s parent lo hi h id ->
  exists p, s !! id = Some p /\ Page_GetPageId p = id /\ Page_GetParentPageId p = parent.
Proof. intros H. inversion H; subst; eexists; (split; [eassumption|]); now split. Qed.

Lemma wf_height (s : gmap Z Page) (parent : Z) (lo hi : option Z) (h : nat) (id : Z) :
  wf s parent lo hi h id ->
  forall parent' lo' hi' h', wf s parent' lo' hi' h' id -> h = h'.
Proof.
  induction 1 as [parent lo hi id l Hl _ _ _ _ _ _
                 |parent lo hi h id n Hn _ _ _ Hsz _ _ _ Hch IH];
    intros parent' lo' hi' h' H'; inversion H' as [? ? ? ? l' Hl'|? ? ? h0 ? n' Hn' _ _ _ _ _ _ _ Hch'];
    subst; try congruence.
  rewrite Hn in Hn'. injection Hn' as <-. f_equal.
  destruct (lookup_lt_is_Some_2 (InternalPage.array n).*2 0%nat) as [c Hc].
  { rewrite length_fmap. unfold InternalPage.GetSize in Hsz. lia. }
  exact (IH _ _ Hc _ _ _ _ (Hch' _ _ Hc)).
Qed.

Lemma value_index_NoDup (a : list (Z * Z)) (value : Z) (base i : nat) :
  NoDup a.*2 -> a.*2 !! i = Some value ->
  InternalPage.value_index a value base = Some (base + i)%nat.
Proof.
  revert base i. induction a as [|[k c] a IH]; intros base i Hnd Hi; [discriminate|].
  simpl in *. apply NoDup_cons in Hnd as [Hnin Hnd].
  destruct i as [|i]; simpl in Hi.
  - injection Hi as ->. rewrite Z.eqb_refl. f_equal. lia.
  - destruct (Z.eqb_spec c value) as [->|Hne].
    + exfalso. apply Hnin. eapply list_elem_of_lookup_2. exact Hi.
    + rewrite (IH (S base) i Hnd Hi). f_equal. lia.
Qed.


(** FindLeafPage follows the frames from the root down to the page they
    end in. *)
Lemma ctx_FindLeafPage (s : gmap Z Page) (key : Z) (frames : list frame) :
  forall (X : Z) (lo hi : option Z) (fuel : nat) (r : Z),
    ctx s key X lo hi frames ->
    (length frames <= fuel)%nat ->
    FindLeafPage_from (fuel - length frames) s key false X = Done r ->
    FindLeafPage_from fuel s key false (top X frames) = Done r.
Proof.
  induction frames as [|f rest IH]; intros X lo hi fuel r Hctx Hfuel Hrun.
  - simpl in *. now rewrite Nat.sub_0_r in Hrun.
  - rewrite top_cons. simpl in Hctx, Hfuel.
    destruct Hctx as (_ & n & Hn & _ & Hsz & Hsort & _ & Hval & _ & Hslot & _ & _ & _ & _ & Hrest).
    apply (IH (f_page f) (f_lo f) (f_hi f) fuel r Hrest); [lia|].
    replace (fuel - length rest)%nat with (S (fuel - length (f :: rest)))%nat
      by (simpl; lia).
    cbn [FindLeafPage_from]. rewrite (FetchPage_Some _ _ _ Hn), bind_Done.
    unfold InternalPage.Lookup.
    destruct (_ <=? 1)%nat eqn:E; [apply Nat.leb_le in E; lia|].
    rewrite (Lookup_index_child_slot _ _ _ Hsort Hslot), (ValueAt_Done n _ _ (proj1 Hsz) Hval), bind_Done.
    exact Hrun.
Qed.

Definition taller (s : gmap Z Page) (h : nat) (A : Z) : Prop :=
  exists parent lo hi h', wf s parent lo hi h' A /\ (h < h')%nat.

(** The way down from a well-formed page to the leaf for [key]. *)
Lemma wf_path (s : gmap Z Page) (key : Z) (h : nat) :
  forall (X : Z) (lo hi : option Z) (frames : list frame),
    wf s (parent_of frames) lo hi h X ->
    ctx s key X lo hi frames ->
    (forall A, A ∈ ancestors frames -> taller s h A) ->
    exists frames' L lo' hi',
      ctx s key L lo' hi' frames' /\
      top L frames' = top X frames /\
      length frames' = (length frames + h)%nat /\
      wf s (parent_of frames') lo' hi' 0 L /\
      L ∉ ancestors frames'.
Proof.
  induction h as [|h IH]; intros X lo hi frames Hwf Hctx Htall.
  - exists frames, X, lo, hi. repeat split; try assumption; [lia|].
    intros Hin. destruct (Htall X Hin) as (p' & lo' & hi' & h' & Hwf' & Hlt).
    pose proof (wf_height _ _ _ _ _ _ Hwf _ _ _ _ Hwf'). lia.
  - inversion Hwf as [|? ? ? ? ? n Hn Hid Hpar Hmax Hsz Hsort Hkeys Hnd Hch]; subst.
    set (i := InternalPage.Lookup_index n key).
    assert (Hslot : child_slot (InternalPage.array n).*1 key i).
    { apply Lookup_index_spec; [assumption|lia]. }
    destruct (lookup_lt_is_Some_2 (InternalPage.array n).*2 i) as [c Hc].
    { destruct Hslot as [Hlt _]. now rewrite length_fmap in *. }
    set (f := mkFrame (InternalPage.page_id_ n) i lo hi).
    assert (Hnot : InternalPage.page_id_ n ∉ ancestors frames).
    { intros Hin. destruct (Htall _ Hin) as (p' & lo' & hi' & h' & Hwf' & Hlt).
      pose proof (wf_height _ _ _ _ _ _ Hwf _ _ _ _ Hwf'). lia. }
    assert (Htall' : forall A, A ∈ ancestors (f :: frames) -> taller s h A).
    { intros A HA. simpl in HA. apply elem_of_cons in HA as [->|HA].
      - exists (parent_of frames), lo, hi, (S h). split; [exact Hwf|lia].
      - destruct (Htall A HA) as (p' & lo' & hi' & h' & Hwf' & Hlt).
        exists p', lo', hi', h'. split; [assumption|lia]. }
    destruct (IH c (slot_lo lo (InternalPage.array n).*1 i)
                (slot_hi hi (InternalPage.array n).*1 i) (f :: frames))
      as (frames' & L & lo' & hi' & Hctx' & Htop & Hlen & Hwf' & HL).
    + exact (Hch _ _ Hc).
    + split; [exact (wf_page _ _ _ _ _ _ (Hch _ _ Hc))|].
      exists n. cbn [f_page f_slot f_lo f_hi f].
      split; [exact Hn|]. split; [exact Hmax|]. split; [exact Hsz|].
      split; [exact Hsort|]. split; [exact Hkeys|]. split; [exact Hc|].
      split; [exact (value_index_NoDup _ _ 0 _ Hnd Hc)|]. split; [exact Hslot|].
      split; [reflexivity|]. split; [reflexivity|]. split; [|split; [exact Hnot|exact Hctx]].
      intros c' Hc'. apply list_elem_of_lookup in Hc' as [j Hj].
      pose proof (Hch _ _ Hj) as Hwfc. split.
      * destruct (wf_page _ _ _ _ _ _ Hwfc) as (p & Hp & _). eauto.
      * intros Hin. destruct (Htall' _ Hin) as (p' & lo' & hi' & h' & Hwf' & Hlt).
        pose proof (wf_height _ _ _ _ _ _ Hwfc _ _ _ _ Hwf'). lia.
    + exact Htall'.
    + exists frames', L, lo', hi'. split; [exact Hctx'|].
      split; [rewrite Htop; apply top_cons|]. split; [simpl in Hlen; lia|].
      split; assumption.
Qed.


Lemma Lookup_of_entry (p : LeafPage.t) (key : Z) (v : RID) (i : nat) :
  StronglySorted Z.lt (LeafPage.array p).*1 ->
  LeafPage.array p !! i = Some (key, v) ->
  LeafPage.Lookup p key = Some v.
Proof.
  intros Hs Hi. apply Lookup_Some. now rewrite (KeyIndex_present p key i v).
Qed.

Lemma inserted_array_entry (l : LeafPage.t) (key : Z) (v : RID) :
  StronglySorted Z.lt (LeafPage.array l).*1 ->
  inserted_array l key v !! LeafPage.KeyIndex l key = Some (key, v).
Proof.
  intros Hs. destruct (KeyIndex_spec l key Hs) as [Hle _].
  rewrite length_fmap in Hle. unfold inserted_array.
  apply list_lookup_middle. now rewrite length_take_le.
Qed.

Lemma inserted_array_keys (l : LeafPage.t) (key : Z) (v : RID) (x : Z) :
  x ∈ (inserted_array l key v).*1 -> x = key \/ x ∈ (LeafPage.array l).*1.
Proof.
  unfold inserted_array. rewrite fmap_app, fmap_cons, elem_of_app, elem_of_cons.
  rewrite fmap_take, fmap_drop. simpl. intros [H|[H|H]]; [right|now left|right].
  - eapply subseteq_take. exact H.
  - eapply subseteq_drop. exact H.
Qed.

(** Where an entry of a sorted array ends up when the array is cut at [m]. *)
Lemma split_sides (a : list (Z * RID)) (key : Z) (v : RID) (r m : nat) (sep : Z) :
  StronglySorted Z.lt a.*1 ->
  a !! r = Some (key, v) -> a.*1 !! m = Some sep ->
  (key < sep -> take m a !! r = Some (key, v)) /\
  (sep <= key -> drop m a !! (r - m)%nat = Some (key, v)).
Proof.
  intros Hs Hr Hm.
  assert (Hr' : a.*1 !! r = Some key) by (now rewrite list_lookup_fmap, Hr).
  split; intros Hcmp.
  - rewrite lookup_take_lt; [assumption|].
    destruct (decide (r < m)%nat) as [|Hge]; [assumption|exfalso].
    destruct (decide (r = m)) as [->|Hne]; [rewrite Hm in Hr'; injection Hr' as ->; lia|].
    pose proof (sorted_lookup_lt _ m r _ _ Hs Hm Hr'). lia.
  - rewrite lookup_drop.
    destruct (decide (m <= r)%nat) as [Hle|Hlt].
    + now replace (m + (r - m))%nat with r by lia.
    + pose proof (sorted_lookup_lt _ r m _ _ Hs Hr' Hm). lia.
Qed.

Lemma FindLeafPage_leaf (fuel : nat) (tr : t) (key : Z) (frames : list frame) (L : Z)
    (lo hi : option Z) (l : LeafPage.t) :
  IsEmpty tr = false ->
  root_page_id_ tr = top L frames ->
  ctx (pages tr) key L lo hi frames ->
  pages tr !! L = Some (Leaf l) ->
  (length frames < fuel)%nat ->
  FindLeafPage fuel tr key false = Done L.
Proof.
  intros Hne Hroot Hctx HL Hfuel. unfold FindLeafPage. rewrite Hne, Hroot.
  apply (ctx_FindLeafPage _ _ _ _ _ _ _ _ Hctx); [lia|].
  destruct (fuel - length frames)%nat as [|k] eqn:E; [lia|].
  cbn [FindLeafPage_from]. now rewrite (FetchPage_Some _ _ _ HL), bind_Done.
Qed.


(** Inserting an absent key through the leaf at the end of the frames. *)
Lemma InsertIntoLeaf_descends (key : Z) (v : RID) (tr : t) (frames : list frame) (L : Z)
    (lo hi : option Z) (fuel : nat) :
  (1 <= leaf_max_size)%nat -> (3 <= internal_max_size)%nat ->
  store_ok tr -> IsEmpty tr = false ->
  root_page_id_ tr = top L frames ->
  ctx (pages tr) key L lo hi frames ->
  wf (pages tr) (parent_of frames) lo hi 0 L ->
  L ∉ ancestors frames ->
  (forall l, pages tr !! L = Some (Leaf l) -> LeafPage.Lookup l key = None) ->
  (length frames < fuel)%nat ->
  exists tr' h',
    InsertIntoLeaf leaf_max_size internal_max_size fuel key v tr = Done (true, tr') /\
    store_ok tr' /\ IsEmpty tr' = false /\
    (h' <= length frames + 1)%nat /\
    descends (pages tr') (fun i => next_page_id tr' <= i) key v h' (root_page_id_ tr').
Proof.
  intros Hleaf Hint Hok Hne Hroot Hctx Hwf HLanc Habs0 Hfuel.
  inversion Hwf as [? ? ? ? l HL Hid Hpar Hmax Hsz Hsort Hkeys|]; subst.
  pose proof (Habs0 l HL) as Habs. clear Habs0.
  set (L := LeafPage.page_id_ l) in *.
  pose proof (FindLeafPage_leaf fuel tr key frames L lo hi l Hne Hroot Hctx HL Hfuel) as Hfind.
  set (N := next_page_id tr).
  assert (HLr : 0 <= L < N) by (apply Hok; rewrite HL; eauto).
  assert (Hanc : forall A, A ∈ ancestors frames -> 0 <= A < N /\ A <> L).
  { intros A HA. split; [|intros ->; contradiction].
    apply Hok. eapply ctx_ancestor_in_store; eassumption. }
  destruct (inserted_array_sorted l key v Hsort Habs) as [Hsort' _].
  pose proof (inserted_array_entry l key v Hsort) as Hentry.
  pose proof (ctx_key_range _ _ _ _ _ _ Hctx) as [Hklo Hkhi].
  assert (Hkeys' : forall x, x ∈ (inserted_array l key v).*1 -> above_eq lo x /\ below hi x).
  { intros x Hx. apply inserted_array_keys in Hx as [->|Hx]; [now split|now apply Hkeys]. }
  destruct (decide (LeafPage.GetSize l < leaf_max_size)%nat) as [Hroom|Hfull].
  - (* the leaf has room *)
    rewrite (InsertIntoLeaf_room fuel key v tr L l Hfind HL Habs)
      by (unfold LeafPage.GetMaxSize; lia).
    exists (put_leaf tr L (with_entry l key v)), (0 + length frames)%nat.
    split; [reflexivity|]. split; [|split; [exact Hne|split; [lia|]]].
    + intros j Hj. unfold put_leaf in Hj. cbn [pages set_pages next_page_id] in *.
      destruct (decide (j = L)) as [->|HjL]; [exact HLr|].
      rewrite lookup_insert_ne in Hj by congruence. now apply Hok.
    + change (root_page_id_ (put_leaf tr L (with_entry l key v))) with (root_page_id_ tr).
      change (next_page_id (put_leaf tr L (with_entry l key v))) with N.
      rewrite Hroot. apply (climb _ _ _ _ _ L lo hi).
      * eapply ctx_transfer; [exact Hctx| | |].
        -- intros A HA. unfold put_leaf. cbn [pages set_pages].
           apply lookup_insert_ne. destruct (Hanc A HA). congruence.
        -- intros j Hj. unfold put_leaf. cbn [pages set_pages].
           rewrite lookup_insert. case_decide; eauto.
        -- eexists. split; [apply lookup_insert_eq|]. split; [reflexivity|exact Hpar].
      * intros A HA. destruct (Hanc A HA). lia.
      * eapply (descends_leaf _ _ _ _ L (with_entry l key v)).
        -- intros [Hin|Hge]; [contradiction|lia].
        -- apply lookup_insert_eq.
        -- now apply Lookup_inserted.
        -- unfold with_entry, LeafPage.GetSize, LeafPage.GetMaxSize.
           cbn [LeafPage.array LeafPage.set_array LeafPage.max_size_].
           rewrite inserted_array_length. lia.
  - (* the leaf overflows and is split *)
    assert (Hsize : LeafPage.GetSize l = LeafPage.GetMaxSize l)
      by (unfold LeafPage.GetMaxSize; lia).
    assert (HNone : pages tr !! N = None).
    { destruct (pages tr !! N) eqn:E; [|reflexivity].
      destruct (Hok N) as [_ Hlt]; [rewrite E; eauto|]. unfold N in Hlt. lia. }
    set (l' := with_entry l key v).
    set (m := (LeafPage.GetSize l' - LeafPage.GetMinSize l')%nat).
    assert (Hlen : length (inserted_array l key v) = (leaf_max_size + 1)%nat).
    { rewrite inserted_array_length. lia. }
    assert (Hmin : (1 <= min_size_of leaf_max_size <= leaf_max_size)%nat)
      by (apply (split_sizes _ Hleaf)).
    assert (Hm : (1 <= m <= leaf_max_size)%nat /\
                 (m + min_size_of leaf_max_size = leaf_max_size + 1)%nat).
    { unfold m, l', with_entry, LeafPage.GetSize, LeafPage.GetMinSize.
      cbn [LeafPage.array LeafPage.set_array LeafPage.max_size_].
      rewrite Hlen, Hmax. lia. }
    destruct (lookup_lt_is_Some_2 (inserted_array l key v).*1 m) as [sep Hsep].
    { rewrite length_fmap, Hlen. lia. }
    destruct (lookup_lt_is_Some_2 (inserted_array l key v).*1 0%nat) as [x0 Hx0].
    { rewrite length_fmap, Hlen. lia. }
    pose proof (sorted_lookup_lt _ 0 m _ _ Hsort' Hx0 Hsep ltac:(lia)) as Hx0sep.
    destruct (split_sides _ key v _ m sep Hsort' Hentry Hsep) as [Hleft Hright].
    rewrite (InsertIntoLeaf_overflow fuel key v tr L l sep Hfind HL HNone Habs Hsize)
      by (cbn [split_right LeafPage.array]; rewrite fmap_drop, lookup_drop;
          fold l' m; now rewrite Nat.add_0_r).
    fold l' N. rewrite after_split_put_leaf by (unfold N in HLr; lia). fold N.
    set (tr1 := mk (root_page_id_ tr)
                  (<[L := Leaf (split_left l' N)]> (<[N := Leaf (split_right l' N)]> (pages tr)))
                  (N + 1) (header_record tr)).
    destruct (InsertIntoParent_descends key v frames fuel tr1 L N sep lo hi 0)
      as (tr' & h' & Hrun & Hok' & Hne' & Hh' & Hd); try assumption.
    + intros j Hj. unfold tr1 in *. cbn [pages next_page_id] in *.
      destruct (decide (j = L)) as [->|HjL]; [lia|].
      rewrite lookup_insert_ne in Hj by congruence.
      destruct (decide (j = N)) as [->|HjN]; [lia|].
      rewrite lookup_insert_ne in Hj by congruence.
      pose proof (Hok j Hj) as Hr. unfold N. lia.
    + eapply ctx_transfer; [exact Hctx| | |].
      * intros A HA. destruct (Hanc A HA). unfold tr1. cbn [pages].
        rewrite !lookup_insert_ne by lia. reflexivity.
      * intros j Hj. unfold tr1. cbn [pages].
        rewrite lookup_insert. case_decide; [eauto|].
        rewrite lookup_insert. case_decide; eauto.
      * eexists. split; [apply lookup_insert_eq|]. split; [reflexivity|exact Hpar].
    + exists (Leaf (split_right l' N)). split; [|reflexivity]. unfold tr1. cbn [pages].
      rewrite lookup_insert_ne by lia. apply lookup_insert_eq.
    + intros HA. destruct (Hanc N HA). lia.
    + destruct (Hkeys' x0 (list_elem_of_lookup_2 _ _ _ Hx0)) as [Hlo0 _].
      destruct lo as [lo0|]; simpl in *; [lia|exact I].
    + apply (Hkeys' sep (list_elem_of_lookup_2 _ _ _ Hsep)).
    + intros Hlt. eapply (descends_leaf _ _ _ _ L (split_left l' N)).
      * intros [Hin|Hge]; [contradiction|]. unfold tr1 in Hge. simpl in Hge. lia.
      * apply lookup_insert_eq.
      * apply (Lookup_of_entry _ key v (LeafPage.KeyIndex l key)).
        -- cbn [split_left LeafPage.array]. rewrite fmap_take.
           now apply sorted_take_drop.
        -- apply Hleft. exact Hlt.
      * unfold split_left, LeafPage.GetSize at 1, LeafPage.GetMaxSize.
        cbn [LeafPage.array LeafPage.max_size_ l' with_entry LeafPage.set_array].
        fold l' m. rewrite length_take. unfold l', with_entry.
        cbn [LeafPage.array LeafPage.set_array]. lia.
    + intros Hge. eapply (descends_leaf _ _ _ _ N (split_right l' N)).
      * intros [Hin|Hge']; [destruct (Hanc N Hin); lia|].
        unfold tr1 in Hge'. simpl in Hge'. lia.
      * unfold tr1. cbn [pages]. rewrite lookup_insert_ne by lia. apply lookup_insert_eq.
      * apply (Lookup_of_entry _ key v (LeafPage.KeyIndex l key - m)).
        -- cbn [split_right LeafPage.array]. rewrite fmap_drop.
           now apply sorted_take_drop.
        -- apply Hright. exact Hge.
      * unfold split_right, LeafPage.GetSize at 1, LeafPage.GetMaxSize.
        cbn [LeafPage.array LeafPage.max_size_]. fold l' m. rewrite length_drop.
        unfold l', with_entry. cbn [LeafPage.array LeafPage.set_array]. lia.
    + exists tr', h'. rewrite Hrun, bind_Done. repeat (split; [first [reflexivity|assumption]|]).
      exact Hd.
Qed.


(** A well-formed index: page ids come from the allocator, and a tree that
    is not empty is a B+ tree of height [h] under its root. *)
Definition tree_wf (tr : t) (h : nat) : Prop :=
  store_ok tr /\ 0 <= next_page_id tr /\
  (IsEmpty tr = false -> wf (pages tr) INVALID_PAGE_ID None None h (root_page_id_ tr)).

Lemma StartNewTree_descends (key : Z) (v : RID) (tr : t) :
  (1 <= leaf_max_size)%nat -> 0 <= next_page_id tr ->
  exists tr',
    StartNewTree leaf_max_size key v tr = Done tr' /\ IsEmpty tr' = false /\
    descends (pages tr') (fun i => next_page_id tr' <= i) key v 0 (root_page_id_ tr').
Proof.
  intros Hleaf Hnext. unfold StartNewTree, NewPage, LeafPage.Insert.
  cbn [LeafPage.GetMaxSize LeafPage.GetSize LeafPage.Init LeafPage.max_size_
       LeafPage.array length].
  replace (leaf_max_size <? 0)%nat with false by (symmetry; apply Nat.ltb_ge; lia).
  cbn. eexists. split; [reflexivity|]. split.
  - unfold IsEmpty. cbn. apply Z.eqb_neq. unfold INVALID_PAGE_ID. lia.
  - cbn. eapply descends_leaf.
    + cbn. lia.
    + apply lookup_insert_eq.
    + apply (Lookup_of_entry _ key v 0); [|reflexivity].
      cbn. repeat constructor.
    + cbn. lia.
Qed.

Lemma Insert_descends (fuel h : nat) (key : Z) (v : RID) (tr : t) :
  (1 <= leaf_max_size)%nat -> (3 <= internal_max_size)%nat ->
  tree_wf tr h -> (h < fuel)%nat ->
  exists b tr',
    Insert leaf_max_size internal_max_size fuel key v tr = Done (b, tr') /\
    (b = true <-> GetValue fuel key tr = Done None) /\
    (b = true ->
     IsEmpty tr' = false /\
     exists h', (h' <= h + 1)%nat /\
       descends (pages tr') (fun i => next_page_id tr' <= i) key v h' (root_page_id_ tr')).
Proof.
  intros Hleaf Hint (Hok & Hnext & Hwf) Hfuel.
  destruct (IsEmpty tr) eqn:Hne.
  - destruct (StartNewTree_descends key v tr Hleaf Hnext) as (tr' & Hrun & Hne' & Hd).
    exists true, tr'. unfold Insert, GetValue. rewrite Hne, Hrun, bind_Done.
    split; [reflexivity|]. split; [tauto|]. intros _. split; [exact Hne'|].
    exists 0%nat. split; [lia|exact Hd].
  - specialize (Hwf eq_refl).
    destruct (wf_path (pages tr) key h (root_page_id_ tr) None None [])
      as (frames & L & lo & hi & Hctx & Htop & Hlen & HwfL & HLanc).
    + exact Hwf.
    + split; [exact (wf_page _ _ _ _ _ _ Hwf)|]. now split.
    + intros A HA. simpl in HA. now apply elem_of_nil in HA.
    + change (top (root_page_id_ tr) []) with (root_page_id_ tr) in Htop.
      simpl in Hlen.
      inversion HwfL as [? ? ? ? l HL Hid Hpar Hmax Hsz Hsort Hkeys|]; subst.
      set (L := LeafPage.page_id_ l) in *.
      destruct (LeafPage.Lookup l key) as [v0|] eqn:Hlook.
      * assert (Hd : descends (pages tr) (fun _ => False) key v0 (0 + length frames)
                       (root_page_id_ tr)).
        { rewrite <- Htop. apply (climb _ _ _ _ _ L lo hi 0 Hctx); [tauto|].
          eapply descends_leaf; [|exact HL|exact Hlook|unfold LeafPage.GetMaxSize; lia].
          tauto. }
        exists false, tr. split.
        -- apply (descends_Insert_again _ _ _ _ _ _ _ _ _ Hne Hd). lia.
        -- rewrite (descends_GetValue _ _ _ _ _ fuel Hne Hd) by lia.
           split; [split; discriminate|discriminate].
      * destruct (InsertIntoLeaf_descends key v tr frames L lo hi fuel)
          as (tr' & h' & Hrun & Hok' & Hne' & Hh' & Hd); try assumption.
        -- now symmetry.
        -- intros l0 Hl0. rewrite HL in Hl0. now injection Hl0 as <-.
        -- exists true, tr'. unfold Insert. rewrite Hne. split; [exact Hrun|].
           split.
           ++ split; [intros _|reflexivity]. unfold GetValue. rewrite Hne.
              rewrite (FindLeafPage_leaf fuel tr key frames L lo hi l Hne (eq_sym Htop)
                         Hctx HL Hfuel), bind_Done.
              now rewrite (fetch_leaf_Some _ _ _ HL), bind_Done, Hlook.
           ++ intros _. split; [exact Hne'|]. exists h'. split; [lia|exact Hd].
Qed.

(** C5: on a well-formed index Insert(k, v) returns; it returns true exactly
    when GetValue(k) found nothing before, and after it has returned true
    GetValue(k) finds v, a second Insert(k, v') returns false and hands back
    the same index, in which GetValue(k) therefore still finds v. *)
Theorem C5_insert_then_get (fuel h : nat) (key : Z) (v v' : RID) (tr : t) :
  (1 <= leaf_max_size)%nat -> (3 <= internal_max_size)%nat ->
  tree_wf tr h -> (h + 2 <= fuel)%nat ->
  exists b tr',
    Insert leaf_max_size internal_max_size fuel key v tr = Done (b, tr') /\
    (b = true <-> GetValue fuel key tr = Done None) /\
    (b = true ->
     GetValue fuel key tr' = Done (Some v) /\
     Insert leaf_max_size internal_max_size fuel key v' tr' = Done (false, tr')).
Proof.
  intros Hleaf Hint Hwf Hfuel.
  destruct (Insert_descends fuel h key v tr Hleaf Hint Hwf ltac:(lia))
    as (b & tr' & Hrun & Hiff & Hafter).
  exists b, tr'. split; [exact Hrun|]. split; [exact Hiff|].
  intros Hb. destruct (Hafter Hb) as (Hne & h' & Hh' & Hd). split.
  - apply (descends_GetValue _ _ _ _ _ fuel Hne Hd). lia.
  - apply (descends_Insert_again _ _ _ _ _ _ _ _ _ Hne Hd). lia.
Qed.

End Correctness.


(** *** The merge decision at a concrete removal *)

Definition empty_tree : t := mk INVALID_PAGE_ID ∅ 1 None.

Definition entry (k : Z) : Z * RID := (k, (k, 0)).

(** Two leaves under one root, as six insertions of 1..6 and the removal of
    1 leave the index when a leaf holds at most 4 entries. *)
Definition two_leaves : t :=
  mk 3
     (<[1 := Leaf (LeafPage.mk 1 3 4 2 [entry 2; entry 3])]>
        (<[2 := Leaf (LeafPage.mk 2 3 4 INVALID_PAGE_ID [entry 4; entry 5; entry 6])]>
           (<[3 := Internal (InternalPage.mk 3 INVALID_PAGE_ID 4 [(zero_key, 1); (4, 2)])]>
              ∅)))
     4 (Some 3).

(** The same index after Remove(2) has borrowed the first entry of the
    right leaf. *)
Definition two_leaves_after : t :=
  mk 3
     (<[1 := Leaf (LeafPage.mk 1 3 4 2 [entry 3; entry 4])]>
        (<[2 := Leaf (LeafPage.mk 2 3 4 INVALID_PAGE_ID [entry 5; entry 6])]>
           (<[3 := Internal (InternalPage.mk 3 INVALID_PAGE_ID 4 [(zero_key, 1); (5, 2)])]>
              ∅)))
     4 (Some 3).

Definition insert_then (leaf_max_size internal_max_size : nat) (k : Z)
    (tr : outcome t) : outcome t :=
  tr ← tr; '(_, tr) ← Insert leaf_max_size internal_max_size 8 k (snd (entry k)) tr; Done tr.

Definition built_two_leaves : outcome t :=
  tr ← foldl (fun tr k => insert_then 4 4 k tr) (Done empty_tree) [1; 2; 3; 4; 5; 6];
  Remove 8 1 tr.

(** C1: Remove(2) on the index with leaves [2,3] and [4,5,6] (leaf max_size
    4, min_size 2) leaves the first leaf with one entry; the sibling has 3,
    so sibling.size + node.size = 4 <= max_size, the case in which the
    docstring of CoalesceOrRedistribute and the specification ask for a
    merge.  The code looks at the sibling alone (3 > min_size) and
    redistributes: both leaves are still there afterwards, with two entries
    each. *)
Theorem C1_redistributes_although_merge_fits :
  built_two_leaves = Done two_leaves /\
  (exists leaf node sibling,
     pages two_leaves !! 1 = Some (Leaf leaf) /\
     pages two_leaves !! 2 = Some (Leaf sibling) /\
     LeafPage.RemoveAndDeleteRecord 2 leaf = Done (1%nat, node) /\
     (LeafPage.GetSize node < LeafPage.GetMinSize node)%nat /\
     (LeafPage.GetSize sibling + LeafPage.GetSize node <= LeafPage.GetMaxSize node)%nat /\
     coalesce_decision (Leaf sibling) = false) /\
  Remove 8 2 two_leaves = Done two_leaves_after.
Proof.
  split; [vm_compute; reflexivity|]. split; [|vm_compute; reflexivity].
  eexists. eexists. eexists. split; [vm_compute; reflexivity|].
  split; [vm_compute; reflexivity|].
  split; [vm_compute; reflexivity|].
  split; [vm_compute; lia|]. split; [vm_compute; lia|]. vm_compute; reflexivity.
Qed.


(** [store_ok] as a check that runs. *)
Definition store_okb (tr : t) : bool :=
  forallb (fun '(i, _) => (0 <=? i) && (i <? next_page_id tr)) (map_to_list (pages tr)).

Lemma store_okb_ok (tr : t) : store_okb tr = true -> store_ok tr.
Proof.
  intros H i [p Hp]. unfold store_okb in H. rewrite forallb_forall in H.
  apply elem_of_map_to_list, list_elem_of_In in Hp. specialize (H _ Hp). simpl in H.
  apply andb_prop in H as [H1 H2]. apply Z.leb_le in H1. apply Z.ltb_lt in H2. lia.
Qed.

(** A root over the leaves [1,2,3] and [4,5,6,7]; the second leaf is full. *)
Definition full_leaf : LeafPage.t :=
  LeafPage.mk 2 3 4 INVALID_PAGE_ID [entry 4; entry 5; entry 6; entry 7].

Definition full_leaf_tree : t :=
  mk 3
     (<[1 := Leaf (LeafPage.mk 1 3 4 2 [entry 1; entry 2; entry 3])]>
        (<[2 := Leaf full_leaf]>
           (<[3 := Internal (InternalPage.mk 3 INVALID_PAGE_ID 4 [(zero_key, 1); (4, 2)])]>
              ∅)))
     4 (Some 3).




Ltac concrete_leaf :=
  lazymatch goal with
  | |- (_ <= _)%nat => unfold LeafPage.GetSize; simpl; lia
  | |- StronglySorted _ _ => simpl; repeat constructor; lia
  | |- forall x, x ∈ _ -> _ =>
      let Hx := fresh "Hx" in
      intros x Hx; cbn in Hx; rewrite !elem_of_cons, elem_of_nil in Hx; cbn; lia
  | |- _ => reflexivity
  end.

Lemma full_leaf_tree_wf : tree_wf 4 4 full_leaf_tree 1.
Proof.
  split; [apply store_okb_ok; vm_compute; reflexivity|]. split; [vm_compute; discriminate|].
  intros _.
  eapply (wf_internal 4 4 _ _ _ _ _ 3
            (InternalPage.mk 3 INVALID_PAGE_ID 4 [(zero_key, 1); (4, 2)]));
    try reflexivity.
  - unfold InternalPage.GetSize. simpl. lia.
  - unfold inner_sorted. simpl. repeat constructor.
  - intros j x _ _. now split.
  - simpl. apply NoDup_cons. split; [|apply NoDup_singleton].
    intros Hin. apply elem_of_cons in Hin as [Hin|Hin]; [discriminate|].
    now apply elem_of_nil in Hin.
  - intros [|[|j]] c Hc; simpl in Hc; try discriminate; injection Hc as <-.
    + eapply (wf_leaf 4 4 _ _ _ _ 1); concrete_leaf.
    + eapply (wf_leaf 4 4 _ _ _ _ 2 full_leaf); unfold full_leaf; concrete_leaf.
Qed.

Lemma C5_insert_then_get_witness :
  tree_wf 4 4 full_leaf_tree 1 /\
  exists tr',
    Insert 4 4 8 8 (8, 0) full_leaf_tree = Done (true, tr') /\
    GetValue 8 8 tr' = Done (Some (8, 0)) /\
    Insert 4 4 8 8 (9, 9) tr' = Done (false, tr').
Proof.
  split; [exact full_leaf_tree_wf|].
  destruct (C5_insert_then_get 4 4 8 1 8 (8, 0) (9, 9) full_leaf_tree)
    as (b & tr' & Hrun & Hiff & Hafter);
    [lia|lia|exact full_leaf_tree_wf|lia|].
  assert (Hb : b = true) by (apply Hiff; vm_compute; reflexivity).
  subst b. exists tr'. split; [exact Hrun|]. now apply Hafter.
Defined.


(** *** Leaf pages as sorted maps *)

Lemma Lookup_elem (p : LeafPage.t) (key : Z) (v : RID) :
  StronglySorted Z.lt (LeafPage.array p).*1 ->
  LeafPage.Lookup p key = Some v <-> (key, v) ∈ LeafPage.array p.
Proof.
  intros Hs. split.
  - intros Hl. apply Lookup_Some in Hl. eapply list_elem_of_lookup_2. exact Hl.
  - intros Hin. apply list_elem_of_lookup_1 in Hin as [i Hi].
    now apply (Lookup_of_entry p key v i).
Qed.

Lemma Lookup_None_keys (p : LeafPage.t) (key : Z) :
  StronglySorted Z.lt (LeafPage.array p).*1 ->
  LeafPage.Lookup p key = None <-> key ∉ (LeafPage.array p).*1.
Proof.
  intros Hs. split.
  - intros Hl Hin. apply list_elem_of_fmap in Hin as [[k v] [Hk Hin]]. simpl in Hk.
    subst k. apply (Lookup_elem p key v Hs) in Hin. congruence.
  - intros Hnin. destruct (LeafPage.Lookup p key) as [v|] eqn:E; [|reflexivity].
    exfalso. apply Hnin. apply (Lookup_elem p key v Hs) in E.
    apply list_elem_of_fmap. now exists (key, v).
Qed.

(** Two sorted pages holding the same entries for [k] answer alike. *)
Lemma Lookup_ext (p p' : LeafPage.t) (k : Z) :
  StronglySorted Z.lt (LeafPage.array p).*1 ->
  StronglySorted Z.lt (LeafPage.array p').*1 ->
  (forall w, (k, w) ∈ LeafPage.array p' <-> (k, w) ∈ LeafPage.array p) ->
  LeafPage.Lookup p' k = LeafPage.Lookup p k.
Proof.
  intros Hs Hs' Hsame.
  destruct (LeafPage.Lookup p k) as [v|] eqn:E.
  - apply (Lookup_elem p' k v Hs'), Hsame, (Lookup_elem p k v Hs), E.
  - destruct (LeafPage.Lookup p' k) as [v'|] eqn:E'; [|reflexivity].
    apply (Lookup_elem p' k v' Hs'), Hsame, (Lookup_elem p k v' Hs) in E'. congruence.
Qed.

(** X14: on a leaf page whose keys are strictly increasing, KeyIndex
    returns the position of the first key that is not smaller than the
    searched key (the size when there is none), and Lookup returns true with
    value v exactly when the pair (key, v) is stored in the page, false
    exactly when the key is not. *)
Theorem leaf_Lookup_exact (p : LeafPage.t) (key : Z) :
  StronglySorted Z.lt (LeafPage.array p).*1 ->
  lower_bound (LeafPage.array p).*1 key (LeafPage.KeyIndex p key) /\
  (forall v, LeafPage.Lookup p key = Some v <-> (key, v) ∈ LeafPage.array p) /\
  (LeafPage.Lookup p key = None <-> key ∉ (LeafPage.array p).*1).
Proof.
  intros Hs. split; [now apply KeyIndex_spec|]. split.
  - intros v. now apply Lookup_elem.
  - now apply Lookup_None_keys.
Qed.

Lemma inserted_array_elem (p : LeafPage.t) (key : Z) (value : RID) (e : Z * RID) :
  e ∈ inserted_array p key value <-> e = (key, value) \/ e ∈ LeafPage.array p.
Proof.
  unfold inserted_array. rewrite elem_of_app, elem_of_cons.
  rewrite <- (take_drop (LeafPage.KeyIndex p key) (LeafPage.array p)) at 3.
  rewrite elem_of_app. tauto.
Qed.

(** X15: Insert on a sorted leaf page with size at most max_size.  A key
    that is present leaves the page as it is and the size is returned
    unchanged; a key that is absent is stored with its value at its place in
    the order, the size grows by one and the keys stay strictly increasing.
    Either way every other key is looked up as before.  On a page that
    already exceeds max_size the assertion fails. *)
Theorem leaf_Insert_ordered (p : LeafPage.t) (key : Z) (value : RID) :
  StronglySorted Z.lt (LeafPage.array p).*1 ->
  ((LeafPage.GetMaxSize p < LeafPage.GetSize p)%nat ->
   LeafPage.Insert key value p = Undefined) /\
  ((LeafPage.GetSize p <= LeafPage.GetMaxSize p)%nat ->
   exists p',
     LeafPage.Insert key value p = Done (LeafPage.GetSize p', p') /\
     StronglySorted Z.lt (LeafPage.array p').*1 /\
     (key ∈ (LeafPage.array p).*1 -> p' = p) /\
     (key ∉ (LeafPage.array p).*1 ->
      LeafPage.GetSize p' = S (LeafPage.GetSize p) /\
      LeafPage.Lookup p' key = Some value) /\
     (forall k, k <> key -> LeafPage.Lookup p' k = LeafPage.Lookup p k)).
Proof.
  intros Hs. split.
  - intros Hover. unfold LeafPage.Insert.
    now replace (LeafPage.GetMaxSize p <? LeafPage.GetSize p)%nat with true
      by (symmetry; apply Nat.ltb_lt; lia).
  - intros Hsz. destruct (LeafPage.Lookup p key) as [v|] eqn:Hl.
    + exists p. rewrite (Insert_duplicate p key v value Hsz Hl).
      split; [reflexivity|]. split; [exact Hs|]. split; [reflexivity|].
      split; [|reflexivity].
      intros Hnin. apply (Lookup_None_keys p key Hs) in Hnin. congruence.
    + exists (LeafPage.set_array (inserted_array p key value) p).
      rewrite (Insert_absent p key value Hsz Hl).
      destruct (inserted_array_sorted p key value Hs Hl) as [Hs' _].
      split.
      { f_equal. f_equal. unfold LeafPage.GetSize at 2. simpl.
        now rewrite inserted_array_length. }
      split; [exact Hs'|]. split.
      { intros Hin. apply (Lookup_None_keys p key Hs) in Hl. contradiction. }
      split.
      { intros _. split; [|now apply Lookup_inserted].
        unfold LeafPage.GetSize at 1. simpl. apply inserted_array_length. }
      intros k Hk. apply Lookup_ext; [exact Hs|exact Hs'|].
      intros w. simpl. rewrite inserted_array_elem. split; [|tauto].
      intros [Heq|Hin]; [congruence|exact Hin].
Qed.


Lemma sorted_delete (ks : list Z) (i : nat) :
  StronglySorted Z.lt ks -> StronglySorted Z.lt (delete i ks).
Proof.
  intros Hs. rewrite delete_take_drop.
  rewrite <- (take_drop i ks) in Hs. apply StronglySorted_app in Hs as (Hcross & H1 & H2).
  apply StronglySorted_app. split; [|split; [exact H1|]].
  - intros x1 x2 Hx1 Hx2. apply Hcross; [exact Hx1|].
    rewrite <- (take_drop 1 (drop i ks)), drop_drop, elem_of_app.
    right. now replace (i + 1)%nat with (S i) by lia.
  - rewrite <- (take_drop 1 (drop i ks)), drop_drop in H2.
    apply StronglySorted_app in H2 as (_ & _ & H2).
    now replace (i + 1)%nat with (S i) in H2 by lia.
Qed.

(** The entries left when the one at [i] is deleted from a sorted array. *)
Lemma delete_elem (a : list (Z * RID)) (i : nat) (key : Z) (v : RID) (e : Z * RID) :
  StronglySorted Z.lt a.*1 -> a !! i = Some (key, v) ->
  e ∈ delete i a <-> e ∈ a /\ fst e <> key.
Proof.
  intros Hs Hi. split.
  - intros Hin. split; [eapply list_elem_of_delete_inv; exact Hin|].
    intros Heq. rewrite delete_take_drop in Hin.
    assert (Hk : a.*1 !! i = Some key) by (now rewrite list_lookup_fmap, Hi).
    apply elem_of_app in Hin as [Hin|Hin].
    + apply list_elem_of_lookup_1 in Hin as [j Hj].
      apply lookup_take_Some in Hj as [Hj Hlt].
      assert (Hkj : a.*1 !! j = Some (fst e)) by (now rewrite list_lookup_fmap, Hj).
      pose proof (sorted_lookup_lt _ j i _ _ Hs Hkj Hk Hlt). lia.
    + apply list_elem_of_lookup_1 in Hin as [j Hj]. rewrite lookup_drop in Hj.
      assert (Hkj : a.*1 !! (S i + j)%nat = Some (fst e))
        by (now rewrite list_lookup_fmap, Hj).
      pose proof (sorted_lookup_lt _ i (S i + j) _ _ Hs Hk Hkj ltac:(lia)). lia.
  - intros [Hin Hne]. apply list_elem_of_lookup_1 in Hin as [j Hj].
    rewrite delete_take_drop, elem_of_app.
    destruct (decide (j < i)%nat) as [Hlt|Hge].
    + left. eapply list_elem_of_lookup_2. rewrite lookup_take_lt by exact Hlt. exact Hj.
    + right. destruct (decide (j = i)) as [->|Hji].
      * rewrite Hi in Hj. injection Hj as <-. simpl in Hne. congruence.
      * eapply (list_elem_of_lookup_2 _ (j - S i)). rewrite lookup_drop.
        now replace (S i + (j - S i))%nat with j by lia.
Qed.

(** X16: RemoveAndDeleteRecord on a sorted leaf page that is not empty
    returns the new size; a key that is stored is removed with its value,
    and only it: the size drops by one, the key is no longer found, every
    other key is looked up as before and the order is kept; a key that is
    not stored leaves the page and the size as they are.  On an empty page
    the assertion fails. *)
Theorem leaf_Remove_exact (p : LeafPage.t) (key : Z) :
  StronglySorted Z.lt (LeafPage.array p).*1 ->
  (LeafPage.GetSize p = 0%nat -> LeafPage.RemoveAndDeleteRecord key p = Undefined) /\
  ((0 < LeafPage.GetSize p)%nat ->
   exists p',
     LeafPage.RemoveAndDeleteRecord key p = Done (LeafPage.GetSize p', p') /\
     StronglySorted Z.lt (LeafPage.array p').*1 /\
     LeafPage.Lookup p' key = None /\
     (forall k, k <> key -> LeafPage.Lookup p' k = LeafPage.Lookup p k) /\
     (key ∈ (LeafPage.array p).*1 -> S (LeafPage.GetSize p') = LeafPage.GetSize p) /\
     (key ∉ (LeafPage.array p).*1 -> p' = p)).
Proof.
  intros Hs. unfold LeafPage.RemoveAndDeleteRecord. split.
  - intros ->. reflexivity.
  - intros Hpos.
    replace (LeafPage.GetSize p =? 0)%nat with false by (symmetry; apply Nat.eqb_neq; lia).
    destruct (LeafPage.Lookup p key) as [v|] eqn:Hl.
    + pose proof Hl as Hentry. apply Lookup_Some in Hentry.
      assert (Hfound : LeafPage.found_at p key (LeafPage.KeyIndex p key) = true)
        by (apply found_at_true; eauto).
      rewrite Hfound.
      set (i := LeafPage.KeyIndex p key) in *.
      set (p' := LeafPage.set_array (delete i (LeafPage.array p)) p).
      assert (Hs' : StronglySorted Z.lt (LeafPage.array p').*1).
      { unfold p'. simpl. rewrite list_fmap_delete. now apply sorted_delete. }
      exists p'. split; [reflexivity|]. split; [exact Hs'|]. split; [|split; [|split]].
      * apply (Lookup_None_keys p' key Hs'). intros Hin.
        apply list_elem_of_fmap in Hin as [[k w] [Hk Hin]]. simpl in Hk. subst k.
        unfold p' in Hin. simpl in Hin.
        apply (delete_elem _ i key v _ Hs Hentry) in Hin as [_ Hne]. now apply Hne.
      * intros k Hk. apply Lookup_ext; [exact Hs|exact Hs'|].
        intros w. unfold p'. simpl. rewrite (delete_elem _ i key v _ Hs Hentry). simpl.
        tauto.
      * intros _. unfold p', LeafPage.GetSize. simpl. rewrite length_delete.
        -- apply lookup_lt_Some in Hentry. lia.
        -- eauto.
      * intros Hnin. apply (Lookup_None_keys p key Hs) in Hnin. congruence.
    + assert (Hfound : LeafPage.found_at p key (LeafPage.KeyIndex p key) = false).
      { destruct (LeafPage.found_at p key _) eqn:E; [|reflexivity].
        unfold LeafPage.Lookup in Hl. rewrite E in Hl.
        apply found_at_true in E as [v Hv]. rewrite Hv in Hl. discriminate. }
      rewrite Hfound. exists p. split; [reflexivity|]. split; [exact Hs|].
      split; [exact Hl|]. split; [reflexivity|]. split; [|reflexivity].
      intros Hin. apply (Lookup_None_keys p key Hs) in Hl. contradiction.
Qed.


Lemma full_leaf_sorted : StronglySorted Z.lt (LeafPage.array full_leaf).*1.
Proof. cbn. repeat constructor; lia. Qed.

Lemma leaf_Lookup_exact_witness :
  LeafPage.Lookup full_leaf 6 = Some (6, 0) /\ LeafPage.Lookup full_leaf 3 = None.
Proof.
  destruct (leaf_Lookup_exact full_leaf 6 full_leaf_sorted) as (_ & Hsome & _).
  destruct (leaf_Lookup_exact full_leaf 3 full_leaf_sorted) as (_ & _ & Hnone).
  split.
  - apply Hsome. cbn. rewrite !elem_of_cons. tauto.
  - apply Hnone. cbn. rewrite !elem_of_cons, elem_of_nil. lia.
Defined.

Lemma leaf_Insert_ordered_witness :
  exists p',
    LeafPage.Insert 8 (8, 0) full_leaf = Done (5%nat, p') /\
    LeafPage.Lookup p' 8 = Some (8, 0) /\
    LeafPage.Lookup p' 5 = LeafPage.Lookup full_leaf 5.
Proof.
  destruct (proj2 (leaf_Insert_ordered full_leaf 8 (8, 0) full_leaf_sorted))
    as (p' & Hrun & _ & _ & Hnew & Hold); [cbn; lia|].
  destruct Hnew as [Hsize Hlook].
  { cbn. rewrite !elem_of_cons, elem_of_nil. lia. }
  exists p'. rewrite Hrun, Hsize. split; [reflexivity|]. split; [exact Hlook|].
  apply Hold. lia.
Defined.

Lemma leaf_Remove_exact_witness :
  exists p',
    LeafPage.RemoveAndDeleteRecord 5 full_leaf = Done (3%nat, p') /\
    LeafPage.Lookup p' 5 = None /\
    LeafPage.Lookup p' 6 = LeafPage.Lookup full_leaf 6.
Proof.
  destruct (proj2 (leaf_Remove_exact full_leaf 5 full_leaf_sorted))
    as (p' & Hrun & _ & Hgone & Hold & Hsize & _); [cbn; lia|].
  assert (Hs : S (LeafPage.GetSize p') = 4%nat).
  { apply Hsize. cbn. rewrite !elem_of_cons. tauto. }
  exists p'. rewrite Hrun. injection Hs as ->.
  split; [reflexivity|]. split; [exact Hgone|]. apply Hold. lia.
Defined.


(** *** Internal pages *)

(** X17: on an internal page with at least two children whose keys from
    slot 1 on are strictly increasing, Lookup returns the child stored in
    the last slot whose key is not greater than the searched key, or the
    child of slot 0 when every key is greater; the key of slot 0 is never
    compared.  With fewer than two children the assertion fails. *)
Theorem internal_Lookup_covering_child (n : InternalPage.t) (key : Z) :
  inner_sorted (InternalPage.array n).*1 ->
  ((InternalPage.GetSize n <= 1)%nat -> InternalPage.Lookup n key = Undefined) /\
  ((1 < InternalPage.GetSize n)%nat ->
   exists i c,
     InternalPage.Lookup n key = Done c /\
     (InternalPage.array n).*2 !! i = Some c /\
     (forall j x, (InternalPage.array n).*1 !! j = Some x -> (1 <= j <= i)%nat -> x <= key) /\
     (forall j x, (InternalPage.array n).*1 !! j = Some x -> (i < j)%nat -> key < x)).
Proof.
  intros Hs. unfold InternalPage.Lookup. split.
  - intros Hsz. now replace (InternalPage.GetSize n <=? 1)%nat with true
      by (symmetry; apply Nat.leb_le; lia).
  - intros Hsz. replace (InternalPage.GetSize n <=? 1)%nat with false
      by (symmetry; apply Nat.leb_gt; lia).
    destruct (Lookup_index_spec n key Hs ltac:(lia)) as (Hlt & Hle & Hgt).
    rewrite length_fmap in Hlt.
    destruct (lookup_lt_is_Some_2 (InternalPage.array n).*2 (InternalPage.Lookup_index n key))
      as [c Hc]; [now rewrite length_fmap|].
    exists (InternalPage.Lookup_index n key), c.
    split; [now apply ValueAt_Done|]. split; [exact Hc|]. split; assumption.
Qed.

(** ValueIndex finds the first slot holding the value. *)
Lemma value_index_first (a : list (Z * Z)) (value : Z) (base i : nat) :
  InternalPage.value_index a value base = Some (base + i)%nat <->
  a.*2 !! i = Some value /\ forall j, (j < i)%nat -> a.*2 !! j <> Some value.
Proof.
  revert base i. induction a as [|[k c] a IH]; intros base i; simpl.
  - split; [discriminate|]. intros [H _]. discriminate.
  - destruct (Z.eqb_spec c value) as [->|Hne].
    + split.
      * intros [= Hi]. assert (i = 0%nat) by lia. subst i. split; [reflexivity|].
        intros j Hj. lia.
      * intros [Hi Hfirst]. destruct i as [|i]; [f_equal; lia|].
        exfalso. apply (Hfirst 0%nat); [lia|reflexivity].
    + destruct i as [|i].
      * split.
        -- intros Hi. apply value_index_Some in Hi as [Hle _]. lia.
        -- intros [[= Hc] _]. congruence.
      * replace (base + S i)%nat with (S base + i)%nat by lia. rewrite IH. simpl.
        split; intros [Hi Hfirst]; (split; [exact Hi|]).
        -- intros [|j] Hj; simpl; [congruence|]. apply Hfirst. lia.
        -- intros j Hj. apply (Hfirst (S j)). lia.
Qed.

Lemma ValueIndex_first (n : InternalPage.t) (value : Z) (i : nat) :
  InternalPage.ValueIndex n value = Some i <->
  (InternalPage.array n).*2 !! i = Some value /\
  forall j, (j < i)%nat -> (InternalPage.array n).*2 !! j <> Some value.
Proof. unfold InternalPage.ValueIndex. apply (value_index_first _ value 0 i). Qed.

Lemma ValueIndex_None (n : InternalPage.t) (value : Z) :
  InternalPage.ValueIndex n value = None <-> value ∉ (InternalPage.array n).*2.
Proof.
  unfold InternalPage.ValueIndex. generalize 0%nat.
  induction (InternalPage.array n) as [|[k c] a IH]; intros base; simpl.
  - split; [intros _ H; now apply elem_of_nil in H|reflexivity].
  - rewrite not_elem_of_cons. destruct (Z.eqb_spec c value) as [->|Hne].
    + split; [discriminate|]. intros [H _]. congruence.
    + rewrite IH. split; [now split; [congruence|]|now intros [_ H]].
Qed.

(** X18: InsertNodeAfter puts the new pair in the slot right after the
    first slot holding old_value and shifts the later pairs up by one: the
    size grows by one, the pairs up to old_value keep their slots,
    ValueIndex still finds old_value where it was and, for a new_value the
    page did not hold, finds new_value in the next slot.  When old_value is
    not in the page the assertion fails. *)
Theorem InsertNodeAfter_next_slot (n : InternalPage.t) (old_value new_key new_value : Z) :
  (old_value ∉ (InternalPage.array n).*2 ->
   InternalPage.InsertNodeAfter old_value new_key new_value n = Undefined) /\
  (forall i, InternalPage.ValueIndex n old_value = Some i ->
     exists n',
       InternalPage.InsertNodeAfter old_value new_key new_value n
       = Done (S (InternalPage.GetSize n), n') /\
       InternalPage.GetSize n' = S (InternalPage.GetSize n) /\
       InternalPage.array n' !! (i + 1)%nat = Some (new_key, new_value) /\
       (forall j, (j <= i)%nat -> InternalPage.array n' !! j = InternalPage.array n !! j) /\
       (forall j, (i < j)%nat ->
          InternalPage.array n' !! (S j) = InternalPage.array n !! j) /\
       InternalPage.ValueIndex n' old_value = Some i /\
       (new_value ∉ (InternalPage.array n).*2 ->
        InternalPage.ValueIndex n' new_value = Some (i + 1)%nat)).
Proof.
  split.
  - intros Hnin. apply ValueIndex_None in Hnin.
    unfold InternalPage.InsertNodeAfter. now rewrite Hnin.
  - intros i Hi. rewrite (InsertNodeAfter_Done n old_value new_key new_value i Hi).
    set (a := InternalPage.array n).
    set (a' := take (i + 1) a ++ (new_key, new_value) :: drop (i + 1) a).
    pose proof Hi as Hfirst. apply ValueIndex_first in Hfirst as [Hold Hbefore].
    fold a in Hold, Hbefore.
    assert (Hlen : (i < length a)%nat).
    { apply lookup_lt_Some in Hold. now rewrite length_fmap in Hold. }
    assert (Htake : length (take (i + 1) a) = (i + 1)%nat) by (rewrite length_take; lia).
    assert (Hlow : forall j, (j <= i)%nat -> a' !! j = a !! j).
    { intros j Hj. unfold a'. rewrite lookup_app_l by lia. apply lookup_take_lt. lia. }
    assert (Hmid : a' !! (i + 1)%nat = Some (new_key, new_value)).
    { unfold a'. now apply list_lookup_middle. }
    eexists. split; [reflexivity|]. cbn [InternalPage.array InternalPage.set_array].
    fold a a'. split; [|split; [exact Hmid|split; [exact Hlow|split; [|split]]]].
    + unfold InternalPage.GetSize. cbn [InternalPage.array InternalPage.set_array].
      fold a a'. unfold a'. rewrite length_app, Htake, length_cons, length_drop. lia.
    + intros j Hj. unfold a'. rewrite lookup_app_r by lia. rewrite Htake.
      replace (S j - (i + 1))%nat with (S (j - (i + 1))) by lia. simpl.
      rewrite lookup_drop. f_equal. lia.
    + apply ValueIndex_first. cbn [InternalPage.array InternalPage.set_array]. fold a a'.
      split.
      * rewrite list_lookup_fmap, Hlow by lia. now rewrite <- list_lookup_fmap.
      * intros j Hj. rewrite list_lookup_fmap, Hlow by lia.
        rewrite <- list_lookup_fmap. now apply Hbefore.
    + intros Hnew. apply ValueIndex_first.
      cbn [InternalPage.array InternalPage.set_array]. fold a a'. split.
      * now rewrite list_lookup_fmap, Hmid.
      * intros j Hj Hl. rewrite list_lookup_fmap, Hlow in Hl by lia.
        rewrite <- list_lookup_fmap in Hl. apply Hnew.
        eapply list_elem_of_lookup_2. exact Hl.
Qed.


Definition small_internal : InternalPage.t :=
  InternalPage.mk 3 INVALID_PAGE_ID 4 [(zero_key, 1); (4, 2); (7, 4)].

Lemma internal_Lookup_covering_child_witness :
  exists i c,
    InternalPage.Lookup small_internal 5 = Done c /\
    (InternalPage.array small_internal).*2 !! i = Some c.
Proof.
  assert (Hs : inner_sorted (InternalPage.array small_internal).*1).
  { unfold inner_sorted. cbn. repeat constructor; lia. }
  destruct (proj2 (internal_Lookup_covering_child small_internal 5 Hs))
    as (i & c & Hrun & Hc & _); [cbn; lia|].
  exists i, c. split; assumption.
Defined.

Lemma InsertNodeAfter_next_slot_witness :
  exists n',
    InternalPage.InsertNodeAfter 2 6 5 small_internal = Done (4%nat, n') /\
    InternalPage.array n' !! 2%nat = Some (6, 5) /\
    InternalPage.ValueIndex n' 5 = Some 2%nat.
Proof.
  destruct (proj2 (InsertNodeAfter_next_slot small_internal 2 6 5) 1%nat eq_refl)
    as (n' & Hrun & _ & Hslot & _ & _ & _ & Hnew).
  exists n'. split; [exact Hrun|]. split; [exact Hslot|].
  apply Hnew. cbn. rewrite !elem_of_cons, elem_of_nil. lia.
Defined.

(** *** Splitting an internal page *)

Lemma Page_parent_set (parent : Z) (p : Page) :
  Page_GetParentPageId (Page_SetParentPageId parent p) = parent.
Proof. now destruct p. Qed.

(** Every adopted child ends with the new parent, and a page that had this
    parent keeps it. *)
Lemma adopt_all_parents (parent : Z) (children : list Z) :
  forall s s', adopt_all parent children s = Done s' ->
    (forall i, Page_GetParentPageId <$> s !! i = Some parent ->
       Page_GetParentPageId <$> s' !! i = Some parent) /\
    (forall c, c ∈ children -> Page_GetParentPageId <$> s' !! c = Some parent).
Proof.
  induction children as [|c children IH]; intros s s' Hrun.
  - simpl in Hrun. injection Hrun as <-. split; [auto|].
    intros c Hc. now apply elem_of_nil in Hc.
  - simpl in Hrun. unfold adopt, FetchPage in Hrun.
    destruct (s !! c) as [p|] eqn:Hp; [|discriminate].
    simpl in Hrun. destruct (IH _ _ Hrun) as [Hkeep Hnew].
    assert (Hc : Page_GetParentPageId <$> s' !! c = Some parent).
    { apply Hkeep. rewrite lookup_insert_eq. simpl. now rewrite Page_parent_set. }
    split.
    + intros i Hi. apply Hkeep. rewrite lookup_insert. case_decide; [|exact Hi].
      simpl. now rewrite Page_parent_set.
    + intros c' Hc'. apply elem_of_cons in Hc' as [->|Hc']; [exact Hc|now apply Hnew].
Qed.

(** X19: splitting an internal page that overflows by one slot (Split with
    MoveHalfTo and CopyHalfFrom) allocates the next page id for the new
    page, leaves the first min_size pairs in the old page and moves the
    rest, in order, to the new one, which gets the old page's parent; every
    child named by a moved pair has its parent pointer set to the new page,
    and no other page is touched. *)
Theorem Split_internal_reparents (internal_max_size : nat) (tr : t) (P : Z)
    (n : InternalPage.t) :
  store_ok tr ->
  pages tr !! P = Some (Internal n) ->
  InternalPage.GetSize n = (InternalPage.GetMaxSize n + 1)%nat ->
  (forall c, c ∈ (InternalPage.array n).*2 -> is_Some (pages tr !! c) /\ c <> P) ->
  exists tr' left right,
    Split_internal internal_max_size P tr = Done (next_page_id tr, tr') /\
    next_page_id tr' = next_page_id tr + 1 /\
    pages tr' !! P = Some (Internal left) /\
    pages tr' !! next_page_id tr = Some (Internal right) /\
    InternalPage.array n = InternalPage.array left ++ InternalPage.array right /\
    InternalPage.GetSize left = InternalPage.GetMinSize n /\
    InternalPage.parent_page_id_ left = InternalPage.parent_page_id_ n /\
    InternalPage.parent_page_id_ right = InternalPage.parent_page_id_ n /\
    InternalPage.page_id_ right = next_page_id tr /\
    (forall c, c ∈ (InternalPage.array right).*2 ->
       Page_GetParentPageId <$> pages tr' !! c = Some (next_page_id tr)) /\
    (forall i, i <> P -> i <> next_page_id tr -> i ∉ (InternalPage.array right).*2 ->
       pages tr' !! i = pages tr !! i).
Proof.
  intros Hok HP Hsz Hch.
  assert (HPN : P <> next_page_id tr).
  { intros Heq. destruct (Hok P) as [_ Hlt]; [rewrite HP; eauto|]. lia. }
  assert (HNone : pages tr !! next_page_id tr = None).
  { destruct (pages tr !! next_page_id tr) eqn:E; [|reflexivity].
    destruct (Hok (next_page_id tr)) as [_ Hlt]; [rewrite E; eauto|]. lia. }
  set (N := next_page_id tr) in *.
  set (half := InternalPage.GetMinSize n).
  set (items := drop half (InternalPage.array n)).
  assert (Hsub : forall c, c ∈ items.*2 -> c ∈ (InternalPage.array n).*2).
  { intros c Hc. unfold items in Hc. rewrite fmap_drop in Hc.
    eapply subseteq_drop. exact Hc. }
  assert (HcN : forall c, c ∈ (InternalPage.array n).*2 -> c <> N).
  { intros c Hc ->. destruct (Hch N Hc) as [[p Hp] _]. congruence. }
  unfold Split_internal, NewPage. cbn [pages]. fold N.
  rewrite (fetch_internal_Some _ _ _ HP), bind_Done.
  set (new_node := InternalPage.Init internal_max_size N (InternalPage.GetParentPageId n)).
  unfold Internal_MoveHalfTo.
  rewrite (fetch_internal_Some _ P n) by (now rewrite lookup_insert_ne by congruence).
  rewrite bind_Done.
  rewrite (fetch_internal_Some _ N new_node) by apply lookup_insert_eq.
  rewrite bind_Done.
  rewrite Hsz. change (InternalPage.GetSize new_node) with 0%nat.
  rewrite !Nat.eqb_refl. cbn [negb orb]. fold half items.
  set (s2 := <[N := Internal (InternalPage.set_array items new_node)]>
               (<[N := Internal new_node]> (pages tr))).
  destruct (adopt_all_spec N items.*2 s2) as (s3 & Hs3 & _ & Hother).
  { intros c Hc. destruct (Hch c (Hsub c Hc)) as [[p Hp] _]. unfold s2.
    rewrite !lookup_insert_ne by (apply not_eq_sym, HcN, Hsub, Hc). eauto. }
  destruct (adopt_all_parents N items.*2 s2 s3 Hs3) as [_ Hparents].
  rewrite Hs3, bind_Done.
  assert (HPitems : P ∉ items.*2).
  { intros Hin. destruct (Hch P (Hsub P Hin)) as [_ Hne]. congruence. }
  assert (HNitems : N ∉ items.*2).
  { intros Hin. now apply (HcN N (Hsub N Hin)). }
  assert (H3P : s3 !! P = Some (Internal n)).
  { rewrite (Hother P HPitems). unfold s2. now rewrite !lookup_insert_ne by congruence. }
  rewrite (fetch_internal_Some _ _ _ H3P), bind_Done.
  eexists _, (InternalPage.set_array (take half (InternalPage.array n)) n),
    (InternalPage.set_array items new_node).
  split; [reflexivity|]. cbn [next_page_id pages set_pages].
  split; [reflexivity|]. split; [apply lookup_insert_eq|]. split.
  { rewrite lookup_insert_ne by congruence. rewrite (Hother N HNitems).
    unfold s2. apply lookup_insert_eq. }
  split; [cbn; unfold items; now rewrite take_drop|].
  split.
  { unfold InternalPage.GetSize at 1.
    cbn [InternalPage.array InternalPage.set_array]. rewrite length_take.
    unfold InternalPage.GetSize, InternalPage.GetMaxSize in Hsz. rewrite Hsz.
    unfold half, InternalPage.GetMinSize, min_size_of.
    pose proof (Nat.Div0.div_le_upper_bound (InternalPage.max_size_ n + 1) 2
                  (InternalPage.max_size_ n + 1)). lia. }
  split; [reflexivity|]. split; [reflexivity|]. split; [reflexivity|]. split.
  - cbn [InternalPage.array InternalPage.set_array]. intros c Hc.
    rewrite lookup_insert_ne by (intros ->; contradiction). now apply Hparents.
  - cbn [InternalPage.array InternalPage.set_array]. intros i HiP HiN Hi.
    rewrite lookup_insert_ne by congruence. rewrite (Hother i Hi).
    unfold s2. now rewrite !lookup_insert_ne by congruence.
Qed.

(** An internal page of max_size 3 holding four children. *)
Definition overfull_root : t :=
  mk 5
     (<[1 := Leaf (LeafPage.mk 1 5 4 2 [entry 1; entry 2])]>
        (<[2 := Leaf (LeafPage.mk 2 5 4 3 [entry 10; entry 11])]>
           (<[3 := Leaf (LeafPage.mk 3 5 4 4 [entry 20; entry 21])]>
              (<[4 := Leaf (LeafPage.mk 4 5 4 INVALID_PAGE_ID [entry 30; entry 31])]>
                 (<[5 := Internal (InternalPage.mk 5 INVALID_PAGE_ID 3
                                     [(zero_key, 1); (10, 2); (20, 3); (30, 4)])]> ∅)))))
     6 (Some 5).

Lemma Split_internal_reparents_witness :
  exists tr',
    Split_internal 3 5 overfull_root = Done (6, tr') /\
    Page_GetParentPageId <$> pages tr' !! 4 = Some 6 /\
    pages tr' !! 1 = pages overfull_root !! 1.
Proof.
  destruct (Split_internal_reparents 3 overfull_root 5
              (InternalPage.mk 5 INVALID_PAGE_ID 3 [(zero_key, 1); (10, 2); (20, 3); (30, 4)]))
    as (tr' & left & right & Hrun & _ & _ & HN & Harr & Hleft & _ & _ & _ & Hpar & Hother).
  - apply store_okb_ok. vm_compute. reflexivity.
  - vm_compute. reflexivity.
  - reflexivity.
  - intros c Hc. cbn in Hc. rewrite !elem_of_cons, elem_of_nil in Hc.
    destruct Hc as [->|[->|[->|[->|[]]]]]; (split; [vm_compute; eauto|lia]).
  - assert (Hright : InternalPage.array right = [(20, 3); (30, 4)]).
    { cbn in Harr. change (InternalPage.GetMinSize _) with 2%nat in Hleft.
      unfold InternalPage.GetSize in Hleft.
      destruct (InternalPage.array left) as [|a [|b [|c l]]]; try discriminate.
      simpl in Harr. now injection Harr as _ _ <-. }
    exists tr'. split; [exact Hrun|]. split.
    + apply Hpar. rewrite Hright. cbn. rewrite !elem_of_cons. tauto.
    + apply Hother; [lia|cbn; lia|].
      rewrite Hright. cbn. rewrite !elem_of_cons, elem_of_nil. lia.
Defined.


(** *** Removal that needs no rebalancing *)

(** On a well-formed index the search for a key ends in a sorted leaf. *)
Lemma wf_find_leaf (leaf_max_size internal_max_size fuel h : nat) (key : Z) (tr : t) :
  tree_wf leaf_max_size internal_max_size tr h -> IsEmpty tr = false -> (h < fuel)%nat ->
  exists L l,
    FindLeafPage fuel tr key false = Done L /\
    pages tr !! L = Some (Leaf l) /\
    LeafPage.page_id_ l = L /\
    StronglySorted Z.lt (LeafPage.array l).*1 /\
    (LeafPage.GetSize l <= LeafPage.GetMaxSize l)%nat /\
    (h = 0%nat -> LeafPage.parent_page_id_ l = INVALID_PAGE_ID /\ root_page_id_ tr = L).
Proof.
  intros (Hok & Hnext & Hwf) Hne Hfuel. specialize (Hwf Hne).
  destruct (wf_path leaf_max_size internal_max_size (pages tr) key h
              (root_page_id_ tr) None None [])
    as (frames & L & lo & hi & Hctx & Htop & Hlen & HwfL & HLanc).
  - exact Hwf.
  - split; [exact (wf_page _ _ _ _ _ _ _ _ Hwf)|]. now split.
  - intros A HA. simpl in HA. now apply elem_of_nil in HA.
  - change (top (root_page_id_ tr) []) with (root_page_id_ tr) in Htop.
    simpl in Hlen.
    inversion HwfL as [? ? ? ? l HL Hid Hpar Hmax Hsz Hsort Hkeys|]; subst.
    exists (LeafPage.page_id_ l), l.
    split; [|split; [exact HL|split; [reflexivity|split; [exact Hsort|split; [exact Hsz|]]]]].
    + apply (FindLeafPage_leaf internal_max_size fuel tr key frames _ lo hi l Hne
               (eq_sym Htop) Hctx HL). lia.
    + intros Hh. destruct frames; [|discriminate]. split; [exact Hpar|].
      symmetry. exact Htop.
Qed.

(** Rewriting a leaf in place does not change where a search ends. *)
Lemma FindLeafPage_from_leaf_update (s : gmap Z Page) (L : Z) (l l' : LeafPage.t)
    (fuel : nat) (key : Z) (leftMost : bool) :
  s !! L = Some (Leaf l) ->
  forall cur,
    FindLeafPage_from fuel (<[L := Leaf l']> s) key leftMost cur
    = FindLeafPage_from fuel s key leftMost cur.
Proof.
  intros HL. induction fuel as [|fuel IH]; intros cur; [reflexivity|].
  cbn [FindLeafPage_from]. unfold FetchPage. rewrite lookup_insert.
  case_decide as Hcur.
  - subst cur. now rewrite HL.
  - destruct (s !! cur) as [[l0|n]|]; simpl; try reflexivity.
    destruct (if leftMost then _ else _) as [next| |]; simpl; [apply IH|reflexivity..].
Qed.


Lemma Lookup_after_delete (l : LeafPage.t) (key : Z) (v : RID) :
  StronglySorted Z.lt (LeafPage.array l).*1 ->
  LeafPage.Lookup l key = Some v ->
  let l' := LeafPage.set_array (delete (LeafPage.KeyIndex l key) (LeafPage.array l)) l in
  LeafPage.RemoveAndDeleteRecord key l = Done (LeafPage.GetSize l', l') /\
  S (LeafPage.GetSize l') = LeafPage.GetSize l /\
  LeafPage.Lookup l' key = None /\
  (forall k, k <> key -> LeafPage.Lookup l' k = LeafPage.Lookup l k).
Proof.
  intros Hs Hl l'. pose proof Hl as Hentry. apply Lookup_Some in Hentry.
  assert (Hfound : LeafPage.found_at l key (LeafPage.KeyIndex l key) = true)
    by (apply found_at_true; eauto).
  assert (Hs' : StronglySorted Z.lt (LeafPage.array l').*1).
  { unfold l'. simpl. rewrite list_fmap_delete. now apply sorted_delete. }
  assert (Hsize : S (LeafPage.GetSize l') = LeafPage.GetSize l).
  { unfold l', LeafPage.GetSize. simpl. rewrite length_delete by eauto.
    apply lookup_lt_Some in Hentry. lia. }
  split; [|split; [exact Hsize|split]].
  - unfold LeafPage.RemoveAndDeleteRecord.
    replace (LeafPage.GetSize l =? 0)%nat with false by (symmetry; apply Nat.eqb_neq; lia).
    now rewrite Hfound.
  - apply (Lookup_None_keys l' key Hs'). intros Hin.
    apply list_elem_of_fmap in Hin as [[k w] [Hk Hin]]. simpl in Hk. subst k.
    unfold l' in Hin. simpl in Hin.
    apply (delete_elem _ _ key v _ Hs Hentry) in Hin as [_ Hne]. now apply Hne.
  - intros k Hk. apply Lookup_ext; [exact Hs|exact Hs'|].
    intros w. unfold l'. simpl. rewrite (delete_elem _ _ key v _ Hs Hentry). simpl.
    tauto.
Qed.

(** Lookups in an index whose leaf [L] has lost [key]. *)
Lemma GetValue_leaf_update (fuel : nat) (tr : t) (L : Z) (l l' : LeafPage.t) (key : Z) :
  pages tr !! L = Some (Leaf l) ->
  FindLeafPage fuel tr key false = Done L ->
  LeafPage.Lookup l' key = None ->
  (forall k, k <> key -> LeafPage.Lookup l' k = LeafPage.Lookup l k) ->
  let tr' := set_pages (<[L := Leaf l']> (pages tr)) tr in
  GetValue fuel key tr' = Done None /\
  (forall k, k <> key -> GetValue fuel k tr' = GetValue fuel k tr).
Proof.
  intros HL Hfind Hgone Hsame tr'.
  assert (Hfind' : forall k, FindLeafPage fuel tr' k false = FindLeafPage fuel tr k false).
  { intros k. unfold FindLeafPage, tr', IsEmpty. cbn [root_page_id_ pages set_pages].
    destruct (_ =? _); [reflexivity|].
    apply (FindLeafPage_from_leaf_update _ _ l l' _ _ _ HL). }
  assert (Hne : IsEmpty tr = false).
  { unfold FindLeafPage in Hfind. destruct (IsEmpty tr); [discriminate|reflexivity]. }
  assert (Hne' : IsEmpty tr' = false) by exact Hne.
  split.
  - unfold GetValue. rewrite Hne', Hfind', Hfind, bind_Done.
    unfold tr'. cbn [pages set_pages].
    rewrite (fetch_leaf_Some _ L l') by apply lookup_insert_eq.
    now rewrite bind_Done, Hgone.
  - intros k Hk. unfold GetValue. rewrite Hne', Hne, Hfind'.
    destruct (FindLeafPage fuel tr k false) as [X| |]; [|reflexivity..].
    rewrite !bind_Done. unfold tr'. cbn [pages set_pages].
    destruct (decide (X = L)) as [->|HX].
    + rewrite (fetch_leaf_Some _ L l') by apply lookup_insert_eq.
      rewrite (fetch_leaf_Some _ L l HL), !bind_Done. now rewrite Hsame.
    + unfold fetch_leaf, FetchPage. now rewrite lookup_insert_ne by congruence.
Qed.

(** X21: Remove on a well-formed index that is not empty.  The search ends
    in a leaf; a key that leaf does not hold leaves the index as it is; a
    key it holds is removed when the leaf keeps at least min_size entries or
    is the root: afterwards GetValue no longer finds the key and finds every
    other key as before, and the index is empty exactly when the root leaf
    held only that key.  On an empty leaf the assertion of
    RemoveAndDeleteRecord fails. *)
Theorem Remove_then_get (leaf_max_size internal_max_size fuel h : nat) (key : Z) (tr : t) :
  tree_wf leaf_max_size internal_max_size tr h -> IsEmpty tr = false -> (h < fuel)%nat ->
  exists L l,
    FindLeafPage fuel tr key false = Done L /\
    pages tr !! L = Some (Leaf l) /\
    (LeafPage.GetSize l = 0%nat -> Remove fuel key tr = Undefined) /\
    ((0 < LeafPage.GetSize l)%nat -> LeafPage.Lookup l key = None ->
     Remove fuel key tr = Done tr) /\
    (is_Some (LeafPage.Lookup l key) ->
     (LeafPage.GetMinSize l < LeafPage.GetSize l)%nat \/ h = 0%nat ->
     exists tr',
       Remove fuel key tr = Done tr' /\
       GetValue fuel key tr' = Done None /\
       (forall k, k <> key -> GetValue fuel k tr' = GetValue fuel k tr) /\
       (IsEmpty tr' = true <-> LeafPage.GetSize l = 1%nat /\ h = 0%nat)).
Proof.
  intros Hwf Hne Hfuel.
  destruct (wf_find_leaf leaf_max_size internal_max_size fuel h key tr Hwf Hne Hfuel)
    as (L & l & Hfind & HL & Hid & Hsort & Hmax & Hroot).
  exists L, l. split; [exact Hfind|]. split; [exact HL|].
  assert (Hstart :
            Remove fuel key tr
            = (LeafPage.RemoveAndDeleteRecord key l ≫=
                 fun '(new_size, leaf_page) =>
                   let tr1 := set_pages (<[L := Leaf leaf_page]> (pages tr)) tr in
                   let removed := negb (new_size =? LeafPage.GetSize l)%nat in
                   if removed && (new_size <? LeafPage.GetMinSize leaf_page)%nat then
                     CoalesceOrRedistribute fuel L tr1 ≫=
                       fun '(delete_leaf, tr2) =>
                         if delete_leaf : bool
                         then Done (DeletePage (LeafPage.GetPageId leaf_page) tr2)
                         else Done tr2
                   else Done tr1)).
  { unfold Remove. rewrite Hne, Hfind, bind_Done.
    now rewrite (fetch_leaf_Some _ _ _ HL), bind_Done. }
  split; [|split].
  - intros Hz. rewrite Hstart. unfold LeafPage.RemoveAndDeleteRecord. now rewrite Hz.
  - intros Hpos Hnone. rewrite Hstart. unfold LeafPage.RemoveAndDeleteRecord.
    replace (LeafPage.GetSize l =? 0)%nat with false by (symmetry; apply Nat.eqb_neq; lia).
    assert (Hfound : LeafPage.found_at l key (LeafPage.KeyIndex l key) = false).
    { destruct (LeafPage.found_at l key _) eqn:E; [|reflexivity].
      unfold LeafPage.Lookup in Hnone. rewrite E in Hnone.
      apply found_at_true in E as [v Hv]. rewrite Hv in Hnone. discriminate. }
    rewrite Hfound, bind_Done. cbn zeta. rewrite Nat.eqb_refl. cbn [negb andb].
    f_equal. rewrite insert_id by exact HL. apply set_pages_same.
  - intros [v Hv] Hcase.
    destruct (Lookup_after_delete l key v Hsort Hv) as (Hrun & Hsize & Hgone & Hsame).
    set (l' := LeafPage.set_array (delete (LeafPage.KeyIndex l key) (LeafPage.array l)) l)
      in *.
    destruct (GetValue_leaf_update fuel tr L l l' key HL Hfind Hgone Hsame)
      as [Hget Hothers].
    set (tr1 := set_pages (<[L := Leaf l']> (pages tr)) tr) in *.
    rewrite Hstart, Hrun, bind_Done. cbn zeta. fold tr1.
    replace (LeafPage.GetSize l' =? LeafPage.GetSize l)%nat with false
      by (symmetry; apply Nat.eqb_neq; lia).
    cbn [negb andb].
    change (LeafPage.GetMinSize l') with (LeafPage.GetMinSize l).
    assert (Hne1 : IsEmpty tr1 = false) by exact Hne.
    assert (Hkeep : exists tr', Done tr1 = Done tr' /\
              GetValue fuel key tr' = Done None /\
              (forall k, k <> key -> GetValue fuel k tr' = GetValue fuel k tr) /\
              IsEmpty tr' = false).
    { exists tr1. auto. }
    destruct (LeafPage.GetSize l' <? LeafPage.GetMinSize l)%nat eqn:Hunder.
    + apply Nat.ltb_lt in Hunder. destruct Hcase as [Hbig|Hh]; [lia|].
      destruct (Hroot Hh) as [Hparent Hrootid].
      assert (Hf1 : FetchPage (pages tr1) L = Done (Leaf l')).
      { apply FetchPage_Some. unfold tr1. cbn [pages set_pages]. apply lookup_insert_eq. }
      assert (Hisroot : Page_IsRootPage (Leaf l') = true).
      { unfold Page_IsRootPage. cbn. rewrite Hparent. apply Z.eqb_refl. }
      destruct fuel as [|fuel']; [lia|]. cbn [CoalesceOrRedistribute].
      rewrite Hf1, bind_Done, Hisroot. unfold AdjustRoot. rewrite Hf1, bind_Done.
      destruct (LeafPage.GetSize l' =? 0)%nat eqn:Hzero.
      * apply Nat.eqb_eq in Hzero. rewrite bind_Done.
        eexists. split; [reflexivity|]. split; [reflexivity|]. split.
        -- intros k Hk. rewrite <- Hothers by exact Hk.
           transitivity (Done (A := option RID) None); [reflexivity|]. symmetry.
           unfold GetValue, FindLeafPage. rewrite Hne1.
           change (root_page_id_ tr1) with (root_page_id_ tr). rewrite Hrootid.
           cbn [FindLeafPage_from]. rewrite Hf1, !bind_Done.
           unfold fetch_leaf. rewrite Hf1, !bind_Done.
           unfold LeafPage.Lookup, LeafPage.found_at.
           unfold LeafPage.GetSize in Hzero. apply length_zero_iff_nil in Hzero.
           now rewrite Hzero, lookup_nil.
        -- split; [intros _; split; [lia|exact Hh]|reflexivity].
      * apply Nat.eqb_neq in Hzero. rewrite bind_Done.
        destruct Hkeep as (tr' & Heq & H1 & H2 & H3). exists tr'.
        split; [exact Heq|]. split; [exact H1|]. split; [exact H2|].
        rewrite H3. split; [discriminate|]. intros [Hone _]. lia.
    + apply Nat.ltb_ge in Hunder.
      destruct Hkeep as (tr' & Heq & H1 & H2 & H3). exists tr'.
      split; [exact Heq|]. split; [exact H1|]. split; [exact H2|].
      rewrite H3. split; [discriminate|]. intros [Hone _].
      unfold LeafPage.GetMinSize, min_size_of, LeafPage.GetMaxSize in *.
      assert (Hmin : ((LeafPage.max_size_ l + 1) / 2 = 0)%nat) by lia.
      apply Nat.div_small_iff in Hmin; lia.
Qed.

Lemma Remove_then_get_witness :
  exists tr',
    Remove 3 5 full_leaf_tree = Done tr' /\
    GetValue 3 5 tr' = Done None /\
    GetValue 3 6 tr' = GetValue 3 6 full_leaf_tree /\
    IsEmpty tr' = false.
Proof.
  destruct (Remove_then_get 4 4 3 1 5 full_leaf_tree full_leaf_tree_wf eq_refl ltac:(lia))
    as (L & l & Hfind & HL & _ & _ & Hremoved).
  assert (HL2 : L = 2).
  { assert (Hrun : FindLeafPage 3 full_leaf_tree 5 false = Done 2) by (vm_compute; reflexivity).
    rewrite Hrun in Hfind. now injection Hfind as <-. }
  subst L.
  assert (Hl : l = full_leaf).
  { assert (Hpage : pages full_leaf_tree !! 2 = Some (Leaf full_leaf))
      by (vm_compute; reflexivity).
    rewrite Hpage in HL. now injection HL as <-. }
  subst l.
  destruct Hremoved as (tr' & Hrun & Hgone & Hothers & Hempty).
  - exists (5, 0). vm_compute. reflexivity.
  - left. cbn. lia.
  - exists tr'. split; [exact Hrun|]. split; [exact Hgone|]. split; [apply Hothers; lia|].
    destruct (IsEmpty tr'); [|reflexivity]. destruct (proj1 Hempty eq_refl). discriminate.
Defined.


(** *** Redistribution between leaves *)



Lemma SetKeyAt_one_slot (n : InternalPage.t) (i : nat) (k : Z) :
  (InternalPage.GetSize n <= 1)%nat -> (1 <= i)%nat ->
  InternalPage.SetKeyAt i k n = Undefined.
Proof.
  intros Hn Hi. unfold InternalPage.SetKeyAt, InternalPage.chained_assert.
  replace (0 <? i)%nat with true by (symmetry; apply Nat.ltb_lt; lia).
  replace (1 <? InternalPage.GetSize n)%nat with false by (symmetry; apply Nat.ltb_ge; lia).
  reflexivity.
Qed.





(** *** Merging two leaves *)

(** X26: Coalesce on two leaves that both hold at most min_size entries
    always empties the right leaf into the left one, whichever of the two
    was the node (for index 0 the roles are swapped): the left leaf then
    holds its entries followed by those of the right leaf and takes over the
    right leaf's next page id, the right leaf is left empty, and the parent
    loses the slot of the right leaf.  When the parent keeps min_size slots
    there is no recursion and Coalesce returns false. *)
Theorem leaf_Coalesce_merges (recurse : Z -> t -> outcome (bool * t)) (tr : t)
    (L R P : Z) (left right : LeafPage.t) (par : InternalPage.t) (index : nat) :
  pages tr !! L = Some (Leaf left) ->
  pages tr !! R = Some (Leaf right) ->
  pages tr !! P = Some (Internal par) ->
  L <> R ->
  (LeafPage.GetSize left <= LeafPage.GetMinSize left)%nat ->
  (LeafPage.GetSize right <= LeafPage.GetMinSize right)%nat ->
  (1 <= index < InternalPage.GetSize par)%nat ->
  (InternalPage.GetMinSize par < InternalPage.GetSize par)%nat ->
  exists tr' left' right' par',
    Coalesce recurse L R P index tr = Done (false, tr') /\
    (index = 1%nat -> Coalesce recurse R L P 0 tr = Done (false, tr')) /\
    root_page_id_ tr' = root_page_id_ tr /\
    pages tr' = <[P := Internal par']> (<[R := Leaf right']> (<[L := Leaf left']> (pages tr))) /\
    LeafPage.array left' = LeafPage.array left ++ LeafPage.array right /\
    LeafPage.GetNextPageId left' = LeafPage.GetNextPageId right /\
    LeafPage.array right' = [] /\
    InternalPage.array par' = delete index (InternalPage.array par).
Proof.
  intros HL HR HP HLR Hleft Hright Hidx Hpar.
  assert (HPL : P <> L) by (intros ->; congruence).
  assert (HPR : P <> R) by (intros ->; congruence).
  set (left' := LeafPage.SetNextPageId (LeafPage.GetNextPageId right)
                  (LeafPage.CopyAllFrom (LeafPage.array right) left)).
  set (right' := LeafPage.set_array [] right).
  set (par' := InternalPage.set_array (delete index (InternalPage.array par)) par).
  set (tr' := set_pages (<[P := Internal par']>
                           (<[R := Leaf right']> (<[L := Leaf left']> (pages tr)))) tr).
  assert (Hrun : forall triple : Z * Z * nat, triple = (L, R, index) ->
            (let '(neighbor_id, node_id, index) := triple in
             node ← FetchPage (pages tr) node_id;
             s ← match node with
                 | Leaf _ => Leaf_MoveAllTo node_id neighbor_id (pages tr)
                 | Internal _ => Internal_MoveAllTo node_id neighbor_id index (pages tr)
                 end;
             parent ← fetch_internal s P;
             parent ← InternalPage.Remove index parent;
             let tr := set_pages (<[P := Internal parent]> s) tr in
             if (InternalPage.GetSize parent <? InternalPage.GetMinSize parent)%nat
             then recurse P tr
             else Done (false, tr)) = Done (false, tr')).
  { intros triple ->.
    rewrite (FetchPage_Some _ _ _ HR), bind_Done. unfold Leaf_MoveAllTo.
    rewrite (fetch_leaf_Some _ _ _ HR), bind_Done, (fetch_leaf_Some _ _ _ HL), bind_Done.
    unfold LeafPage.MoveAllTo.
    replace (LeafPage.GetSize right <=? LeafPage.GetMinSize right)%nat with true
      by (symmetry; apply Nat.leb_le; lia).
    replace (LeafPage.GetSize left <=? LeafPage.GetMinSize left)%nat with true
      by (symmetry; apply Nat.leb_le; lia).
    cbn [negb andb]. rewrite !bind_Done.
    rewrite (fetch_internal_Some _ P par)
      by (now rewrite !lookup_insert_ne by congruence).
    rewrite bind_Done. unfold InternalPage.Remove.
    replace (InternalPage.GetSize par =? 0)%nat with false
      by (symmetry; apply Nat.eqb_neq; lia).
    unfold InternalPage.chained_assert.
    replace (0 <? index)%nat with true by (symmetry; apply Nat.ltb_lt; lia).
    replace (1 <? InternalPage.GetSize par)%nat with true
      by (symmetry; apply Nat.ltb_lt; lia).
    replace (index <? InternalPage.GetSize par)%nat with true
      by (symmetry; apply Nat.ltb_lt; lia).
    cbn [negb]. rewrite bind_Done. cbn zeta. fold par'.
    assert (Hsz : InternalPage.GetSize par' = (InternalPage.GetSize par - 1)%nat).
    { unfold par', InternalPage.GetSize. cbn [InternalPage.array InternalPage.set_array].
      rewrite length_delete; [reflexivity|].
      apply lookup_lt_is_Some_2. unfold InternalPage.GetSize in Hidx. lia. }
    change (InternalPage.GetMinSize par') with (InternalPage.GetMinSize par).
    rewrite Hsz.
    replace (InternalPage.GetSize par - 1 <? InternalPage.GetMinSize par)%nat with false
      by (symmetry; apply Nat.ltb_ge; lia).
    reflexivity. }
  exists tr', left', right', par'. split; [|split].
  - unfold Coalesce. apply Hrun.
    destruct (Nat.eqb_spec index 0); [lia|reflexivity].
  - intros ->. unfold Coalesce. apply Hrun. reflexivity.
  - split; [reflexivity|]. split; [reflexivity|]. split; [reflexivity|].
    split; [reflexivity|]. split; reflexivity.
Qed.

(** Two leaves with one and two entries under a parent with three
    children. *)
Definition merge_ready : t :=
  mk 3
     (<[1 := Leaf (LeafPage.mk 1 3 4 2 [entry 2])]>
        (<[2 := Leaf (LeafPage.mk 2 3 4 4 [entry 4; entry 5])]>
           (<[3 := Internal (InternalPage.mk 3 INVALID_PAGE_ID 4
                               [(zero_key, 1); (4, 2); (7, 4)])]>
              (<[4 := Leaf (LeafPage.mk 4 3 4 INVALID_PAGE_ID [entry 7; entry 8])]> ∅))))
     5 (Some 3).

Lemma leaf_Coalesce_merges_witness :
  exists tr' left' par',
    Coalesce (CoalesceOrRedistribute 1) 2 1 3 0 merge_ready = Done (false, tr') /\
    pages tr' !! 1 = Some (Leaf left') /\
    LeafPage.array left' = [entry 2; entry 4; entry 5] /\
    pages tr' !! 3 = Some (Internal par') /\
    InternalPage.array par' = [(zero_key, 1); (7, 4)].
Proof.
  destruct (leaf_Coalesce_merges (CoalesceOrRedistribute 1) merge_ready 1 2 3
              (LeafPage.mk 1 3 4 2 [entry 2])
              (LeafPage.mk 2 3 4 4 [entry 4; entry 5])
              (InternalPage.mk 3 INVALID_PAGE_ID 4 [(zero_key, 1); (4, 2); (7, 4)]) 1)
    as (tr' & left' & right' & par' & _ & Hrun & _ & Hpages & Hleft & _ & _ & Hpar).
  - reflexivity.
  - reflexivity.
  - reflexivity.
  - lia.
  - cbn. lia.
  - cbn. lia.
  - cbn. lia.
  - cbn. lia.
  - exists tr', left', par'. split; [exact (Hrun eq_refl)|]. rewrite Hpages.
    split; [|split; [exact Hleft|split; [|exact Hpar]]].
    + rewrite !lookup_insert_ne by lia. apply lookup_insert_eq.
    + apply lookup_insert_eq.
Defined.

End BPlusTree.

(** * The index iterator (index_iterator.cpp)

    [curr_page_] points into the frame of a pinned leaf; the model keeps the
    id of that leaf and reads the leaf in the page store.  Pin counts are
    not part of the store, so the UnpinPage calls leave no trace. *)
Module IndexIterator.
Import Pool.

Definition INT_MAX : Z := 2147483647.

Record t := mk {
  offset_ : Z;
  curr_page_ : Z
}.

Definition isEnd (s : gmap Z Page) (it : t) : outcome bool :=
  p ← fetch_leaf s (curr_page_ it);
  Done ((LeafPage.GetNextPageId p =? INVALID_PAGE_ID)
        && (Z.of_nat (LeafPage.GetSize p) <=? offset_ it)).

(** [operator*]; GetItem asserts that the offset is a slot in use. *)
Definition deref (s : gmap Z Page) (it : t) : outcome (Z * RID) :=
  e ← isEnd s it;
  if e : bool then Undefined
  else
    p ← fetch_leaf s (curr_page_ it);
    if offset_ it <? 0 then Undefined
    else LeafPage.GetItem p (Z.to_nat (offset_ it)).

(** [operator++]; incrementing an [int] that holds INT_MAX is undefined. *)
Definition incr (s : gmap Z Page) (it : t) : outcome t :=
  e ← isEnd s it;
  if e : bool then Undefined
  else if INT_MAX <=? offset_ it then Undefined
  else
    p ← fetch_leaf s (curr_page_ it);
    let offset := offset_ it + 1 in
    if Z.of_nat (LeafPage.GetSize p) <=? offset then
      let next_page_id := LeafPage.GetNextPageId p in
      if next_page_id =? INVALID_PAGE_ID then Done (mk offset (curr_page_ it))
      else
        _ ← fetch_leaf s next_page_id;
        Done (mk 0 next_page_id)
    else Done (mk offset (curr_page_ it)).

(** [k] increments in a row. *)
Fixpoint advance (k : nat) (s : gmap Z Page) (it : t) : outcome t :=
  match k with
  | O => Done it
  | S k => it ← incr s it; advance k s it
  end.


(** The leaves from page [id] on, linked by their next page ids; every leaf
    but the last holds an entry, and a size fits an [int]. *)
Inductive chain (s : gmap Z Page) : Z -> list LeafPage.t -> Prop :=
| chain_last id l :
    s !! id = Some (Leaf l) ->
    LeafPage.GetNextPageId l = INVALID_PAGE_ID ->
    Z.of_nat (LeafPage.GetSize l) <= INT_MAX ->
    chain s id [l]
| chain_next id l ls :
    s !! id = Some (Leaf l) ->
    LeafPage.GetNextPageId l <> INVALID_PAGE_ID ->
    (0 < LeafPage.GetSize l)%nat ->
    Z.of_nat (LeafPage.GetSize l) <= INT_MAX ->
    chain s (LeafPage.GetNextPageId l) ls ->
    chain s id (l :: ls).

(** The entries of the leaves, in scan order. *)
Definition entries (ls : list LeafPage.t) : list (Z * RID) :=
  concat (LeafPage.array <$> ls).

Lemma chain_head (s : gmap Z Page) (id : Z) (ls : list LeafPage.t) :
  chain s id ls -> exists l, s !! id = Some (Leaf l).
Proof. intros H. inversion H; eauto. Qed.

Lemma advance_add (a b : nat) (s : gmap Z Page) (it : t) :
  advance (a + b) s it = (it' ← advance a s it; advance b s it').
Proof.
  revert it. induction a as [|a IH]; intros it; simpl; [reflexivity|].
  destruct (incr s it) as [it'| |]; simpl; [apply IH|reflexivity|reflexivity].
Qed.

(** A step that stays inside the page. *)
Lemma incr_inside (s : gmap Z Page) (id : Z) (l : LeafPage.t) (off : Z) :
  s !! id = Some (Leaf l) ->
  Z.of_nat (LeafPage.GetSize l) <= INT_MAX ->
  0 <= off -> off + 1 < Z.of_nat (LeafPage.GetSize l) ->
  incr s (mk off id) = Done (mk (off + 1) id).
Proof.
  intros Hl Hmax Hoff Hlt. unfold incr, isEnd. cbn [curr_page_ offset_].
  rewrite (BPlusTree.fetch_leaf_Some _ _ _ Hl). simpl.
  replace (Z.of_nat (LeafPage.GetSize l) <=? off) with false
    by (symmetry; apply Z.leb_gt; lia).
  rewrite andb_false_r.
  replace (INT_MAX <=? off) with false by (symmetry; apply Z.leb_gt; lia).
  now replace (Z.of_nat (LeafPage.GetSize l) <=? off + 1) with false
    by (symmetry; apply Z.leb_gt; lia).
Qed.

(** The step from the last entry of a page. *)
Lemma incr_last (s : gmap Z Page) (id : Z) (l : LeafPage.t) :
  s !! id = Some (Leaf l) ->
  Z.of_nat (LeafPage.GetSize l) <= INT_MAX ->
  (0 < LeafPage.GetSize l)%nat ->
  (LeafPage.GetNextPageId l <> INVALID_PAGE_ID ->
   exists l', s !! LeafPage.GetNextPageId l = Some (Leaf l')) ->
  incr s (mk (Z.of_nat (LeafPage.GetSize l) - 1) id)
  = Done (if LeafPage.GetNextPageId l =? INVALID_PAGE_ID
          then mk (Z.of_nat (LeafPage.GetSize l)) id
          else mk 0 (LeafPage.GetNextPageId l)).
Proof.
  intros Hl Hmax Hpos Hnext. unfold incr, isEnd. cbn [curr_page_ offset_].
  rewrite (BPlusTree.fetch_leaf_Some _ _ _ Hl). simpl.
  replace (Z.of_nat (LeafPage.GetSize l) <=? Z.of_nat (LeafPage.GetSize l) - 1) with false
    by (symmetry; apply Z.leb_gt; lia).
  rewrite andb_false_r.
  replace (INT_MAX <=? Z.of_nat (LeafPage.GetSize l) - 1) with false
    by (symmetry; apply Z.leb_gt; lia).
  replace (Z.of_nat (LeafPage.GetSize l) <=? Z.of_nat (LeafPage.GetSize l) - 1 + 1) with true
    by (symmetry; apply Z.leb_le; lia).
  destruct (Z.eqb_spec (LeafPage.GetNextPageId l) INVALID_PAGE_ID) as [Heq|Hne].
  - f_equal. f_equal. lia.
  - destruct (Hnext Hne) as [l' Hl']. now rewrite (BPlusTree.fetch_leaf_Some _ _ _ Hl').
Qed.

Lemma advance_inside (s : gmap Z Page) (id : Z) (l : LeafPage.t) (j : nat) :
  s !! id = Some (Leaf l) ->
  Z.of_nat (LeafPage.GetSize l) <= INT_MAX ->
  forall off, 0 <= off -> off + Z.of_nat j < Z.of_nat (LeafPage.GetSize l) ->
    advance j s (mk off id) = Done (mk (off + Z.of_nat j) id).
Proof.
  intros Hl Hmax. induction j as [|j IH]; intros off Hoff Hlt.
  - simpl. now rewrite Z.add_0_r.
  - cbn [advance]. rewrite (incr_inside s id l off Hl Hmax Hoff) by lia.
    rewrite BPlusTree.bind_Done, IH by lia. f_equal. f_equal. lia.
Qed.

Lemma advance_page (s : gmap Z Page) (id : Z) (l : LeafPage.t) :
  s !! id = Some (Leaf l) ->
  Z.of_nat (LeafPage.GetSize l) <= INT_MAX ->
  (0 < LeafPage.GetSize l)%nat ->
  (LeafPage.GetNextPageId l <> INVALID_PAGE_ID ->
   exists l', s !! LeafPage.GetNextPageId l = Some (Leaf l')) ->
  advance (LeafPage.GetSize l) s (mk 0 id)
  = Done (if LeafPage.GetNextPageId l =? INVALID_PAGE_ID
          then mk (Z.of_nat (LeafPage.GetSize l)) id
          else mk 0 (LeafPage.GetNextPageId l)).
Proof.
  intros Hl Hmax Hpos Hnext.
  replace (LeafPage.GetSize l) with ((LeafPage.GetSize l - 1) + 1)%nat at 1 by lia.
  rewrite advance_add, (advance_inside s id l _ Hl Hmax) by lia.
  rewrite BPlusTree.bind_Done. cbn [advance].
  replace (0 + Z.of_nat (LeafPage.GetSize l - 1)) with (Z.of_nat (LeafPage.GetSize l) - 1)
    by lia.
  rewrite (incr_last s id l Hl Hmax Hpos Hnext). now rewrite BPlusTree.bind_Done.
Qed.

(** Where the iterator stands inside a page. *)
Lemma at_entry (s : gmap Z Page) (id : Z) (l : LeafPage.t) (k : nat) :
  s !! id = Some (Leaf l) ->
  (k < LeafPage.GetSize l)%nat ->
  isEnd s (mk (Z.of_nat k) id) = Done false /\
  forall e, LeafPage.array l !! k = Some e -> deref s (mk (Z.of_nat k) id) = Done e.
Proof.
  intros Hl Hk.
  assert (Hend : isEnd s (mk (Z.of_nat k) id) = Done false).
  { unfold isEnd. cbn [curr_page_ offset_]. rewrite (BPlusTree.fetch_leaf_Some _ _ _ Hl). simpl.
    replace (Z.of_nat (LeafPage.GetSize l) <=? Z.of_nat k) with false
      by (symmetry; apply Z.leb_gt; lia).
    now rewrite andb_false_r. }
  split; [exact Hend|]. intros e He. unfold deref. rewrite Hend. simpl.
  rewrite (BPlusTree.fetch_leaf_Some _ _ _ Hl). simpl.
  replace (Z.of_nat k <? 0) with false by (symmetry; apply Z.ltb_ge; lia).
  unfold LeafPage.GetItem. now rewrite Nat2Z.id, He.
Qed.

(** X20: a scan over a chain of leaves visits every entry once, in order:
    starting from offset 0 of the first leaf, k increments bring the
    iterator to the k-th entry of the leaves taken together, which the
    dereference returns; isEnd holds after exactly as many increments as
    there are entries, and there both the dereference and a further
    increment fail their assertion. *)
Theorem scan_visits_every_entry (s : gmap Z Page) (first : Z) (ls : list LeafPage.t) :
  chain s first ls ->
  forall k, (k <= length (entries ls))%nat ->
    exists it,
      advance k s (mk 0 first) = Done it /\
      isEnd s it = Done (bool_decide (k = length (entries ls))) /\
      (forall e, entries ls !! k = Some e -> deref s it = Done e) /\
      (k = length (entries ls) -> deref s it = Undefined /\ incr s it = Undefined).
Proof.
  induction 1 as [id l Hl Hnext Hmax|id l ls Hl Hnext Hpos Hmax Hrest IH]; intros k Hk.
  - unfold entries in *. cbn [fmap list_fmap concat] in *. rewrite app_nil_r in *.
    fold (LeafPage.GetSize l) in *.
    destruct (decide (k = LeafPage.GetSize l)) as [->|Hne].
    + assert (Hrun : advance (LeafPage.GetSize l) s (mk 0 id)
                     = Done (mk (Z.of_nat (LeafPage.GetSize l)) id)).
      { destruct (decide (LeafPage.GetSize l = 0)%nat) as [Hz|Hnz].
        - rewrite Hz. reflexivity.
        - rewrite (advance_page s id l Hl Hmax) by (congruence || lia).
          rewrite Hnext. reflexivity. }
      assert (Hend : isEnd s (mk (Z.of_nat (LeafPage.GetSize l)) id) = Done true).
      { unfold isEnd. cbn [curr_page_ offset_]. rewrite (BPlusTree.fetch_leaf_Some _ _ _ Hl). simpl.
        rewrite Hnext, Z.leb_refl. reflexivity. }
      exists (mk (Z.of_nat (LeafPage.GetSize l)) id).
      split; [exact Hrun|]. split; [now rewrite bool_decide_eq_true_2|]. split.
      * intros e He. apply lookup_lt_Some in He. unfold LeafPage.GetSize in He. lia.
      * intros _. unfold deref, incr. now rewrite Hend.
    + exists (mk (0 + Z.of_nat k) id).
      split; [apply (advance_inside s id l k Hl Hmax); lia|].
      rewrite Z.add_0_l. destruct (at_entry s id l k Hl ltac:(lia)) as [Hend Hget].
      split; [now rewrite bool_decide_eq_false_2|]. split; [exact Hget|].
      intros ->. contradiction.
  - assert (Hlen : length (entries (l :: ls))
                   = (LeafPage.GetSize l + length (entries ls))%nat).
    { unfold entries. cbn [fmap list_fmap concat]. now rewrite length_app. }
    assert (Hhead : forall j, (j < LeafPage.GetSize l)%nat ->
                      entries (l :: ls) !! j = LeafPage.array l !! j).
    { intros j Hj. unfold entries. cbn [fmap list_fmap concat].
      now apply lookup_app_l. }
    assert (Htail : forall j, (LeafPage.GetSize l <= j)%nat ->
                      entries (l :: ls) !! j = entries ls !! (j - LeafPage.GetSize l)%nat).
    { intros j Hj. unfold entries. cbn [fmap list_fmap concat].
      now apply lookup_app_r. }
    rewrite Hlen in *.
    destruct (decide (k < LeafPage.GetSize l)%nat) as [Hin|Hout].
    + exists (mk (0 + Z.of_nat k) id).
      split; [apply (advance_inside s id l k Hl Hmax); lia|].
      rewrite Z.add_0_l. destruct (at_entry s id l k Hl Hin) as [Hend Hget].
      split; [rewrite bool_decide_eq_false_2 by lia; exact Hend|]. split.
      * intros e He. apply Hget. now rewrite <- Hhead.
      * intros ->. lia.
    + destruct (IH (k - LeafPage.GetSize l)%nat ltac:(lia)) as (it & Hrun & Hend & Hget & Hfail).
      exists it. split.
      { replace k with (LeafPage.GetSize l + (k - LeafPage.GetSize l))%nat at 1 by lia.
        rewrite advance_add, (advance_page s id l Hl Hmax Hpos), BPlusTree.bind_Done.
        - destruct (Z.eqb_spec (LeafPage.GetNextPageId l) INVALID_PAGE_ID); [contradiction|].
          exact Hrun.
        - intros _. exact (chain_head _ _ _ Hrest). }
      split.
      { rewrite Hend. f_equal. apply bool_decide_ext. lia. }
      split.
      * intros e He. apply Hget. rewrite <- Htail by lia. exact He.
      * intros Heq. apply Hfail. lia.
Qed.

(** The two leaves of [BPlusTree.full_leaf_tree], holding 1..3 and 4..7. *)
Lemma scan_visits_every_entry_witness :
  exists it,
    advance 4 (BPlusTree.pages BPlusTree.full_leaf_tree) (mk 0 1) = Done it /\
    deref (BPlusTree.pages BPlusTree.full_leaf_tree) it = Done (BPlusTree.entry 5).
Proof.
  destruct (scan_visits_every_entry (BPlusTree.pages BPlusTree.full_leaf_tree) 1
              [LeafPage.mk 1 3 4 2 [BPlusTree.entry 1; BPlusTree.entry 2; BPlusTree.entry 3];
               BPlusTree.full_leaf]) with (k := 4%nat)
    as (it & Hrun & _ & Hget & _).
  - apply chain_next; [reflexivity|discriminate|cbn; lia|cbn; unfold INT_MAX; lia|].
    apply chain_last; [reflexivity|reflexivity|cbn; unfold INT_MAX; lia].
  - cbn. lia.
  - exists it. split; [exact Hrun|]. apply Hget. reflexivity.
Defined.

End IndexIterator.

(** * The extendible hash table (extendible_hash.cpp)

    Keys and values are integers.  The directory holds shared pointers, so
    several slots of it may name one bucket: buckets live in a heap and the
    directory holds their addresses.  A bucket nothing points to any more
    stays in the heap, where nothing can reach it. *)
Module ExtendibleHash.

Record Bucket := mkBucket {
  local_depth : Z;
  slots : list (Z * Z)
}.

Record t := mk {
  global_depth : Z;
  directory : list nat;
  buckets : gmap nat Bucket;
  next_bucket : nat
}.

(** The constructor: depth 0 and one empty bucket. *)
Definition create : t := mk 0 [0%nat] {[0%nat := mkBucket 0 []]} 1.

Definition GetGlobalDepth (tb : t) : Z := global_depth tb.

(** [1 << n] on [int]. *)
Definition shl1 (n : Z) : outcome Z :=
  if (0 <=? n) && (n <? 31) then Done (2 ^ n) else Undefined.

(** [directory.at(i)] and the bucket it points to; [at] throws out of
    range. *)
Definition bucket_at (tb : t) (i : nat) : outcome (nat * Bucket) :=
  match directory tb !! i with
  | Some p =>
      match buckets tb !! p with
      | Some b => Done (p, b)
      | None => Undefined
      end
  | None => Undefined
  end.

Definition GetLocalDepth (tb : t) (bucket_id : Z) : outcome Z :=
  if (0 <=? bucket_id) && (bucket_id <? Z.of_nat (length (directory tb))) then
    '(_, b) ← bucket_at tb (Z.to_nat bucket_id); Done (local_depth b)
  else Undefined.

Definition GetNumBuckets (tb : t) : Z := Z.of_nat (length (directory tb)).

Definition set_bucket (p : nat) (b : Bucket) (tb : t) : t :=
  mk (global_depth tb) (directory tb) (<[p := b]> (buckets tb)) (next_bucket tb).

(** The first slot with the key. *)
Fixpoint find_slot (key : Z) (s : list (Z * Z)) : option Z :=
  match s with
  | [] => None
  | (k, v) :: s => if k =? key then Some v else find_slot key s
  end.

(** The slots with the first one holding the key erased, if there is one. *)
Fixpoint erase_slot (key : Z) (s : list (Z * Z)) : option (list (Z * Z)) :=
  match s with
  | [] => None
  | (k, v) :: s => if k =? key then Some s else cons (k, v) <$> erase_slot key s
  end.

(** The slots with the value of the first one holding the key replaced. *)
Fixpoint replace_slot (key value : Z) (s : list (Z * Z)) : option (list (Z * Z)) :=
  match s with
  | [] => None
  | (k, v) :: s =>
      if k =? key then Some ((k, value) :: s) else cons (k, v) <$> replace_slot key value s
  end.

(** The loop that points the directory at the two halves of a split
    bucket: from slot [i] on in steps of [mask]. *)
Fixpoint update_directory (fuel : nat) (mask : Z) (bucket0 bucket1 : nat) (i : Z)
    (dir : list nat) : list nat :=
  match fuel with
  | O => dir
  | S fuel =>
      if i <? Z.of_nat (length dir) then
        update_directory fuel mask bucket0 bucket1 (i + mask)
          (<[Z.to_nat i := if Z.land i mask =? 0 then bucket0 else bucket1]> dir)
      else dir
  end.

(** Doubling the directory. *)
Definition expand (tb : t) : t :=
  mk (global_depth tb + 1) (directory tb ++ directory tb) (buckets tb) (next_bucket tb).

Section Table.
Variable HashKey : Z -> Z.
Variable bucket_size : nat.

Definition GetBucketIndex (tb : t) (key : Z) : outcome nat :=
  m ← shl1 (global_depth tb);
  Done (Z.to_nat (Z.land (HashKey key) (m - 1))).

(** [Some v] stands for true with [value = v], [None] for false. *)
Definition Find (tb : t) (key : Z) : outcome (option Z) :=
  bucket_id ← GetBucketIndex tb key;
  '(_, bucket) ← bucket_at tb bucket_id;
  Done (find_slot key (slots bucket)).

Definition Remove (tb : t) (key : Z) : outcome (bool * t) :=
  bucket_id ← GetBucketIndex tb key;
  '(p, bucket) ← bucket_at tb bucket_id;
  match erase_slot key (slots bucket) with
  | Some s => Done (true, set_bucket p (mkBucket (local_depth bucket) s) tb)
  | None => Done (false, tb)
  end.

(** One turn of the while loop of Insert, up to the directory update. *)
Definition split_bucket (key : Z) (bucket : Bucket) (tb : t) : outcome t :=
  if global_depth tb <? local_depth bucket then Undefined
  else
    let tb := if local_depth bucket =? global_depth tb then expand tb else tb in
    let local_depth' := local_depth bucket + 1 in
    mask ← shl1 (local_depth' - 1);
    let p0 := next_bucket tb in
    let p1 := S p0 in
    let bucket0 :=
      mkBucket local_depth'
        (List.filter (fun it => Z.land (HashKey (fst it)) mask =? 0) (slots bucket)) in
    let bucket1 :=
      mkBucket local_depth'
        (List.filter (fun it => negb (Z.land (HashKey (fst it)) mask =? 0)) (slots bucket)) in
    let dir :=
      update_directory (length (directory tb)) mask p0 p1
        (Z.land (HashKey key) (mask - 1)) (directory tb) in
    Done (mk (global_depth tb) dir
             (<[p1 := bucket1]> (<[p0 := bucket0]> (buckets tb))) (S p1)).

(** The while loop of Insert; it returns the bucket the key belongs to. *)
Fixpoint split_loop (fuel : nat) (key : Z) (p : nat) (tb : t) : outcome (nat * t) :=
  match fuel with
  | O => OutOfFuel
  | S fuel =>
      match buckets tb !! p with
      | None => Undefined
      | Some bucket =>
          if (bucket_size <=? length (slots bucket))%nat then
            tb ← split_bucket key bucket tb;
            bucket_id ← GetBucketIndex tb key;
            '(p, _) ← bucket_at tb bucket_id;
            split_loop fuel key p tb
          else Done (p, tb)
      end
  end.

Definition Insert (fuel : nat) (tb : t) (key value : Z) : outcome t :=
  bucket_id ← GetBucketIndex tb key;
  '(p, bucket) ← bucket_at tb bucket_id;
  match replace_slot key value (slots bucket) with
  | Some s => Done (set_bucket p (mkBucket (local_depth bucket) s) tb)
  | None =>
      '(p, tb) ← split_loop fuel key p tb;
      match buckets tb !! p with
      | Some bucket =>
          Done (set_bucket p (mkBucket (local_depth bucket)
                                (slots bucket ++ [(key, value)])) tb)
      | None => Undefined
      end
  end.

End Table.


(** *** Low bits *)

(** [x] and [y] agree on their [d] low bits. *)
Definition same_low (d x y : Z) : Prop := x mod 2 ^ d = y mod 2 ^ d.

Lemma same_low_bits (d x y : Z) :
  0 <= d ->
  same_low d x y <-> forall i, 0 <= i < d -> Z.testbit x i = Z.testbit y i.
Proof.
  intros Hd. unfold same_low. split.
  - intros Heq i Hi.
    rewrite <- (Z.mod_pow2_bits_low x d i), <- (Z.mod_pow2_bits_low y d i) by lia.
    now rewrite Heq.
  - intros Hbits. apply Z.bits_inj'. intros n Hn.
    destruct (Z.lt_ge_cases n d) as [Hlt|Hge].
    + rewrite !Z.mod_pow2_bits_low by lia. apply Hbits. lia.
    + now rewrite !Z.mod_pow2_bits_high by lia.
Qed.

Lemma same_low_refl (d x : Z) : same_low d x x.
Proof. reflexivity. Qed.

Lemma same_low_sym (d x y : Z) : same_low d x y -> same_low d y x.
Proof. unfold same_low. congruence. Qed.

Lemma same_low_trans (d x y z : Z) : same_low d x y -> same_low d y z -> same_low d x z.
Proof. unfold same_low. congruence. Qed.

Lemma same_low_le (d d' x y : Z) :
  0 <= d' <= d -> same_low d x y -> same_low d' x y.
Proof.
  intros Hd H. apply same_low_bits; [lia|]. intros i Hi.
  apply (proj1 (same_low_bits d x y ltac:(lia)) H). lia.
Qed.

Lemma same_low_succ (d x y : Z) :
  0 <= d ->
  same_low (d + 1) x y <-> same_low d x y /\ Z.testbit x d = Z.testbit y d.
Proof.
  intros Hd. rewrite !same_low_bits by lia. split.
  - intros H. split; [intros i Hi; apply H; lia|apply H; lia].
  - intros [Hlow Hbit] i Hi. destruct (decide (i = d)) as [->|Hne]; [exact Hbit|].
    apply Hlow. lia.
Qed.

Lemma same_low_mod (d g x : Z) : 0 <= d <= g -> same_low d (x mod 2 ^ g) x.
Proof.
  intros Hd. apply same_low_bits; [lia|]. intros i Hi.
  apply Z.mod_pow2_bits_low. lia.
Qed.

Lemma land_low_mask (x d : Z) : 0 <= d -> Z.land x (2 ^ d - 1) = x mod 2 ^ d.
Proof.
  intros Hd. rewrite <- Z.land_ones by exact Hd. f_equal.
  rewrite Z.ones_equiv. lia.
Qed.

Lemma land_bit (x d : Z) :
  0 <= d -> (Z.land x (2 ^ d) =? 0) = negb (Z.testbit x d).
Proof.
  intros Hd. destruct (Z.testbit x d) eqn:Hb; simpl.
  - apply Z.eqb_neq. intros Hz.
    assert (Hbit : Z.testbit (Z.land x (2 ^ d)) d = true).
    { rewrite Z.land_spec, Hb, Z.pow2_bits_true by exact Hd. reflexivity. }
    rewrite Hz, Z.bits_0 in Hbit. discriminate.
  - apply Z.eqb_eq. apply Z.bits_inj'. intros n Hn.
    rewrite Z.land_spec, Z.bits_0.
    destruct (decide (n = d)) as [->|Hne]; [now rewrite Hb|].
    rewrite (Z.pow2_bits_false d n) by lia. apply andb_false_r.
Qed.

Lemma shl1_Done (n m : Z) : shl1 n = Done m -> 0 <= n < 31 /\ m = 2 ^ n.
Proof.
  unfold shl1. destruct (0 <=? n) eqn:E1; [|discriminate].
  destruct (n <? 31) eqn:E2; [|discriminate]. simpl. intros [= <-].
  apply Z.leb_le in E1. apply Z.ltb_lt in E2. auto.
Qed.

Lemma shl1_in_range (n : Z) : 0 <= n < 31 -> shl1 n = Done (2 ^ n).
Proof.
  intros Hn. unfold shl1.
  replace (0 <=? n) with true by (symmetry; apply Z.leb_le; lia).
  now replace (n <? 31) with true by (symmetry; apply Z.ltb_lt; lia).
Qed.

(** *** Slots *)

Lemma find_slot_None (key : Z) (s : list (Z * Z)) :
  find_slot key s = None <-> key ∉ s.*1.
Proof.
  induction s as [|[k v] s IH]; simpl.
  - split; [intros _ H; now apply elem_of_nil in H|reflexivity].
  - rewrite not_elem_of_cons. destruct (Z.eqb_spec k key) as [->|Hne].
    + split; [discriminate|]. intros [H _]. congruence.
    + rewrite IH. split; [intros H; split; [congruence|exact H]|now intros [_ H]].
Qed.

Lemma find_slot_app_new (key key' value : Z) (s : list (Z * Z)) :
  find_slot key' (s ++ [(key, value)])
  = match find_slot key' s with
    | Some v => Some v
    | None => if key =? key' then Some value else None
    end.
Proof.
  induction s as [|[k v] s IH]; simpl; [reflexivity|].
  destruct (k =? key'); [reflexivity|exact IH].
Qed.

Lemma replace_slot_None (key value : Z) (s : list (Z * Z)) :
  replace_slot key value s = None <-> find_slot key s = None.
Proof.
  induction s as [|[k v] s IH]; simpl; [tauto|].
  destruct (k =? key); [split; discriminate|].
  destruct (replace_slot key value s); simpl; rewrite <- IH; split; congruence.
Qed.

Lemma replace_slot_Some (key value : Z) (s s' : list (Z * Z)) :
  replace_slot key value s = Some s' ->
  s'.*1 = s.*1 /\
  forall key', find_slot key' s' = if key =? key' then Some value else find_slot key' s.
Proof.
  revert s'. induction s as [|[k v] s IH]; intros s'; simpl; [discriminate|].
  destruct (Z.eqb_spec k key) as [->|Hne].
  - intros [= <-]. split; [reflexivity|]. intros key'. simpl.
    destruct (key =? key'); reflexivity.
  - destruct (replace_slot key value s) as [s0|]; [|discriminate]. simpl.
    intros [= <-]. destruct (IH s0 eq_refl) as [Hkeys Hfind]. split.
    + rewrite !fmap_cons. now rewrite Hkeys.
    + intros key'. simpl. rewrite Hfind.
      destruct (Z.eqb_spec k key') as [->|Hne'].
      * now replace (key =? key') with false by (symmetry; apply Z.eqb_neq; congruence).
      * reflexivity.
Qed.

Lemma erase_slot_None (key : Z) (s : list (Z * Z)) :
  erase_slot key s = None <-> find_slot key s = None.
Proof.
  induction s as [|[k v] s IH]; simpl; [tauto|].
  destruct (k =? key); [split; discriminate|].
  destruct (erase_slot key s); simpl; rewrite <- IH; split; congruence.
Qed.

Lemma erase_slot_Some (key : Z) (s s' : list (Z * Z)) :
  erase_slot key s = Some s' ->
  NoDup s.*1 ->
  NoDup s'.*1 /\ (forall k, k ∈ s'.*1 -> k ∈ s.*1) /\
  forall key', find_slot key' s' = if key =? key' then None else find_slot key' s.
Proof.
  revert s'. induction s as [|[k v] s IH]; intros s'; simpl; [discriminate|].
  intros Hrun Hnd. apply NoDup_cons in Hnd as [Hk Hnd].
  destruct (Z.eqb_spec k key) as [->|Hne].
  - injection Hrun as <-. split; [exact Hnd|]. split; [intros k Hin; now right|].
    intros key'. destruct (Z.eqb_spec key key') as [<-|Hne]; [|reflexivity].
    now apply find_slot_None.
  - destruct (erase_slot key s) as [s0|]; [|discriminate]. simpl in Hrun.
    injection Hrun as <-. destruct (IH s0 eq_refl Hnd) as (Hnd0 & Hsub & Hfind).
    split; [|split].
    + simpl. apply NoDup_cons. split; [|exact Hnd0]. intros Hin. apply Hk, Hsub, Hin.
    + intros k0 Hin. simpl in Hin. apply elem_of_cons in Hin as [->|Hin];
        [left|right; now apply Hsub].
    + intros key'. simpl. rewrite Hfind.
      destruct (Z.eqb_spec k key') as [->|Hne'].
      * now replace (key =? key') with false by (symmetry; apply Z.eqb_neq; congruence).
      * reflexivity.
Qed.

Lemma find_slot_filter (f : Z -> bool) (key : Z) (s : list (Z * Z)) :
  f key = true ->
  find_slot key (List.filter (fun it => f (fst it)) s) = find_slot key s.
Proof.
  intros Hf. induction s as [|[k v] s IH]; simpl; [reflexivity|].
  destruct (Z.eqb_spec k key) as [->|Hne].
  - rewrite Hf. simpl. now rewrite Z.eqb_refl.
  - destruct (f k); simpl; [|exact IH].
    now replace (k =? key) with false by (symmetry; apply Z.eqb_neq; congruence).
Qed.

Lemma filter_keys (f : Z -> bool) (s : list (Z * Z)) :
  NoDup s.*1 ->
  NoDup (List.filter (fun it => f (fst it)) s).*1 /\
  forall k, k ∈ (List.filter (fun it => f (fst it)) s).*1 <-> k ∈ s.*1 /\ f k = true.
Proof.
  induction s as [|[k v] s IH]; simpl; intros Hnd.
  - split; [constructor|]. intros k. split; [intros H; now apply elem_of_nil in H|].
    intros [H _]. now apply elem_of_nil in H.
  - apply NoDup_cons in Hnd as [Hk Hnd]. destruct (IH Hnd) as [Hnd' Hin].
    destruct (f k) eqn:Hfk; simpl.
    + split.
      * apply NoDup_cons. split; [|exact Hnd']. intros H. apply Hin in H as [H _].
        contradiction.
      * intros k0. rewrite !elem_of_cons, Hin. split.
        -- intros [->|[H1 H2]]; [split; [now left|exact Hfk]|split; [now right|exact H2]].
        -- intros [[->|H1] H2]; [now left|right; now split].
    + split; [exact Hnd'|]. intros k0. rewrite elem_of_cons, Hin. split.
      * intros [H1 H2]. split; [now right|exact H2].
      * intros [[->|H1] H2]; [congruence|now split].
Qed.


(** *** The directory update *)

Definition split_target (mask : Z) (bucket0 bucket1 : nat) (j : Z) : nat :=
  if Z.land j mask =? 0 then bucket0 else bucket1.

Lemma length_update_directory (fuel : nat) (mask : Z) (p0 p1 : nat) (i : Z)
    (dir : list nat) :
  length (update_directory fuel mask p0 p1 i dir) = length dir.
Proof.
  revert i dir. induction fuel as [|fuel IH]; intros i dir; simpl; [reflexivity|].
  destruct (i <? Z.of_nat (length dir)); [|reflexivity].
  now rewrite IH, length_insert.
Qed.

(** The slots the loop visits are those at a multiple of [mask] from the
    first. *)
Lemma update_directory_lookup (fuel : nat) (mask : Z) (p0 p1 : nat) :
  0 < mask ->
  forall (i : Z) (dir : list nat) (j : nat),
    0 <= i -> Z.of_nat (length dir) <= i + Z.of_nat fuel ->
    update_directory fuel mask p0 p1 i dir !! j
    = (fun q => if decide (i <= Z.of_nat j /\ (Z.of_nat j - i) mod mask = 0)
                then split_target mask p0 p1 (Z.of_nat j) else q) <$> dir !! j.
Proof.
  intros Hmask. induction fuel as [|fuel IH]; intros i dir j Hi Hlen.
  - simpl. destruct (dir !! j) as [q|] eqn:Hq; [|reflexivity]. simpl.
    apply lookup_lt_Some in Hq. case_decide; [lia|reflexivity].
  - cbn [update_directory]. destruct (Z.ltb_spec i (Z.of_nat (length dir))) as [Hlt|Hge].
    + rewrite IH by (rewrite ?length_insert; lia).
      destruct (decide (j = Z.to_nat i)) as [->|Hne].
      * rewrite list_lookup_insert_eq by lia. rewrite Z2Nat.id by lia.
        destruct (dir !! Z.to_nat i) as [q|] eqn:Hq.
        2:{ apply lookup_ge_None in Hq. lia. }
        simpl. f_equal. rewrite decide_False by lia.
        rewrite decide_True; [reflexivity|]. split; [lia|].
        now rewrite Z.sub_diag, Z.mod_0_l by lia.
      * rewrite list_lookup_insert_ne by congruence.
        destruct (dir !! j) as [q|]; [|reflexivity]. simpl. f_equal.
        assert (Hji : Z.of_nat j <> i) by lia.
        assert (Hiff : (i + mask <= Z.of_nat j /\ (Z.of_nat j - (i + mask)) mod mask = 0)
                       <-> (i <= Z.of_nat j /\ (Z.of_nat j - i) mod mask = 0)).
        { replace (Z.of_nat j - (i + mask)) with (Z.of_nat j - i + (-1) * mask) by lia.
          rewrite Z.mod_add by lia. split.
          - intros [H1 H2]. split; [lia|exact H2].
          - intros [H1 H2]. split; [|exact H2].
            apply Z.mod_divide in H2; [|lia]. destruct H2 as [c Hc].
            assert (0 < c * mask) by lia.
            assert (0 < c) by nia. nia. }
        destruct (decide (i + mask <= _ /\ _)) as [H1|H1];
          destruct (decide (i <= _ /\ _)) as [H2|H2]; try reflexivity; tauto.
    + destruct (dir !! j) as [q|] eqn:Hq; [|reflexivity]. simpl.
      apply lookup_lt_Some in Hq. case_decide; [lia|reflexivity].
Qed.

Lemma visited_same_low (d h : Z) (j : nat) :
  0 <= d ->
  (h mod 2 ^ d <= Z.of_nat j /\ (Z.of_nat j - h mod 2 ^ d) mod 2 ^ d = 0)
  <-> same_low d (Z.of_nat j) h.
Proof.
  intros Hd. assert (Hpos : 0 < 2 ^ d) by (apply Z.pow_pos_nonneg; lia).
  pose proof (Z.mod_pos_bound h (2 ^ d) Hpos) as Hh.
  unfold same_low. split.
  - intros [Hle Hmod]. apply Z.mod_divide in Hmod; [|lia]. destruct Hmod as [c Hc].
    replace (Z.of_nat j) with (h mod 2 ^ d + c * 2 ^ d) by lia.
    rewrite Z.mod_add by lia. now rewrite Z.mod_mod by lia.
  - intros Heq. rewrite <- Heq.
    pose proof (Z.mod_pos_bound (Z.of_nat j) (2 ^ d) Hpos).
    pose proof (Z.div_mod (Z.of_nat j) (2 ^ d) ltac:(lia)) as Hdm.
    assert (0 <= Z.of_nat j / 2 ^ d) by (apply Z.div_pos; lia).
    split; [nia|].
    replace (Z.of_nat j - Z.of_nat j mod 2 ^ d) with ((Z.of_nat j / 2 ^ d) * 2 ^ d) by lia.
    apply Z.mod_mul. lia.
Qed.

#[local] Instance same_low_dec (d x y : Z) : Decision (same_low d x y).
Proof. unfold same_low. apply _. Defined.

(** The directory after the split of the bucket for hash [h] at depth [d]. *)
Lemma split_directory_lookup (d h : Z) (p0 p1 : nat) (dir : list nat) (j : nat) :
  0 <= d ->
  update_directory (length dir) (2 ^ d) p0 p1 (Z.land h (2 ^ d - 1)) dir !! j
  = (fun q => if decide (same_low d (Z.of_nat j) h)
              then (if Z.testbit (Z.of_nat j) d then p1 else p0) else q) <$> dir !! j.
Proof.
  intros Hd. assert (Hpos : 0 < 2 ^ d) by (apply Z.pow_pos_nonneg; lia).
  rewrite land_low_mask by exact Hd.
  pose proof (Z.mod_pos_bound h (2 ^ d) Hpos) as Hh.
  rewrite update_directory_lookup by lia.
  destruct (dir !! j) as [q|]; [|reflexivity]. simpl. f_equal.
  unfold split_target. rewrite land_bit by exact Hd.
  pose proof (visited_same_low d h j Hd) as Hiff.
  destruct (decide (_ <= _ /\ _)) as [H1|H1];
    destruct (decide (same_low _ _ _)) as [H2|H2]; try tauto.
  now destruct (Z.testbit (Z.of_nat j) d).
Qed.


Section TableFacts.
Variable HashKey : Z -> Z.
Variable bucket_size : nat.

(** The directory slot of a key. *)
Definition slot_of (tb : t) (key : Z) : nat :=
  Z.to_nat (HashKey key mod 2 ^ global_depth tb).

(** What a search of the key's bucket finds, whatever the depth. *)
Definition content (tb : t) (key : Z) : option (option Z) :=
  p ← directory tb !! slot_of tb key;
  b ← buckets tb !! p;
  Some (find_slot key (slots b)).

(** A sound table: the directory has 2^global_depth slots; a bucket of
    local depth d is shared by exactly the slots that agree on their d low
    bits, holds no key twice, and holds only keys whose hash has these low
    bits. *)
Record Inv (tb : t) : Prop := mkInv {
  inv_depth : 0 <= global_depth tb;
  inv_size : Z.of_nat (length (directory tb)) = 2 ^ global_depth tb;
  inv_fresh : forall p, p ∈ directory tb -> (p < next_bucket tb)%nat;
  inv_bucket : forall i p, directory tb !! i = Some p ->
    exists b, buckets tb !! p = Some b /\
      0 <= local_depth b <= global_depth tb /\
      NoDup (slots b).*1 /\
      (forall k, k ∈ (slots b).*1 -> same_low (local_depth b) (HashKey k) (Z.of_nat i)) /\
      (forall j, (j < length (directory tb))%nat ->
         directory tb !! j = Some p <-> same_low (local_depth b) (Z.of_nat j) (Z.of_nat i))
}.

Lemma slot_of_spec (tb : t) (key : Z) :
  Inv tb ->
  Z.of_nat (slot_of tb key) = HashKey key mod 2 ^ global_depth tb /\
  (slot_of tb key < length (directory tb))%nat.
Proof.
  intros HI. pose proof (inv_depth _ HI) as Hd. pose proof (inv_size _ HI) as Hs.
  assert (Hpos : 0 < 2 ^ global_depth tb) by (apply Z.pow_pos_nonneg; lia).
  pose proof (Z.mod_pos_bound (HashKey key) _ Hpos). unfold slot_of.
  rewrite Z2Nat.id by lia. split; [reflexivity|lia].
Qed.

Lemma GetBucketIndex_slot (tb : t) (key : Z) :
  0 <= global_depth tb < 31 ->
  GetBucketIndex HashKey tb key = Done (slot_of tb key).
Proof.
  intros Hd. unfold GetBucketIndex. rewrite shl1_in_range by exact Hd. simpl.
  unfold slot_of. now rewrite land_low_mask by lia.
Qed.

Lemma GetBucketIndex_Done (tb : t) (key : Z) (i : nat) :
  GetBucketIndex HashKey tb key = Done i ->
  0 <= global_depth tb < 31 /\ i = slot_of tb key.
Proof.
  unfold GetBucketIndex. destruct (shl1 (global_depth tb)) as [m| |] eqn:Hm; try discriminate.
  apply shl1_Done in Hm as [Hd ->]. simpl. intros [= <-]. split; [exact Hd|].
  unfold slot_of. now rewrite land_low_mask by lia.
Qed.

Lemma Inv_bucket_of (tb : t) (key : Z) :
  Inv tb ->
  exists p b,
    directory tb !! slot_of tb key = Some p /\ buckets tb !! p = Some b /\
    0 <= local_depth b <= global_depth tb /\
    NoDup (slots b).*1 /\
    (forall j, (j < length (directory tb))%nat ->
       directory tb !! j = Some p <-> same_low (local_depth b) (Z.of_nat j) (HashKey key)).
Proof.
  intros HI. destruct (slot_of_spec tb key HI) as [Hslot Hlt].
  destruct (lookup_lt_is_Some_2 _ _ Hlt) as [p Hp].
  destruct (inv_bucket _ HI _ _ Hp) as (b & Hb & Hld & Hnd & _ & Hshare).
  exists p, b. split; [exact Hp|]. split; [exact Hb|]. split; [exact Hld|].
  split; [exact Hnd|]. intros j Hj. rewrite (Hshare j Hj), Hslot. split; intros H.
  - eapply same_low_trans; [exact H|]. apply same_low_mod. lia.
  - eapply same_low_trans; [exact H|]. apply same_low_sym, same_low_mod. lia.
Qed.

Lemma Find_content (tb : t) (key : Z) :
  0 <= global_depth tb < 31 ->
  Find HashKey tb key
  = match content tb key with Some r => Done r | None => Undefined end.
Proof.
  intros Hd. unfold Find, content, bucket_at.
  rewrite (GetBucketIndex_slot tb key Hd). simpl.
  destruct (directory tb !! slot_of tb key) as [p|]; [|reflexivity]. simpl.
  destruct (buckets tb !! p) as [b|]; reflexivity.
Qed.

(** Rewriting the slots of the bucket of [key]. *)
Lemma set_bucket_Inv (tb : t) (key : Z) (p : nat) (b : Bucket) (s : list (Z * Z)) :
  Inv tb ->
  directory tb !! slot_of tb key = Some p ->
  buckets tb !! p = Some b ->
  NoDup s.*1 ->
  (forall k, k ∈ s.*1 -> k ∈ (slots b).*1 \/ k = key) ->
  Inv (set_bucket p (mkBucket (local_depth b) s) tb).
Proof.
  intros HI Hp Hb Hnd Hkeys.
  destruct (slot_of_spec tb key HI) as [Hslot Hlt].
  constructor; cbn [set_bucket global_depth directory buckets next_bucket].
  - exact (inv_depth _ HI).
  - exact (inv_size _ HI).
  - exact (inv_fresh _ HI).
  - intros i q Hq. destruct (inv_bucket _ HI _ _ Hq) as (bq & Hbq & Hld & Hndq & Hhash & Hshare).
    destruct (decide (q = p)) as [->|Hne].
    + rewrite Hb in Hbq. injection Hbq as <-.
      exists (mkBucket (local_depth b) s). rewrite lookup_insert_eq.
      split; [reflexivity|]. cbn [local_depth slots].
      split; [exact Hld|]. split; [exact Hnd|]. split; [|exact Hshare].
      intros k Hk. destruct (Hkeys k Hk) as [Hold| ->]; [now apply Hhash|].
      apply same_low_sym. eapply same_low_trans.
      * apply same_low_sym, (proj1 (Hshare _ Hlt) Hp).
      * rewrite Hslot. apply same_low_mod. lia.
    + exists bq. rewrite lookup_insert_ne by congruence. auto.
Qed.

Lemma set_bucket_content (tb : t) (key : Z) (p : nat) (b b' : Bucket) :
  directory tb !! slot_of tb key = Some p ->
  buckets tb !! p = Some b ->
  content (set_bucket p b' tb) key = Some (find_slot key (slots b')) /\
  forall k, find_slot k (slots b') = find_slot k (slots b) ->
    content (set_bucket p b' tb) k = content tb k.
Proof.
  intros Hp Hb. unfold content, slot_of.
  cbn [set_bucket global_depth directory buckets]. split.
  - fold (slot_of tb key). rewrite Hp. simpl. now rewrite lookup_insert_eq.
  - intros k Hk.
    destruct (directory tb !! Z.to_nat (HashKey k mod 2 ^ global_depth tb)) as [q|];
      [|reflexivity].
    simpl.
    destruct (decide (q = p)) as [->|Hne].
    + rewrite lookup_insert_eq, Hb. simpl. now rewrite Hk.
    + now rewrite lookup_insert_ne by congruence.
Qed.

(** Doubling the directory keeps the table sound and every search. *)
Lemma expand_lookup (tb : t) (j : nat) :
  Inv tb -> (j < length (directory (expand tb)))%nat ->
  directory (expand tb) !! j
  = directory tb !! Z.to_nat (Z.of_nat j mod 2 ^ global_depth tb).
Proof.
  intros HI Hj. pose proof (inv_depth _ HI) as Hd. pose proof (inv_size _ HI) as Hs.
  cbn [expand directory] in *. rewrite length_app in Hj.
  destruct (decide (j < length (directory tb))%nat) as [Hlow|Hhigh].
  - rewrite lookup_app_l by exact Hlow. f_equal.
    rewrite Z.mod_small by lia. now rewrite Nat2Z.id.
  - rewrite lookup_app_r by lia. f_equal.
    replace (Z.of_nat j) with (Z.of_nat (j - length (directory tb)) + 1 * 2 ^ global_depth tb)
      by lia.
    rewrite Z.mod_add by lia. rewrite Z.mod_small by lia. now rewrite Nat2Z.id.
Qed.

Lemma expand_Inv (tb : t) : Inv tb -> Inv (expand tb).
Proof.
  intros HI. pose proof (inv_depth _ HI) as Hd. pose proof (inv_size _ HI) as Hs.
  assert (Hpos : 0 < 2 ^ global_depth tb) by (apply Z.pow_pos_nonneg; lia).
  constructor.
  - cbn. lia.
  - cbn [expand directory global_depth]. rewrite length_app, Z.pow_add_r by lia. lia.
  - cbn [expand directory next_bucket]. intros p Hp.
    apply (inv_fresh _ HI). apply elem_of_app in Hp. tauto.
  - intros i p Hp.
    assert (Hi : (i < length (directory (expand tb)))%nat) by (eapply lookup_lt_Some; eauto).
    rewrite (expand_lookup tb i HI Hi) in Hp.
    set (i0 := Z.to_nat (Z.of_nat i mod 2 ^ global_depth tb)) in *.
    assert (Hi0 : Z.of_nat i0 = Z.of_nat i mod 2 ^ global_depth tb).
    { unfold i0. pose proof (Z.mod_pos_bound (Z.of_nat i) _ Hpos). lia. }
    destruct (inv_bucket _ HI _ _ Hp) as (b & Hb & Hld & Hnd & Hhash & Hshare).
    exists b. cbn [expand buckets global_depth]. split; [exact Hb|].
    split; [lia|]. split; [exact Hnd|].
    assert (Hii0 : same_low (local_depth b) (Z.of_nat i0) (Z.of_nat i)).
    { rewrite Hi0. apply same_low_mod. lia. }
    split.
    + intros k Hk. eapply same_low_trans; [now apply Hhash|exact Hii0].
    + intros j Hj. rewrite (expand_lookup tb j HI Hj).
      set (j0 := Z.to_nat (Z.of_nat j mod 2 ^ global_depth tb)).
      assert (Hj0 : Z.of_nat j0 = Z.of_nat j mod 2 ^ global_depth tb).
      { unfold j0. pose proof (Z.mod_pos_bound (Z.of_nat j) _ Hpos). lia. }
      assert (Hjj0 : same_low (local_depth b) (Z.of_nat j0) (Z.of_nat j)).
      { rewrite Hj0. apply same_low_mod. lia. }
      assert (Hj0lt : (j0 < length (directory tb))%nat).
      { pose proof (Z.mod_pos_bound (Z.of_nat j) _ Hpos). lia. }
      rewrite (Hshare j0 Hj0lt). split; intros H.
      * eapply same_low_trans; [apply same_low_sym, Hjj0|].
        eapply same_low_trans; [exact H|exact Hii0].
      * eapply same_low_trans; [exact Hjj0|].
        eapply same_low_trans; [exact H|apply same_low_sym, Hii0].
Qed.

Lemma expand_slot (tb : t) (key : Z) :
  Inv tb ->
  directory (expand tb) !! slot_of (expand tb) key = directory tb !! slot_of tb key.
Proof.
  intros HI. pose proof (inv_depth _ HI) as Hd.
  destruct (slot_of_spec _ key (expand_Inv tb HI)) as [Hslot Hlt].
  rewrite (expand_lookup tb _ HI Hlt). f_equal. unfold slot_of at 2. f_equal.
  rewrite Hslot. cbn [expand global_depth].
  apply (same_low_mod (global_depth tb) (global_depth tb + 1) (HashKey key)). lia.
Qed.

Lemma expand_content (tb : t) (key : Z) :
  Inv tb -> content (expand tb) key = content tb key.
Proof.
  intros HI. unfold content. now rewrite (expand_slot tb key HI).
Qed.


(** *** Splitting a bucket *)

(** The table after the split of bucket [b], of depth below the global
    depth, on behalf of [key]. *)
Definition after_split (key : Z) (b : Bucket) (tb : t) : t :=
  let mask := 2 ^ local_depth b in
  let p0 := next_bucket tb in
  let p1 := S p0 in
  mk (global_depth tb)
     (update_directory (length (directory tb)) mask p0 p1
        (Z.land (HashKey key) (mask - 1)) (directory tb))
     (<[p1 := mkBucket (local_depth b + 1)
                (List.filter (fun it => negb (Z.land (HashKey (fst it)) mask =? 0)) (slots b))]>
        (<[p0 := mkBucket (local_depth b + 1)
                   (List.filter (fun it => Z.land (HashKey (fst it)) mask =? 0) (slots b))]>
           (buckets tb)))
     (S p1).

(** The half of the split bucket that slot [j] points to. *)
Definition half_ptr (b : Bucket) (tb : t) (j : Z) : nat :=
  if Z.testbit j (local_depth b) then S (next_bucket tb) else next_bucket tb.

Definition half_bucket (b : Bucket) (j : Z) : Bucket :=
  mkBucket (local_depth b + 1)
    (List.filter (fun it => Bool.eqb (Z.testbit (HashKey (fst it)) (local_depth b))
                              (Z.testbit j (local_depth b))) (slots b)).

Lemma filter_ext_slots (f g : Z * Z -> bool) (s : list (Z * Z)) :
  (forall it, f it = g it) -> List.filter f s = List.filter g s.
Proof.
  intros Hfg. induction s as [|it s IH]; simpl; [reflexivity|].
  now rewrite Hfg, IH.
Qed.

Lemma after_split_half (key : Z) (b : Bucket) (tb : t) (j : Z) :
  0 <= local_depth b ->
  buckets (after_split key b tb) !! half_ptr b tb j = Some (half_bucket b j).
Proof.
  intros Hd. unfold after_split, half_ptr, half_bucket. cbn [buckets].
  destruct (Z.testbit j (local_depth b)) eqn:Hbit.
  - rewrite lookup_insert_eq. f_equal. f_equal. apply filter_ext_slots.
    intros it. rewrite land_bit by exact Hd.
    now destruct (Z.testbit (HashKey it.1) (local_depth b)).
  - rewrite lookup_insert_ne by lia. rewrite lookup_insert_eq. f_equal. f_equal.
    apply filter_ext_slots. intros it. rewrite land_bit by exact Hd.
    now destruct (Z.testbit (HashKey it.1) (local_depth b)).
Qed.

Lemma after_split_old (key : Z) (b : Bucket) (tb : t) (q : nat) :
  (q < next_bucket tb)%nat ->
  buckets (after_split key b tb) !! q = buckets tb !! q.
Proof.
  intros Hq. unfold after_split. cbn [buckets].
  now rewrite !lookup_insert_ne by lia.
Qed.

Lemma after_split_directory (key : Z) (b : Bucket) (tb : t) (j : nat) :
  0 <= local_depth b ->
  directory (after_split key b tb) !! j
  = (fun q => if decide (same_low (local_depth b) (Z.of_nat j) (HashKey key))
              then half_ptr b tb (Z.of_nat j) else q) <$> directory tb !! j.
Proof.
  intros Hd. unfold after_split. cbn [directory].
  now rewrite split_directory_lookup by exact Hd.
Qed.

Lemma half_bucket_keys (b : Bucket) (j : Z) :
  NoDup (slots b).*1 ->
  NoDup (slots (half_bucket b j)).*1 /\
  forall k, k ∈ (slots (half_bucket b j)).*1 <->
    k ∈ (slots b).*1 /\ Z.testbit (HashKey k) (local_depth b) = Z.testbit j (local_depth b).
Proof.
  intros Hnd.
  destruct (filter_keys (fun k => Bool.eqb (Z.testbit (HashKey k) (local_depth b))
                                    (Z.testbit j (local_depth b))) (slots b) Hnd)
    as [Hnd' Hin].
  cbv beta in Hnd', Hin. split; [exact Hnd'|].
  intros k. unfold half_bucket. cbn [slots]. rewrite Hin.
  now rewrite Bool.eqb_true_iff.
Qed.

Lemma split_step (tb : t) (key : Z) (p : nat) (b : Bucket) :
  Inv tb ->
  directory tb !! slot_of tb key = Some p ->
  buckets tb !! p = Some b ->
  local_depth b < global_depth tb ->
  Inv (after_split key b tb) /\
  (forall k, content (after_split key b tb) k = content tb k) /\
  exists p' b',
    directory (after_split key b tb) !! slot_of (after_split key b tb) key = Some p' /\
    buckets (after_split key b tb) !! p' = Some b' /\
    local_depth b' = local_depth b + 1 /\
    forall k, k ∈ (slots b').*1 -> k ∈ (slots b).*1.
Proof.
  intros HI Hp Hb Hlt.
  destruct (Inv_bucket_of tb key HI) as (p_ & b_ & Hp_ & Hb_ & Hld & Hnd & Hshare).
  rewrite Hp in Hp_. injection Hp_ as <-. rewrite Hb in Hb_. injection Hb_ as <-.
  set (d := local_depth b) in *.
  set (tb1 := after_split key b tb).
  assert (Hd : 0 <= d) by lia.
  assert (Hlen : length (directory tb1) = length (directory tb)).
  { unfold tb1, after_split. cbn [directory]. apply length_update_directory. }
  assert (Hdir : forall j, directory tb1 !! j
            = (fun q => if decide (same_low d (Z.of_nat j) (HashKey key))
                        then half_ptr b tb (Z.of_nat j) else q) <$> directory tb !! j).
  { intros j. apply after_split_directory. exact Hd. }
  assert (Hhalf : forall j, buckets tb1 !! half_ptr b tb j = Some (half_bucket b j)).
  { intros j. apply after_split_half. exact Hd. }
  assert (Hold : forall q, q ∈ directory tb -> buckets tb1 !! q = buckets tb !! q).
  { intros q Hq. apply after_split_old. now apply (inv_fresh _ HI). }
  assert (Hnew : forall j q, q ∈ directory tb -> half_ptr b tb j <> q).
  { intros j q Hq. pose proof (inv_fresh _ HI q Hq). unfold half_ptr.
    destruct (Z.testbit j _); lia. }
  assert (Hptr : forall i j, half_ptr b tb i = half_ptr b tb j ->
                   Z.testbit i d = Z.testbit j d).
  { intros i j. unfold half_ptr. fold d.
    destruct (Z.testbit i d), (Z.testbit j d); intros; try reflexivity; lia. }
  split; [|split].
  - constructor.
    + exact (inv_depth _ HI).
    + rewrite Hlen. exact (inv_size _ HI).
    + intros q Hq. apply list_elem_of_lookup_1 in Hq as [j Hj]. rewrite Hdir in Hj.
      destruct (directory tb !! j) as [q0|] eqn:Hq0; [|discriminate]. simpl in Hj.
      injection Hj as <-. cbn [tb1 after_split next_bucket].
      case_decide.
      * unfold half_ptr. destruct (Z.testbit _ _); lia.
      * pose proof (inv_fresh _ HI q0 (list_elem_of_lookup_2 _ _ _ Hq0)). lia.
    + intros i q1 Hq1. rewrite Hdir in Hq1.
      destruct (directory tb !! i) as [q|] eqn:Hq; [|discriminate]. simpl in Hq1.
      injection Hq1 as <-.
      assert (Hi : (i < length (directory tb))%nat) by (eapply lookup_lt_Some; eauto).
      destruct (inv_bucket _ HI _ _ Hq) as (bq & Hbq & Hldq & Hndq & Hhashq & Hshareq).
      case_decide as Hclass.
      * assert (q = p).
        { apply (Hshare i Hi) in Hclass. congruence. }
        subst q. rewrite Hb in Hbq. injection Hbq as <-.
        exists (half_bucket b (Z.of_nat i)). split; [apply Hhalf|].
        destruct (half_bucket_keys b (Z.of_nat i) Hnd) as [Hnd' Hkeys].
        split; [cbn; fold d; cbn [tb1 after_split global_depth]; lia|].
        split; [exact Hnd'|]. split.
        -- intros k Hk. apply Hkeys in Hk as [Hk Hbit]. cbn [half_bucket local_depth].
           apply same_low_succ; [exact Hd|]. split; [now apply Hhashq|exact Hbit].
        -- intros j Hj. rewrite Hlen in Hj. rewrite Hdir. cbn [half_bucket local_depth].
           fold d. rewrite (same_low_succ d _ _ Hd).
           destruct (directory tb !! j) as [qj|] eqn:Hqj.
           2:{ apply lookup_ge_None in Hqj. lia. }
           simpl. case_decide as Hj_class.
           ++ split.
              ** intros [= Heq]. split; [|now apply Hptr].
                 eapply same_low_trans; [exact Hj_class|now apply same_low_sym].
              ** intros [_ Hbit]. f_equal. unfold half_ptr. fold d. now rewrite Hbit.
           ++ split.
              ** intros [= ->]. exfalso.
                 apply (Hnew (Z.of_nat i) _ (list_elem_of_lookup_2 _ _ _ Hqj) eq_refl).
              ** intros [Hji _]. exfalso. apply Hj_class.
                 eapply same_low_trans; [exact Hji|exact Hclass].
      * assert (Hqp : q <> p).
        { intros ->. apply Hclass. now apply (Hshare i Hi). }
        exists bq. rewrite (Hold q (list_elem_of_lookup_2 _ _ _ Hq)).
        split; [exact Hbq|]. split; [exact Hldq|]. split; [exact Hndq|].
        split; [exact Hhashq|].
        intros j Hj. rewrite Hlen in Hj. rewrite <- (Hshareq j Hj), Hdir.
        destruct (directory tb !! j) as [qj|] eqn:Hqj; [|tauto].
        simpl. case_decide as Hj_class; [|tauto].
        assert (qj = p).
        { apply (Hshare j Hj) in Hj_class. congruence. }
        subst qj. split.
        -- intros [= Heq]. exfalso.
           apply (Hnew (Z.of_nat j) _ (list_elem_of_lookup_2 _ _ _ Hq) Heq).
        -- intros [= Heq]. congruence.
  - intros k. unfold content.
    assert (Hslot : slot_of tb1 k = slot_of tb k) by reflexivity.
    rewrite Hslot, Hdir.
    destruct (slot_of_spec tb k HI) as [Hsk Hsklt].
    destruct (directory tb !! slot_of tb k) as [q|] eqn:Hq; [|reflexivity].
    simpl. case_decide as Hclass.
    + assert (q = p).
      { apply (Hshare _ Hsklt) in Hclass. congruence. }
      subst q. rewrite Hhalf, Hb. simpl. f_equal.
      unfold half_bucket. cbn [slots].
      apply (find_slot_filter
               (fun k0 => Bool.eqb (Z.testbit (HashKey k0) (local_depth b))
                            (Z.testbit (Z.of_nat (slot_of tb k)) (local_depth b)))).
      apply Bool.eqb_true_iff. fold d. rewrite Hsk.
      symmetry. apply Z.mod_pow2_bits_low. lia.
    + pose proof (Hold q (list_elem_of_lookup_2 _ _ _ Hq)) as Hsame.
      unfold tb1, after_split in Hsame. cbn [buckets] in Hsame. now rewrite Hsame.
  - assert (Hslot : slot_of tb1 key = slot_of tb key) by reflexivity.
    exists (half_ptr b tb (Z.of_nat (slot_of tb key))),
      (half_bucket b (Z.of_nat (slot_of tb key))).
    destruct (slot_of_spec tb key HI) as [Hsk Hsklt].
    split; [|split; [apply Hhalf|split; [reflexivity|]]].
    + rewrite Hslot, Hdir, Hp. simpl. rewrite decide_True; [reflexivity|].
      now apply (Hshare _ Hsklt).
    + intros k Hk. now apply (half_bucket_keys b _ Hnd) in Hk as [Hk _].
Qed.


Lemma split_bucket_spec (tb tb1 : t) (key : Z) (p : nat) (b : Bucket) :
  Inv tb ->
  directory tb !! slot_of tb key = Some p ->
  buckets tb !! p = Some b ->
  split_bucket HashKey key b tb = Done tb1 ->
  Inv tb1 /\
  (forall k, content tb1 k = content tb k) /\
  exists p' b',
    directory tb1 !! slot_of tb1 key = Some p' /\
    buckets tb1 !! p' = Some b' /\
    local_depth b' = local_depth b + 1 /\
    forall k, k ∈ (slots b').*1 -> k ∈ (slots b).*1.
Proof.
  intros HI Hp Hb Hrun. unfold split_bucket in Hrun.
  destruct (global_depth tb <? local_depth b) eqn:Hle; [discriminate|].
  apply Z.ltb_ge in Hle.
  set (tb0 := if local_depth b =? global_depth tb then expand tb else tb) in *.
  replace (local_depth b + 1 - 1) with (local_depth b) in Hrun by lia.
  destruct (shl1 (local_depth b)) as [mask| |] eqn:Hmask; try discriminate.
  apply shl1_Done in Hmask as [Hd ->]. simpl in Hrun. injection Hrun as <-.
  change (mk _ _ _ _) with (after_split key b tb0).
  assert (H0 : Inv tb0 /\ (forall k, content tb0 k = content tb k) /\
               directory tb0 !! slot_of tb0 key = Some p /\
               buckets tb0 !! p = Some b /\ local_depth b < global_depth tb0).
  { unfold tb0. destruct (Z.eqb_spec (local_depth b) (global_depth tb)) as [Heq|Hne].
    - split; [now apply expand_Inv|]. split; [intros k; now apply expand_content|].
      split; [now rewrite expand_slot|]. split; [exact Hb|]. cbn. lia.
    - split; [exact HI|]. split; [reflexivity|]. split; [exact Hp|].
      split; [exact Hb|]. lia. }
  destruct H0 as (HI0 & Hc0 & Hp0 & Hb0 & Hlt0).
  destruct (split_step tb0 key p b HI0 Hp0 Hb0 Hlt0) as (HI1 & Hc1 & Hnext).
  split; [exact HI1|]. split; [|exact Hnext].
  intros k. now rewrite Hc1, Hc0.
Qed.

Lemma split_bucket_fuel (tb : t) (key : Z) (b : Bucket) :
  split_bucket HashKey key b tb <> OutOfFuel.
Proof.
  unfold split_bucket. destruct (_ <? _); [discriminate|].
  unfold shl1. destruct (_ && _); discriminate.
Qed.

Lemma GetBucketIndex_fuel (tb : t) (key : Z) :
  GetBucketIndex HashKey tb key <> OutOfFuel.
Proof. unfold GetBucketIndex, shl1. destruct (_ && _); discriminate. Qed.

(** What the while loop of Insert leaves. *)
Lemma split_loop_spec (key : Z) (fuel : nat) :
  forall (tb tb' : t) (p p' : nat),
    Inv tb -> global_depth tb < 31 ->
    directory tb !! slot_of tb key = Some p ->
    (forall b, buckets tb !! p = Some b -> key ∉ (slots b).*1) ->
    split_loop HashKey bucket_size fuel key p tb = Done (p', tb') ->
    Inv tb' /\ global_depth tb' < 31 /\
    (forall k, content tb' k = content tb k) /\
    directory tb' !! slot_of tb' key = Some p' /\
    exists b', buckets tb' !! p' = Some b' /\ (key ∉ (slots b').*1) /\
      (length (slots b') < bucket_size)%nat.
Proof.
  induction fuel as [|fuel IH]; intros tb tb' p p' HI Hgd Hp Hkey Hrun; [discriminate|].
  cbn [split_loop] in Hrun.
  destruct (buckets tb !! p) as [b|] eqn:Hb; [|discriminate].
  destruct (Nat.leb_spec bucket_size (length (slots b))) as [Hfull|Hroom].
  - destruct (split_bucket HashKey key b tb) as [tb1| |] eqn:Hsplit; try discriminate.
    destruct (split_bucket_spec tb tb1 key p b HI Hp Hb Hsplit)
      as (HI1 & Hc1 & p1 & b1 & Hp1 & Hb1 & Hld1 & Hsub).
    rewrite BPlusTree.bind_Done in Hrun.
    destruct (GetBucketIndex HashKey tb1 key) as [i| |] eqn:Hidx; try discriminate.
    apply GetBucketIndex_Done in Hidx as [Hgd1 ->].
    rewrite BPlusTree.bind_Done in Hrun. unfold bucket_at in Hrun.
    rewrite Hp1, Hb1, BPlusTree.bind_Done in Hrun.
    destruct (IH tb1 tb' p1 p' HI1 ltac:(lia) Hp1) as (HI' & Hgd' & Hc' & Hp' & Hb');
      [|exact Hrun|].
    + intros b0 Hb0. rewrite Hb1 in Hb0. injection Hb0 as <-.
      intros Hin. apply (Hkey b eq_refl). now apply Hsub.
    + split; [exact HI'|]. split; [exact Hgd'|]. split; [|split; [exact Hp'|exact Hb']].
      intros k. now rewrite Hc', Hc1.
  - injection Hrun as <- <-. split; [exact HI|]. split; [exact Hgd|].
    split; [reflexivity|]. split; [exact Hp|]. exists b. auto.
Qed.

(** The loop splits at most until the local depth reaches the width of an
    [int]. *)
Lemma split_loop_fuel (key : Z) (fuel : nat) :
  forall (tb : t) (p : nat) (b : Bucket),
    Inv tb -> global_depth tb < 31 ->
    directory tb !! slot_of tb key = Some p ->
    buckets tb !! p = Some b ->
    31 - local_depth b < Z.of_nat fuel ->
    split_loop HashKey bucket_size fuel key p tb <> OutOfFuel.
Proof.
  induction fuel as [|fuel IH]; intros tb p b HI Hgd Hp Hb Hfuel.
  - destruct (inv_bucket _ HI _ _ Hp) as (b0 & Hb0 & Hld & _).
    rewrite Hb in Hb0. injection Hb0 as <-. lia.
  - cbn [split_loop]. rewrite Hb.
    destruct (_ <=? _)%nat; [|discriminate].
    destruct (split_bucket HashKey key b tb) as [tb1| |] eqn:Hsplit;
      [|discriminate|now apply split_bucket_fuel in Hsplit].
    destruct (split_bucket_spec tb tb1 key p b HI Hp Hb Hsplit)
      as (HI1 & Hc1 & p1 & b1 & Hp1 & Hb1 & Hld1 & Hsub).
    rewrite BPlusTree.bind_Done.
    destruct (GetBucketIndex HashKey tb1 key) as [i| |] eqn:Hidx;
      [|discriminate|now apply GetBucketIndex_fuel in Hidx].
    apply GetBucketIndex_Done in Hidx as [Hgd1 ->].
    rewrite BPlusTree.bind_Done. unfold bucket_at.
    rewrite Hp1, Hb1, BPlusTree.bind_Done.
    apply (IH tb1 p1 b1 HI1 ltac:(lia) Hp1 Hb1). lia.
Qed.


Lemma create_Inv : Inv create.
Proof.
  constructor; cbn.
  - lia.
  - reflexivity.
  - intros p Hp. apply list_elem_of_singleton in Hp. lia.
  - intros [|i] p Hp; [|discriminate]. injection Hp as <-.
    exists (mkBucket 0 []). split; [reflexivity|]. cbn.
    split; [lia|]. split; [constructor|]. split.
    + intros k Hk. now apply elem_of_nil in Hk.
    + intros [|j] Hj; [|lia]. split; [reflexivity|reflexivity].
Qed.

Lemma bucket_at_slot (tb : t) (key : Z) (p : nat) (b : Bucket) :
  directory tb !! slot_of tb key = Some p -> buckets tb !! p = Some b ->
  bucket_at tb (slot_of tb key) = Done (p, b).
Proof. intros Hp Hb. unfold bucket_at. now rewrite Hp, Hb. Qed.

(** Find in a table whose bucket for [key] has new slots. *)
Lemma Find_set_bucket (tb : t) (key : Z) (p : nat) (b : Bucket) (s : list (Z * Z)) :
  global_depth tb < 31 -> 0 <= global_depth tb ->
  directory tb !! slot_of tb key = Some p ->
  buckets tb !! p = Some b ->
  (forall k, k <> key -> find_slot k s = find_slot k (slots b)) ->
  let tb' := set_bucket p (mkBucket (local_depth b) s) tb in
  Find HashKey tb' key = Done (find_slot key s) /\
  forall k, k <> key -> Find HashKey tb' k = Find HashKey tb k.
Proof.
  intros Hgd Hd Hp Hb Hsame tb'.
  destruct (set_bucket_content tb key p b (mkBucket (local_depth b) s) Hp Hb)
    as [Hkey Hothers].
  split.
  - rewrite Find_content by (cbn; lia). fold tb'. unfold tb'. now rewrite Hkey.
  - intros k Hk. rewrite !Find_content by (cbn; lia). unfold tb'.
    rewrite (Hothers k); [reflexivity|]. cbn [slots]. now apply Hsame.
Qed.

Lemma Insert_unfold (tb : t) (key value : Z) (p : nat) (b : Bucket) (fuel : nat) :
  0 <= global_depth tb < 31 ->
  directory tb !! slot_of tb key = Some p ->
  buckets tb !! p = Some b ->
  Insert HashKey bucket_size fuel tb key value
  = match replace_slot key value (slots b) with
    | Some s => Done (set_bucket p (mkBucket (local_depth b) s) tb)
    | None =>
        split_loop HashKey bucket_size fuel key p tb ≫=
          fun '(p, tb) =>
            match buckets tb !! p with
            | Some bucket =>
                Done (set_bucket p (mkBucket (local_depth bucket)
                                      (slots bucket ++ [(key, value)])) tb)
            | None => Undefined
            end
    end.
Proof.
  intros Hgd Hp Hb. unfold Insert. rewrite GetBucketIndex_slot by lia.
  rewrite BPlusTree.bind_Done, (bucket_at_slot tb key p b Hp Hb).
  now rewrite BPlusTree.bind_Done.
Qed.

(** Insert keeps the table sound and changes what Find gives for its key
    only. *)
Lemma Insert_sound (tb tb' : t) (key value : Z) (fuel : nat) :
  Inv tb -> global_depth tb < 31 ->
  Insert HashKey bucket_size fuel tb key value = Done tb' ->
  Inv tb' /\ global_depth tb' < 31 /\
  Find HashKey tb' key = Done (Some value) /\
  forall k, k <> key -> Find HashKey tb' k = Find HashKey tb k.
Proof.
  intros HI Hgd Hrun. pose proof (inv_depth _ HI) as Hd.
  destruct (Inv_bucket_of tb key HI) as (p & b & Hp & Hb & Hld & Hnd & Hshare).
  rewrite (Insert_unfold tb key value p b fuel ltac:(lia) Hp Hb) in Hrun.
  destruct (replace_slot key value (slots b)) as [s|] eqn:Hrep.
  + injection Hrun as <-.
    destruct (replace_slot_Some key value _ _ Hrep) as [Hkeys Hfind].
    split; [|split; [exact Hgd|]].
    * apply (set_bucket_Inv tb key p b s HI Hp Hb).
      -- now rewrite Hkeys.
      -- intros k Hk. left. now rewrite <- Hkeys.
    * destruct (Find_set_bucket tb key p b s Hgd Hd Hp Hb) as [Hkey Hothers].
      { intros k Hk. rewrite Hfind.
        now replace (key =? k) with false by (symmetry; apply Z.eqb_neq; congruence). }
      split; [|exact Hothers]. rewrite Hkey, Hfind. now rewrite Z.eqb_refl.
  + apply replace_slot_None, find_slot_None in Hrep.
    destruct (split_loop HashKey bucket_size fuel key p tb) as [[p1 tb1]| |] eqn:Hloop;
      try discriminate.
    rewrite BPlusTree.bind_Done in Hrun.
    destruct (split_loop_spec key fuel tb tb1 p p1 HI Hgd Hp) as
      (HI1 & Hgd1 & Hc1 & Hp1 & b1 & Hb1 & Hkey1 & Hroom1); [|exact Hloop|].
    { intros b0 Hb0. rewrite Hb in Hb0. now injection Hb0 as <-. }
    rewrite Hb1 in Hrun. injection Hrun as <-.
    pose proof (inv_depth _ HI1) as Hd1.
    destruct (inv_bucket _ HI1 _ _ Hp1) as (b1' & Hb1' & _ & Hnd1 & _).
    rewrite Hb1 in Hb1'. injection Hb1' as <-.
    split; [|split; [exact Hgd1|]].
    * apply (set_bucket_Inv tb1 key p1 b1 _ HI1 Hp1 Hb1).
      -- rewrite fmap_app. apply NoDup_app. split; [exact Hnd1|]. split.
         ++ intros k Hk Hk'. cbn in Hk'. apply list_elem_of_singleton in Hk'. congruence.
         ++ cbn. apply NoDup_singleton.
      -- intros k Hk. rewrite fmap_app in Hk. apply elem_of_app in Hk as [Hk|Hk];
           [now left|right]. cbn in Hk. now apply list_elem_of_singleton in Hk.
    * destruct (Find_set_bucket tb1 key p1 b1 (slots b1 ++ [(key, value)])
                  Hgd1 Hd1 Hp1 Hb1) as [Hkey Hothers].
      { intros k Hk. rewrite find_slot_app_new.
        destruct (find_slot k (slots b1)); [reflexivity|].
        now replace (key =? k) with false by (symmetry; apply Z.eqb_neq; congruence). }
      split.
      -- rewrite Hkey, find_slot_app_new.
         apply find_slot_None in Hkey1. now rewrite Hkey1, Z.eqb_refl.
      -- intros k Hk. rewrite (Hothers k Hk).
         rewrite !Find_content by lia. now rewrite Hc1.
Qed.

(** X22: Insert on a sound extendible hash table (directory of
    2^global_depth slots, every bucket shared by the slots that agree on its
    local_depth low bits and holding only keys with these low hash bits,
    global_depth below 31).  Whenever Insert(key, value) returns, the table
    is sound again, Find(key) gives value and Find of every other key gives
    what it gave before, however many buckets were split and however often
    the directory was doubled.  The split loop takes at most 31 turns; and
    when the key is already stored or its bucket has a free slot, Insert
    returns without touching the directory. *)
Theorem hash_Insert_then_Find (tb : t) (key value : Z) :
  Inv tb -> global_depth tb < 31 ->
  (forall fuel, (32 <= fuel)%nat ->
     Insert HashKey bucket_size fuel tb key value <> OutOfFuel) /\
  (forall fuel tb',
     Insert HashKey bucket_size fuel tb key value = Done tb' ->
     Inv tb' /\ global_depth tb' < 31 /\
     Find HashKey tb' key = Done (Some value) /\
     forall k, k <> key -> Find HashKey tb' k = Find HashKey tb k) /\
  (forall i p b,
     GetBucketIndex HashKey tb key = Done i -> bucket_at tb i = Done (p, b) ->
     key ∈ (slots b).*1 \/ (length (slots b) < bucket_size)%nat ->
     forall fuel, (1 <= fuel)%nat ->
       exists tb', Insert HashKey bucket_size fuel tb key value = Done tb' /\
         directory tb' = directory tb /\ global_depth tb' = global_depth tb).
Proof.
  intros HI Hgd. pose proof (inv_depth _ HI) as Hd.
  destruct (Inv_bucket_of tb key HI) as (p & b & Hp & Hb & Hld & Hnd & Hshare).
  pose proof (fun fuel => Insert_unfold tb key value p b fuel ltac:(lia) Hp Hb) as Hstart.
  split; [|split].
  - intros fuel Hfuel. rewrite Hstart.
    destruct (replace_slot key value (slots b)); [discriminate|].
    pose proof (split_loop_fuel key fuel tb p b HI Hgd Hp Hb ltac:(lia)) as Hloop.
    destruct (split_loop HashKey bucket_size fuel key p tb) as [[p1 tb1]| |];
      [|discriminate|contradiction].
    rewrite BPlusTree.bind_Done. destruct (buckets tb1 !! p1); discriminate.
  - intros fuel tb' Hrun. exact (Insert_sound tb tb' key value fuel HI Hgd Hrun).
  - intros i p0 b0 Hidx Hat Hcase fuel Hfuel.
    apply GetBucketIndex_Done in Hidx as [_ ->].
    rewrite (bucket_at_slot tb key p b Hp Hb) in Hat. injection Hat as <- <-.
    rewrite Hstart.
    destruct (replace_slot key value (slots b)) as [s|] eqn:Hrep.
    + eexists. split; [reflexivity|]. split; reflexivity.
    + apply replace_slot_None, find_slot_None in Hrep.
      destruct Hcase as [Hin|Hroom]; [contradiction|].
      destruct fuel as [|fuel]; [lia|]. cbn [split_loop]. rewrite Hb.
      replace (bucket_size <=? length (slots b))%nat with false
        by (symmetry; apply Nat.leb_gt; lia).
      rewrite BPlusTree.bind_Done, Hb.
      eexists. split; [reflexivity|]. split; reflexivity.
Qed.

(** Remove returns, keeps the table sound and takes the key out. *)
Lemma Remove_sound (tb : t) (key : Z) :
  Inv tb -> global_depth tb < 31 ->
  exists r tb',
    Remove HashKey tb key = Done (r, tb') /\
    Inv tb' /\ global_depth tb' = global_depth tb /\ directory tb' = directory tb /\
    (forall q, local_depth <$> buckets tb' !! q = local_depth <$> buckets tb !! q) /\
    (r = true <-> exists v, Find HashKey tb key = Done (Some v)) /\
    Find HashKey tb' key = Done None /\
    forall k, k <> key -> Find HashKey tb' k = Find HashKey tb k.
Proof.
  intros HI Hgd. pose proof (inv_depth _ HI) as Hd.
  destruct (Inv_bucket_of tb key HI) as (p & b & Hp & Hb & Hld & Hnd & Hshare).
  assert (Hfind : Find HashKey tb key = Done (find_slot key (slots b))).
  { rewrite Find_content by lia. unfold content. rewrite Hp. simpl. now rewrite Hb. }
  unfold Remove. rewrite GetBucketIndex_slot by lia.
  rewrite BPlusTree.bind_Done, (bucket_at_slot tb key p b Hp Hb), BPlusTree.bind_Done.
  destruct (erase_slot key (slots b)) as [s|] eqn:Herase.
  - destruct (erase_slot_Some key _ _ Herase Hnd) as (Hnd' & Hsub & Hfs).
    eexists true, _. split; [reflexivity|]. split.
    { apply (set_bucket_Inv tb key p b s HI Hp Hb Hnd'). intros k Hk. left. now apply Hsub. }
    split; [reflexivity|]. split; [reflexivity|]. split.
    { intros q. cbn [set_bucket buckets]. rewrite lookup_insert. case_decide; [|reflexivity].
      subst q. now rewrite Hb. }
    split.
    + split; [intros _|reflexivity]. rewrite Hfind.
      destruct (find_slot key (slots b)) as [v|] eqn:Hv; [eauto|].
      apply erase_slot_None in Hv. congruence.
    + destruct (Find_set_bucket tb key p b s Hgd Hd Hp Hb) as [Hkey Hothers].
      { intros k Hk. rewrite Hfs.
        now replace (key =? k) with false by (symmetry; apply Z.eqb_neq; congruence). }
      split; [|exact Hothers]. rewrite Hkey, Hfs. now rewrite Z.eqb_refl.
  - apply erase_slot_None in Herase.
    exists false, tb. split; [reflexivity|]. split; [exact HI|].
    split; [reflexivity|]. split; [reflexivity|]. split; [reflexivity|]. split.
    + split; [discriminate|]. intros [v Hv]. rewrite Hfind, Herase in Hv. discriminate.
    + split; [now rewrite Hfind, Herase|reflexivity].
Qed.

(** X23: Remove on a sound extendible hash table returns; it returns true
    exactly when Find found the key, and afterwards Find does not find the
    key and finds every other key as before.  The directory and the depths
    stay as they are, as GetGlobalDepth, GetNumBuckets and GetLocalDepth
    report: buckets are never merged. *)
Theorem hash_Remove_then_Find (tb : t) (key : Z) :
  Inv tb -> global_depth tb < 31 ->
  exists r tb',
    Remove HashKey tb key = Done (r, tb') /\
    Inv tb' /\
    (r = true <-> exists v, Find HashKey tb key = Done (Some v)) /\
    Find HashKey tb' key = Done None /\
    (forall k, k <> key -> Find HashKey tb' k = Find HashKey tb k) /\
    GetGlobalDepth tb' = GetGlobalDepth tb /\
    GetNumBuckets tb' = GetNumBuckets tb /\
    forall bucket_id, GetLocalDepth tb' bucket_id = GetLocalDepth tb bucket_id.
Proof.
  intros HI Hgd.
  destruct (Remove_sound tb key HI Hgd)
    as (r & tb' & Hrun & HI' & Hgd' & Hdir & Hld & Hr & Hkey & Hothers).
  exists r, tb'. split; [exact Hrun|]. split; [exact HI'|]. split; [exact Hr|].
  split; [exact Hkey|]. split; [exact Hothers|]. split; [exact Hgd'|].
  split; [unfold GetNumBuckets; now rewrite Hdir|].
  intros bucket_id. unfold GetLocalDepth, bucket_at. rewrite Hdir.
  destruct (_ && _); [|reflexivity].
  destruct (directory tb !! Z.to_nat bucket_id) as [q|]; [|reflexivity].
  specialize (Hld q).
  destruct (buckets tb' !! q) as [b'|], (buckets tb !! q) as [b|]; try discriminate;
    [|reflexivity].
  simpl in *. now injection Hld as ->.
Qed.


(** *** Sequences of calls *)

Inductive op :=
| OpInsert (key value : Z)
| OpRemove (key : Z).

Definition apply_op (fuel : nat) (tb : t) (o : op) : outcome t :=
  match o with
  | OpInsert key value => Insert HashKey bucket_size fuel tb key value
  | OpRemove key => '(_, tb) ← Remove HashKey tb key; Done tb
  end.

Fixpoint run (fuel : nat) (ops : list op) (tb : t) : outcome t :=
  match ops with
  | [] => Done tb
  | o :: ops => tb ← apply_op fuel tb o; run fuel ops tb
  end.

(** The finite map the calls describe. *)
Fixpoint model (ops : list op) (m : gmap Z Z) : gmap Z Z :=
  match ops with
  | [] => m
  | OpInsert key value :: ops => model ops (<[key := value]> m)
  | OpRemove key :: ops => model ops (delete key m)
  end.

Lemma run_model (fuel : nat) (ops : list op) :
  forall (tb tb' : t) (m : gmap Z Z),
    Inv tb -> global_depth tb < 31 ->
    (forall k, Find HashKey tb k = Done (m !! k)) ->
    run fuel ops tb = Done tb' ->
    Inv tb' /\ global_depth tb' < 31 /\
    forall k, Find HashKey tb' k = Done (model ops m !! k).
Proof.
  induction ops as [|o ops IH]; intros tb tb' m HI Hgd Hm Hrun.
  - injection Hrun as <-. auto.
  - cbn [run] in Hrun. destruct o as [key value|key]; cbn [apply_op model] in *.
    + destruct (Insert HashKey bucket_size fuel tb key value) as [tb1| |] eqn:Hins;
        try discriminate.
      destruct (Insert_sound tb tb1 key value fuel HI Hgd Hins) as (HI1 & Hgd1 & Hk & Ho).
      apply (IH tb1 tb' _ HI1 Hgd1); [|exact Hrun].
      intros k. destruct (decide (k = key)) as [->|Hne].
      * now rewrite Hk, lookup_insert_eq.
      * now rewrite (Ho k Hne), lookup_insert_ne by congruence.
    + destruct (Remove_sound tb key HI Hgd)
        as (r & tb1 & Hrem & HI1 & Hgd1 & _ & _ & _ & Hk & Ho).
      rewrite Hrem in Hrun. cbn in Hrun.
      apply (IH tb1 tb' _ HI1 ltac:(lia)); [|exact Hrun].
      intros k. destruct (decide (k = key)) as [->|Hne].
      * now rewrite Hk, lookup_delete_eq.
      * now rewrite (Ho k Hne), lookup_delete_ne by congruence.
Qed.

(** X24: the table is a finite map.  After any sequence of Insert and
    Remove calls on a new table that all return, Find(k) gives, for every
    key k, the value of the last Insert(k, _) that no Remove(k) followed,
    and nothing when there is none; the directory then has 2^global_depth
    slots, as GetNumBuckets and GetGlobalDepth report. *)
Theorem hash_table_is_a_map (fuel : nat) (ops : list op) (tb : t) :
  run fuel ops create = Done tb ->
  (forall k, Find HashKey tb k = Done (model ops ∅ !! k)) /\
  GetNumBuckets tb = 2 ^ GetGlobalDepth tb.
Proof.
  intros Hrun.
  destruct (run_model fuel ops create tb ∅ create_Inv) as (HI & _ & Hfind);
    [cbn; lia| |exact Hrun|].
  - intros k. rewrite Find_content by (cbn; lia). unfold content, slot_of. cbn.
    rewrite Z.mod_1_r. cbn. now rewrite lookup_empty.
  - split; [exact Hfind|]. exact (inv_size _ HI).
Qed.

End TableFacts.


(** *** A table with the identity as hash function and two slots per
    bucket *)

Definition one_entry : t := mk 0 [0%nat] {[0%nat := mkBucket 0 [(5, 50)]]} 1.

Lemma one_entry_Inv : Inv (fun k => k) one_entry.
Proof.
  assert (Hrun : Insert (fun k => k) 2 1 create 5 50 = Done one_entry)
    by (vm_compute; reflexivity).
  apply (Insert_sound (fun k => k) 2 create one_entry 5 50 1 (create_Inv _)
           ltac:(cbn; lia) Hrun).
Qed.

Lemma hash_Insert_then_Find_witness :
  exists tb',
    Insert (fun k => k) 2 32 one_entry 7 70 = Done tb' /\
    Find (fun k => k) tb' 7 = Done (Some 70) /\
    Find (fun k => k) tb' 5 = Find (fun k => k) one_entry 5.
Proof.
  destruct (hash_Insert_then_Find (fun k => k) 2 one_entry 7 70 one_entry_Inv
              ltac:(cbn; lia)) as (_ & Hsound & Hroom).
  destruct (Hroom 0%nat 0%nat (mkBucket 0 [(5, 50)]) eq_refl eq_refl
              ltac:(right; cbn; lia) 32%nat ltac:(lia)) as (tb' & Hrun & _).
  exists tb'. split; [exact Hrun|].
  destruct (Hsound 32%nat tb' Hrun) as (_ & _ & Hkey & Hothers).
  split; [exact Hkey|]. apply Hothers. lia.
Defined.

Lemma hash_Remove_then_Find_witness :
  exists tb',
    Remove (fun k => k) one_entry 5 = Done (true, tb') /\
    Find (fun k => k) tb' 5 = Done None.
Proof.
  destruct (hash_Remove_then_Find (fun k => k) one_entry 5 one_entry_Inv ltac:(cbn; lia))
    as (r & tb' & Hrun & _ & Hr & Hgone & _).
  assert (r = true) as ->.
  { apply Hr. exists 50. vm_compute. reflexivity. }
  exists tb'. split; [exact Hrun|exact Hgone].
Defined.

(** Five calls; the third Insert finds its bucket full and splits it. *)
Definition five_calls : list op :=
  [OpInsert 1 10; OpInsert 2 20; OpInsert 3 30; OpRemove 2; OpInsert 5 50].

Lemma hash_table_is_a_map_witness :
  exists tb,
    run (fun k => k) 2 32 five_calls create = Done tb /\
    Find (fun k => k) tb 3 = Done (Some 30) /\
    Find (fun k => k) tb 2 = Done None /\
    1 <= GetGlobalDepth tb.
Proof.
  assert (Hdone : exists tb, run (fun k => k) 2 32 five_calls create = Done tb /\
                    1 <= GetGlobalDepth tb).
  { vm_compute. eexists. split; [reflexivity|]. cbn. discriminate. }
  destruct Hdone as (tb & Hrun & Hdepth).
  destruct (hash_table_is_a_map (fun k => k) 2 32 five_calls tb Hrun) as [Hfind _].
  exists tb. split; [exact Hrun|]. rewrite !Hfind.
  split; [reflexivity|]. split; [reflexivity|exact Hdepth].
Defined.

End ExtendibleHash.
